(** * CGraph: distance-matrix graphs with cached Dijkstra trees

    A shallow embedding of [src/CGraph.cpp], and of the one function of
    [src/CSVRow.cpp].  The C++ class [CGraph] keeps a square
    matrix of [double] distances, a derived adjacency matrix, two label
    translations and a growing cache of single-source shortest-path trees.

    Modelling choices.
    - [double] is Rocq's primitive binary64 float, with the IEEE comparisons
      and the rounded addition the C++ operators denote.
    - [unsigned int] and [size_t] values are [N]; a conversion to
      [unsigned int] is written out as a reduction modulo 2^32, arithmetic
      on [size_t] as a reduction modulo 2^64.
    - [std::vector] is [list]; [operator[]] outside the vector is undefined
      behaviour in C++ and is the outcome [Raise OutOfBounds] here, while
      [at] outside the container throws and is [Raise std_out_of_range].
    - [std::map] is stdpp's [gmap].
    - A member function is a function from the object to an outcome that
      carries the object as the call leaves it; the constructor returns the
      object.  A call returns, throws, runs outside a vector, or does not
      end.
    - The two [while] loops take fuel, one round per vertex.  The fuel is
      shown to be enough: the loop of [InternalDijkstra] never uses it up on
      a well-formed graph, and a walk to the root that arrives with any fuel
      arrives with this one.
    - A character stream is the list of the characters not yet read with
      its [eofbit] and [failbit]; [std::getline] is written out as the C++
      standard describes it, and a [std::string] is a list of characters.
      The loop of [CSVRow::readNextRow] takes fuel too, which is shown to be
      enough for every line. *)

From Stdlib Require Import NArith ZArith PArith List Bool Lia Ascii.
From Stdlib Require Import Floats.
From stdpp Require Import base option list gmap.

Local Open Scope N_scope.

(** ** Outcomes of a call *)

(** Modelled from the spec: the exception structs are declared in CGraph.h,
    which is not part of the sources; one constructor per struct thrown in
    CGraph.cpp, plus the library's [std::out_of_range], plus the marker for
    an [operator[]] access outside a vector. *)
Inductive failure : Type :=
| InputDistMat_MatrixTooLarge
| InputDistMat_NotSquareMatrix
| InputDistMat_InvalidElements
| InputVertexLabels_BadSize
| InputVertexLabels_RepeatedLabel
| Dijkstra_InvalidStartVertex (v : N)
| InternalException
| std_out_of_range
| OutOfBounds.

Inductive outcome (A : Type) : Type :=
| Ok (a : A)
| Raise (f : failure)
| Diverge.

Arguments Ok {A} a.
Arguments Raise {A} f.
Arguments Diverge {A}.

Definition bind {A B : Type} (c : outcome A) (k : A -> outcome B) : outcome B :=
  match c with
  | Ok a => k a
  | Raise f => Raise f
  | Diverge => Diverge
  end.

Notation "'do' x <- c ; k" := (bind c (fun x => k))
  (at level 10, x pattern, c at level 100, k at level 200).

Definition omap {A B : Type} (f : A -> B) (c : outcome A) : outcome B :=
  do a <- c; Ok (f a).

(** C++ [a && b] and [a || b]: the right operand is evaluated only when the
    left one does not decide. *)
Definition and_then (a : outcome bool) (b : outcome bool) : outcome bool :=
  do x <- a; if x then b else Ok false.

Definition or_else (a : outcome bool) (b : outcome bool) : outcome bool :=
  do x <- a; if x then Ok true else b.

(** ** Machine integers and vectors *)

Definition max_unsignedInt : N := 4294967295.
Definition to_unsigned (n : N) : N := n mod 4294967296.
Definition size_t_modulus : N := 18446744073709551616.

(** [(unsigned int)-1] *)
Definition minus_one_u : N := max_unsignedInt.

Definition vec_size {A : Type} (v : list A) : N := N.of_nat (length v).

Fixpoint nth_N {A : Type} (v : list A) (i : N) : option A :=
  match v with
  | [] => None
  | x :: v' => if i =? 0 then Some x else nth_N v' (N.pred i)
  end.

Fixpoint set_N {A : Type} (v : list A) (i : N) (x : A) : option (list A) :=
  match v with
  | [] => None
  | y :: v' =>
      if i =? 0 then Some (x :: v')
      else match set_N v' (N.pred i) x with
           | Some w => Some (y :: w)
           | None => None
           end
  end.

(** [v[i]] read *)
Definition vec_get {A : Type} (v : list A) (i : N) : outcome A :=
  match nth_N v i with
  | Some x => Ok x
  | None => Raise OutOfBounds
  end.

(** [v[i] = x] *)
Definition vec_set {A : Type} (v : list A) (i : N) (x : A) : outcome (list A) :=
  match set_N v i x with
  | Some w => Ok w
  | None => Raise OutOfBounds
  end.

(** [v.at(i)] *)
Definition vec_at {A : Type} (v : list A) (i : N) : outcome A :=
  match nth_N v i with
  | Some x => Ok x
  | None => Raise std_out_of_range
  end.

(** [m[i][j]] read and [m[i][j] = x] *)
Definition mat_get {A : Type} (m : list (list A)) (i j : N) : outcome A :=
  do row <- vec_get m i; vec_get row j.

Definition mat_set {A : Type} (m : list (list A)) (i j : N) (x : A)
  : outcome (list (list A)) :=
  do row <- vec_get m i;
  do row' <- vec_set row j x;
  vec_set m i row'.

(** [vector<T>(n, x)] *)
Definition vec_fill {A : Type} (n : N) (x : A) : list A := replicate (N.to_nat n) x.

(** [for (unsigned int i = from; i < from + n; ++i) body], threading the
    variables the body assigns. *)
Fixpoint for_loop {S : Type} (n : nat) (i : N) (body : N -> S -> outcome S) (s : S)
  : outcome S :=
  match n with
  | O => Ok s
  | Datatypes.S n' => do s' <- body i s; for_loop n' (N.succ i) body s'
  end.

Definition for_upto {S : Type} (bound : N) (body : N -> S -> outcome S) (s : S)
  : outcome S :=
  for_loop (N.to_nat bound) 0 body s.

(** The same loop when the body may [return] from the enclosing function:
    [inr r] is the early return, [inl s] the fall-through. *)
Fixpoint for_loop_ret {S R : Type} (n : nat) (i : N)
    (body : N -> S -> outcome (S + R)) (s : S) : outcome (S + R) :=
  match n with
  | O => Ok (inl s)
  | Datatypes.S n' =>
      do r <- body i s;
      match r with
      | inl s' => for_loop_ret n' (N.succ i) body s'
      | inr x => Ok (inr x)
      end
  end.

Definition for_upto_ret {S R : Type} (bound : N)
    (body : N -> S -> outcome (S + R)) (s : S) : outcome (S + R) :=
  for_loop_ret (N.to_nat bound) 0 body s.

(** ** The [double] tests the source writes *)

Definition minus_one : float := (-1)%float.

(** [x >= 0] *)
Definition ge_zero (x : float) : bool := PrimFloat.leb 0%float x.
(** [x == -1] and [x != -1] *)
Definition is_minus_one (x : float) : bool := PrimFloat.eqb x minus_one.
Definition not_minus_one (x : float) : bool := negb (is_minus_one x).
(** [x < 0 && x != -1] *)
Definition invalid_element (x : float) : bool :=
  PrimFloat.ltb x 0%float && not_minus_one x.

(** ** Input validation: [CGraph::CheckInput_DistMat] *)

(** Modelled from the spec: the enumeration [CGraph_DistMatCheckResult] is
    declared in CGraph.h, which is not part of the sources; its enumerators
    are the ones CGraph.cpp names. *)
Inductive CGraph_DistMatCheckResult : Type :=
| undefined
| tooLarge
| badShape
| invalidElements
| square
| lowerTriangular
| upperTriangular.

Definition is_square (s : CGraph_DistMatCheckResult) : bool :=
  match s with square => true | _ => false end.
Definition is_lowerTriangular (s : CGraph_DistMatCheckResult) : bool :=
  match s with lowerTriangular => true | _ => false end.
Definition is_upperTriangular (s : CGraph_DistMatCheckResult) : bool :=
  match s with upperTriangular => true | _ => false end.

(** The verdicts on which the constructor throws. *)
Definition is_rejection (s : CGraph_DistMatCheckResult) : Prop :=
  s = tooLarge \/ s = badShape \/ s = invalidElements.

(** [distanceMatrix[i].size()] *)
Definition row_size (distanceMatrix : list (list float)) (i : N) : outcome N :=
  do row <- vec_get distanceMatrix i; Ok (vec_size row).

(** Lines 444-452: the shape is guessed from rows 0 and 1. *)
Definition guess_shape (m_Order : N) (distanceMatrix : list (list float))
  : outcome CGraph_DistMatCheckResult :=
  do sq <- and_then (do r0 <- row_size distanceMatrix 0; Ok (r0 =? m_Order))
                    (do r1 <- row_size distanceMatrix 1; Ok (r1 =? m_Order));
  if sq then Ok square else
  do lo <- and_then (do r0 <- row_size distanceMatrix 0; Ok (r0 =? 1))
                    (do r1 <- row_size distanceMatrix 1; Ok (r1 =? 2));
  if lo then Ok lowerTriangular else
  do up <- and_then (do r0 <- row_size distanceMatrix 0; Ok (r0 =? m_Order))
                    (do r1 <- row_size distanceMatrix 1;
                     Ok (r1 =? to_unsigned (m_Order + 4294967296 - 1)));
  if up then Ok upperTriangular else Ok badShape.

(** Lines 455-469: one round of the loop that compares every row with the
    guessed shape. *)
Definition check_row (m_Order : N) (distanceMatrix : list (list float))
    (matrixShape : CGraph_DistMatCheckResult) (i : N) (_ : unit)
  : outcome (unit + CGraph_DistMatCheckResult) :=
  do sz <- row_size distanceMatrix i;
  if max_unsignedInt <? sz then Ok (inr tooLarge) else
  let rowLength := to_unsigned sz in
  if is_square matrixShape && negb (rowLength =? m_Order) then Ok (inr badShape) else
  do lo <- and_then (Ok (is_lowerTriangular matrixShape && (0 <? i)))
                    (do prev <- row_size distanceMatrix (i - 1);
                     Ok (negb (rowLength =? (prev + 1) mod size_t_modulus)));
  if lo then Ok (inr badShape) else
  do up <- and_then (Ok (is_upperTriangular matrixShape && (0 <? i)))
                    (do prev <- row_size distanceMatrix (i - 1);
                     Ok (negb (rowLength =? (prev + size_t_modulus - 1) mod size_t_modulus)));
  if up then Ok (inr badShape) else Ok (inl tt).

(** Lines 474-481: the element test, row by row. *)
Definition check_elements_row (distanceMatrix : list (list float)) (i : N) (_ : unit)
  : outcome (unit + CGraph_DistMatCheckResult) :=
  do n <- row_size distanceMatrix i;
  for_upto_ret n
    (fun j _ =>
       do x <- mat_get distanceMatrix i j;
       do y <- and_then (Ok (PrimFloat.ltb x 0%float))
                        (do x' <- mat_get distanceMatrix i j; Ok (not_minus_one x'));
       if y then Ok (inr invalidElements) else Ok (inl tt))
    tt.

Definition CheckInput_DistMat (m_Order : N) (distanceMatrix : list (list float))
  : outcome CGraph_DistMatCheckResult :=
  if max_unsignedInt <? vec_size distanceMatrix then Ok tooLarge else
  do matrixShape <- guess_shape m_Order distanceMatrix;
  match matrixShape with
  | badShape => Ok badShape
  | _ =>
      do r <- for_upto_ret m_Order (check_row m_Order distanceMatrix matrixShape) tt;
      match r with
      | inr res => Ok res
      | inl _ =>
          match matrixShape with
          | undefined => Raise InternalException
          | _ =>
              do r' <- for_upto_ret m_Order (check_elements_row distanceMatrix) tt;
              match r' with
              | inr res => Ok res
              | inl _ => Ok matrixShape
              end
          end
      end
  end.

(** ** The graph object *)

(** Modelled from the spec: the member variables are declared in CGraph.h,
    which is not part of the sources; their names and element types are
    the ones CGraph.cpp uses them at. *)
Record CGraph : Type := mkCGraph {
  m_Order : N;
  m_InternalToExternal : list N;
  m_ExternalToInternal : gmap N N;
  m_DistanceMatrix : list (list float);
  m_AdjacencyMatrix : list (list bool);
  m_DijkstraStartVertices : gmap N N;
  m_DijkstraOutputRoutes : list (list N);
  m_DijkstraShortestDistances : list (list float)
}.

(** Lines 55-65 and 68-78: a triangular input is copied into a square
    matrix; [mirror i j] tells when the entry is read at [j][i]. *)
Definition fill_square (m_Order : N) (distanceMatrix : list (list float))
    (mirror : N -> N -> bool) : outcome (list (list float)) :=
  for_upto m_Order
    (fun i m =>
       for_upto m_Order
         (fun j m =>
            if mirror i j
            then do x <- mat_get distanceMatrix j i; mat_set m i j x
            else do x <- mat_get distanceMatrix i j; mat_set m i j x)
         m)
    (vec_fill m_Order (vec_fill m_Order 0%float)).

(** Lines 50-82: the [switch] on the validator's verdict. *)
Definition normalise (m_Order : N) (distanceMatrix : list (list float))
    (distanceMatrixType : CGraph_DistMatCheckResult) : outcome (list (list float)) :=
  match distanceMatrixType with
  | tooLarge => Raise InputDistMat_MatrixTooLarge
  | badShape => Raise InputDistMat_NotSquareMatrix
  | invalidElements => Raise InputDistMat_InvalidElements
  | square => Ok distanceMatrix
  | lowerTriangular => fill_square m_Order distanceMatrix (fun i j => i <? j)
  | upperTriangular => fill_square m_Order distanceMatrix (fun i j => j <? i)
  | undefined => Raise InternalException
  end.

(** Lines 86-91: the label table. *)
Definition store_labels (m_Order : N) (vertexLabels : list N) : outcome (gmap N N) :=
  if negb (m_Order =? vec_size vertexLabels) then Raise InputVertexLabels_BadSize else
  do e2i <- for_upto (vec_size vertexLabels)
              (fun i (m : gmap N N) =>
                 do l <- vec_get vertexLabels i; Ok (<[l := i]> m))
              (∅ : gmap N N);
  if negb (m_Order =? N.of_nat (base.size e2i)) then Raise InputVertexLabels_RepeatedLabel
  else Ok e2i.

(** Lines 97-109: the adjacency matrix.  The test reads the constructor's
    argument [distanceMatrix], not the member [m_DistanceMatrix]. *)
Definition make_adjacency (m_Order : N) (distanceMatrix : list (list float))
  : outcome (list (list bool)) :=
  for_upto m_Order
    (fun i adj =>
       for_upto m_Order
         (fun j adj =>
            do c <- and_then (do x <- mat_get distanceMatrix i j; Ok (ge_zero x))
                             (Ok (negb (i =? j)));
            if c then mat_set adj i j true else Ok adj)
         adj)
    (vec_fill m_Order (vec_fill m_Order false)).

(** [CGraph::CGraph(distanceMatrix, vertexLabels)] *)
Definition CGraph_new (distanceMatrix : list (list float)) (vertexLabels : list N)
  : outcome CGraph :=
  let order := to_unsigned (vec_size distanceMatrix) in
  do distanceMatrixType <- CheckInput_DistMat order distanceMatrix;
  do dm <- normalise order distanceMatrix distanceMatrixType;
  do e2i <- store_labels order vertexLabels;
  do adj <- make_adjacency order distanceMatrix;
  Ok {| m_Order := order;
        m_InternalToExternal := vertexLabels;
        m_ExternalToInternal := e2i;
        m_DistanceMatrix := dm;
        m_AdjacencyMatrix := adj;
        m_DijkstraStartVertices := ∅;
        m_DijkstraOutputRoutes := [];
        m_DijkstraShortestDistances := [] |}.

(** ** Label translation *)

Definition InternalToExternal (g : CGraph) (vertex : N) : outcome N :=
  vec_at (m_InternalToExternal g) vertex.

(** The overload that rewrites a whole vector in place. *)
Fixpoint InternalToExternal_all (g : CGraph) (vertices : list N) : outcome (list N) :=
  match vertices with
  | [] => Ok []
  | v :: rest =>
      do l <- vec_at (m_InternalToExternal g) v;
      do rest' <- InternalToExternal_all g rest;
      Ok (l :: rest')
  end.

(** [m_ExternalToInternal.at(vertex)] *)
Definition ExternalToInternal (g : CGraph) (vertex : N) : outcome N :=
  match m_ExternalToInternal g !! vertex with
  | Some i => Ok i
  | None => Raise std_out_of_range
  end.

(** ** Single-source shortest paths: [CGraph::InternalDijkstra] *)

(** The local variables of one run. *)
Record dijkstra_locals : Type := mkLocals {
  shortestDistances : list float;
  outputRoutes : list N;
  knownDistances : list bool
}.

(** Lines 363-370: the start vertex and its neighbours get their direct
    distance and the start vertex as parent. *)
Definition init_round (g : CGraph) (startVertex : N) (i : N)
    (st : list float * list N) : outcome (list float * list N) :=
  let '(dist, routes) := st in
  do c <- or_else (Ok (i =? startVertex)) (mat_get (m_AdjacencyMatrix g) startVertex i);
  if c then
    do routes' <- vec_set routes i startVertex;
    do d <- mat_get (m_DistanceMatrix g) startVertex i;
    do dist' <- vec_set dist i d;
    Ok (dist', routes')
  else Ok (dist, routes).

(** Lines 384-395: the unconfirmed vertex with the smallest estimate. *)
Definition closest_round (st : dijkstra_locals) (i : N) (acc : N * float)
  : outcome (N * float) :=
  let '(nextClosest, nextShortestDistance) := acc in
  do c <- and_then (do k <- vec_get (knownDistances st) i; Ok (negb k))
          (and_then (do d <- vec_get (shortestDistances st) i; Ok (not_minus_one d))
             (or_else (Ok (is_minus_one nextShortestDistance))
                      (do d <- vec_get (shortestDistances st) i;
                       Ok (PrimFloat.ltb d nextShortestDistance))));
  if c then do d <- vec_get (shortestDistances st) i; Ok (i, d)
  else Ok (nextClosest, nextShortestDistance).

(** Lines 398-410: relaxation of the neighbours of [nextClosest]. *)
Definition relax_round (g : CGraph) (known : list bool) (nextClosest : N) (i : N)
    (st : list float * list N) : outcome (list float * list N) :=
  let '(dist, routes) := st in
  let via :=
    do a <- vec_get dist nextClosest;
    do w <- mat_get (m_DistanceMatrix g) nextClosest i;
    Ok (PrimFloat.add a w) in
  do c <- and_then (do k <- vec_get known i; Ok (negb k))
          (and_then (mat_get (m_AdjacencyMatrix g) nextClosest i)
             (or_else (do d <- vec_get dist i; Ok (is_minus_one d))
                      (do d <- vec_get dist i; do s <- via; Ok (PrimFloat.ltb s d))));
  if c then
    do s <- via;
    do dist' <- vec_set dist i s;
    do routes' <- vec_set routes i nextClosest;
    Ok (dist', routes')
  else Ok (dist, routes).

(** Lines 417-422: is an unconfirmed vertex with an estimate left? *)
Definition more_round (st : dijkstra_locals) (i : N) (moreVertices : bool)
  : outcome bool :=
  do c <- and_then (do k <- vec_get (knownDistances st) i; Ok (negb k))
                   (do d <- vec_get (shortestDistances st) i; Ok (not_minus_one d));
  if c then Ok true else Ok moreVertices.

(** One round of the [while (moreVertices)] loop; the result is the new
    locals and the new value of [moreVertices]. *)
Definition dijkstra_round (g : CGraph) (st : dijkstra_locals)
  : outcome (dijkstra_locals * bool) :=
  do closest <- for_upto (m_Order g) (closest_round st) (minus_one_u, minus_one);
  let nextClosest := fst closest in
  do relaxed <- for_upto (m_Order g)
                  (relax_round g (knownDistances st) nextClosest)
                  (shortestDistances st, outputRoutes st);
  do known <- vec_set (knownDistances st) nextClosest true;
  let st' := mkLocals (fst relaxed) (snd relaxed) known in
  do more <- for_upto (m_Order g) (more_round st') false;
  Ok (st', more).

(** The loop itself.  [moreVertices] is true on entry, so the body runs at
    least once; every round that returns confirms one more vertex, and
    [fuel] bounds the number of rounds. *)
Fixpoint dijkstra_while (fuel : nat) (g : CGraph) (st : dijkstra_locals)
  : outcome dijkstra_locals :=
  match fuel with
  | O => Diverge
  | Datatypes.S fuel' =>
      do r <- dijkstra_round g st;
      if snd r then dijkstra_while fuel' g (fst r) else Ok (fst r)
  end.

(** Lines 361-375. *)
Definition dijkstra_init (g : CGraph) (startVertex : N) : outcome dijkstra_locals :=
  do filled <- for_upto (m_Order g) (init_round g startVertex)
                 (vec_fill (m_Order g) minus_one,
                  vec_fill (m_Order g) minus_one_u);
  do routes' <- vec_set (snd filled) startVertex startVertex;
  do known <- vec_set (vec_fill (m_Order g) false) startVertex true;
  Ok (mkLocals (fst filled) routes' known).

(** Lines 426-428: the new tree is appended and its slot, the last index
    of [m_DijkstraOutputRoutes], recorded. *)
Definition new_slot (g : CGraph) : N :=
  to_unsigned ((vec_size (m_DijkstraOutputRoutes g) + 1 + size_t_modulus - 1)
                 mod size_t_modulus).

Definition save_results (g : CGraph) (startVertex : N) (st : dijkstra_locals) : CGraph :=
  {| m_Order := m_Order g;
     m_InternalToExternal := m_InternalToExternal g;
     m_ExternalToInternal := m_ExternalToInternal g;
     m_DistanceMatrix := m_DistanceMatrix g;
     m_AdjacencyMatrix := m_AdjacencyMatrix g;
     m_DijkstraStartVertices := <[startVertex := new_slot g]> (m_DijkstraStartVertices g);
     m_DijkstraOutputRoutes := m_DijkstraOutputRoutes g ++ [outputRoutes st];
     m_DijkstraShortestDistances := m_DijkstraShortestDistances g ++ [shortestDistances st] |}.

(** [CGraph::InternalDijkstra(startVertex)]: the slot index and the graph
    with its cache updated. *)
Definition InternalDijkstra (g : CGraph) (startVertex : N) : outcome (N * CGraph) :=
  if m_Order g <=? startVertex then Raise (Dijkstra_InvalidStartVertex startVertex) else
  match m_DijkstraStartVertices g !! startVertex with
  | Some slot => Ok (slot, g)
  | None =>
      do st <- dijkstra_init g startVertex;
      do st' <- dijkstra_while (N.to_nat (m_Order g)) g st;
      Ok (new_slot g, save_results g startVertex st')
  end.

(** ** Queries: [CGraph::InternalShortestDistance] and [CGraph::ShortestDistance] *)

(** [m_DijkstraStartVertices.count(v) > 0] *)
Definition has_tree (g : CGraph) (v : N) : bool :=
  bool_decide (is_Some (m_DijkstraStartVertices g !! v)).

(** [m_DijkstraStartVertices[v]]: the subscript of a [std::map] yields a
    value-initialised entry for an absent key.  The key is present at both
    places the source subscripts the map at. *)
Definition slot_of (g : CGraph) (v : N) : N :=
  default 0 (m_DijkstraStartVertices g !! v).

(** Lines 282-283 and 303-304: [route] is the vector built so far and [back]
    its last element; parents are pushed until [target] is reached. *)
Fixpoint unwind (fuel : nat) (g : CGraph) (index : N) (target : N)
    (route : list N) (back : N) : outcome (list N) :=
  if back =? target then Ok route else
  match fuel with
  | O => Diverge
  | Datatypes.S fuel' =>
      do parent <- mat_get (m_DijkstraOutputRoutes g) index back;
      unwind fuel' g index target (route ++ [parent]) parent
  end.

(** Lines 256-270: which endpoint's tree answers the query, and the graph
    after the tree has been computed if it was missing. *)
Definition choose_tree (g : CGraph) (startVertex endVertex : N) (preferStartVertex : bool)
  : outcome (bool * CGraph) :=
  if has_tree g endVertex then Ok (false, g)
  else if has_tree g startVertex then Ok (true, g)
  else if preferStartVertex then
    do r <- InternalDijkstra g startVertex; Ok (true, snd r)
  else
    do r <- InternalDijkstra g endVertex; Ok (false, snd r).

(** Lines 273-308: the route and the distance are read off the tree. *)
Definition read_tree (g : CGraph) (fromStartVertex : bool) (startVertex endVertex : N)
  : outcome (float * list N) :=
  if fromStartVertex then
    let index := slot_of g startVertex in
    do reverseOutputRoute <-
         unwind (N.to_nat (m_Order g)) g index startVertex [endVertex] endVertex;
    let outputRoute := rev reverseOutputRoute in
    do shortestDistance <- mat_get (m_DijkstraShortestDistances g) index endVertex;
    Ok (shortestDistance, outputRoute)
  else
    let index := slot_of g endVertex in
    do outputRoute <-
         unwind (N.to_nat (m_Order g)) g index endVertex [startVertex] startVertex;
    do shortestDistance <- mat_get (m_DijkstraShortestDistances g) index startVertex;
    Ok (shortestDistance, outputRoute).

(** The result is the pair of output arguments [(shortestDistance,
    outputRoute)] and the graph with its cache as the call leaves it. *)
Definition InternalShortestDistance (g : CGraph) (startVertex endVertex : N)
    (preferStartVertex : bool) : outcome (float * list N * CGraph) :=
  do c <- choose_tree g startVertex endVertex preferStartVertex;
  do r <- read_tree (snd c) (fst c) startVertex endVertex;
  Ok (r, snd c).

Definition ShortestDistance (g : CGraph) (startVertex endVertex : N)
    (preferStartVertex : bool) : outcome (float * list N * CGraph) :=
  do iStartVertex <- ExternalToInternal g startVertex;
  do iEndVertex <- ExternalToInternal g endVertex;
  do r <- InternalShortestDistance g iStartVertex iEndVertex preferStartVertex;
  do outputRoute <- InternalToExternal_all (snd r) (snd (fst r));
  Ok (fst (fst r), outputRoute, snd r).

(** The overload without [preferStartVertex]. *)
Definition ShortestDistance_default (g : CGraph) (startVertex endVertex : N)
  : outcome (float * list N * CGraph) :=
  ShortestDistance g startVertex endVertex false.

(** What a caller sees of a query: the two output arguments. *)
Definition answer {A B C : Type} (r : outcome (A * B * C)) : outcome (A * B) :=
  omap fst r.

(** The call returns, or indexes a vector outside its bounds: it throws no
    exception and it ends. *)
Definition returns_or_leaves_vector {A : Type} (c : outcome A) : Prop :=
  match c with
  | Ok _ => True
  | Raise f => f = OutOfBounds
  | Diverge => False
  end.

(** ** Cache states *)

(** The tree rooted at [s] is stored in slot [k] with parent vector
    [parents] and distance vector [dists]. *)
Definition slot_at (g : CGraph) (s k : N) (parents : list N) (dists : list float) : Prop :=
  m_DijkstraStartVertices g !! s = Some k
  /\ nth_N (m_DijkstraOutputRoutes g) k = Some parents
  /\ nth_N (m_DijkstraShortestDistances g) k = Some dists.

(** The number of single-source runs whose result the graph holds. *)
Definition trees_computed (g : CGraph) : nat := length (m_DijkstraOutputRoutes g).

(** One call that returns takes the graph from one cache state to the next. *)
Inductive query_step (g g' : CGraph) : Prop :=
| step_ShortestDistance (s e : N) (p : bool) (a : float * list N) :
    ShortestDistance g s e p = Ok (a, g') -> query_step g g'
| step_InternalShortestDistance (s e : N) (p : bool) (a : float * list N) :
    InternalShortestDistance g s e p = Ok (a, g') -> query_step g g'
| step_InternalDijkstra (v k : N) :
    InternalDijkstra g v = Ok (k, g') -> query_step g g'.

(** [later g g']: [g'] is [g] after any number of calls that returned. *)
Definition later : relation CGraph := rtc query_step.

(** The walk along one parent vector, and the answer it gives for the
    vertex [other] in the tree rooted at [root]: the distance of [other] and
    the vertices from [other] to [root]. *)
Fixpoint walk_to_root (fuel : nat) (parents : list N) (root : N)
    (route : list N) (back : N) : outcome (list N) :=
  if back =? root then Ok route else
  match fuel with
  | O => Diverge
  | Datatypes.S fuel' =>
      do parent <- vec_get parents back;
      walk_to_root fuel' parents root (route ++ [parent]) parent
  end.

Definition answer_from_tree (order : N) (parents : list N) (dists : list float)
    (root other : N) : outcome (float * list N) :=
  do route <- walk_to_root (N.to_nat order) parents root [other] other;
  do d <- vec_get dists other;
  Ok (d, route).

(** What a run leaves untouched. *)
Definition same_graph (g g' : CGraph) : Prop :=
  m_Order g' = m_Order g
  /\ m_InternalToExternal g' = m_InternalToExternal g
  /\ m_ExternalToInternal g' = m_ExternalToInternal g
  /\ m_DistanceMatrix g' = m_DistanceMatrix g
  /\ m_AdjacencyMatrix g' = m_AdjacencyMatrix g.

(** The same answer, with the route read backwards. *)
Definition reverse_route (a : float * list N) : float * list N := (fst a, rev (snd a)).

(** ** Well-formed graphs *)

(** An [n] by [n] matrix. *)
Definition mat_dims {A : Type} (m : list (list A)) (n : N) : Prop :=
  vec_size m = n /\ forall i row, nth_N m i = Some row -> vec_size row = n.

(** The adjacency entry the source derives from a distance entry. *)
Definition is_edge (x : float) (i j : N) : bool := ge_zero x && negb (i =? j).

(** What the constructor establishes and no call changes: the order fits an
    [unsigned int], the distance matrix can be read at every pair of
    vertices, the adjacency matrix is square and is derived from the
    distance matrix, and every registered label has its vertex. *)
Record graph_wf (g : CGraph) : Prop := mk_graph_wf {
  wf_order : m_Order g <= max_unsignedInt;
  wf_adj_dims : mat_dims (m_AdjacencyMatrix g) (m_Order g);
  wf_adj : forall i j, i < m_Order g -> j < m_Order g ->
           exists x, mat_get (m_DistanceMatrix g) i j = Ok x
                     /\ mat_get (m_AdjacencyMatrix g) i j = Ok (is_edge x i j);
  wf_labels : forall l i, m_ExternalToInternal g !! l = Some i ->
              i < m_Order g /\ nth_N (m_InternalToExternal g) i = Some l
}.

(** ** Invariants of a single-source run *)

(** The number of unconfirmed vertices, which bounds the rounds to come. *)
Fixpoint unconfirmed (known : list bool) : nat :=
  match known with
  | [] => 0
  | b :: rest => (if b then 0 else 1) + unconfirmed rest
  end.

(** Every parent that is a vertex is joined to its child by an edge, the
    root apart, which is its own parent. *)
Definition parents_are_edges (g : CGraph) (root : N) (parents : list N) : Prop :=
  forall i p, nth_N parents i = Some p -> p < m_Order g ->
              (i = root /\ p = root) \/ mat_get (m_AdjacencyMatrix g) p i = Ok true.

(** Parents were confirmed before their children: every parent that is a
    vertex is confirmed, and if the child is confirmed too, the parent was
    confirmed in an earlier round.  [rank] numbers the rounds; the rounds
    made and the vertices still unconfirmed are at most the vertices. *)
Definition confirmed_before (g : CGraph) (root : N) (st : dijkstra_locals) : Prop :=
  exists rank : N -> nat,
    (forall i, nth_N (knownDistances st) i = Some true ->
               (rank i + unconfirmed (knownDistances st) < N.to_nat (m_Order g))%nat)
    /\ (forall i, nth_N (knownDistances st) i = Some true -> i <> root -> (1 <= rank i)%nat)
    /\ forall i p, nth_N (outputRoutes st) i = Some p -> p < m_Order g -> i <> root ->
         nth_N (knownDistances st) p = Some true
         /\ (nth_N (knownDistances st) i = Some true -> (rank p < rank i)%nat).

(** The rounds a walk needs from [x], given a depth for the vertices: none
    at the root, one to run out of the vector from a value that is no
    vertex, the depth otherwise. *)
Definition rounds_needed (g : CGraph) (root : N) (depth : N -> nat) (x : N) : nat :=
  if x =? root then 0%nat else if x <? m_Order g then depth x else 1%nat.

(** The parents lead towards the root: some depth, at most the order, is
    more than the rounds needed from the parent, at every vertex other than
    the root. *)
Definition parents_descend (g : CGraph) (root : N) (parents : list N) : Prop :=
  exists depth : N -> nat,
    (forall x, x < m_Order g -> (depth x <= N.to_nat (m_Order g))%nat)
    /\ forall i p, nth_N parents i = Some p -> i <> root ->
         (rounds_needed g root depth p < depth i)%nat.

(** What every round of the [while] loop keeps: the three vectors have one
    entry per vertex, the start vertex is confirmed, is its own parent and
    has the diagonal entry of the distance matrix as its distance, parents
    are joined to their children by edges and were confirmed before them. *)
Definition root_fixed (g : CGraph) (startVertex : N) (st : dijkstra_locals) : Prop :=
  vec_size (shortestDistances st) = m_Order g
  /\ vec_size (outputRoutes st) = m_Order g
  /\ vec_size (knownDistances st) = m_Order g
  /\ nth_N (knownDistances st) startVertex = Some true
  /\ nth_N (outputRoutes st) startVertex = Some startVertex
  /\ (exists d, mat_get (m_DistanceMatrix g) startVertex startVertex = Ok d
                /\ nth_N (shortestDistances st) startVertex = Some d)
  /\ parents_are_edges g startVertex (outputRoutes st)
  /\ confirmed_before g startVertex st.

(** Vertex [i] is unconfirmed and has an estimate. *)
Definition candidate (g : CGraph) (st : dijkstra_locals) (i : N) : Prop :=
  i < m_Order g
  /\ nth_N (knownDistances st) i = Some false
  /\ exists d, nth_N (shortestDistances st) i = Some d /\ not_minus_one d = true.

(** ** Invariants of the cache *)

(** A stored tree rooted at [s]: one entry per vertex, the root its own
    parent, the root's distance the diagonal entry, parents joined to their
    children by edges and leading towards the root. *)
Definition tree_ok (g : CGraph) (s : N) (parents : list N) (dists : list float) : Prop :=
  vec_size parents = m_Order g
  /\ vec_size dists = m_Order g
  /\ nth_N parents s = Some s
  /\ (exists d, mat_get (m_DistanceMatrix g) s s = Ok d /\ nth_N dists s = Some d)
  /\ parents_are_edges g s parents
  /\ parents_descend g s parents.

(** [reaches g u w]: edges of the adjacency matrix lead from [u] to [w]. *)
Inductive reaches (g : CGraph) : N -> N -> Prop :=
| reaches_refl (v : N) : reaches g v v
| reaches_step (u v w : N) :
    reaches g u v -> mat_get (m_AdjacencyMatrix g) v w = Ok true -> reaches g u w.

(** The cache is the list [roots] of the start vertices of the runs made so
    far, in the order they were made: the map sends each root to its
    position, and the two vectors hold the tree of each root at that
    position. *)
Definition cache_wf (g : CGraph) : Prop :=
  exists roots : list N,
    (forall s k, m_DijkstraStartVertices g !! s = Some k <-> nth_N roots k = Some s)
    /\ vec_size (m_DijkstraOutputRoutes g) = vec_size roots
    /\ vec_size (m_DijkstraShortestDistances g) = vec_size roots
    /\ forall k s, nth_N roots k = Some s ->
         s < m_Order g
         /\ exists parents dists, slot_at g s k parents dists /\ tree_ok g s parents dists.

Definition graph_ok (g : CGraph) : Prop := graph_wf g /\ cache_wf g.

(** ** The shape of a matrix, in the words of the specification *)

(** Row [i], counted from [i0], has length [f i]. *)
Fixpoint rows_match_from (f : N -> N) (i0 : N) (rows : list (list float)) : bool :=
  match rows with
  | [] => true
  | row :: rest => (vec_size row =? f i0) && rows_match_from f (N.succ i0) rest
  end.

(** The classification the specification words: square if every row has
    length n; else lower-triangular if row i has length i+1; else
    upper-triangular if row i has length n-i; else invalid. *)
Definition spec_shape (distanceMatrix : list (list float)) : CGraph_DistMatCheckResult :=
  let n := vec_size distanceMatrix in
  if rows_match_from (fun _ => n) 0 distanceMatrix then square
  else if rows_match_from (fun i => i + 1) 0 distanceMatrix then lowerTriangular
  else if rows_match_from (fun i => n - i) 0 distanceMatrix then upperTriangular
  else badShape.

(** What the row loop of the validator asks of row [i] for a guessed shape. *)
Definition row_conforms (n : N) (distanceMatrix : list (list float))
    (shape : CGraph_DistMatCheckResult) (i : N) : bool :=
  match nth_N distanceMatrix i with
  | None => false
  | Some row =>
      match shape with
      | square => vec_size row =? n
      | lowerTriangular =>
          (i =? 0) || match nth_N distanceMatrix (i - 1) with
                      | Some prev => vec_size row =? vec_size prev + 1
                      | None => false
                      end
      | upperTriangular =>
          (i =? 0) || match nth_N distanceMatrix (i - 1) with
                      | Some prev => (0 <? vec_size prev) && (vec_size row =? vec_size prev - 1)
                      | None => false
                      end
      | _ => true
      end
  end.

(** The vertices a walk pushes, from the parent of [x] up to the root. *)
Fixpoint climb (fuel : nat) (parents : list N) (root : N) (x : N) : outcome (list N) :=
  if x =? root then Ok [] else
  match fuel with
  | O => Diverge
  | Datatypes.S fuel' =>
      do parent <- vec_get parents x;
      omap (cons parent) (climb fuel' parents root parent)
  end.

(** ** The validator and the constructor in closed form *)

(** Some element of some row is below 0 and is not -1: the test of the
    element loop (lines 474-482) holds somewhere. *)
Definition has_invalid (dm : list (list float)) : bool :=
  existsb (existsb invalid_element) dm.

(** The verdict on a matrix of at least two rows: a bad shape is reported
    before the elements are looked at, invalid elements hide the shape. *)
Definition verdict (distanceMatrix : list (list float)) : CGraph_DistMatCheckResult :=
  match spec_shape distanceMatrix with
  | badShape => badShape
  | shape => if has_invalid distanceMatrix then invalidElements else shape
  end.

(** The length of every row fits an [unsigned int] (the test of line 457
    never holds). *)
Definition rows_fit (dm : list (list float)) : bool :=
  forallb (fun row => vec_size row <=? max_unsignedInt) dm.

(** The map the loop of lines 88-89 builds from [m]: label [l] at index
    [i] is entered as [m_ExternalToInternal[l] = i], a later entry for the
    same label replacing an earlier one. *)
Fixpoint label_table_from (i : N) (vertexLabels : list N) (m : gmap N N) : gmap N N :=
  match vertexLabels with
  | [] => m
  | l :: rest => label_table_from (N.succ i) rest (<[l := i]> m)
  end.

(** The table of the labels of a graph: the loop run from index 0 on the
    empty map. *)
Definition label_table (vertexLabels : list N) : gmap N N :=
  label_table_from 0 vertexLabels ∅.

(** The matrix the loops of lines 97-109 fill in when every access is
    inside the matrix: an edge where the entry is at least 0 and off the
    diagonal. *)
Definition adjacency_of (distanceMatrix : list (list float)) : list (list bool) :=
  imap (fun i row => imap (fun j x => is_edge x (N.of_nat i) (N.of_nat j)) row)
       distanceMatrix.

(** The object the constructor leaves for square input: the order, the
    labels and their table, the matrix as given, its adjacency matrix, and
    an empty cache. *)
Definition constructed (distanceMatrix : list (list float)) (vertexLabels : list N)
  : CGraph :=
  {| m_Order := vec_size distanceMatrix;
     m_InternalToExternal := vertexLabels;
     m_ExternalToInternal := label_table vertexLabels;
     m_DistanceMatrix := distanceMatrix;
     m_AdjacencyMatrix := adjacency_of distanceMatrix;
     m_DijkstraStartVertices := ∅;
     m_DijkstraOutputRoutes := [];
     m_DijkstraShortestDistances := [] |}.

(** Every row has length [n]. *)
Definition all_rows_of_length (n : N) (distanceMatrix : list (list float)) : bool :=
  forallb (fun row => vec_size row =? n) distanceMatrix.

(** ** Translation of a vector of labels *)

(** The overload that rewrites a whole vector in place (lines 171-175). *)
Fixpoint ExternalToInternal_all (g : CGraph) (vertices : list N) : outcome (list N) :=
  match vertices with
  | [] => Ok []
  | l :: rest =>
      do v <- ExternalToInternal g l;
      do rest' <- ExternalToInternal_all g rest;
      Ok (v :: rest')
  end.

(** ** Sound trees *)

(** [d] and [p] are the distance and the parent stored for a vertex [i]
    that a run from [root] has reached: the distance is not negative, the
    parent is a vertex with an edge to [i], edges lead from the root to [i],
    the distance is the entry of the matrix for a child of the root and the
    parent's distance plus the entry of the matrix otherwise, and it is at
    most the length of the edge from the root to [i] if there is one. *)
Definition reached_entry (g : CGraph) (root : N) (dists : list float)
    (i : N) (d : float) (p : N) : Prop :=
  ge_zero d = true
  /\ p < m_Order g
  /\ reaches g root i
  /\ (exists w, mat_get (m_DistanceMatrix g) p i = Ok w
        /\ is_edge w p i = true
        /\ ((p = root /\ d = w)
            \/ (p <> root
                /\ exists dp, nth_N dists p = Some dp /\ ge_zero dp = true
                              /\ d = PrimFloat.add dp w)))
  /\ forall x, mat_get (m_DistanceMatrix g) root i = Ok x -> is_edge x root i = true ->
                PrimFloat.leb d x = true.

(** During a run every vertex other than the root either has no estimate,
    is unconfirmed and carries the two sentinels, or has been reached from
    a confirmed parent. *)
Definition estimates_sound (g : CGraph) (root : N) (st : dijkstra_locals) : Prop :=
  forall i, i < m_Order g -> i <> root ->
    exists d p,
      nth_N (shortestDistances st) i = Some d
      /\ nth_N (outputRoutes st) i = Some p
      /\ ((d = minus_one /\ p = minus_one_u /\ nth_N (knownDistances st) i = Some false)
          \/ (reached_entry g root (shortestDistances st) i d p
              /\ nth_N (knownDistances st) p = Some true)).

(** Every neighbour of a confirmed vertex has an estimate. *)
Definition neighbours_estimated (g : CGraph) (root : N) (st : dijkstra_locals) : Prop :=
  forall u v, nth_N (knownDistances st) u = Some true ->
              mat_get (m_AdjacencyMatrix g) u v = Ok true -> v <> root ->
              exists d, nth_N (shortestDistances st) v = Some d /\ ge_zero d = true.

(** A stored tree marks with the two sentinels exactly the vertices that no
    edges lead to from its root, and holds a reached entry for every other
    vertex. *)
Definition tree_sound (g : CGraph) (root : N) (parents : list N) (dists : list float)
  : Prop :=
  forall i, i < m_Order g -> i <> root ->
    exists d p,
      nth_N dists i = Some d
      /\ nth_N parents i = Some p
      /\ ((d = minus_one /\ p = minus_one_u /\ ~ reaches g root i)
          \/ reached_entry g root dists i d p).

(** Every tree of the cache is sound. *)
Definition cache_sound (g : CGraph) : Prop :=
  forall s k parents dists, slot_at g s k parents dists -> tree_sound g s parents dists.

(** The sign of a binary64 value: a zero, a positive number or plus
    infinity. *)
Definition sf_nonneg (x : spec_float) : bool :=
  match x with
  | S754_zero _ => true
  | S754_infinity s => negb s
  | S754_nan => false
  | S754_finite s _ _ => negb s
  end.

(** The test of lines 400-402 on a well-formed graph, where the entry of
    the adjacency matrix is [is_edge w nextClosest i]: vertex [i], with
    confirmation flag [kb] and estimate [d], gets the estimate [dn + w]
    through [nextClosest]. *)
Definition relaxes (kb : bool) (d dn w : float) (nextClosest i : N) : bool :=
  negb kb && (is_edge w nextClosest i
              && (is_minus_one d || PrimFloat.ltb (PrimFloat.add dn w) d)).

(** A well-formed graph with a well-formed cache of sound trees. *)
Definition graph_sound (g : CGraph) : Prop := graph_ok g /\ cache_sound g.

(** ** Routes and their lengths *)

(** The value of the source's local variable [fromStartVertex] (lines
    256-270): whether a query reads the tree of its start vertex. *)
Definition fromStartVertex (g : CGraph) (startVertex endVertex : N)
    (preferStartVertex : bool) : bool :=
  negb (has_tree g endVertex) && (has_tree g startVertex || preferStartVertex).

(** [edge g u w]: the adjacency matrix has an edge from [u] to [w]. *)
Definition edge (g : CGraph) (u w : N) : Prop :=
  mat_get (m_AdjacencyMatrix g) u w = Ok true.

(** Every two consecutive vertices of a route are related by [R]. *)
Definition steps (R : N -> N -> Prop) (route : list N) : Prop :=
  forall i u w, route !! i = Some u -> route !! Datatypes.S i = Some w -> R u w.

(** The entry [m[u][w]] when both indices are inside. *)
Definition entry (m : list (list float)) (u w : N) : option float :=
  match nth_N m u with
  | Some row => nth_N row w
  | None => None
  end.

(** The length of a path of at least two vertices: the entries of the
    matrix along it, added from its first vertex on, in binary64. *)
Fixpoint add_along (m : list (list float)) (acc : float) (u : N) (rest : list N)
  : option float :=
  match rest with
  | [] => Some acc
  | w :: rest' =>
      match entry m u w with
      | Some x => add_along m (PrimFloat.add acc x) w rest'
      | None => None
      end
  end.

(** [None] for fewer than two vertices and for an index outside the
    matrix. *)
Definition path_length (m : list (list float)) (path : list N) : option float :=
  match path with
  | u :: w :: rest =>
      match entry m u w with
      | Some x => add_along m x w rest
      | None => None
      end
  | _ => None
  end.

(** ** Sums that are not rounded *)

(** The value of a binary64 number in units of [2^q], when it is a whole
    number of units that is not negative and the number is not stored with
    a larger exponent than [q]; such a value is below [2^53]. *)
Definition sf_units (q : Z) (x : spec_float) : option Z :=
  match x with
  | S754_zero false => Some 0%Z
  | S754_finite false m e =>
      if ((e <=? q) && (Zpos m mod 2 ^ (q - e) =? 0))%Z
      then Some (Zpos m / 2 ^ (q - e))%Z else None
  | _ => None
  end.

Definition units (q : Z) (x : float) : option Z := sf_units q (Prim2SF x).

(** The exponent the number [a * 2^q] is stored with. *)
Definition stored_exponent (q a : Z) : Z :=
  SpecFloat.fexp prec emax (Z.log2 a + 1 + q)%Z.

(** An entry is no edge length ([>= 0] fails: it is -1 or not a number), or
    it is a whole number [k] of units [2^q], small enough that [n] of them
    add up below [2^53]. *)
Definition exact_entry (q : Z) (n : N) (x : float) : bool :=
  negb (ge_zero x)
  || match units q x with
     | Some k => (k * Z.of_N n <? 2 ^ 53)%Z
     | None => false
     end.

(** No sum of entries along a path of the matrix is rounded: all edge
    lengths are whole numbers of one unit [2^q], [2^q] times the largest
    binary64 mantissa is a binary64 number, and as many entries as the
    matrix has rows add up below [2^53] units. *)
Definition exact_sums (q : Z) (m : list (list float)) : bool :=
  (q <=? emax - prec)%Z && forallb (forallb (exact_entry q (vec_size m))) m.

(** The matrix has the same entry at [(i, j)] and at [(j, i)]. *)
Definition symmetric (m : list (list float)) : Prop :=
  forall i j, i < vec_size m -> j < vec_size m -> mat_get m i j = mat_get m j i.

(** [walk q m r v z]: edges of the matrix lead from [r] to [v], and the
    entries along them add up to [z] units. *)
Inductive walk (q : Z) (m : list (list float)) (r : N) : N -> Z -> Prop :=
| walk_here : walk q m r r 0%Z
| walk_step (u v : N) (z : Z) (x : float) (k : Z) :
    walk q m r u z ->
    mat_get m u v = Ok x -> is_edge x u v = true -> units q x = Some k ->
    walk q m r v (z + k)%Z.

(** The number of confirmed vertices. *)
Definition confirmed (g : CGraph) (st : dijkstra_locals) : Z :=
  (Z.of_N (m_Order g) - Z.of_nat (unconfirmed (knownDistances st)))%Z.

(** What a run keeps when no sum is rounded: every estimate is the length
    of a walk from the root, and grows by at most the largest entry with
    each vertex confirmed; the distance of a confirmed vertex is the least
    length of a walk to it; and each edge from a confirmed to an
    unconfirmed vertex has been taken into the estimate of the latter. *)
Definition run_exact (q : Z) (g : CGraph) (root : N) (st : dijkstra_locals) : Prop :=
  (forall i d, i < m_Order g -> i <> root ->
     nth_N (shortestDistances st) i = Some d -> not_minus_one d = true ->
     exists z, units q d = Some z
               /\ walk q (m_DistanceMatrix g) root i z
               /\ (z * Z.of_N (m_Order g) <= confirmed g st * (2 ^ 53 - 1))%Z)
  /\ (forall i d z, i <> root -> nth_N (knownDistances st) i = Some true ->
        nth_N (shortestDistances st) i = Some d -> units q d = Some z ->
        forall z', walk q (m_DistanceMatrix g) root i z' -> (z <= z')%Z)
  /\ (forall u w x k,
        nth_N (knownDistances st) u = Some true ->
        nth_N (knownDistances st) w = Some false ->
        mat_get (m_DistanceMatrix g) u w = Ok x -> is_edge x u w = true ->
        units q x = Some k ->
        exists d zw, nth_N (shortestDistances st) w = Some d /\ units q d = Some zw
                     /\ forall z, walk q (m_DistanceMatrix g) root u z -> (zw <= z + k)%Z).

(** A stored tree holds, for every vertex that has a distance, the least
    length of a walk from the root to it. *)
Definition tree_exact (q : Z) (g : CGraph) (root : N) (dists : list float) : Prop :=
  forall v d, v < m_Order g -> v <> root ->
    nth_N dists v = Some d -> not_minus_one d = true ->
    exists z, units q d = Some z
              /\ walk q (m_DistanceMatrix g) root v z
              /\ forall z', walk q (m_DistanceMatrix g) root v z' -> (z <= z')%Z.

Definition cache_exact (q : Z) (g : CGraph) : Prop :=
  forall s k parents dists, slot_at g s k parents dists -> tree_exact q g s dists.

(** A graph whose matrix has exact sums and whose cached trees all hold
    least lengths. *)
Definition graph_exact (q : Z) (g : CGraph) : Prop :=
  graph_ok g
  /\ vec_size (m_DistanceMatrix g) = m_Order g
  /\ exact_sums q (m_DistanceMatrix g) = true
  /\ cache_exact q g.

(** ** The tree of a root *)

(** The vectors a run from [v] computes (lines 361-423), before they are
    stored. *)
Definition run_tree (g : CGraph) (v : N) : outcome dijkstra_locals :=
  do st <- dijkstra_init g v; dijkstra_while (N.to_nat (m_Order g)) g st.

(** Every cached tree is the one a run on [g0] computes. *)
Definition cache_determined (g0 g : CGraph) : Prop :=
  forall s k parents dists, slot_at g s k parents dists ->
    exists st, run_tree g0 s = Ok st
               /\ outputRoutes st = parents /\ shortestDistances st = dists.

(** The root of the tree a query reads (lines 256-270). *)
Definition root_of_query (g : CGraph) (startVertex endVertex : N)
    (preferStartVertex : bool) : N :=
  if fromStartVertex g startVertex endVertex preferStartVertex
  then startVertex else endVertex.

(** ** Rows of comma-separated cells: [CSVRow::readNextRow] *)

(** A stream of characters, as [std::istream] and [std::stringstream] are
    used in CSVRow.cpp: the characters not yet read and the two state flags
    that reading sets. *)
Record istream : Type := mk_istream {
  unread : list ascii;
  eofbit : bool;
  failbit : bool
}.

(** A stream over the characters [cs], as [stringstream lineStream(line)]
    makes it. *)
Definition stream_of (cs : list ascii) : istream := mk_istream cs false false.

(** [good()] and the conversion of a stream to [bool], [!fail()]. *)
Definition good (s : istream) : bool := negb (eofbit s) && negb (failbit s).
Definition stream_ok (s : istream) : bool := negb (failbit s).

(** The line break, which [getline(str, line)] stops at, and the comma. *)
Definition newline : ascii := "010"%char.
Definition comma : ascii := ","%char.

(** The characters before the first [delim] and, if there is a [delim],
    the characters after it. *)
Fixpoint extract (delim : ascii) (cs : list ascii) : list ascii * option (list ascii) :=
  match cs with
  | [] => ([], None)
  | c :: rest =>
      if Ascii.eqb c delim then ([], Some rest)
      else let r := extract delim rest in (c :: fst r, snd r)
  end.

(** [std::getline(s, str, delim)].  On a stream that is not good the
    sentry sets [failbit] and [str] is left as it was.  Otherwise [str] is
    erased and characters are moved to it up to the delimiter, which is
    taken off the stream and dropped, or up to the end of the stream, which
    sets [eofbit]; if no character was taken off the stream, [failbit] is
    set too. *)
Definition getline (s : istream) (str : list ascii) (delim : ascii)
  : istream * list ascii :=
  if good s then
    match extract delim (unread s) with
    | (piece, Some rest) => (mk_istream rest false false, piece)
    | (piece, None) =>
        (mk_istream [] true (match piece with [] => true | _ => false end), piece)
    end
  else (mk_istream (unread s) (eofbit s) true, str).

(** Modelled from the spec: the class is declared in CSVRow.h, which is not
    part of the sources; CSVRow.cpp uses its member [m_data] as a sequence
    of strings, with [clear] and [push_back]. *)
Record CSVRow : Type := mk_CSVRow { m_data : list (list ascii) }.

(** The loop [while (getline(lineStream, cell, ',')) m_data.push_back(cell)];
    [None] when [fuel] rounds were not enough. *)
Fixpoint read_cells (fuel : nat) (lineStream : istream) (cell : list ascii)
    (data : list (list ascii)) : option (list (list ascii)) :=
  match fuel with
  | O => None
  | Datatypes.S fuel' =>
      let r := getline lineStream cell comma in
      if stream_ok (fst r) then read_cells fuel' (fst r) (snd r) (data ++ [snd r])
      else Some data
  end.

(** [CSVRow::readNextRow(str)]: the row and the stream as the call leaves
    them.  The loop is given two rounds more than the line has
    characters. *)
Definition readNextRow (row : CSVRow) (str : istream) : option (CSVRow * istream) :=
  let r := getline str [] newline in
  let line := snd r in
  let lineStream := stream_of line in
  match read_cells (Datatypes.S (Datatypes.S (length line))) lineStream [] [] with
  | Some data => Some (mk_CSVRow data, fst r)
  | None => None
  end.

(** The cells of a line: the pieces between its commas, without the piece
    after the last comma when that piece is empty. *)
Fixpoint cells_from (cell : list ascii) (cs : list ascii) : list (list ascii) :=
  match cs with
  | [] => match cell with [] => [] | _ => [cell] end
  | c :: rest =>
      if Ascii.eqb c comma then cell :: cells_from [] rest
      else cells_from (cell ++ [c]) rest
  end.

(** The cells of a whole line. *)
Definition cells_of (line : list ascii) : list (list ascii) := cells_from [] line.

(** The cells written out with a comma between each two. *)
Fixpoint join (cells : list (list ascii)) : list ascii :=
  match cells with
  | [] => []
  | [cell] => cell
  | cell :: rest => cell ++ comma :: join rest
  end.

(** The number of commas of a line. *)
Definition commas (line : list ascii) : nat :=
  length (List.filter (fun c => Ascii.eqb c comma) line).

(** ** Scenarios *)

(** A graph is built and asked one question. *)
Definition build_and_ask (distanceMatrix : list (list float)) (vertexLabels : list N)
    (startVertex endVertex : N) (preferStartVertex : bool) : outcome (float * list N) :=
  do g <- CGraph_new distanceMatrix vertexLabels;
  answer (ShortestDistance g startVertex endVertex preferStartVertex).

(** A graph is built and asked two questions in a row. *)
Definition build_and_ask_twice (distanceMatrix : list (list float)) (vertexLabels : list N)
    (s1 e1 : N) (p1 : bool) (s2 e2 : N) (p2 : bool)
  : outcome ((float * list N) * (float * list N)) :=
  do g <- CGraph_new distanceMatrix vertexLabels;
  do r1 <- ShortestDistance g s1 e1 p1;
  do r2 <- ShortestDistance (snd r1) s2 e2 p2;
  Ok (fst r1, fst r2).

Module Scenario.
Local Open Scope float_scope.

(** The path graph 10 - 20 - 30 - 40 with edge lengths 1, 2, 3. *)
Definition path_matrix : list (list float) :=
  [[0; 1; -1; -1]; [1; 0; 2; -1]; [-1; 2; 0; 3]; [-1; -1; 3; 0]].
Definition path_labels : list N := [10%N; 20%N; 30%N; 40%N].

(** Two vertices joined by an edge, and a third one on its own. *)
Definition split_matrix : list (list float) :=
  [[0; 1; -1]; [1; 0; -1]; [-1; -1; 0]].
Definition split_labels : list N := [10%N; 20%N; 30%N].

(** Two vertices and no edge. *)
Definition no_edge_matrix : list (list float) := [[0; -1]; [-1; 0]].

(** One edge, with entries other than 0 on the diagonal. *)
Definition diagonal_five : list (list float) := [[5; 1]; [1; 5]].
Definition diagonal_sentinel : list (list float) := [[-1; 1]; [1; -1]].
Definition two_labels : list N := [10%N; 20%N].

(** The path graph 10 - 20 - 30 - 40 with edge lengths 1e16, 1, 1: adding
    them from the left rounds differently from adding them from the right. *)
Definition rounding_matrix : list (list float) :=
  [[0; 1e16; -1; -1]; [1e16; 0; 1; -1]; [-1; 1; 0; 1]; [-1; -1; 1; 0]].

(** Triangular inputs for the graph with one edge of length 1. *)
Definition lower_input : list (list float) := [[0]; [1; 0]].
Definition upper_input : list (list float) := [[0; 1]; [0]].
Definition square_of_triangular : list (list float) := [[0; 1]; [1; 0]].

(** Inputs with a single row, and rows of lengths 1, 2, 4. *)
Definition one_by_one : list (list float) := [[0]].
Definition one_row_of_two : list (list float) := [[0; 1]].
Definition ragged_124 : list (list float) := [[0]; [1; 0]; [1; 1; 1; 0]].

(** The path graph as built, as the query from 10 to 40 leaves it, and as
    the query from 20 to 10 leaves it after that. *)
Definition no_graph : CGraph := mkCGraph 0 [] ∅ [] [] ∅ [] [].
Definition path_graph : CGraph :=
  match CGraph_new path_matrix path_labels with Ok g => g | _ => no_graph end.
Definition path_graph_asked : CGraph :=
  match ShortestDistance path_graph 10 40 false with Ok r => snd r | _ => no_graph end.
Definition path_graph_asked_again : CGraph :=
  match ShortestDistance path_graph_asked 20 10 false with
  | Ok r => snd r | _ => no_graph
  end.

(** The graph with 5 on the diagonal, as built. *)
Definition diagonal_graph : CGraph :=
  match CGraph_new diagonal_five two_labels with Ok g => g | _ => no_graph end.

(** One edge, one entry below 0 that is not -1. *)
Definition invalid_matrix : list (list float) := [[0; -2]; [1; 0]].

(** The labels of the path graph with 20 given twice. *)
Definition repeated_labels : list N := [10%N; 20%N; 20%N; 40%N].

(** The graph with an edge and a vertex on its own, as built and as the
    query from 10 to 20 leaves it. *)
Definition split_graph : CGraph :=
  match CGraph_new split_matrix split_labels with Ok g => g | _ => no_graph end.
Definition split_graph_asked : CGraph :=
  match ShortestDistance split_graph 10 20 false with Ok r => snd r | _ => no_graph end.

(** A triangle whose edge from 10 to 30 is longer than the way over 20. *)
Definition detour_matrix : list (list float) := [[0; 1; 5]; [1; 0; 1]; [5; 1; 0]].
Definition detour_graph : CGraph :=
  match CGraph_new detour_matrix split_labels with Ok g => g | _ => no_graph end.
Definition detour_graph_asked : CGraph :=
  match ShortestDistance detour_graph 10 30 false with Ok r => snd r | _ => no_graph end.

(** The row of the two cells 10 and 2.5; a line with an empty cell in the
    middle and a comma at its end; and the line that comes after. *)
Definition two_cells : list (list ascii) := [["1"; "0"]; ["2"; "."; "5"]]%char.
Definition line_with_gaps : list ascii := ["1"; "0"; ","; ","; "2"; "."; "5"; ","]%char.
Definition next_line : list ascii := ["7"; newline]%char.

(** A row that holds a cell from an earlier call. *)
Definition used_row : CSVRow := mk_CSVRow [["4"]%char].

End Scenario.

(** * Properties *)

(** ** Vectors *)

Lemma nth_N_lookup {A : Type} (v : list A) (i : N) : nth_N v i = v !! N.to_nat i.
Proof.
  revert i. induction v as [|x v IH]; intros i; simpl; [done|].
  destruct (N.eqb_spec i 0) as [->|Hi]; [done|].
  rewrite IH. replace (N.to_nat i) with (Datatypes.S (N.to_nat (N.pred i))) by lia.
  done.
Qed.

Lemma nth_N_Some {A : Type} (v : list A) (i : N) :
  i < vec_size v -> exists x, nth_N v i = Some x.
Proof.
  unfold vec_size. intros Hi. rewrite nth_N_lookup.
  apply lookup_lt_is_Some_2. lia.
Qed.

Lemma nth_N_None {A : Type} (v : list A) (i : N) :
  vec_size v <= i -> nth_N v i = None.
Proof.
  unfold vec_size. intros Hi. rewrite nth_N_lookup.
  apply lookup_ge_None_2. lia.
Qed.

Lemma nth_N_bound {A : Type} (v : list A) (i : N) (x : A) :
  nth_N v i = Some x -> i < vec_size v.
Proof.
  unfold vec_size. rewrite nth_N_lookup. intros H.
  apply lookup_lt_Some in H. lia.
Qed.

Lemma set_N_insert {A : Type} (v : list A) (i : N) (x : A) :
  i < vec_size v -> set_N v i x = Some (<[N.to_nat i := x]> v).
Proof.
  unfold vec_size. revert i. induction v as [|y v IH]; intros i Hi; simpl in *; [lia|].
  destruct (N.eqb_spec i 0) as [->|Hne]; [done|].
  rewrite IH by lia.
  replace (N.to_nat i) with (Datatypes.S (N.to_nat (N.pred i))) by lia.
  done.
Qed.

Lemma set_N_None {A : Type} (v : list A) (i : N) (x : A) :
  vec_size v <= i -> set_N v i x = None.
Proof.
  unfold vec_size. revert i. induction v as [|y v IH]; intros i Hi; simpl in *; [done|].
  destruct (N.eqb_spec i 0) as [->|Hne]; [lia|].
  rewrite IH by lia. done.
Qed.

Lemma vec_get_Ok {A : Type} (v : list A) (i : N) (x : A) :
  vec_get v i = Ok x <-> nth_N v i = Some x.
Proof. unfold vec_get. destruct (nth_N v i); split; congruence. Qed.

Lemma vec_get_in {A : Type} (v : list A) (i : N) :
  i < vec_size v -> exists x, vec_get v i = Ok x.
Proof.
  intros Hi. destruct (nth_N_Some v i Hi) as [x Hx]. exists x. by apply vec_get_Ok.
Qed.

Lemma vec_get_out {A : Type} (v : list A) (i : N) :
  vec_size v <= i -> vec_get v i = Raise OutOfBounds.
Proof. intros Hi. unfold vec_get. by rewrite nth_N_None. Qed.

Lemma vec_set_in {A : Type} (v : list A) (i : N) (x : A) :
  i < vec_size v -> vec_set v i x = Ok (<[N.to_nat i := x]> v).
Proof. intros Hi. unfold vec_set. by rewrite set_N_insert. Qed.

Lemma vec_set_out {A : Type} (v : list A) (i : N) (x : A) :
  vec_size v <= i -> vec_set v i x = Raise OutOfBounds.
Proof. intros Hi. unfold vec_set. by rewrite set_N_None. Qed.

Lemma vec_set_Ok {A : Type} (v w : list A) (i : N) (x : A) :
  vec_set v i x = Ok w -> i < vec_size v /\ w = <[N.to_nat i := x]> v.
Proof.
  intros H. destruct (N.lt_ge_cases i (vec_size v)) as [Hi|Hi].
  - rewrite vec_set_in in H by done. split; congruence.
  - rewrite vec_set_out in H by done. discriminate.
Qed.

Lemma vec_size_insert {A : Type} (v : list A) (k : nat) (x : A) :
  vec_size (<[k := x]> v) = vec_size v.
Proof. unfold vec_size. by rewrite length_insert. Qed.

Lemma vec_size_fill {A : Type} (n : N) (x : A) : vec_size (vec_fill n x) = n.
Proof. unfold vec_size, vec_fill. rewrite length_replicate. lia. Qed.

Lemma nth_N_fill {A : Type} (n i : N) (x : A) : i < n -> nth_N (vec_fill n x) i = Some x.
Proof.
  intros Hi. rewrite nth_N_lookup. unfold vec_fill.
  apply lookup_replicate_2. lia.
Qed.

Lemma nth_N_insert {A : Type} (v : list A) (i j : N) (x : A) :
  i < vec_size v ->
  nth_N (<[N.to_nat i := x]> v) j = if j =? i then Some x else nth_N v j.
Proof.
  unfold vec_size. intros Hi. rewrite !nth_N_lookup.
  destruct (N.eqb_spec j i) as [->|Hne].
  - apply list_lookup_insert_eq. lia.
  - apply list_lookup_insert_ne. lia.
Qed.

Lemma nth_N_app_l {A : Type} (v w : list A) (i : N) (x : A) :
  nth_N v i = Some x -> nth_N (v ++ w) i = Some x.
Proof. rewrite !nth_N_lookup. intros H. by apply lookup_app_l_Some. Qed.

Lemma nth_N_app_last {A : Type} (v : list A) (x : A) :
  nth_N (v ++ [x]) (vec_size v) = Some x.
Proof.
  rewrite nth_N_lookup. unfold vec_size. rewrite Nat2N.id.
  by rewrite lookup_app_r, Nat.sub_diag.
Qed.

(** ** Outcomes and loops *)

Lemma bind_Ok {A B : Type} (c : outcome A) (k : A -> outcome B) (b : B) :
  bind c k = Ok b <-> exists a, c = Ok a /\ k a = Ok b.
Proof.
  destruct c; simpl; split; try (intros [? [? ?]]); try intros ?;
    try discriminate; eauto. congruence.
Qed.

(** A loop whose every round returns and re-establishes [P] returns. *)
Lemma for_loop_total {S : Type} (P : N -> S -> Prop) (body : N -> S -> outcome S) :
  forall (n : nat) (i : N) (s : S),
    P i s ->
    (forall k t, i <= k < i + N.of_nat n -> P k t ->
                 exists t', body k t = Ok t' /\ P (N.succ k) t') ->
    exists s', for_loop n i body s = Ok s' /\ P (i + N.of_nat n) s'.
Proof.
  induction n as [|n IH]; intros i s HP Hstep; simpl.
  - exists s. split; [done|]. by replace (i + N.of_nat 0) with i by lia.
  - destruct (Hstep i s) as [t [Ht HPt]]; [lia|done|].
    rewrite Ht. simpl.
    destruct (IH (N.succ i) t HPt) as [s' [Hs' HPs']].
    + intros k u Hk HPu. apply Hstep; [lia|done].
    + exists s'. split; [done|].
      by replace (i + N.of_nat (Datatypes.S n)) with (N.succ i + N.of_nat n) by lia.
Qed.

(** A loop that returns has kept every invariant its rounds keep. *)
Lemma for_loop_partial {S : Type} (P : N -> S -> Prop) (body : N -> S -> outcome S) :
  forall (n : nat) (i : N) (s s' : S),
    for_loop n i body s = Ok s' ->
    P i s ->
    (forall k t t', i <= k < i + N.of_nat n -> P k t -> body k t = Ok t' -> P (N.succ k) t') ->
    P (i + N.of_nat n) s'.
Proof.
  induction n as [|n IH]; intros i s s' Hrun HP Hstep; simpl in Hrun.
  - injection Hrun as <-. by replace (i + N.of_nat 0) with i by lia.
  - apply bind_Ok in Hrun as [t [Ht Hrun]].
    replace (i + N.of_nat (Datatypes.S n)) with (N.succ i + N.of_nat n) by lia.
    apply (IH _ _ _ Hrun).
    + apply (Hstep i s t); [lia|done|done].
    + intros k u u' Hk HPu Hu. apply (Hstep k u u'); [lia|done|done].
Qed.

Lemma for_upto_total {S : Type} (P : N -> S -> Prop) (body : N -> S -> outcome S)
    (bound : N) (s : S) :
  P 0 s ->
  (forall k t, k < bound -> P k t -> exists t', body k t = Ok t' /\ P (N.succ k) t') ->
  exists s', for_upto bound body s = Ok s' /\ P bound s'.
Proof.
  intros HP Hstep. unfold for_upto.
  destruct (for_loop_total P body (N.to_nat bound) 0 s HP) as [s' [Hs' HPs']].
  - intros k t Hk. apply Hstep. lia.
  - exists s'. split; [done|].
    by replace (0 + N.of_nat (N.to_nat bound)) with bound in HPs' by lia.
Qed.

Lemma for_upto_partial {S : Type} (P : N -> S -> Prop) (body : N -> S -> outcome S)
    (bound : N) (s s' : S) :
  for_upto bound body s = Ok s' ->
  P 0 s ->
  (forall k t t', k < bound -> P k t -> body k t = Ok t' -> P (N.succ k) t') ->
  P bound s'.
Proof.
  unfold for_upto. intros Hrun HP Hstep.
  assert (P (0 + N.of_nat (N.to_nat bound)) s') as HP'.
  { apply (for_loop_partial P body _ _ _ _ Hrun HP).
    intros k t t' Hk. apply Hstep. lia. }
  by replace (0 + N.of_nat (N.to_nat bound)) with bound in HP' by lia.
Qed.

(** ** Scenarios, checked by evaluation *)

(** C1. On the path graph 10 - 20 - 30 - 40 with edge lengths 1, 2, 3 the
    query from 10 to 40 returns distance 6 and route [10, 20, 30, 40], and
    the query from 10 to 10 returns distance 0 and route [10]; this holds
    for the overload without [preferStartVertex] and for either value of
    [preferStartVertex], on the fresh graph and when the second query
    follows the first on the same graph. *)
Theorem C1_path_graph_scenario :
  forall preferStartVertex : bool,
    answer (ShortestDistance_default Scenario.path_graph 10 40)
      = Ok (6%float, [10; 20; 30; 40])
    /\ answer (ShortestDistance_default Scenario.path_graph 10 10) = Ok (0%float, [10])
    /\ build_and_ask Scenario.path_matrix Scenario.path_labels 10 40 preferStartVertex
      = Ok (6%float, [10; 20; 30; 40])
    /\ build_and_ask Scenario.path_matrix Scenario.path_labels 10 10 preferStartVertex
      = Ok (0%float, [10])
    /\ build_and_ask_twice Scenario.path_matrix Scenario.path_labels
         10 40 preferStartVertex 10 10 preferStartVertex
      = Ok ((6%float, [10; 20; 30; 40]), (0%float, [10])).
Proof. intros []; repeat split; vm_compute; reflexivity. Qed.

(** C2, at the input where the code departs from it.  The lower-triangular
    input [[0], [1, 0]] is accepted by the validator and normalised to the
    square matrix [[0, 1], [1, 0]], whose entry (0, 1) is an edge; the
    adjacency loop then tests the raw input at (0, 1), outside its row 0,
    and no adjacency matrix is produced. *)
Theorem C2_adjacency_reads_raw_input :
  CheckInput_DistMat 2 Scenario.lower_input = Ok lowerTriangular
  /\ normalise 2 Scenario.lower_input lowerTriangular = Ok Scenario.square_of_triangular
  /\ mat_get Scenario.square_of_triangular 0 1 = Ok 1%float
  /\ mat_get Scenario.lower_input 0 1 = Raise OutOfBounds
  /\ make_adjacency 2 Scenario.lower_input = Raise OutOfBounds
  /\ CGraph_new Scenario.lower_input Scenario.two_labels = Raise OutOfBounds.
Proof. repeat split; vm_compute; reflexivity. Qed.

(** C3, at inputs where the code departs from it.  With vertex 30 cut off
    from 10 and 20, the tree rooted at 10 gives 30 the parent
    [(unsigned int)-1]; the walk from 30 pushes that value and then indexes
    the parent vector with it.  With no edge at all the run from the isolated
    root already indexes the adjacency matrix with [(unsigned int)-1].  No
    exception is raised in either case.  And a sentinel on the diagonal is
    returned as the distance from a vertex to itself. *)
Theorem C3_unreachable_pair_runs_out_of_the_vector :
  (forall p, build_and_ask Scenario.split_matrix Scenario.split_labels 30 10 p
             = Raise OutOfBounds)
  /\ (forall p, build_and_ask Scenario.split_matrix Scenario.split_labels 10 30 p
                = Raise OutOfBounds)
  /\ (forall p, build_and_ask Scenario.no_edge_matrix Scenario.two_labels 10 20 p
                = Raise OutOfBounds)
  /\ (forall p, build_and_ask Scenario.diagonal_sentinel Scenario.two_labels 10 10 p
                = Ok ((-1)%float, [10])).
Proof. repeat split; intros []; vm_compute; reflexivity. Qed.

(** C4, at an input where the code departs from it.  The matrix with 5 on
    the diagonal is square and has no negative entry, yet the distance from
    10 to 10 is 5, not 0: the start vertex gets the diagonal entry as its
    distance (lines 365-368).  The documentation of the function promises
    the shortest distance between the two vertices (lines 199 and 242),
    which is 0 from a vertex to itself, and the constructor takes no edge
    from the diagonal (line 103).  The route is [10], as the claim says. *)
Theorem C4_diagonal_entry_is_returned_as_distance :
  CheckInput_DistMat 2 Scenario.diagonal_five = Ok square
  /\ forallb (forallb ge_zero) Scenario.diagonal_five = true
  /\ forall p, build_and_ask Scenario.diagonal_five Scenario.two_labels 10 10 p
               = Ok (5%float, [10])
               /\ PrimFloat.eqb 5%float 0%float = false.
Proof. repeat split; try destruct p; vm_compute; reflexivity. Qed.

(** C7, at the input where the code departs from it.  The 1x1 matrix [[0]]
    has every row of length n = 1, yet the shape test reads row 1, which
    does not exist, and no verdict is reached.  Rows of lengths 1, 2, 4 are
    rejected as the claim says. *)
Theorem C7_one_by_one_matrix_is_not_classified :
  Forall (fun row => vec_size row = vec_size Scenario.one_by_one) Scenario.one_by_one
  /\ CheckInput_DistMat 1 Scenario.one_by_one = Raise OutOfBounds
  /\ CGraph_new Scenario.one_by_one [10] = Raise OutOfBounds
  /\ CheckInput_DistMat 3 Scenario.ragged_124 = Ok badShape
  /\ CGraph_new Scenario.ragged_124 [10; 20; 30] = Raise InputDistMat_NotSquareMatrix.
Proof.
  split; [repeat constructor|].
  repeat split; vm_compute; reflexivity.
Qed.

(** ** The validator on its first two rows *)

Lemma to_unsigned_small (n : N) : n <= max_unsignedInt -> to_unsigned n = n.
Proof. unfold to_unsigned, max_unsignedInt. intros H. apply N.mod_small. lia. Qed.

Lemma guess_shape_nil (n : N) : guess_shape n [] = Raise OutOfBounds.
Proof. reflexivity. Qed.

Lemma guess_shape_one (n : N) (r0 : list float) :
  guess_shape n [r0] =
    if (vec_size r0 =? n) || (vec_size r0 =? 1) then Raise OutOfBounds else Ok badShape.
Proof.
  unfold guess_shape, and_then, row_size. simpl.
  destruct (vec_size r0 =? n); simpl; [done|].
  destruct (vec_size r0 =? 1); done.
Qed.

Lemma guess_shape_two (n : N) (r0 r1 : list float) (rest : list (list float)) :
  guess_shape n (r0 :: r1 :: rest) =
    Ok (if (vec_size r0 =? n) && (vec_size r1 =? n) then square
        else if (vec_size r0 =? 1) && (vec_size r1 =? 2) then lowerTriangular
        else if (vec_size r0 =? n) && (vec_size r1 =? to_unsigned (n + 4294967296 - 1))
             then upperTriangular
        else badShape).
Proof.
  unfold guess_shape, and_then, row_size. simpl.
  destruct (vec_size r0 =? n), (vec_size r1 =? n), (vec_size r0 =? 1),
    (vec_size r1 =? 2), (vec_size r1 =? to_unsigned (n + 4294967296 - 1)); done.
Qed.

(** An early return of a loop is an early return of one of its rounds. *)
Lemma for_loop_ret_inr {S R : Type} (Q : R -> Prop) (body : N -> S -> outcome (S + R)) :
  (forall k t x, body k t = Ok (inr x) -> Q x) ->
  forall (n : nat) (i : N) (s : S) (x : R),
    for_loop_ret n i body s = Ok (inr x) -> Q x.
Proof.
  intros Hbody. induction n as [|n IH]; intros i s x Hrun; simpl in Hrun; [discriminate|].
  apply bind_Ok in Hrun as [[t|y] [Ht Hrun]].
  - by apply (IH _ _ _ Hrun).
  - injection Hrun as <-. by apply (Hbody _ _ _ Ht).
Qed.

Lemma check_row_inr n dm shape k t x :
  check_row n dm shape k t = Ok (inr x) -> is_rejection x.
Proof.
  unfold check_row, and_then, is_rejection. intros H.
  apply bind_Ok in H as [sz [_ H]].
  destruct (max_unsignedInt <? sz); [injection H as <-; auto|].
  destruct (is_square shape && negb (to_unsigned sz =? n)); [injection H as <-; auto|].
  apply bind_Ok in H as [lo [_ H]].
  destruct lo; [injection H as <-; auto|].
  apply bind_Ok in H as [up [_ H]].
  destruct up; [injection H as <-; auto|discriminate].
Qed.

Lemma check_elements_row_inr dm k t x :
  check_elements_row dm k t = Ok (inr x) -> is_rejection x.
Proof.
  unfold check_elements_row, for_upto_ret. intros H.
  apply bind_Ok in H as [n [_ H]].
  revert H. apply (for_loop_ret_inr is_rejection). clear. intros j [] x H.
  apply bind_Ok in H as [y [_ H]].
  apply bind_Ok in H as [c [_ H]].
  destruct c; [injection H as <-; red; auto|discriminate].
Qed.

(** An accepting verdict is the shape guessed from the first two rows. *)
Lemma CheckInput_DistMat_accepts n dm s :
  CheckInput_DistMat n dm = Ok s -> ~ is_rejection s ->
  guess_shape n dm = Ok s /\ vec_size dm <= max_unsignedInt.
Proof.
  unfold CheckInput_DistMat. intros H Hs.
  destruct (N.ltb_spec max_unsignedInt (vec_size dm)) as [Hbig|Hsmall].
  { injection H as <-. exfalso. apply Hs. red. auto. }
  split; [|done].
  apply bind_Ok in H as [shape [Hshape H]]. rewrite Hshape. f_equal.
  assert (forall r : unit + CGraph_DistMatCheckResult,
             for_upto_ret n (check_row n dm shape) tt = Ok r ->
             match r with
             | inr res => Ok res
             | inl _ =>
                 match shape with
                 | undefined => Raise InternalException
                 | _ => do r' <- for_upto_ret n (check_elements_row dm) tt;
                        match r' with inr res => Ok res | inl _ => Ok shape end
                 end
             end = Ok s -> shape = s) as Hrows.
  { intros [u|res] Hr Hres.
    - assert ((do r' <- for_upto_ret n (check_elements_row dm) tt;
               match r' with inr res => Ok res | inl _ => Ok shape end) = Ok s) as Hel
        by (destruct shape; done).
      apply bind_Ok in Hel as [[u'|res] [Hr' Hel]]; [congruence|].
      injection Hel as ->. exfalso. apply Hs.
      revert Hr'. unfold for_upto_ret. apply (for_loop_ret_inr is_rejection).
      apply check_elements_row_inr.
    - injection Hres as ->. exfalso. apply Hs.
      revert Hr. unfold for_upto_ret. apply (for_loop_ret_inr is_rejection).
      apply check_row_inr. }
  destruct shape; try (apply bind_Ok in H as [r [Hr H]]; by apply (Hrows r)).
  congruence.
Qed.

(** C10 fails as stated: a single row of length 2 never has row 1 read, and
    the constructor throws the documented shape exception. *)
Lemma C10_counterexample :
  vec_size Scenario.one_row_of_two < 2
  /\ CheckInput_DistMat (to_unsigned (vec_size Scenario.one_row_of_two)) Scenario.one_row_of_two
     = Ok badShape
  /\ CGraph_new Scenario.one_row_of_two [10] = Raise InputDistMat_NotSquareMatrix.
Proof. repeat split; vm_compute; reflexivity. Qed.

(** C10, amended.  With fewer than two rows the constructor never returns a
    graph.  It reads a row that does not exist, and reaches no verdict, when
    the input is empty or is one row of length 1; a single row of any other
    length is rejected with the shape exception, row 1 not being read. *)
Theorem C10_fewer_than_two_rows (distanceMatrix : list (list float)) (vertexLabels : list N) :
  vec_size distanceMatrix < 2 ->
  let verdict := CheckInput_DistMat (to_unsigned (vec_size distanceMatrix)) distanceMatrix in
  let built := CGraph_new distanceMatrix vertexLabels in
  match distanceMatrix with
  | [row] =>
      if vec_size row =? 1
      then verdict = Raise OutOfBounds /\ built = Raise OutOfBounds
      else verdict = Ok badShape /\ built = Raise InputDistMat_NotSquareMatrix
  | _ => verdict = Raise OutOfBounds /\ built = Raise OutOfBounds
  end.
Proof.
  intros Hsize.
  destruct distanceMatrix as [|r0 [|r1 rest]].
  - split; reflexivity.
  - unfold CGraph_new. simpl.
    change (to_unsigned (vec_size [r0])) with 1.
    unfold CheckInput_DistMat.
    change (max_unsignedInt <? vec_size [r0]) with false. simpl.
    rewrite guess_shape_one, orb_diag.
    destruct (vec_size r0 =? 1); split; reflexivity.
  - unfold vec_size in Hsize. simpl in Hsize. lia.
Qed.

Lemma C10_fewer_than_two_rows_witness :
  CheckInput_DistMat (to_unsigned (vec_size Scenario.one_by_one)) Scenario.one_by_one
    = Raise OutOfBounds
  /\ CGraph_new Scenario.one_by_one [10] = Raise OutOfBounds.
Proof.
  apply (C10_fewer_than_two_rows Scenario.one_by_one [10]). reflexivity.
Defined.

(** ** The constructor *)

(** Every round of a loop that returns has returned. *)
Lemma for_loop_rounds {S : Type} (body : N -> S -> outcome S) :
  forall (n : nat) (i : N) (s s' : S),
    for_loop n i body s = Ok s' ->
    forall k, i <= k < i + N.of_nat n -> exists t t', body k t = Ok t'.
Proof.
  induction n as [|n IH]; intros i s s' Hrun k Hk; [lia|].
  simpl in Hrun. apply bind_Ok in Hrun as [t [Ht Hrun]].
  destruct (N.eq_dec k i) as [->|Hne]; [eauto|].
  apply (IH _ _ _ Hrun). lia.
Qed.

Lemma for_upto_rounds {S : Type} (body : N -> S -> outcome S) (bound : N) (s s' : S) :
  for_upto bound body s = Ok s' ->
  forall k, k < bound -> exists t t', body k t = Ok t'.
Proof.
  unfold for_upto. intros Hrun k Hk.
  apply (for_loop_rounds body _ _ _ _ Hrun). lia.
Qed.

(** The adjacency loop reads the raw input at every pair of indices. *)
Lemma make_adjacency_reads (n : N) (dm : list (list float)) (adj : list (list bool)) :
  make_adjacency n dm = Ok adj ->
  forall i j, i < n -> j < n -> exists x, mat_get dm i j = Ok x.
Proof.
  unfold make_adjacency. intros Hrun i j Hi Hj.
  destruct (for_upto_rounds _ _ _ _ Hrun i Hi) as [t [t' Hrow]].
  destruct (for_upto_rounds _ _ _ _ Hrow j Hj) as [u [u' Hcell]].
  apply bind_Ok in Hcell as [c [Hc _]].
  unfold and_then in Hc. apply bind_Ok in Hc as [b [Hb _]].
  apply bind_Ok in Hb as [x [Hx _]]. eauto.
Qed.

Lemma mat_get_row_out {A : Type} (row : list A) (rows : list (list A)) (i j : N) :
  nth_N rows i = Some row -> vec_size row <= j -> mat_get rows i j = Raise OutOfBounds.
Proof.
  intros Hrow Hj. unfold mat_get, vec_get at 1. rewrite Hrow. simpl.
  by apply vec_get_out.
Qed.

(** A triangular input has an index pair below the order that lies outside
    its rows: (0, 1) for the lower shape, (1, n-1) for the upper one. *)
Lemma triangular_has_a_gap (n : N) (dm : list (list float)) (s : CGraph_DistMatCheckResult) :
  n = to_unsigned (vec_size dm) ->
  CheckInput_DistMat n dm = Ok s ->
  s = lowerTriangular \/ s = upperTriangular ->
  exists i j, i < n /\ j < n /\ mat_get dm i j = Raise OutOfBounds.
Proof.
  intros Hn Hcheck Hs.
  destruct (CheckInput_DistMat_accepts n dm s Hcheck) as [Hguess Hsmall].
  { unfold is_rejection. destruct Hs as [-> | ->]; intros [?|[?|?]]; discriminate. }
  rewrite to_unsigned_small in Hn by done.
  destruct dm as [|r0 [|r1 rest]].
  - rewrite guess_shape_nil in Hguess. discriminate.
  - rewrite guess_shape_one in Hguess.
    destruct ((vec_size r0 =? n) || (vec_size r0 =? 1)); [discriminate|].
    injection Hguess as <-. destruct Hs; discriminate.
  - assert (2 <= n) as Hn2 by (subst n; unfold vec_size; simpl; lia).
    assert (n <= max_unsignedInt) as Hnmax by (by subst n).
    rewrite guess_shape_two in Hguess. injection Hguess as Hguess.
    destruct (N.eqb_spec (vec_size r0) n) as [H0n|H0n];
      destruct (N.eqb_spec (vec_size r1) n) as [H1n|H1n];
      destruct (N.eqb_spec (vec_size r0) 1) as [H01|H01];
      destruct (N.eqb_spec (vec_size r1) 2) as [H12|H12];
      destruct (N.eqb_spec (vec_size r1) (to_unsigned (n + 4294967296 - 1))) as [H1u|H1u];
      simpl in Hguess; subst s; try (destruct Hs; discriminate);
      try (exists 0, 1; split; [lia|split; [lia|]];
           apply (mat_get_row_out r0); [done|lia]).
    all: exists 1, (n - 1); split; [lia|split; [lia|]];
      apply (mat_get_row_out r1); [done|];
      rewrite H1u; unfold to_unsigned;
      replace (n + 4294967296 - 1) with (n - 1 + 1 * 4294967296) by lia;
      rewrite N.Div0.mod_add, N.mod_small; unfold max_unsignedInt in Hnmax; lia.
Qed.

(** No graph comes out of an input with a triangular verdict. *)
Lemma triangular_input_not_constructed
    (distanceMatrix : list (list float)) (vertexLabels : list N)
    (shape : CGraph_DistMatCheckResult) :
  CheckInput_DistMat (to_unsigned (vec_size distanceMatrix)) distanceMatrix = Ok shape ->
  shape = lowerTriangular \/ shape = upperTriangular ->
  forall g, CGraph_new distanceMatrix vertexLabels <> Ok g.
Proof.
  intros Hcheck Hshape g Hnew.
  destruct (triangular_has_a_gap _ _ _ eq_refl Hcheck Hshape) as [i [j [Hi [Hj Hgap]]]].
  unfold CGraph_new in Hnew.
  apply bind_Ok in Hnew as [ty [_ Hnew]].
  apply bind_Ok in Hnew as [dm [_ Hnew]].
  apply bind_Ok in Hnew as [e2i [_ Hnew]].
  apply bind_Ok in Hnew as [adj [Hadj _]].
  destruct (make_adjacency_reads _ _ _ Hadj i j Hi Hj) as [x Hx].
  congruence.
Qed.

(** C9, on the code.  An input that the validator classifies as lower- or
    upper-triangular never becomes a graph: the adjacency loop indexes the
    raw triangular input as if it were square (and for the upper shape the
    copy into the square matrix does so too), so no query can be put to such
    a graph, let alone be answered as on the completed square matrix. *)
Theorem C9_triangular_input_is_never_constructed
    (distanceMatrix : list (list float)) (vertexLabels : list N)
    (shape : CGraph_DistMatCheckResult) :
  CheckInput_DistMat (to_unsigned (vec_size distanceMatrix)) distanceMatrix = Ok shape ->
  shape = lowerTriangular \/ shape = upperTriangular ->
  forall g, CGraph_new distanceMatrix vertexLabels <> Ok g.
Proof. apply triangular_input_not_constructed. Qed.

Lemma C9_triangular_input_is_never_constructed_witness :
  match CGraph_new Scenario.lower_input Scenario.two_labels with
  | Ok _ => False
  | _ => True
  end.
Proof.
  destruct (CGraph_new Scenario.lower_input Scenario.two_labels) as [g| |] eqn:Hnew;
    [|exact I|exact I].
  apply (C9_triangular_input_is_never_constructed
           Scenario.lower_input Scenario.two_labels lowerTriangular
           ltac:(reflexivity) ltac:(left; reflexivity) g Hnew).
Defined.

(** ** The cache *)

Lemma has_tree_true (g : CGraph) (v : N) :
  has_tree g v = true <-> exists k, m_DijkstraStartVertices g !! v = Some k.
Proof.
  unfold has_tree. rewrite bool_decide_eq_true. unfold is_Some. done.
Qed.

Lemma has_tree_false (g : CGraph) (v : N) :
  has_tree g v = false <-> m_DijkstraStartVertices g !! v = None.
Proof.
  unfold has_tree. rewrite bool_decide_eq_false, <- eq_None_not_Some. done.
Qed.

Lemma same_graph_refl (g : CGraph) : same_graph g g.
Proof. by repeat split. Qed.

Lemma same_graph_trans (g1 g2 g3 : CGraph) :
  same_graph g1 g2 -> same_graph g2 g3 -> same_graph g1 g3.
Proof. unfold same_graph. intros (?&?&?&?&?) (?&?&?&?&?). repeat split; congruence. Qed.

(** The three ways [InternalDijkstra] can return. *)
Lemma InternalDijkstra_Ok (g g' : CGraph) (v k : N) :
  InternalDijkstra g v = Ok (k, g') ->
  v < m_Order g
  /\ ((m_DijkstraStartVertices g !! v = Some k /\ g' = g)
      \/ (m_DijkstraStartVertices g !! v = None
          /\ k = new_slot g
          /\ exists st, g' = save_results g v st)).
Proof.
  unfold InternalDijkstra. intros H.
  destruct (N.leb_spec (m_Order g) v) as [Hv|Hv]; [discriminate|]. split; [done|].
  destruct (m_DijkstraStartVertices g !! v) as [slot|] eqn:Hslot.
  - left. by injection H as <- <-.
  - right. apply bind_Ok in H as [st [_ H]]. apply bind_Ok in H as [st' [_ H]].
    injection H as <- <-. eauto.
Qed.

Lemma InternalDijkstra_same_graph (g g' : CGraph) (v k : N) :
  InternalDijkstra g v = Ok (k, g') -> same_graph g g'.
Proof.
  intros H. apply InternalDijkstra_Ok in H as [_ [[_ ->]|(_ & _ & st & ->)]].
  - apply same_graph_refl.
  - by repeat split.
Qed.

Lemma InternalDijkstra_has_tree (g g' : CGraph) (v k : N) :
  InternalDijkstra g v = Ok (k, g') -> m_DijkstraStartVertices g' !! v = Some k.
Proof.
  intros H. apply InternalDijkstra_Ok in H as [_ [[H ->]|(_ & -> & st & ->)]]; [done|].
  simpl. apply lookup_insert_eq.
Qed.

Lemma InternalDijkstra_other_tree (g g' : CGraph) (v k w : N) :
  InternalDijkstra g v = Ok (k, g') -> w <> v ->
  m_DijkstraStartVertices g' !! w = m_DijkstraStartVertices g !! w.
Proof.
  intros H Hw. apply InternalDijkstra_Ok in H as [_ [[_ ->]|(_ & _ & st & ->)]]; [done|].
  simpl. by apply lookup_insert_ne.
Qed.

Lemma InternalDijkstra_keeps_slot (g g' : CGraph) (v k s ks : N) parents dists :
  InternalDijkstra g v = Ok (k, g') ->
  slot_at g s ks parents dists -> slot_at g' s ks parents dists.
Proof.
  intros H (Hs & Hr & Hd).
  apply InternalDijkstra_Ok in H as [_ [[_ ->]|(Hnone & _ & st & ->)]]; [done|].
  repeat split; simpl.
  - rewrite lookup_insert_ne; [done|]. congruence.
  - by apply nth_N_app_l.
  - by apply nth_N_app_l.
Qed.

(** A run either finds the tree, and changes nothing, or appends one. *)
Lemma InternalDijkstra_trees_computed (g g' : CGraph) (v k : N) :
  InternalDijkstra g v = Ok (k, g') ->
  if has_tree g v then g' = g
  else trees_computed g' = Datatypes.S (trees_computed g).
Proof.
  intros H. apply InternalDijkstra_Ok in H as [_ [[Hsome ->]|(Hnone & _ & st & ->)]].
  - assert (has_tree g v = true) as -> by (apply has_tree_true; eauto). done.
  - apply has_tree_false in Hnone. rewrite Hnone.
    unfold trees_computed. simpl. rewrite length_app. simpl. lia.
Qed.

Lemma choose_tree_Ok (g g' : CGraph) (s e : N) (p b : bool) :
  choose_tree g s e p = Ok (b, g') ->
  (has_tree g e = true /\ b = false /\ g' = g)
  \/ (has_tree g e = false /\ has_tree g s = true /\ b = true /\ g' = g)
  \/ (has_tree g e = false /\ has_tree g s = false /\ b = p
      /\ exists k, InternalDijkstra g (if p then s else e) = Ok (k, g')).
Proof.
  unfold choose_tree. intros H.
  destruct (has_tree g e); [left; by injection H as <- <-|right].
  destruct (has_tree g s); [left; by injection H as <- <-|right].
  destruct p; apply bind_Ok in H as [[k g1] [Hrun H]]; injection H as <- <-;
    repeat split; eauto.
Qed.

Lemma InternalShortestDistance_Ok (g g' : CGraph) (s e : N) (p : bool) a :
  InternalShortestDistance g s e p = Ok (a, g') ->
  exists b, choose_tree g s e p = Ok (b, g') /\ read_tree g' b s e = Ok a.
Proof.
  unfold InternalShortestDistance. intros H.
  apply bind_Ok in H as [[b g1] [Hc H]]. apply bind_Ok in H as [r [Hr H]].
  simpl in *. injection H as <- <-. eauto.
Qed.

Lemma ShortestDistance_Ok (g g' : CGraph) (s e : N) (p : bool) d route :
  ShortestDistance g s e p = Ok (d, route, g') ->
  exists i_s i_e iroute,
    ExternalToInternal g s = Ok i_s
    /\ ExternalToInternal g e = Ok i_e
    /\ InternalShortestDistance g i_s i_e p = Ok (d, iroute, g')
    /\ InternalToExternal_all g' iroute = Ok route.
Proof.
  unfold ShortestDistance. intros H.
  apply bind_Ok in H as [i_s [Hs H]]. apply bind_Ok in H as [i_e [He H]].
  apply bind_Ok in H as [[[d' iroute] g1] [Hq H]].
  apply bind_Ok in H as [route' [Hr H]]. simpl in *.
  injection H as <- <- <-. exists i_s, i_e, iroute. done.
Qed.

Lemma choose_tree_same_graph (g g' : CGraph) (s e : N) (p b : bool) :
  choose_tree g s e p = Ok (b, g') -> same_graph g g'.
Proof.
  intros H. apply choose_tree_Ok in H as [(_&_&->)|[(_&_&_&->)|(_&_&_&k&H)]];
    try apply same_graph_refl.
  by apply InternalDijkstra_same_graph in H.
Qed.

Lemma choose_tree_keeps_slot (g g' : CGraph) (s e : N) (p b : bool) v k parents dists :
  choose_tree g s e p = Ok (b, g') ->
  slot_at g v k parents dists -> slot_at g' v k parents dists.
Proof.
  intros H Hslot. apply choose_tree_Ok in H as [(_&_&->)|[(_&_&_&->)|(_&_&_&k'&H)]];
    try done.
  by apply (InternalDijkstra_keeps_slot _ _ _ _ _ _ _ _ H).
Qed.

Lemma query_step_same_graph (g g' : CGraph) : query_step g g' -> same_graph g g'.
Proof.
  intros [s e p [d route] H|s e p a H|v k H].
  - apply ShortestDistance_Ok in H as (i_s & i_e & iroute & _ & _ & H & _).
    apply InternalShortestDistance_Ok in H as (b & H & _).
    by apply choose_tree_same_graph in H.
  - apply InternalShortestDistance_Ok in H as (b & H & _).
    by apply choose_tree_same_graph in H.
  - by apply InternalDijkstra_same_graph in H.
Qed.

Lemma query_step_keeps_slot (g g' : CGraph) v k parents dists :
  query_step g g' -> slot_at g v k parents dists -> slot_at g' v k parents dists.
Proof.
  intros [s e p [d route] H|s e p a H|w k' H] Hslot.
  - apply ShortestDistance_Ok in H as (i_s & i_e & iroute & _ & _ & H & _).
    apply InternalShortestDistance_Ok in H as (b & H & _).
    by apply (choose_tree_keeps_slot _ _ _ _ _ _ _ _ _ _ H).
  - apply InternalShortestDistance_Ok in H as (b & H & _).
    by apply (choose_tree_keeps_slot _ _ _ _ _ _ _ _ _ _ H).
  - by apply (InternalDijkstra_keeps_slot _ _ _ _ _ _ _ _ H).
Qed.

Lemma later_same_graph (g g' : CGraph) : later g g' -> same_graph g g'.
Proof.
  induction 1 as [g|g1 g2 g3 Hstep _ IH]; [apply same_graph_refl|].
  apply (same_graph_trans _ g2); [by apply query_step_same_graph|done].
Qed.

Lemma later_keeps_slot (g g' : CGraph) v k parents dists :
  later g g' -> slot_at g v k parents dists -> slot_at g' v k parents dists.
Proof.
  induction 1 as [g|g1 g2 g3 Hstep _ IH]; [done|].
  intros Hslot. apply IH. by apply (query_step_keeps_slot g1).
Qed.

Lemma later_keeps_tree (g g' : CGraph) (v k : N) :
  later g g' ->
  m_DijkstraStartVertices g !! v = Some k -> m_DijkstraStartVertices g' !! v = Some k.
Proof.
  assert (forall g1 g2 w k', InternalDijkstra g1 w = Ok (k', g2) ->
            m_DijkstraStartVertices g1 !! v = Some k ->
            m_DijkstraStartVertices g2 !! v = Some k) as Hrun.
  { intros g1 g2 w k' H Hv.
    apply InternalDijkstra_Ok in H as [_ [[_ ->]|(Hnone & _ & st & ->)]]; [done|].
    simpl. rewrite lookup_insert_ne; [done|]. congruence. }
  assert (forall g1 g2 s e p b, choose_tree g1 s e p = Ok (b, g2) ->
            m_DijkstraStartVertices g1 !! v = Some k ->
            m_DijkstraStartVertices g2 !! v = Some k) as Hchoose.
  { intros g1 g2 s e p b H Hv.
    apply choose_tree_Ok in H as [(_&_&->)|[(_&_&_&->)|(_&_&_&k'&H)]]; try done.
    by apply (Hrun _ _ _ _ H). }
  induction 1 as [g|g1 g2 g3 Hstep _ IH]; [done|].
  intros Hv. apply IH.
  destruct Hstep as [s e p [d route] H|s e p a H|w k' H].
  - apply ShortestDistance_Ok in H as (i_s & i_e & iroute & _ & _ & H & _).
    apply InternalShortestDistance_Ok in H as (b & H & _).
    by apply (Hchoose _ _ _ _ _ _ H).
  - apply InternalShortestDistance_Ok in H as (b & H & _).
    by apply (Hchoose _ _ _ _ _ _ H).
  - by apply (Hrun _ _ _ _ H).
Qed.

(** The walk of the source reads one parent vector only. *)
Lemma unwind_walk (g : CGraph) (k root : N) (parents : list N) :
  nth_N (m_DijkstraOutputRoutes g) k = Some parents ->
  forall fuel route back,
    unwind fuel g k root route back = walk_to_root fuel parents root route back.
Proof.
  intros Hk. induction fuel as [|fuel IH]; intros route back; simpl; [done|].
  destruct (back =? root); [done|].
  unfold mat_get, vec_get at 1. rewrite Hk. simpl.
  destruct (vec_get parents back); simpl; auto.
Qed.

Lemma read_tree_from_end (g : CGraph) (s e k : N) parents dists :
  slot_at g e k parents dists ->
  read_tree g false s e = answer_from_tree (m_Order g) parents dists e s.
Proof.
  intros (Hk & Hr & Hd). unfold read_tree, answer_from_tree, slot_of. rewrite Hk. simpl.
  rewrite (unwind_walk g k e parents Hr).
  destruct (walk_to_root _ _ _ _ _); simpl; try done.
  unfold mat_get, vec_get at 1. by rewrite Hd.
Qed.

Lemma read_tree_from_start (g : CGraph) (s e k : N) parents dists :
  slot_at g s k parents dists ->
  read_tree g true s e = omap reverse_route (answer_from_tree (m_Order g) parents dists s e).
Proof.
  intros (Hk & Hr & Hd). unfold read_tree, answer_from_tree, slot_of, omap. rewrite Hk. simpl.
  rewrite (unwind_walk g k s parents Hr).
  destruct (walk_to_root _ _ _ _ _); simpl; try done.
  unfold mat_get, vec_get at 1. rewrite Hd. simpl.
  destruct (vec_get dists e); done.
Qed.

Lemma InternalShortestDistance_policy (g : CGraph) (s e : N) (p : bool) :
  InternalShortestDistance g s e p =
    if has_tree g e then do a <- read_tree g false s e; Ok (a, g)
    else if has_tree g s then do a <- read_tree g true s e; Ok (a, g)
    else do t <- InternalDijkstra g (if p then s else e);
         do a <- read_tree (snd t) p s e; Ok (a, snd t).
Proof.
  unfold InternalShortestDistance, choose_tree.
  destruct (has_tree g e); [done|]. destruct (has_tree g s); [done|].
  destruct p; destruct (InternalDijkstra g _) as [[k g']| |]; done.
Qed.

(** The policy as equations.  The tree that answers a query is the one
    rooted at the end vertex if the cache has it, else the one rooted at
    the start vertex if the cache has it, else a tree computed now, rooted
    at the start vertex when [preferStartVertex] holds and at the end vertex
    otherwise.  A query answered from a cached tree leaves the graph as it
    was; a query that computes a tree adds exactly one.  Hence, once a tree
    is rooted at [e], every query ending at [e], in any later state and
    whatever its start vertex and preference, is answered from that tree,
    whose slot and vectors are those it had, and leaves the graph as it
    was. *)
Lemma cache_policy_equations (g : CGraph) (s e : N) (p : bool) :
  InternalShortestDistance g s e p =
    (if has_tree g e then do a <- read_tree g false s e; Ok (a, g)
     else if has_tree g s then do a <- read_tree g true s e; Ok (a, g)
     else do t <- InternalDijkstra g (if p then s else e);
          do a <- read_tree (snd t) p s e; Ok (a, snd t))
  /\ (forall a g', InternalShortestDistance g s e p = Ok (a, g') ->
        if has_tree g e || has_tree g s then g' = g
        else trees_computed g' = Datatypes.S (trees_computed g)
             /\ has_tree g' (if p then s else e) = true)
  /\ (forall g2, has_tree g e = true -> later g g2 ->
        forall c p2,
          InternalShortestDistance g2 c e p2 = (do a <- read_tree g2 false c e; Ok (a, g2))
          /\ slot_of g2 e = slot_of g e)
  /\ (forall g2 k parents dists, slot_at g e k parents dists -> later g g2 ->
        forall c p2,
          InternalShortestDistance g2 c e p2
            = (do a <- answer_from_tree (m_Order g) parents dists e c; Ok (a, g2)))
  /\ (forall g2 label_e, has_tree g e = true -> later g g2 ->
        ExternalToInternal g label_e = Ok e ->
        forall label_c p2 a g3,
          ShortestDistance g2 label_c label_e p2 = Ok (a, g3) -> g3 = g2).
Proof.
  split; [apply InternalShortestDistance_policy|].
  assert (forall g2, has_tree g e = true -> later g g2 ->
            has_tree g2 e = true /\ slot_of g2 e = slot_of g e) as Hkeep.
  { intros g2 Hhas Hlater. apply has_tree_true in Hhas as [k Hk].
    pose proof (later_keeps_tree _ _ _ _ Hlater Hk) as Hk2.
    split; [apply has_tree_true; eauto|]. unfold slot_of. by rewrite Hk, Hk2. }
  split; [|split; [|split]].
  - intros a g' H. rewrite InternalShortestDistance_policy in H.
    destruct (has_tree g e) eqn:He; simpl.
    { apply bind_Ok in H as [r [_ H]]. by injection H as _ <-. }
    destruct (has_tree g s) eqn:Hs; simpl.
    { apply bind_Ok in H as [r [_ H]]. by injection H as _ <-. }
    apply bind_Ok in H as [[k g1] [Hrun H]]. apply bind_Ok in H as [r [_ H]].
    simpl in H. injection H as _ <-.
    split.
    + pose proof (InternalDijkstra_trees_computed _ _ _ _ Hrun) as Hn.
      destruct p; [by rewrite Hs in Hn|by rewrite He in Hn].
    + apply has_tree_true. exists k. by apply (InternalDijkstra_has_tree g).
  - intros g2 Hhas Hlater c p2.
    destruct (Hkeep g2 Hhas Hlater) as [Hhas2 Hslot]. split; [|done].
    rewrite InternalShortestDistance_policy. by rewrite Hhas2.
  - intros g2 k parents dists Hslot Hlater c p2.
    pose proof (later_keeps_slot _ _ _ _ _ _ Hlater Hslot) as Hslot2.
    assert (has_tree g2 e = true) as Hhas2.
    { apply has_tree_true. exists k. apply Hslot2. }
    rewrite InternalShortestDistance_policy, Hhas2.
    rewrite (read_tree_from_end g2 c e k parents dists Hslot2).
    by destruct (later_same_graph _ _ Hlater) as [-> _].
  - intros g2 label_e Hhas Hlater Hlabel label_c p2 [d route] g3 H.
    apply ShortestDistance_Ok in H as (i_c & i_e & iroute & _ & He & H & _).
    destruct (later_same_graph _ _ Hlater) as (_ & _ & Hmap & _).
    unfold ExternalToInternal in *. rewrite Hmap in He.
    assert (i_e = e) as -> by (destruct (m_ExternalToInternal g !! label_e); congruence).
    destruct (Hkeep g2 Hhas Hlater) as [Hhas2 _].
    rewrite InternalShortestDistance_policy, Hhas2 in H.
    apply bind_Ok in H as [r [_ H]]. by injection H as _ <-.
Qed.

Lemma unwind_at_target (g : CGraph) (fuel : nat) (k target : N) (route : list N) :
  unwind fuel g k target route target = Ok route.
Proof. destruct fuel; simpl; by rewrite N.eqb_refl. Qed.

(** With both endpoints equal the two branches of the source coincide. *)
Lemma read_tree_same_vertex (g : CGraph) (b : bool) (v : N) :
  read_tree g b v v =
    do d <- mat_get (m_DijkstraShortestDistances g) (slot_of g v) v; Ok (d, [v]).
Proof. unfold read_tree. destruct b; by rewrite unwind_at_target. Qed.

(** Asking for the opposite direction from the other endpoint's branch
    reads the same tree and walks the same vertices. *)
Lemma read_tree_swap (g : CGraph) (b : bool) (s e : N) :
  read_tree g (negb b) e s = omap reverse_route (read_tree g b s e).
Proof.
  unfold read_tree, omap, reverse_route. destruct b; simpl.
  - destruct (unwind _ g (slot_of g s) s [e] e) as [rr| |]; simpl; try done.
    destruct (mat_get _ _ _); simpl; try done. by rewrite rev_involutive.
  - destruct (unwind _ g (slot_of g e) e [s] s) as [rr| |]; simpl; try done.
    destruct (mat_get _ _ _); simpl; done.
Qed.

Lemma InternalToExternal_all_same_graph (g g' : CGraph) (route : list N) :
  same_graph g g' -> InternalToExternal_all g' route = InternalToExternal_all g route.
Proof.
  intros (_ & Hl & _). induction route as [|v rest IH]; simpl; [done|].
  by rewrite Hl, IH.
Qed.

Lemma InternalToExternal_all_app (g : CGraph) (r1 r2 l1 l2 : list N) :
  InternalToExternal_all g r1 = Ok l1 -> InternalToExternal_all g r2 = Ok l2 ->
  InternalToExternal_all g (r1 ++ r2) = Ok (l1 ++ l2).
Proof.
  revert l1. induction r1 as [|v r1 IH]; intros l1 H1 H2; simpl in *.
  - by injection H1 as <-.
  - apply bind_Ok in H1 as [l [Hl H1]]. apply bind_Ok in H1 as [l1' [Hl1 H1]].
    injection H1 as <-. rewrite Hl. simpl. by rewrite (IH l1' Hl1 H2).
Qed.

Lemma InternalToExternal_all_rev (g : CGraph) (route labels : list N) :
  InternalToExternal_all g route = Ok labels ->
  InternalToExternal_all g (rev route) = Ok (rev labels).
Proof.
  revert labels. induction route as [|v rest IH]; intros labels H; simpl in *.
  - by injection H as <-.
  - apply bind_Ok in H as [l [Hl H]]. apply bind_Ok in H as [rest' [Hrest H]].
    injection H as <-. simpl.
    apply InternalToExternal_all_app; [by apply IH|]. simpl. by rewrite Hl.
Qed.

(** The tree chosen by a query that returned is chosen again, or, when both
    endpoints coincide, one that reads the same. *)
Lemma choose_tree_again (g g1 : CGraph) (s e : N) (p b : bool) :
  choose_tree g s e p = Ok (b, g1) ->
  exists b', choose_tree g1 s e p = Ok (b', g1)
             /\ read_tree g1 b' s e = read_tree g1 b s e.
Proof.
  intros H. pose proof H as H'.
  apply choose_tree_Ok in H as [(He&->&->)|[(He&Hs&->&->)|(He&Hs&->&k&Hrun)]];
    [by eexists|by eexists|].
  unfold choose_tree.
  assert (m_DijkstraStartVertices g1 !! (if p then s else e) = Some k) as Hroot
    by apply (InternalDijkstra_has_tree _ _ _ _ Hrun).
  destruct p.
  - assert (has_tree g1 s = true) as Hs1 by (apply has_tree_true; eauto).
    destruct (N.eq_dec e s) as [->|Hne].
    + rewrite Hs1. exists false. split; [done|]. by rewrite !read_tree_same_vertex.
    + assert (has_tree g1 e = false) as ->.
      { apply has_tree_false. rewrite (InternalDijkstra_other_tree _ _ _ _ e Hrun Hne).
        by apply has_tree_false. }
      rewrite Hs1. by exists true.
  - assert (has_tree g1 e = true) as -> by (apply has_tree_true; eauto).
    by exists false.
Qed.

(** C6. A slot, once it exists, stays: asking [InternalDijkstra] again for
    the same vertex returns the same slot index and the graph unchanged; in
    every later state the slot of [s] has the same index and holds the same
    parent and distance vectors, and a request for [s] is answered from it;
    and a query repeated with the same arguments returns the same distance
    and route and leaves the graph as the first call left it. *)
Theorem C6_cache_slots_are_permanent (g : CGraph) (s : N) :
  (forall k g1, InternalDijkstra g s = Ok (k, g1) -> InternalDijkstra g1 s = Ok (k, g1))
  /\ (forall k parents dists g',
        slot_at g s k parents dists -> later g g' ->
        slot_at g' s k parents dists
        /\ (trees_computed g <= trees_computed g')%nat
        /\ (s < m_Order g -> InternalDijkstra g' s = Ok (k, g')))
  /\ (forall label_s label_t p a g1,
        ShortestDistance g label_s label_t p = Ok (a, g1) ->
        ShortestDistance g1 label_s label_t p = Ok (a, g1)).
Proof.
  split; [|split].
  - intros k g1 H.
    pose proof (InternalDijkstra_has_tree _ _ _ _ H) as Hk.
    pose proof (InternalDijkstra_same_graph _ _ _ _ H) as [Ho _].
    apply InternalDijkstra_Ok in H as [Hs _].
    unfold InternalDijkstra. rewrite Ho, Hk.
    destruct (N.leb_spec (m_Order g) s); [lia|done].
  - intros k parents dists g' Hslot Hlater.
    pose proof (later_keeps_slot _ _ _ _ _ _ Hlater Hslot) as Hslot'.
    split; [done|]. split.
    + clear -Hlater. induction Hlater as [g|g1 g2 g3 Hstep _ IH]; [done|].
      etrans; [|apply IH]. clear -Hstep.
      assert (forall v k, InternalDijkstra g1 v = Ok (k, g2) ->
                (trees_computed g1 <= trees_computed g2)%nat) as Hrun.
      { intros v k H. apply InternalDijkstra_trees_computed in H.
        destruct (has_tree g1 v); [by subst|lia]. }
      assert (forall s e p b, choose_tree g1 s e p = Ok (b, g2) ->
                (trees_computed g1 <= trees_computed g2)%nat) as Hchoose.
      { intros s e p b H.
        apply choose_tree_Ok in H as [(_&_&->)|[(_&_&_&->)|(_&_&_&k&H)]]; try done.
        by apply Hrun in H. }
      destruct Hstep as [s e p [d route] H|s e p a H|w k' H].
      * apply ShortestDistance_Ok in H as (i_s & i_e & iroute & _ & _ & H & _).
        apply InternalShortestDistance_Ok in H as (b & H & _). by apply Hchoose in H.
      * apply InternalShortestDistance_Ok in H as (b & H & _). by apply Hchoose in H.
      * by apply Hrun in H.
    + intros Hs. destruct (later_same_graph _ _ Hlater) as [Ho _].
      destruct Hslot' as [Hk _].
      unfold InternalDijkstra. rewrite Ho, Hk.
      destruct (N.leb_spec (m_Order g) s); [lia|done].
  - intros label_s label_t p [d route] g1 H.
    apply ShortestDistance_Ok in H as (i_s & i_e & iroute & Hs & He & H & Hroute).
    apply InternalShortestDistance_Ok in H as (b & Hchoose & Hread).
    pose proof (choose_tree_same_graph _ _ _ _ _ _ Hchoose) as Hsame.
    destruct (choose_tree_again _ _ _ _ _ _ Hchoose) as (b' & Hchoose' & Hread').
    unfold ShortestDistance, ExternalToInternal in *.
    destruct Hsame as (_ & _ & -> & _).
    destruct (m_ExternalToInternal g !! label_s); [|discriminate].
    destruct (m_ExternalToInternal g !! label_t); [|discriminate].
    injection Hs as ->. injection He as ->. simpl.
    unfold InternalShortestDistance. rewrite Hchoose'. simpl.
    rewrite Hread', Hread. simpl. by rewrite Hroute.
Qed.

Lemma C6_cache_slots_are_permanent_witness :
  ShortestDistance Scenario.path_graph_asked 10 40 false
    = Ok (6%float, [10; 20; 30; 40], Scenario.path_graph_asked).
Proof.
  apply (proj2 (proj2 (C6_cache_slots_are_permanent Scenario.path_graph 0))
           10 40 false (6%float, [10; 20; 30; 40]) Scenario.path_graph_asked).
  vm_compute. reflexivity.
Defined.


(** On one graph whose cache does not hold a tree for both endpoints, the
    query from [s] to [t] and the query from [t] to [s] that follows it are
    read from the same tree: the second returns the same distance, the route
    reversed, and leaves the graph as the first call left it.  No symmetry
    of the matrix is needed for this. *)
Lemma opposite_query_reads_the_same_tree
    (g g1 : CGraph) (label_s label_t i_s i_t : N) (p : bool) (d : float) (route : list N) :
  ExternalToInternal g label_s = Ok i_s ->
  ExternalToInternal g label_t = Ok i_t ->
  has_tree g i_s && has_tree g i_t = false ->
  ShortestDistance g label_s label_t p = Ok (d, route, g1) ->
  forall p', ShortestDistance g1 label_t label_s p' = Ok (d, rev route, g1).
Proof.
  intros Hs Ht Hnot H p'.
  apply ShortestDistance_Ok in H as (i_s' & i_t' & iroute & Hs' & Ht' & H & Hroute).
  assert (i_s' = i_s) as -> by congruence. assert (i_t' = i_t) as -> by congruence.
  apply InternalShortestDistance_Ok in H as (b & Hchoose & Hread).
  pose proof (choose_tree_same_graph _ _ _ _ _ _ Hchoose) as Hsame.
  assert (exists b', choose_tree g1 i_t i_s p' = Ok (b', g1)
                     /\ read_tree g1 b' i_t i_s = Ok (d, rev iroute)) as (b' & Hc' & Hr').
  { destruct (N.eq_dec i_t i_s) as [->|Hne].
    - exists false. split.
      + unfold choose_tree.
        assert (has_tree g1 i_s = true) as ->; [|done].
        apply choose_tree_Ok in Hchoose
          as [(He&_&->)|[(_&He&_&->)|(_&_&_&k&Hrun)]]; try done.
        apply has_tree_true. exists k.
        apply InternalDijkstra_has_tree in Hrun. by destruct p.
      + rewrite read_tree_same_vertex in *.
        apply bind_Ok in Hread as [d' [Hd Hread]]. injection Hread as <- <-.
        by rewrite Hd.
    - exists (negb b). split.
      + unfold choose_tree.
        apply choose_tree_Ok in Hchoose
          as [(He&->&->)|[(He&Hs1&->&->)|(He&Hs1&->&k&Hrun)]]; simpl.
        * rewrite He in Hnot. rewrite andb_true_r in Hnot. by rewrite Hnot, He.
        * by rewrite Hs1.
        * pose proof (InternalDijkstra_has_tree _ _ _ _ Hrun) as Hroot.
          destruct p; simpl.
          -- assert (has_tree g1 i_s = true) as -> by (apply has_tree_true; eauto). done.
          -- assert (has_tree g1 i_s = false) as ->.
             { apply has_tree_false.
               rewrite (InternalDijkstra_other_tree _ _ _ _ i_s Hrun) by done.
               by apply has_tree_false. }
             assert (has_tree g1 i_t = true) as -> by (apply has_tree_true; eauto). done.
      + rewrite read_tree_swap, Hread. done. }
  unfold ShortestDistance, ExternalToInternal in *.
  destruct Hsame as (_ & _ & -> & _).
  destruct (m_ExternalToInternal g !! label_s); [|discriminate].
  destruct (m_ExternalToInternal g !! label_t); [|discriminate].
  injection Hs as ->. injection Ht as ->. simpl.
  unfold InternalShortestDistance. rewrite Hc'. simpl. rewrite Hr'. simpl.
  by rewrite (InternalToExternal_all_rev _ _ _ Hroute).
Qed.

(** ** Matrices *)

Lemma mat_dims_fill {A : Type} (n : N) (x : A) : mat_dims (vec_fill n (vec_fill n x)) n.
Proof.
  split; [apply vec_size_fill|].
  intros i row Hrow. pose proof (nth_N_bound _ _ _ Hrow) as Hi.
  rewrite vec_size_fill in Hi. rewrite nth_N_fill in Hrow by done.
  injection Hrow as <-. apply vec_size_fill.
Qed.

Lemma mat_get_in {A : Type} (m : list (list A)) (n i j : N) :
  mat_dims m n -> i < n -> j < n -> exists x, mat_get m i j = Ok x.
Proof.
  intros [Hrows Hcols] Hi Hj. unfold mat_get.
  destruct (nth_N_Some m i) as [row Hrow]; [lia|].
  unfold vec_get at 1. rewrite Hrow. simpl.
  apply vec_get_in. rewrite (Hcols _ _ Hrow). done.
Qed.

Lemma mat_get_fill {A : Type} (n i j : N) (x : A) :
  i < n -> j < n -> mat_get (vec_fill n (vec_fill n x)) i j = Ok x.
Proof.
  intros Hi Hj. unfold mat_get, vec_get. rewrite nth_N_fill by done. simpl.
  by rewrite nth_N_fill.
Qed.

Lemma mat_set_in {A : Type} (m : list (list A)) (n i j : N) (x : A) :
  mat_dims m n -> i < n -> j < n -> exists m', mat_set m i j x = Ok m'.
Proof.
  intros [Hrows Hcols] Hi Hj. unfold mat_set.
  destruct (nth_N_Some m i) as [row Hrow]; [lia|].
  unfold vec_get. rewrite Hrow. simpl.
  rewrite vec_set_in by (rewrite (Hcols _ _ Hrow); done). simpl.
  rewrite vec_set_in by lia. eauto.
Qed.

Lemma mat_set_Ok {A : Type} (m m' : list (list A)) (n i j : N) (x : A) :
  mat_dims m n -> mat_set m i j x = Ok m' ->
  mat_dims m' n
  /\ forall a b, mat_get m' a b = if (a =? i) && (b =? j) then Ok x else mat_get m a b.
Proof.
  intros [Hrows Hcols] Hset. unfold mat_set in Hset.
  apply bind_Ok in Hset as [row [Hrow Hset]]. apply vec_get_Ok in Hrow.
  apply bind_Ok in Hset as [row' [Hrow' Hset]].
  apply vec_set_Ok in Hrow' as [Hj ->]. apply vec_set_Ok in Hset as [Hi ->].
  split; [split|].
  - by rewrite vec_size_insert.
  - intros a r Hr. rewrite nth_N_insert in Hr by done.
    destruct (a =? i).
    + injection Hr as <-. rewrite vec_size_insert. by apply (Hcols i).
    + by apply (Hcols a).
  - intros a b. unfold mat_get, vec_get. rewrite nth_N_insert by done.
    destruct (N.eqb_spec a i) as [->|Ha]; simpl; [|done].
    rewrite nth_N_insert by done. rewrite Hrow. simpl.
    destruct (b =? j); done.
Qed.

(** ** The constructor establishes well-formedness *)

Lemma and_then_pure (a b : bool) : and_then (Ok a) (Ok b) = Ok (a && b).
Proof. by destruct a. Qed.

(** The adjacency matrix, entry by entry, when the loop returns. *)
Lemma make_adjacency_Ok (n : N) (dm : list (list float)) (adj : list (list bool)) :
  make_adjacency n dm = Ok adj ->
  mat_dims adj n
  /\ forall i j, i < n -> j < n ->
       exists x, mat_get dm i j = Ok x /\ mat_get adj i j = Ok (is_edge x i j).
Proof.
  intros Hrun. pose proof (make_adjacency_reads _ _ _ Hrun) as Hreads.
  set (entry := fun a b => match mat_get dm a b with
                           | Ok x => is_edge x a b
                           | _ => false
                           end).
  set (done_upto := fun (i j : N) (m : list (list bool)) =>
         mat_dims m n
         /\ forall a b, a < n -> b < n ->
              mat_get m a b = Ok (if (a <? i) || ((a =? i) && (b <? j))
                                  then entry a b else false)).
  assert (done_upto n 0 adj) as [Hdims Hadj].
  { unfold make_adjacency in Hrun.
    apply (for_upto_partial (fun i m => done_upto i 0 m) _ _ _ _ Hrun).
    - split; [apply mat_dims_fill|]. intros a b Ha Hb.
      rewrite mat_get_fill by done.
      replace (a <? 0) with false by (symmetry; apply N.ltb_ge; lia).
      replace (b <? 0) with false by (symmetry; apply N.ltb_ge; lia).
      by rewrite andb_false_r.
    - intros i m m' Hi Hm Hrow.
      assert (done_upto i n m') as [Hd' Hm'].
      { apply (for_upto_partial (fun j m => done_upto i j m) _ _ _ _ Hrow); [done|].
        clear m m' Hm Hrow. intros j m m' Hj [Hd Hm] Hcell.
        apply bind_Ok in Hcell as [c [Hc Hcell]].
        destruct (Hreads i j Hi Hj) as [x Hx].
        unfold and_then in Hc. rewrite Hx in Hc. simpl in Hc.
        assert (c = is_edge x i j) as ->
          by (unfold is_edge; destruct (ge_zero x); simpl in *; congruence).
        clear Hc.
        assert (entry i j = is_edge x i j) as Hentry by (unfold entry; by rewrite Hx).
        assert (forall a b, a < n -> b < n ->
                  ((a <? i) || ((a =? i) && (b <? N.succ j)))
                  = ((a <? i) || ((a =? i) && (b <? j))) || ((a =? i) && (b =? j))) as Hidx.
        { intros a b _ _.
          destruct (N.ltb_spec a i), (N.eqb_spec a i), (N.ltb_spec b (N.succ j)),
            (N.ltb_spec b j), (N.eqb_spec b j); simpl; try reflexivity; exfalso; lia. }
        destruct (is_edge x i j) eqn:Hedge.
        - destruct (mat_set_Ok _ _ _ _ _ _ Hd Hcell) as [Hd' Hget].
          split; [done|]. intros a b Ha Hb. rewrite Hget, Hidx by done.
          destruct ((a =? i) && (b =? j)) eqn:Hab.
          + apply andb_true_iff in Hab as [->%N.eqb_eq ->%N.eqb_eq].
            by rewrite orb_true_r, Hentry.
          + rewrite Hm by done. by rewrite orb_false_r.
        - injection Hcell as <-. split; [done|]. intros a b Ha Hb.
          rewrite Hm, Hidx by done.
          destruct ((a =? i) && (b =? j)) eqn:Hab.
          + apply andb_true_iff in Hab as [->%N.eqb_eq ->%N.eqb_eq].
            rewrite orb_true_r, Hentry. by destruct ((i <? i) || (i =? i) && (j <? j)).
          + by rewrite orb_false_r. }
      split; [done|]. intros a b Ha Hb. rewrite Hm' by done.
      assert ((a <? i) || (a =? i) && (b <? n)
              = (a <? N.succ i) || (a =? N.succ i) && (b <? 0)) as ->; [|done].
      destruct (N.ltb_spec a i), (N.eqb_spec a i), (N.ltb_spec a (N.succ i)),
        (N.eqb_spec a (N.succ i)), (N.ltb_spec b n), (N.ltb_spec b 0);
        simpl; try reflexivity; exfalso; lia. }
  split; [done|]. intros i j Hi Hj.
  destruct (Hreads i j Hi Hj) as [x Hx]. exists x. split; [done|].
  rewrite Hadj by done.
  replace (i <? n) with true by (symmetry; apply N.ltb_lt; lia). simpl.
  unfold entry. by rewrite Hx.
Qed.

(** Every entry of the label table points back into the label list. *)
Lemma store_labels_Ok (n : N) (labels : list N) (e2i : gmap N N) :
  store_labels n labels = Ok e2i ->
  vec_size labels = n
  /\ forall l i, e2i !! l = Some i -> i < n /\ nth_N labels i = Some l.
Proof.
  unfold store_labels. intros H.
  destruct (N.eqb_spec n (vec_size labels)) as [Hn|Hn]; [|discriminate]. simpl in H.
  apply bind_Ok in H as [m [Hloop H]].
  destruct (negb (n =? N.of_nat (base.size m))); [discriminate|]. injection H as <-.
  split; [done|]. rewrite Hn.
  apply (for_upto_partial
           (fun i (m : gmap N N) =>
              forall l k, m !! l = Some k -> k < i /\ nth_N labels k = Some l)
           _ _ _ _ Hloop).
  - intros l k Hl. by rewrite lookup_empty in Hl.
  - intros i t t' Hi Ht Hround l k Hl.
    apply bind_Ok in Hround as [li [Hli Hround]]. injection Hround as <-.
    apply vec_get_Ok in Hli.
    destruct (N.eq_dec l li) as [->|Hne].
    + rewrite lookup_insert_eq in Hl. injection Hl as <-. split; [lia|done].
    + rewrite lookup_insert_ne in Hl by done.
      destruct (Ht l k Hl). split; [lia|done].
Qed.

Lemma normalise_Ok (n : N) (dm dm' : list (list float)) (ty : CGraph_DistMatCheckResult) :
  normalise n dm ty = Ok dm' ->
  (ty = square /\ dm' = dm) \/ ty = lowerTriangular \/ ty = upperTriangular.
Proof. destruct ty; simpl; intros H; try discriminate; auto. injection H as <-. auto. Qed.

(** A graph that the constructor returns was given a square matrix with at
    least two rows, holds that matrix, has an empty cache, and is
    well-formed. *)
Lemma CGraph_new_Ok (dm : list (list float)) (labels : list N) (g : CGraph) :
  CGraph_new dm labels = Ok g ->
  CheckInput_DistMat (m_Order g) dm = Ok square
  /\ m_Order g = vec_size dm
  /\ 2 <= m_Order g
  /\ m_DistanceMatrix g = dm
  /\ m_InternalToExternal g = labels
  /\ vec_size labels = m_Order g
  /\ m_DijkstraStartVertices g = ∅
  /\ m_DijkstraOutputRoutes g = []
  /\ m_DijkstraShortestDistances g = []
  /\ graph_wf g.
Proof.
  intros Hnew. pose proof Hnew as Hnew'. unfold CGraph_new in Hnew.
  apply bind_Ok in Hnew as [ty [Hty Hnew]].
  apply bind_Ok in Hnew as [dm' [Hdm' Hnew]].
  apply bind_Ok in Hnew as [e2i [He2i Hnew]].
  apply bind_Ok in Hnew as [adj [Hadj Hnew]].
  injection Hnew as <-. simpl.
  apply normalise_Ok in Hdm' as [[-> ->]|Htri].
  2:{ exfalso.
      by apply (triangular_input_not_constructed dm labels ty Hty Htri _ Hnew'). }
  destruct (CheckInput_DistMat_accepts _ _ _ Hty) as [Hguess Hsmall].
  { unfold is_rejection. intros [?|[?|?]]; discriminate. }
  rewrite to_unsigned_small in * by done.
  assert (2 <= vec_size dm) as Hn2.
  { destruct dm as [|r0 [|r1 rest]].
    - rewrite guess_shape_nil in Hguess. discriminate.
    - rewrite guess_shape_one in Hguess.
      destruct ((vec_size r0 =? vec_size [r0]) || (vec_size r0 =? 1)); discriminate.
    - unfold vec_size. simpl. lia. }
  destruct (make_adjacency_Ok _ _ _ Hadj) as [Hdims Hentries].
  destruct (store_labels_Ok _ _ _ He2i) as [Hsize Hlabels].
  do 9 (split; [done|]).
  constructor; simpl; [done|done|done|].
  intros l i Hl. by apply Hlabels.
Qed.

(** ** The single-source run *)

Lemma ge_zero_not_minus_one (x : float) : ge_zero x = true -> not_minus_one x = true.
Proof.
  unfold ge_zero, not_minus_one, is_minus_one, minus_one.
  rewrite FloatAxioms.leb_spec, FloatAxioms.eqb_spec.
  change (Prim2SF 0) with (S754_zero false).
  replace (Prim2SF (-1)) with (S754_finite true 4503599627370496 (-52))
    by (vm_compute; reflexivity).
  destruct (Prim2SF x) as [s|s| |s m e]; try destruct s; simpl;
    try discriminate; reflexivity.
Qed.

Lemma unconfirmed_replicate (n : nat) : unconfirmed (replicate n false) = n.
Proof. induction n as [|n IH]; simpl; [done|]. by rewrite IH. Qed.

Lemma unconfirmed_confirm (known : list bool) (k : nat) :
  known !! k = Some false ->
  Datatypes.S (unconfirmed (<[k := true]> known)) = unconfirmed known.
Proof.
  revert k. induction known as [|b rest IH]; intros k Hk; [done|].
  destruct k as [|k]; simpl in *.
  - by injection Hk as ->.
  - rewrite <- (IH k Hk). destruct b; simpl; lia.
Qed.

Lemma unconfirmed_length (known : list bool) : (unconfirmed known <= length known)%nat.
Proof. induction known as [|[] rest IH]; simpl; lia. Qed.

(** The first loop of the run: the start vertex and each neighbour get
    their entry of the start vertex's row. *)
Lemma init_loop (g : CGraph) (v : N) :
  graph_wf g -> v < m_Order g ->
  exists dist routes,
    for_upto (m_Order g) (init_round g v)
      (vec_fill (m_Order g) minus_one, vec_fill (m_Order g) minus_one_u) = Ok (dist, routes)
    /\ vec_size dist = m_Order g
    /\ vec_size routes = m_Order g
    /\ (forall k x, k < m_Order g ->
          mat_get (m_DistanceMatrix g) v k = Ok x ->
          k = v \/ is_edge x v k = true ->
          nth_N dist k = Some x)
    /\ (forall k p, nth_N routes k = Some p ->
          p = minus_one_u
          \/ (p = v /\ (k = v \/ mat_get (m_AdjacencyMatrix g) v k = Ok true)))
    /\ (forall k x, k < m_Order g -> k <> v ->
          mat_get (m_DistanceMatrix g) v k = Ok x -> is_edge x v k = false ->
          nth_N dist k = Some minus_one).
Proof.
  intros Hwf Hv.
  set (P := fun (i : N) (st : list float * list N) =>
              vec_size (fst st) = m_Order g
              /\ vec_size (snd st) = m_Order g
              /\ (forall k x, k < i ->
                    mat_get (m_DistanceMatrix g) v k = Ok x ->
                    k = v \/ is_edge x v k = true ->
                    nth_N (fst st) k = Some x)
              /\ (forall k p, nth_N (snd st) k = Some p ->
                    p = minus_one_u
                    \/ (p = v /\ (k = v \/ mat_get (m_AdjacencyMatrix g) v k = Ok true)))
              /\ (forall k x, k < m_Order g -> k <> v ->
                    mat_get (m_DistanceMatrix g) v k = Ok x -> is_edge x v k = false ->
                    nth_N (fst st) k = Some minus_one)).
  destruct (for_upto_total P (init_round g v) (m_Order g)
              (vec_fill (m_Order g) minus_one, vec_fill (m_Order g) minus_one_u))
    as [[dist routes] [Hrun (Hd & Hr & Hentries & Hparents & Hrest)]].
  - split; [apply vec_size_fill|]. split; [apply vec_size_fill|].
    split; [intros k x Hk; lia|]. simpl. split.
    + intros k p Hk.
      pose proof (nth_N_bound _ _ _ Hk) as Hkb. rewrite vec_size_fill in Hkb.
      rewrite nth_N_fill in Hk by done. left. congruence.
    + intros k x Hk _ _ _. by apply nth_N_fill.
  - intros i [dist routes] Hi (Hd & Hr & Hentries & Hparents & Hrest). simpl in *.
    destruct (wf_adj g Hwf v i Hv Hi) as [x [Hx Hadj]].
    unfold init_round, or_else. simpl. rewrite Hadj, Hx. simpl.
    assert (forall (dist' : list float) (routes' : list N),
              P i (dist', routes') -> (forall y, nth_N dist' i = Some y ->
                (i = v \/ is_edge x v i = true) -> y = x) ->
              (i = v \/ is_edge x v i = true -> exists y, nth_N dist' i = Some y) ->
              P (N.succ i) (dist', routes')) as Hnext.
    { unfold P. simpl. intros dist' routes' (Hd' & Hr' & He' & Hp' & Hrest') Hi1 Hi2.
      split; [done|]. split; [done|]. split; [|done]. intros k y Hk Hy Hor.
      destruct (N.eq_dec k i) as [->|Hne]; [|apply He'; [lia|done|done]].
      assert (y = x) as -> by congruence.
      destruct (Hi2 Hor) as [z Hz]. by rewrite (Hi1 z Hz Hor) in Hz. }
    assert (i = v \/ is_edge x v i = true ->
            P i (<[N.to_nat i := x]> dist, <[N.to_nat i := v]> routes)) as Hset.
    { intros Hor. unfold P. simpl.
      split; [by rewrite vec_size_insert|]. split; [by rewrite vec_size_insert|]. split.
      - intros k y Hk Hy Hor'. rewrite nth_N_insert by lia.
        replace (k =? i) with false by (symmetry; apply N.eqb_neq; lia).
        by apply Hentries.
      - split.
        + intros k p Hk. rewrite nth_N_insert in Hk by lia.
          destruct (N.eqb_spec k i) as [->|Hne]; [|by apply Hparents].
          injection Hk as <-. right. split; [done|].
          destruct Hor as [->|Hedge]; [by left|right]. by rewrite Hadj, Hedge.
        + intros k y Hk Hkv Hy Hno. rewrite nth_N_insert by lia.
          destruct (N.eqb_spec k i) as [->|Hne]; [|by apply (Hrest k y)].
          destruct Hor as [->|Hedge]; [done|]. congruence. }
    assert (nth_N (<[N.to_nat i := x]> dist) i = Some x) as Hnew
      by (rewrite nth_N_insert by lia; by rewrite N.eqb_refl).
    destruct (N.eqb_spec i v) as [->|Hiv]; simpl.
    + rewrite !vec_set_in by lia. simpl. eexists. split; [done|].
      apply Hnext; [apply Hset; by left| |]; intros; [congruence|eauto].
    + destruct (is_edge x v i) eqn:Hedge; simpl.
      * rewrite !vec_set_in by lia. simpl. eexists. split; [done|].
        apply Hnext; [apply Hset; by right| |]; intros; [congruence|eauto].
      * eexists. split; [done|].
        apply Hnext; [by unfold P|intros; intuition congruence|].
        intros [->|?]; [done|congruence].
  - exists dist, routes. simpl in *. repeat split; done.
Qed.

Lemma dijkstra_init_Ok (g : CGraph) (v : N) :
  graph_wf g -> v < m_Order g ->
  exists st,
    dijkstra_init g v = Ok st
    /\ root_fixed g v st
    /\ Datatypes.S (unconfirmed (knownDistances st)) = N.to_nat (m_Order g)
    /\ (forall k x, k < m_Order g -> k <> v ->
          mat_get (m_DistanceMatrix g) v k = Ok x -> is_edge x v k = true ->
          candidate g st k)
    /\ ((forall k x, k < m_Order g -> k <> v ->
           mat_get (m_DistanceMatrix g) v k = Ok x -> is_edge x v k = false) ->
        forall k, ~ candidate g st k).
Proof.
  intros Hwf Hv.
  destruct (init_loop g v Hwf Hv)
    as (dist & routes & Hloop & Hd & Hr & Hentries & Hparents & Hrest).
  unfold dijkstra_init. rewrite Hloop. simpl.
  rewrite vec_set_in by lia. simpl.
  rewrite vec_set_in by (rewrite vec_size_fill; lia). simpl.
  eexists. split; [done|]. split; [|split; [|split]].
  - unfold root_fixed. simpl. rewrite !vec_size_insert, vec_size_fill.
    do 3 (split; [done|]).
    split; [rewrite nth_N_insert, N.eqb_refl by (rewrite vec_size_fill; lia); done|].
    split; [rewrite nth_N_insert, N.eqb_refl by lia; done|].
    split.
    + destruct (wf_adj g Hwf v v Hv Hv) as [x [Hx _]]. exists x. split; [done|].
      apply Hentries; auto.
    + split.
      * intros i p Hi Hp. rewrite nth_N_insert in Hi by lia.
        destruct (N.eqb_spec i v) as [->|Hiv]; [left; split; congruence|].
        destruct (Hparents i p Hi) as [->|[-> [->|Hedge]]]; [|done|by right].
        pose proof (wf_order g Hwf). unfold minus_one_u in Hp. lia.
      * exists (fun _ => 0%nat). simpl. split; [|split].
        -- intros i Hi. unfold vec_fill.
           assert (Datatypes.S (unconfirmed (<[N.to_nat v := true]>
                                   (replicate (N.to_nat (m_Order g)) false)))
                   = N.to_nat (m_Order g)) as Hcount.
           { rewrite unconfirmed_confirm; [apply unconfirmed_replicate|].
             apply lookup_replicate_2. lia. }
           lia.
        -- intros i Hi Hiv. exfalso.
           pose proof (nth_N_bound _ _ _ Hi) as Hib.
           rewrite vec_size_insert, vec_size_fill in Hib.
           rewrite nth_N_insert in Hi by (rewrite vec_size_fill; lia).
           rewrite (proj2 (N.eqb_neq i v) Hiv), nth_N_fill in Hi by done. discriminate.
        -- intros i p Hi Hp Hiv. rewrite nth_N_insert in Hi by lia.
           rewrite (proj2 (N.eqb_neq i v) Hiv) in Hi.
           destruct (Hparents i p Hi) as [->|[-> _]].
           { pose proof (wf_order g Hwf). unfold minus_one_u in Hp. lia. }
           rewrite !nth_N_insert by (rewrite vec_size_fill; lia).
           rewrite N.eqb_refl, (proj2 (N.eqb_neq i v) Hiv).
           split; [done|]. rewrite nth_N_fill by (apply nth_N_bound in Hi; lia).
           discriminate.
  - simpl. unfold vec_fill.
    rewrite unconfirmed_confirm; [apply unconfirmed_replicate|].
    apply lookup_replicate_2. lia.
  - intros k x Hk Hkv Hx Hedge. unfold candidate. simpl.
    split; [done|]. split.
    + rewrite nth_N_insert by (rewrite vec_size_fill; lia).
      rewrite (proj2 (N.eqb_neq k v) Hkv). by apply nth_N_fill.
    + exists x. split; [apply Hentries; auto|].
      apply ge_zero_not_minus_one. unfold is_edge in Hedge.
      by apply andb_true_iff in Hedge as [? _].
  - intros Hnone k (Hk & Hknown & d & Hdk & Hnm). simpl in *.
    rewrite nth_N_insert in Hknown by (rewrite vec_size_fill; lia).
    destruct (N.eqb_spec k v) as [->|Hkv]; [discriminate|].
    destruct (wf_adj g Hwf v k Hv Hk) as [x [Hx _]].
    rewrite (Hrest k x Hk Hkv Hx (Hnone k x Hk Hkv Hx)) in Hdk. injection Hdk as <-.
    vm_compute in Hnm. discriminate.
Qed.

(** One test of the search for the closest unconfirmed vertex. *)
Lemma closest_round_eq (st : dijkstra_locals) (i : N) (acc : N * float) (kb : bool) (d : float) :
  nth_N (knownDistances st) i = Some kb ->
  nth_N (shortestDistances st) i = Some d ->
  closest_round st i acc
    = Ok (if negb kb && (not_minus_one d
                         && (is_minus_one (snd acc) || PrimFloat.ltb d (snd acc)))
          then (i, d) else acc).
Proof.
  intros Hk Hd. destruct acc as [nc nsd]. unfold closest_round, and_then, or_else, vec_get.
  rewrite Hk, Hd. simpl.
  destruct kb, (not_minus_one d), (is_minus_one nsd), (PrimFloat.ltb d nsd); done.
Qed.

(** The search returns a candidate if there is one, and the initial
    [(unsigned int)-1] otherwise. *)
Lemma closest_loop (g : CGraph) (st : dijkstra_locals) :
  vec_size (shortestDistances st) = m_Order g ->
  vec_size (knownDistances st) = m_Order g ->
  exists nc nsd,
    for_upto (m_Order g) (closest_round st) (minus_one_u, minus_one) = Ok (nc, nsd)
    /\ ((exists i, candidate g st i) -> candidate g st nc)
    /\ ((forall i, ~ candidate g st i) -> nc = minus_one_u)
    /\ ((exists i, candidate g st i) \/ (forall i, ~ candidate g st i)).
Proof.
  intros Hd Hk.
  set (P := fun (i : N) (acc : N * float) =>
              (fst acc = minus_one_u /\ is_minus_one (snd acc) = true
               /\ forall k, k < i -> ~ candidate g st k)
              \/ (candidate g st (fst acc)
                  /\ nth_N (shortestDistances st) (fst acc) = Some (snd acc))).
  destruct (for_upto_total P (closest_round st) (m_Order g) (minus_one_u, minus_one))
    as [[nc nsd] [Hrun HP]].
  - left. simpl. repeat split; try done. intros k Hk0. lia.
  - intros i acc Hi HP.
    destruct (nth_N_Some (knownDistances st) i) as [kb Hkb]; [lia|].
    destruct (nth_N_Some (shortestDistances st) i) as [d Hdi]; [lia|].
    rewrite (closest_round_eq st i acc kb d Hkb Hdi).
    eexists. split; [done|].
    destruct (negb kb && (not_minus_one d
                && (is_minus_one (snd acc) || PrimFloat.ltb d (snd acc)))) eqn:Hc.
    + right. simpl. apply andb_true_iff in Hc as [Hkb' Hc].
      apply andb_true_iff in Hc as [Hnm _]. apply negb_true_iff in Hkb'. subst kb.
      split; [|done]. split; [done|]. split; [done|]. eauto.
    + destruct HP as [(Hnc & Hnsd & Hnone)|Hcand]; [left|by right].
      split; [done|]. split; [done|]. intros k Hki.
      destruct (N.eq_dec k i) as [->|Hne]; [|apply Hnone; lia].
      intros (_ & Hkf & d' & Hd' & Hnm).
      rewrite Hkb in Hkf. injection Hkf as ->. rewrite Hdi in Hd'. injection Hd' as <-.
      rewrite Hnm, Hnsd in Hc. discriminate.
  - exists nc, nsd. split; [done|].
    destruct HP as [(Hnc & _ & Hnone)|[Hcand _]]; simpl in *.
    + assert (forall i, ~ candidate g st i) as Hno
        by (intros i Hi; apply (Hnone i); [apply Hi|done]).
      split; [|split; [done|by right]]. intros [i Hi]. exfalso. by apply (Hno i).
    + split; [done|]. split; [|left; eauto]. intros Hnone. exfalso. by apply (Hnone nc).
Qed.

(** One relaxation: it returns, keeps the sizes, and touches no confirmed
    vertex. *)
Lemma relax_round_Ok (g : CGraph) (known : list bool) (nc i : N)
    (dist : list float) (routes : list N) :
  graph_wf g -> nc < m_Order g -> i < m_Order g ->
  vec_size known = m_Order g -> vec_size dist = m_Order g -> vec_size routes = m_Order g ->
  exists dist' routes',
    relax_round g known nc i (dist, routes) = Ok (dist', routes')
    /\ vec_size dist' = m_Order g
    /\ vec_size routes' = m_Order g
    /\ (forall k, nth_N known k = Some true ->
          nth_N dist' k = nth_N dist k /\ nth_N routes' k = nth_N routes k)
    /\ (forall k p, nth_N routes' k = Some p ->
          nth_N routes k = Some p
          \/ (p = nc /\ mat_get (m_AdjacencyMatrix g) nc k = Ok true)).
Proof.
  intros Hwf Hnc Hi Hk Hd Hr.
  destruct (nth_N_Some known i) as [kb Hkb]; [lia|].
  destruct (nth_N_Some dist i) as [d Hdi]; [lia|].
  destruct (nth_N_Some dist nc) as [dn Hdn]; [lia|].
  destruct (wf_adj g Hwf nc i Hnc Hi) as [w [Hw Hadj]].
  unfold relax_round, and_then, or_else, vec_get. rewrite Hkb, Hadj, Hdi, Hdn, Hw. simpl.
  assert (exists dist' routes',
            (do s <- Ok (dn + w)%float;
             do dist' <- vec_set dist i s;
             do routes' <- vec_set routes i nc; Ok (dist', routes')) = Ok (dist', routes')
            /\ vec_size dist' = m_Order g /\ vec_size routes' = m_Order g
            /\ (forall k, k <> i ->
                  nth_N dist' k = nth_N dist k /\ nth_N routes' k = nth_N routes k)
            /\ nth_N routes' i = Some nc)
    as (dist' & routes' & Hset & Hd' & Hr' & Hother & Hnew).
  { simpl. rewrite !vec_set_in by lia. simpl. do 2 eexists. split; [done|].
    rewrite !vec_size_insert. do 2 (split; [done|]). split.
    - intros k Hki. rewrite !nth_N_insert by lia.
      by rewrite (proj2 (N.eqb_neq k i) Hki).
    - rewrite nth_N_insert by lia. by rewrite N.eqb_refl. }
  assert (exists dist' routes',
            Ok (dist, routes) = Ok (dist', routes')
            /\ vec_size dist' = m_Order g /\ vec_size routes' = m_Order g
            /\ (forall k, nth_N known k = Some true ->
                  nth_N dist' k = nth_N dist k /\ nth_N routes' k = nth_N routes k)
            /\ (forall k p, nth_N routes' k = Some p ->
                  nth_N routes k = Some p
                  \/ (p = nc /\ mat_get (m_AdjacencyMatrix g) nc k = Ok true)))
    as Hsame by (exists dist, routes; repeat split; auto).
  destruct kb; simpl; [done|].
  destruct (is_edge w nc i) eqn:Hedge; simpl; [|done].
  assert (forall k, nth_N known k = Some true -> k <> i) as Hki by (intros k ? ->; congruence).
  assert (exists dist'0 routes'0,
            Ok (dist', routes') = Ok (dist'0, routes'0)
            /\ vec_size dist'0 = m_Order g /\ vec_size routes'0 = m_Order g
            /\ (forall k, nth_N known k = Some true ->
                  nth_N dist'0 k = nth_N dist k /\ nth_N routes'0 k = nth_N routes k)
            /\ (forall k p, nth_N routes'0 k = Some p ->
                  nth_N routes k = Some p
                  \/ (p = nc /\ mat_get (m_AdjacencyMatrix g) nc k = Ok true)))
    as Hupdated.
  { exists dist', routes'. do 3 (split; [done|]). split.
    - intros k Hkt. by apply Hother, Hki.
    - intros k p Hkp. destruct (N.eq_dec k i) as [->|Hne].
      + right. split; [congruence|done].
      + left. destruct (Hother k Hne) as [_ <-]. done. }
  simpl in Hset. rewrite Hset.
  destruct (is_minus_one d); simpl; [done|].
  destruct (PrimFloat.ltb (dn + w) d); simpl; done.
Qed.

Lemma relax_loop (g : CGraph) (known : list bool) (nc : N)
    (dist : list float) (routes : list N) :
  graph_wf g -> nc < m_Order g ->
  vec_size known = m_Order g -> vec_size dist = m_Order g -> vec_size routes = m_Order g ->
  exists dist' routes',
    for_upto (m_Order g) (relax_round g known nc) (dist, routes) = Ok (dist', routes')
    /\ vec_size dist' = m_Order g
    /\ vec_size routes' = m_Order g
    /\ (forall k, nth_N known k = Some true ->
          nth_N dist' k = nth_N dist k /\ nth_N routes' k = nth_N routes k)
    /\ (forall k p, nth_N routes' k = Some p ->
          nth_N routes k = Some p
          \/ (p = nc /\ mat_get (m_AdjacencyMatrix g) nc k = Ok true)).
Proof.
  intros Hwf Hnc Hk Hd Hr.
  set (P := fun (_ : N) (st : list float * list N) =>
              vec_size (fst st) = m_Order g /\ vec_size (snd st) = m_Order g
              /\ (forall k, nth_N known k = Some true ->
                    nth_N (fst st) k = nth_N dist k /\ nth_N (snd st) k = nth_N routes k)
              /\ (forall k p, nth_N (snd st) k = Some p ->
                    nth_N routes k = Some p
                    \/ (p = nc /\ mat_get (m_AdjacencyMatrix g) nc k = Ok true))).
  destruct (for_upto_total P (relax_round g known nc) (m_Order g) (dist, routes))
    as [[dist' routes'] [Hrun HP]].
  - unfold P. simpl. repeat split; auto.
  - intros i [d r] Hi (Hd1 & Hr1 & Hsame & Hedges). simpl in *.
    destruct (relax_round_Ok g known nc i d r Hwf Hnc Hi Hk Hd1 Hr1)
      as (d' & r' & Hround & Hd' & Hr' & Hsame' & Hedges').
    exists (d', r'). split; [done|]. unfold P. simpl. do 2 (split; [done|]). split.
    + intros k Hkt. destruct (Hsame k Hkt) as [<- <-]. by apply Hsame'.
    + intros k p Hkp. destruct (Hedges' k p Hkp) as [Hold|Hnew]; [by apply Hedges|by right].
  - exists dist', routes'. split; [done|]. apply HP.
Qed.

(** The test that decides whether the loop goes on. *)
Lemma more_loop (g : CGraph) (st : dijkstra_locals) :
  vec_size (shortestDistances st) = m_Order g ->
  vec_size (knownDistances st) = m_Order g ->
  exists more,
    for_upto (m_Order g) (more_round st) false = Ok more
    /\ (more = true -> exists i, candidate g st i).
Proof.
  intros Hd Hk.
  destruct (for_upto_total (fun (_ : N) (more : bool) => more = true -> exists i, candidate g st i)
              (more_round st) (m_Order g) false) as [more [Hrun HP]].
  - discriminate.
  - intros i more Hi HP.
    destruct (nth_N_Some (knownDistances st) i) as [kb Hkb]; [lia|].
    destruct (nth_N_Some (shortestDistances st) i) as [d Hdi]; [lia|].
    unfold more_round, and_then, vec_get. rewrite Hkb, Hdi. simpl.
    destruct kb; simpl; [eauto|].
    destruct (not_minus_one d) eqn:Hnm; simpl; [|eauto].
    exists true. split; [done|]. intros _. exists i. split; [done|]. eauto.
  - eauto.
Qed.

(** Confirming [nc] after a relaxation keeps parents confirmed before
    their children: [nc] gets the next rank. *)
Lemma confirmed_before_round (g : CGraph) (v : N) (st : dijkstra_locals) (nc : N)
    (dist' : list float) (routes' : list N) :
  graph_wf g ->
  vec_size (knownDistances st) = m_Order g ->
  nth_N (knownDistances st) v = Some true ->
  nc < m_Order g ->
  nth_N (knownDistances st) nc = Some false ->
  (forall k, nth_N (knownDistances st) k = Some true ->
     nth_N dist' k = nth_N (shortestDistances st) k
     /\ nth_N routes' k = nth_N (outputRoutes st) k) ->
  (forall k p, nth_N routes' k = Some p ->
     nth_N (outputRoutes st) k = Some p
     \/ (p = nc /\ mat_get (m_AdjacencyMatrix g) nc k = Ok true)) ->
  confirmed_before g v st ->
  confirmed_before g v
    (mkLocals dist' routes' (<[N.to_nat nc := true]> (knownDistances st))).
Proof.
  intros Hwf Hk Hkv Hnc Hknc Hsame Hedges (rank & Hrank & Hpositive & Hparents).
  pose proof (unconfirmed_confirm (knownDistances st) (N.to_nat nc)) as Hcount.
  rewrite <- nth_N_lookup in Hcount. specialize (Hcount Hknc).
  pose proof (Hrank v Hkv) as Hroot.
  set (c := (N.to_nat (m_Order g) - unconfirmed (knownDistances st))%nat).
  exists (fun x => if x =? nc then c else rank x). simpl.
  assert (forall i, nth_N (<[N.to_nat nc := true]> (knownDistances st)) i = Some true ->
                    i = nc \/ (i <> nc /\ nth_N (knownDistances st) i = Some true))
    as Hknown'.
  { intros i Hi. rewrite nth_N_insert in Hi by lia.
    destruct (N.eqb_spec i nc); auto. }
  assert (forall p, nth_N (knownDistances st) p = Some true ->
                    nth_N (<[N.to_nat nc := true]> (knownDistances st)) p = Some true
                    /\ p <> nc /\ (rank p < c)%nat) as Hold.
  { intros p Hp. rewrite nth_N_insert by lia.
    assert (p <> nc) as Hpn by (intros ->; congruence).
    rewrite (proj2 (N.eqb_neq p nc) Hpn). split; [done|]. split; [done|].
    specialize (Hrank p Hp). unfold c. lia. }
  split; [|split].
  - intros i Hi. destruct (Hknown' i Hi) as [->|[Hne Hki]].
    + rewrite N.eqb_refl. unfold c. lia.
    + rewrite (proj2 (N.eqb_neq i nc) Hne). specialize (Hrank i Hki). lia.
  - intros i Hi Hiv. destruct (Hknown' i Hi) as [->|[Hne Hki]].
    + rewrite N.eqb_refl. unfold c. lia.
    + rewrite (proj2 (N.eqb_neq i nc) Hne). by apply Hpositive.
  - intros i p Hip Hp Hiv.
    assert (nth_N (outputRoutes st) i = Some p -> 
            nth_N (<[N.to_nat nc := true]> (knownDistances st)) p = Some true
            /\ (nth_N (<[N.to_nat nc := true]> (knownDistances st)) i = Some true ->
                ((if (p =? nc)%N then c else rank p)
                 < (if (i =? nc)%N then c else rank i))%nat))
      as Hcase_old.
    { intros Hold_parent.
      destruct (Hparents i p Hold_parent Hp Hiv) as [Hkp Hlt].
      destruct (Hold p Hkp) as (Hkp' & Hpn & Hpc). split; [done|].
      rewrite (proj2 (N.eqb_neq p nc) Hpn). intros Hi.
      destruct (Hknown' i Hi) as [->|[Hne Hki]].
      - by rewrite N.eqb_refl.
      - rewrite (proj2 (N.eqb_neq i nc) Hne). by apply Hlt. }
    destruct (Hedges i p Hip) as [Hold_parent|[-> Hedge]]; [by apply Hcase_old|].
    split; [rewrite nth_N_insert, N.eqb_refl by lia; done|].
    intros Hi. exfalso. destruct (Hknown' i Hi) as [->|[Hne Hki]].
    + destruct (wf_adj g Hwf nc nc Hnc Hnc) as [x [_ Hdiag]].
      unfold is_edge in Hdiag. rewrite N.eqb_refl, andb_false_r in Hdiag. congruence.
    + destruct (Hsame i Hki) as [_ Hroute]. rewrite Hip in Hroute. symmetry in Hroute.
      destruct (Hparents i nc Hroute Hnc Hiv) as [Hknown_nc _]. congruence.
Qed.

Lemma unconfirmed_positive (known : list bool) (i : N) :
  nth_N known i = Some false -> (1 <= unconfirmed known)%nat.
Proof.
  intros Hi. rewrite nth_N_lookup in Hi.
  pose proof (unconfirmed_confirm known _ Hi). lia.
Qed.

(** The ranks give a depth: the rank and one for a confirmed vertex, one
    more than all ranks for an unconfirmed one. *)
Lemma confirmed_before_descend (g : CGraph) (v : N) (st : dijkstra_locals) :
  vec_size (knownDistances st) = m_Order g ->
  vec_size (outputRoutes st) = m_Order g ->
  nth_N (knownDistances st) v = Some true ->
  confirmed_before g v st -> parents_descend g v (outputRoutes st).
Proof.
  intros Hk Hr Hkv (rank & Hrank & Hpositive & Hparents).
  pose proof (Hrank v Hkv) as Hroot.
  set (c := (N.to_nat (m_Order g) - unconfirmed (knownDistances st))%nat).
  set (depth := fun x => match nth_N (knownDistances st) x with
                         | Some true => Datatypes.S (rank x)
                         | _ => Datatypes.S c
                         end).
  exists depth. split.
  - intros x Hx. unfold depth.
    destruct (nth_N_Some (knownDistances st) x) as [[] Hkx]; [lia| |]; rewrite Hkx.
    + specialize (Hrank x Hkx). lia.
    + pose proof (unconfirmed_positive _ _ Hkx). unfold c. lia.
  - intros i p Hip Hiv. pose proof (nth_N_bound _ _ _ Hip) as Hi.
    assert (1 <= c)%nat as Hc by (unfold c; lia).
    assert (1 <= depth i /\ (nth_N (knownDistances st) i = Some true -> 2 <= depth i)
            /\ (nth_N (knownDistances st) i <> Some true -> depth i = Datatypes.S c))%nat
      as (Hd1 & Hd2 & Hd3).
    { unfold depth.
      destruct (nth_N (knownDistances st) i) as [[]|] eqn:Hki;
        repeat split; try lia; try done.
      intros _. specialize (Hpositive i Hki Hiv). lia. }
    unfold rounds_needed.
    destruct (N.eqb_spec p v) as [->|Hpv]; [lia|].
    destruct (N.ltb_spec p (m_Order g)) as [Hp|Hp].
    + destruct (Hparents i p Hip Hp Hiv) as [Hkp Hlt].
      assert (depth p = Datatypes.S (rank p)) as -> by (unfold depth; by rewrite Hkp).
      specialize (Hrank p Hkp).
      destruct (nth_N (knownDistances st) i) as [[]|] eqn:Hki.
      * specialize (Hlt eq_refl). unfold depth. rewrite Hki. lia.
      * rewrite Hd3 by done. unfold c. lia.
      * rewrite Hd3 by done. unfold c. lia.
    + destruct (nth_N (knownDistances st) i) as [[]|] eqn:Hki.
      * by apply Hd2.
      * rewrite Hd3 by done. lia.
      * rewrite Hd3 by done. lia.
Qed.

(** One round of the [while] loop.  With a candidate it returns, confirms
    one more vertex, keeps what [root_fixed] says, and goes on only if a
    candidate is left.  Without a candidate it indexes the confirmation
    vector with [(unsigned int)-1] and does not return. *)
Lemma dijkstra_round_spec (g : CGraph) (v : N) (st : dijkstra_locals) :
  graph_wf g -> root_fixed g v st ->
  ((exists i, candidate g st i) ->
     exists st' more,
       dijkstra_round g st = Ok (st', more)
       /\ root_fixed g v st'
       /\ (more = true -> exists i, candidate g st' i)
       /\ Datatypes.S (unconfirmed (knownDistances st')) = unconfirmed (knownDistances st))
  /\ ((forall i, ~ candidate g st i) -> forall r, dijkstra_round g st <> Ok r).
Proof.
  intros Hwf (Hd & Hr & Hk & Hkv & Hrv & (dv & Hdv & Hdistv) & Hedges & Hrank).
  destruct (closest_loop g st Hd Hk) as (nc & nsd & Hclosest & Hsome & Hnone & _).
  unfold dijkstra_round. rewrite Hclosest. simpl. split.
  - intros Hcand. destruct (Hsome Hcand) as (Hnc & Hknc & _).
    destruct (relax_loop g (knownDistances st) nc _ _ Hwf Hnc Hk Hd Hr)
      as (dist' & routes' & Hrelax & Hd' & Hr' & Hsame & Hedges').
    rewrite Hrelax. simpl. rewrite vec_set_in by lia. simpl.
    set (st' := mkLocals dist' routes' (<[N.to_nat nc := true]> (knownDistances st))).
    assert (vec_size (knownDistances st') = m_Order g) as Hk'
      by (simpl; by rewrite vec_size_insert).
    destruct (more_loop g st' Hd' Hk') as [more [Hmore Hleft]].
    rewrite Hmore. simpl. exists st', more. split; [done|].
    split; [|split; [done|]].
    + unfold root_fixed. do 3 (split; [done|]). simpl.
      destruct (Hsame v Hkv) as [Hdist Hroutes].
      split; [|split; [congruence|split; [exists dv; split; congruence|split]]].
      * rewrite nth_N_insert by lia. destruct (v =? nc); done.
      * intros i p Hip Hp. destruct (Hedges' i p Hip) as [Hold|[-> Hnew]];
          [by apply Hedges|by right].
      * by apply (confirmed_before_round g v st nc dist' routes').
    + simpl. apply unconfirmed_confirm. by rewrite <- nth_N_lookup.
  - intros Hno [st' more] Hround. rewrite (Hnone Hno) in Hround.
    apply bind_Ok in Hround as [relaxed [_ Hround]].
    apply bind_Ok in Hround as [known [Hset _]].
    apply vec_set_Ok in Hset as [Hbound _].
    pose proof (wf_order g Hwf). unfold minus_one_u in Hbound. lia.
Qed.

(** The loop returns when started with a candidate and enough fuel, and
    what it returns satisfies [root_fixed]. *)
Lemma dijkstra_while_Ok (g : CGraph) (v : N) :
  graph_wf g ->
  forall (fuel : nat) (st : dijkstra_locals),
    root_fixed g v st ->
    (exists i, candidate g st i) ->
    (unconfirmed (knownDistances st) < fuel)%nat ->
    exists st', dijkstra_while fuel g st = Ok st' /\ root_fixed g v st'.
Proof.
  intros Hwf. induction fuel as [|fuel IH]; intros st Hroot Hcand Hfuel; [lia|].
  destruct (proj1 (dijkstra_round_spec g v st Hwf Hroot) Hcand)
    as (st1 & more & Hround & Hroot1 & Hleft & Hcount).
  simpl. rewrite Hround. simpl. destruct more; [|eauto].
  apply IH; [done|by apply Hleft|lia].
Qed.

(** Whatever the loop returns satisfies [root_fixed], with any fuel. *)
Lemma dijkstra_while_root_fixed (g : CGraph) (v : N) :
  graph_wf g ->
  forall (fuel : nat) (st st' : dijkstra_locals),
    root_fixed g v st -> dijkstra_while fuel g st = Ok st' -> root_fixed g v st'.
Proof.
  intros Hwf. induction fuel as [|fuel IH]; intros st st' Hroot Hrun; [discriminate|].
  simpl in Hrun. apply bind_Ok in Hrun as [[st1 more] [Hround Hrun]]. simpl in Hrun.
  pose proof (dijkstra_round_spec g v st Hwf Hroot) as [Hsome Hnone].
  assert (exists i, candidate g st i) as Hcand.
  { destruct (closest_loop g st) as (nc & nsd & _ & _ & _ & [Hc|Hc]);
      try apply Hroot; [done|].
    exfalso. by apply (Hnone Hc (st1, more)). }
  destruct (Hsome Hcand) as (st1' & more' & Hround' & Hroot1 & _).
  assert (st1' = st1 /\ more' = more) as [-> ->] by (split; congruence).
  destruct more; [by apply (IH st1)|congruence].
Qed.

(** ** The cache stays well-formed *)

(** Distinct vertices below [n] are at most [n]. *)
Lemma bounded_NoDup_length (l : list N) (n : N) :
  NoDup l -> (forall x, x ∈ l -> x < n) -> (length l <= N.to_nat n)%nat.
Proof.
  intros Hnd Hbound.
  assert (length (N.to_nat <$> l) <= length (seq 0 (N.to_nat n)))%nat as Hle.
  { apply submseteq_length, NoDup_submseteq.
    - apply NoDup_fmap_2; [|done]. intros x y. lia.
    - intros k Hk. apply list_elem_of_fmap in Hk as [x [-> Hx]].
      apply elem_of_seq. specialize (Hbound x Hx). lia. }
  by rewrite length_fmap, length_seq in Hle.
Qed.

Lemma vec_size_snoc {A : Type} (v : list A) (x : A) : vec_size (v ++ [x]) = vec_size v + 1.
Proof. unfold vec_size. rewrite length_app. simpl. lia. Qed.

Lemma nth_N_snoc {A : Type} (v : list A) (x y : A) (k : N) :
  nth_N (v ++ [x]) k = Some y <-> nth_N v k = Some y \/ (k = vec_size v /\ y = x).
Proof.
  rewrite !nth_N_lookup. unfold vec_size. split.
  - intros H. apply lookup_app_Some in H as [H|[Hk H]]; [by left|right].
    apply list_lookup_singleton_Some in H as [Hk' ->]. split; [lia|done].
  - intros [H|[-> ->]]; [by apply lookup_app_l_Some|].
    by rewrite Nat2N.id, lookup_app_r, Nat.sub_diag.
Qed.

(** The roots of a well-formed cache are distinct vertices. *)
Lemma roots_NoDup (g : CGraph) (roots : list N) :
  (forall s k, m_DijkstraStartVertices g !! s = Some k <-> nth_N roots k = Some s) ->
  NoDup roots.
Proof.
  intros Hmap. apply NoDup_alt. intros i j x Hi Hj.
  assert (nth_N roots (N.of_nat i) = Some x) as Hi'
    by (by rewrite nth_N_lookup, Nat2N.id).
  assert (nth_N roots (N.of_nat j) = Some x) as Hj'
    by (by rewrite nth_N_lookup, Nat2N.id).
  apply Hmap in Hi', Hj'. rewrite Hi' in Hj'. injection Hj' as Hij. lia.
Qed.

(** In a well-formed cache the next slot index is the number of trees. *)
Lemma new_slot_eq (g : CGraph) (v : N) :
  graph_wf g -> cache_wf g -> v < m_Order g ->
  m_DijkstraStartVertices g !! v = None ->
  new_slot g = vec_size (m_DijkstraOutputRoutes g).
Proof.
  intros Hwf (roots & Hmap & Hr & Hd & Hslots) Hv Hnone.
  assert (NoDup (roots ++ [v])) as Hnd.
  { apply NoDup_app. split; [by apply (roots_NoDup g)|]. split; [|apply NoDup_singleton].
    intros x Hx Hxv. apply list_elem_of_singleton in Hxv as ->.
    apply list_elem_of_lookup in Hx as [i Hi].
    assert (nth_N roots (N.of_nat i) = Some v) as Hi'
      by (by rewrite nth_N_lookup, Nat2N.id).
    apply Hmap in Hi'. congruence. }
  assert (length (roots ++ [v]) <= N.to_nat (m_Order g))%nat as Hlen.
  { apply bounded_NoDup_length; [done|]. intros x Hx.
    apply elem_of_app in Hx as [Hx|Hx].
    - apply list_elem_of_lookup in Hx as [i Hi].
      assert (nth_N roots (N.of_nat i) = Some x) as Hi'
        by (by rewrite nth_N_lookup, Nat2N.id).
      by apply Hslots in Hi' as [? _].
    - by apply list_elem_of_singleton in Hx as ->. }
  rewrite length_app in Hlen. simpl in Hlen.
  pose proof (wf_order g Hwf) as Hmax.
  unfold new_slot, to_unsigned, size_t_modulus, max_unsignedInt in *.
  rewrite Hr. unfold vec_size in *.
  replace (N.of_nat (length roots) + 1 + 18446744073709551616 - 1)
    with (N.of_nat (length roots) + 1 * 18446744073709551616) by lia.
  rewrite N.Div0.mod_add.
  rewrite (N.mod_small (N.of_nat (length roots)) 18446744073709551616) by lia.
  rewrite N.mod_small; lia.
Qed.

Lemma tree_ok_same_graph (g g' : CGraph) (s : N) parents dists :
  same_graph g g' -> tree_ok g s parents dists -> tree_ok g' s parents dists.
Proof.
  intros (Ho & _ & _ & Hm & Ha).
  unfold tree_ok, parents_are_edges, parents_descend, rounds_needed.
  by rewrite Ho, Hm, Ha.
Qed.

Lemma graph_wf_same_graph (g g' : CGraph) : same_graph g g' -> graph_wf g -> graph_wf g'.
Proof.
  intros (Ho & Hl & He & Hm & Ha) [H1 H2 H3 H4].
  constructor; rewrite ?Ho, ?Hl, ?He, ?Hm, ?Ha; done.
Qed.

(** The tree a fresh run stores. *)
Lemma InternalDijkstra_fresh (g g' : CGraph) (v k : N) :
  graph_wf g ->
  InternalDijkstra g v = Ok (k, g') ->
  m_DijkstraStartVertices g !! v = None ->
  exists st, g' = save_results g v st /\ k = new_slot g /\ root_fixed g v st.
Proof.
  intros Hwf Hrun Hnone. unfold InternalDijkstra in Hrun.
  destruct (N.leb_spec (m_Order g) v) as [Hv|Hv]; [discriminate|].
  rewrite Hnone in Hrun.
  apply bind_Ok in Hrun as [st0 [Hinit Hrun]]. apply bind_Ok in Hrun as [st [Hwhile Hrun]].
  injection Hrun as <- <-. exists st. do 2 (split; [done|]).
  destruct (dijkstra_init_Ok g v Hwf Hv) as (st0' & Hinit' & Hroot & _).
  assert (st0' = st0) as -> by congruence.
  by apply (dijkstra_while_root_fixed g v Hwf _ _ _ Hroot Hwhile).
Qed.

Lemma InternalDijkstra_cache_wf (g g' : CGraph) (v k : N) :
  graph_wf g -> cache_wf g -> InternalDijkstra g v = Ok (k, g') -> cache_wf g'.
Proof.
  intros Hwf Hcache Hrun.
  pose proof (InternalDijkstra_Ok _ _ _ _ Hrun) as [Hv [[_ ->]|(Hnone & _ & _)]]; [done|].
  pose proof (new_slot_eq g v Hwf Hcache Hv Hnone) as Hslot.
  pose proof (InternalDijkstra_same_graph _ _ _ _ Hrun) as Hsame.
  destruct (InternalDijkstra_fresh _ _ _ _ Hwf Hrun Hnone) as (st & Hg' & -> & Hroot).
  destruct Hcache as (roots & Hmap & Hr & Hd & Hslots).
  exists (roots ++ [v]). subst g'. simpl. rewrite Hslot. split; [|split; [|split]].
  - intros s j. rewrite nth_N_snoc, <- Hr. destruct (N.eq_dec s v) as [->|Hsv].
    + rewrite lookup_insert_eq. split.
      * intros [= <-]. by right.
      * intros [Hj|[-> _]]; [|done]. apply Hmap in Hj. congruence.
    + rewrite lookup_insert_ne by done. rewrite Hmap. split; [by left|].
      intros [Hj|[_ ->]]; done.
  - by rewrite !vec_size_snoc, Hr.
  - by rewrite !vec_size_snoc, Hd.
  - intros j s Hj. apply nth_N_snoc in Hj as [Hj|[-> ->]].
    + destruct (Hslots j s Hj) as [Hs (parents & dists & Hat & Hok)].
      split; [done|]. exists parents, dists. split.
      * by apply (InternalDijkstra_keeps_slot _ _ _ _ _ _ _ _ Hrun).
      * done.
    + split; [done|]. exists (outputRoutes st), (shortestDistances st). split.
      * unfold slot_at. simpl. rewrite lookup_insert_eq, Hslot, <- Hr. split; [done|].
        split; [apply nth_N_app_last|]. rewrite Hr, <- Hd. apply nth_N_app_last.
      * destruct Hroot as (H1 & H2 & H0 & Hkv & H3 & H4 & H5 & H6).
        do 5 (split; [done|]). by apply (confirmed_before_descend g v st).
Qed.

Lemma query_step_graph_ok (g g' : CGraph) : query_step g g' -> graph_ok g -> graph_ok g'.
Proof.
  intros Hstep [Hwf Hcache]. split.
  { apply (graph_wf_same_graph g); [by apply query_step_same_graph|done]. }
  assert (forall s e p b, choose_tree g s e p = Ok (b, g') -> cache_wf g') as Hchoose.
  { intros s e p b H.
    apply choose_tree_Ok in H as [(_&_&->)|[(_&_&_&->)|(_&_&_&k&H)]]; try done.
    by apply (InternalDijkstra_cache_wf g g' _ k Hwf Hcache H). }
  destruct Hstep as [s e p [d route] H|s e p a H|w k' H].
  - apply ShortestDistance_Ok in H as (i_s & i_e & iroute & _ & _ & H & _).
    apply InternalShortestDistance_Ok in H as (b & H & _). by apply Hchoose in H.
  - apply InternalShortestDistance_Ok in H as (b & H & _). by apply Hchoose in H.
  - by apply (InternalDijkstra_cache_wf g g' w k' Hwf Hcache H).
Qed.

Lemma later_graph_ok (g g' : CGraph) : later g g' -> graph_ok g -> graph_ok g'.
Proof.
  induction 1 as [g|g1 g2 g3 Hstep _ IH]; [done|].
  intros Hok. apply IH. by apply (query_step_graph_ok g1).
Qed.

Lemma CGraph_new_graph_ok (dm : list (list float)) (labels : list N) (g : CGraph) :
  CGraph_new dm labels = Ok g -> graph_ok g.
Proof.
  intros Hnew. destruct (CGraph_new_Ok _ _ _ Hnew) as (_&_&_&_&_&_&Hmap&Hr&Hd&Hwf).
  split; [done|]. exists []. rewrite Hmap, Hr, Hd.
  split; [|split; [done|split; [done|]]].
  - intros s k. rewrite lookup_empty. by destruct k.
  - intros k s Hk. by destruct k.
Qed.

(** In a well-formed graph every cached root has its slot and its tree. *)
Lemma cache_wf_slot (g : CGraph) (s k : N) :
  cache_wf g -> m_DijkstraStartVertices g !! s = Some k ->
  s < m_Order g
  /\ exists parents dists, slot_at g s k parents dists /\ tree_ok g s parents dists.
Proof. intros (roots & Hmap & _ & _ & Hslots) Hs. apply Hslots. by apply Hmap. Qed.

(** ** The tree a query reads *)



(** A run from a vertex that has a neighbour returns: the first round finds
    a candidate, and the vertices confirmed are fewer than the fuel. *)
Lemma InternalDijkstra_returns (g : CGraph) (v k : N) (x : float) :
  graph_wf g -> v < m_Order g -> k < m_Order g -> k <> v ->
  mat_get (m_DistanceMatrix g) v k = Ok x -> is_edge x v k = true ->
  exists slot g', InternalDijkstra g v = Ok (slot, g').
Proof.
  intros Hwf Hv Hk Hkv Hx Hedge. unfold InternalDijkstra.
  destruct (N.leb_spec (m_Order g) v) as [?|_]; [lia|].
  destruct (m_DijkstraStartVertices g !! v) as [slot|]; [eauto|].
  destruct (dijkstra_init_Ok g v Hwf Hv) as (st0 & Hinit & Hroot & Hcount & Hcand & _).
  rewrite Hinit. simpl.
  destruct (dijkstra_while_Ok g v Hwf (N.to_nat (m_Order g)) st0 Hroot) as [st [Hwhile _]].
  - exists k. by apply (Hcand k x).
  - lia.
  - rewrite Hwhile. simpl. eauto.
Qed.

(** The general form of what C4 runs into.  On a graph built from a matrix
    all of whose entries are non-negative, in whatever state its cache is,
    the query from a registered label to itself returns the route of that
    single label and, as distance, the entry of the matrix on the diagonal
    at that vertex: 0 only when the matrix has 0 there. *)
Theorem distance_to_itself_is_the_diagonal_entry
    (distanceMatrix : list (list float)) (vertexLabels : list N) (g0 g : CGraph)
    (label index : N) (preferStartVertex : bool) :
  CGraph_new distanceMatrix vertexLabels = Ok g0 ->
  later g0 g ->
  (forall i j x, mat_get distanceMatrix i j = Ok x -> ge_zero x = true) ->
  ExternalToInternal g label = Ok index ->
  exists d g',
    mat_get distanceMatrix index index = Ok d
    /\ ShortestDistance g label label preferStartVertex = Ok (d, [label], g').
Proof.
  intros Hnew Hlater Hpos Hlabel.
  destruct (CGraph_new_Ok _ _ _ Hnew) as (_ & _ & Hn2 & Hdm & _).
  pose proof (later_graph_ok _ _ Hlater (CGraph_new_graph_ok _ _ _ Hnew)) as [Hwf Hcache].
  destruct (later_same_graph _ _ Hlater) as (Ho & _ & _ & Hm & _).
  rewrite <- Ho in Hn2. rewrite <- Hdm, <- Hm in *. clear Hdm Hm Ho.
  assert (m_ExternalToInternal g !! label = Some index) as Hidx.
  { unfold ExternalToInternal in Hlabel.
    destruct (m_ExternalToInternal g !! label); congruence. }
  destruct (wf_labels g Hwf label index Hidx) as [Hi Hback].
  (* the query leaves a graph that holds a tree rooted at [index] *)
  assert (exists b g', choose_tree g index index preferStartVertex = Ok (b, g')
                       /\ has_tree g' index = true /\ cache_wf g' /\ same_graph g g')
    as (b & g' & Hchoose & Hhas & Hcache' & Hsame).
  { unfold choose_tree. destruct (has_tree g index) eqn:Hhas.
    { exists false, g. repeat split; done. }
    set (k := if index =? 0 then 1 else 0).
    assert (k < m_Order g /\ k <> index) as [Hk Hki].
    { unfold k. destruct (N.eqb_spec index 0); lia. }
    destruct (wf_adj g Hwf index k Hi Hk) as [x [Hx _]].
    assert (is_edge x index k = true) as Hedge.
    { unfold is_edge. rewrite (Hpos _ _ _ Hx). simpl.
      apply negb_true_iff, N.eqb_neq. congruence. }
    destruct (InternalDijkstra_returns g index k x Hwf Hi Hk Hki Hx Hedge)
      as (slot & g' & Hrun).
    exists preferStartVertex, g'.
    assert ((if preferStartVertex
             then do r <- InternalDijkstra g index; Ok (true, snd r)
             else do r <- InternalDijkstra g index; Ok (false, snd r))
            = Ok (preferStartVertex, g')) as ->
      by (rewrite Hrun; by destruct preferStartVertex).
    split; [done|]. split; [|split].
    - apply has_tree_true. exists slot. by apply (InternalDijkstra_has_tree g).
    - by apply (InternalDijkstra_cache_wf g g' index slot).
    - by apply (InternalDijkstra_same_graph g g' index slot). }
  apply has_tree_true in Hhas as [slot Hslot].
  destruct (cache_wf_slot g' index slot Hcache' Hslot)
    as (_ & parents & dists & (_ & _ & Hdists) & (_ & _ & _ & (d & Hd & Hdd) & _)).
  destruct Hsame as (_ & Hl & _ & Hm' & _). rewrite Hm' in Hd.
  exists d, g'. split; [done|].
  unfold ShortestDistance. rewrite Hlabel. simpl.
  unfold InternalShortestDistance. rewrite Hchoose. simpl.
  rewrite read_tree_same_vertex. unfold slot_of. rewrite Hslot. simpl.
  unfold mat_get, vec_get. rewrite Hdists. simpl. rewrite Hdd. simpl.
  unfold vec_at. rewrite Hl, Hback. done.
Qed.

Lemma distance_to_itself_is_the_diagonal_entry_witness :
  exists d g',
    mat_get Scenario.diagonal_five 1 1 = Ok d
    /\ ShortestDistance Scenario.diagonal_graph 20 20 true = Ok (d, [20], g').
Proof.
  apply (distance_to_itself_is_the_diagonal_entry
           Scenario.diagonal_five Scenario.two_labels
           Scenario.diagonal_graph Scenario.diagonal_graph 20 1 true).
  - vm_compute. reflexivity.
  - apply rtc_refl.
  - intros i j x Hx.
    assert (mat_get Scenario.diagonal_five i j = Ok x -> ge_zero x = true) as Hcase;
      [|by apply Hcase].
    destruct i as [|[[]|[]|]], j as [|[[]|[]|]]; vm_compute; intros H;
      try discriminate H; injection H as <-; reflexivity.
  - vm_compute. reflexivity.
Defined.

(** ** The validator from two rows on *)

(** A loop with early return whose rounds test a condition. *)
Lemma for_loop_ret_test {R : Type} (c : N -> bool) (r : R)
    (body : N -> unit -> outcome (unit + R)) :
  forall (n : nat) (i : N),
    (forall k, i <= k < i + N.of_nat n ->
               body k tt = Ok (if c k then inl tt else inr r)) ->
    (for_loop_ret n i body tt = Ok (inl tt)
     /\ forall k, i <= k < i + N.of_nat n -> c k = true)
    \/ (for_loop_ret n i body tt = Ok (inr r)
        /\ exists k, i <= k < i + N.of_nat n /\ c k = false).
Proof.
  induction n as [|n IH]; intros i Hbody; simpl.
  - left. split; [done|]. intros k Hk. lia.
  - rewrite (Hbody i) by lia. destruct (c i) eqn:Hci; simpl.
    + destruct (IH (N.succ i)) as [[Hrun Hall]|[Hrun (k & Hk & Hck)]].
      * intros k Hk. apply Hbody. lia.
      * left. split; [done|]. intros k Hk.
        destruct (N.eq_dec k i) as [->|Hne]; [done|]. apply Hall. lia.
      * right. split; [done|]. exists k. split; [lia|done].
    + right. split; [done|]. exists i. split; [lia|done].
Qed.

Lemma check_row_eq (dm : list (list float)) (shape : CGraph_DistMatCheckResult) (i : N) :
  vec_size dm <= max_unsignedInt ->
  (forall k row, nth_N dm k = Some row -> vec_size row <= max_unsignedInt) ->
  shape = square \/ shape = lowerTriangular \/ shape = upperTriangular ->
  i < vec_size dm ->
  check_row (vec_size dm) dm shape i tt
    = Ok (if row_conforms (vec_size dm) dm shape i then inl tt else inr badShape).
Proof.
  intros Hn Hrows Hshape Hi.
  destruct (nth_N_Some dm i Hi) as [row Hrow].
  pose proof (Hrows _ _ Hrow) as Hrowmax.
  unfold check_row, row_conforms, row_size, and_then, vec_get. rewrite Hrow. simpl.
  replace (max_unsignedInt <? vec_size row) with false
    by (symmetry; apply N.ltb_ge; lia).
  rewrite to_unsigned_small by done.
  destruct Hshape as [->|[->| ->]]; simpl.
  - destruct (vec_size row =? vec_size dm); done.
  - destruct (N.eqb_spec i 0) as [->|Hi0]; simpl; [done|].
    replace (0 <? i) with true by (symmetry; apply N.ltb_lt; lia).
    destruct (nth_N_Some dm (i - 1)) as [prev Hprev]; [lia|]. rewrite Hprev. simpl.
    pose proof (Hrows _ _ Hprev) as Hprevmax.
    unfold size_t_modulus, max_unsignedInt in *.
    rewrite N.mod_small by lia.
    destruct (vec_size row =? vec_size prev + 1); done.
  - destruct (N.eqb_spec i 0) as [->|Hi0]; simpl; [done|].
    replace (0 <? i) with true by (symmetry; apply N.ltb_lt; lia).
    destruct (nth_N_Some dm (i - 1)) as [prev Hprev]; [lia|]. rewrite Hprev. simpl.
    pose proof (Hrows _ _ Hprev) as Hprevmax.
    unfold size_t_modulus, max_unsignedInt in *.
    destruct (N.ltb_spec 0 (vec_size prev)) as [Hpos|Hzero]; simpl.
    + replace (vec_size prev + 18446744073709551616 - 1)
        with (vec_size prev - 1 + 1 * 18446744073709551616) by lia.
      rewrite N.Div0.mod_add, N.mod_small by lia.
      destruct (vec_size row =? vec_size prev - 1); done.
    + replace (vec_size prev) with 0 by lia.
      change ((0 + 18446744073709551616 - 1) mod 18446744073709551616)
        with 18446744073709551615.
      replace (vec_size row =? 18446744073709551615) with false
        by (symmetry; apply N.eqb_neq; lia).
      done.
Qed.

(** The row loop returns, and rejects exactly when a row fails its test. *)
Lemma check_rows_loop (dm : list (list float)) (shape : CGraph_DistMatCheckResult) :
  vec_size dm <= max_unsignedInt ->
  (forall k row, nth_N dm k = Some row -> vec_size row <= max_unsignedInt) ->
  shape = square \/ shape = lowerTriangular \/ shape = upperTriangular ->
  (for_upto_ret (vec_size dm) (check_row (vec_size dm) dm shape) tt = Ok (inl tt)
   /\ forall k, k < vec_size dm -> row_conforms (vec_size dm) dm shape k = true)
  \/ (for_upto_ret (vec_size dm) (check_row (vec_size dm) dm shape) tt = Ok (inr badShape)
      /\ exists k, k < vec_size dm /\ row_conforms (vec_size dm) dm shape k = false).
Proof.
  intros Hn Hrows Hshape. unfold for_upto_ret.
  destruct (for_loop_ret_test (row_conforms (vec_size dm) dm shape) badShape
              (check_row (vec_size dm) dm shape) (N.to_nat (vec_size dm)) 0)
    as [[Hrun Hall]|[Hrun (k & Hk & Hck)]].
  - intros k Hk. apply check_row_eq; try done. lia.
  - left. split; [done|]. intros k Hk. apply Hall. lia.
  - right. split; [done|]. exists k. split; [lia|done].
Qed.

Lemma nth_N_cons {A : Type} (x : A) (v : list A) (k : N) :
  nth_N (x :: v) (N.succ k) = nth_N v k.
Proof.
  simpl. replace (N.succ k =? 0) with false by (symmetry; apply N.eqb_neq; lia).
  by rewrite N.pred_succ.
Qed.

Lemma rows_match_from_spec (f : N -> N) (rows : list (list float)) :
  forall i0,
    rows_match_from f i0 rows = true
    <-> forall k row, nth_N rows k = Some row -> vec_size row = f (i0 + k).
Proof.
  induction rows as [|r rest IH]; intros i0; cbn [rows_match_from].
  - split; [intros _ k row Hk; discriminate|done].
  - rewrite andb_true_iff, N.eqb_eq, IH. split.
    + intros [H0 Hrest] k row Hk.
      destruct k as [|k'] using N.peano_ind.
      * injection Hk as <-. by rewrite N.add_0_r.
      * rewrite nth_N_cons in Hk. specialize (Hrest _ _ Hk). rewrite Hrest. f_equal. lia.
    + intros Hall. split.
      * rewrite <- (N.add_0_r i0). by apply Hall.
      * intros k row Hk. replace (N.succ i0 + k) with (i0 + N.succ k) by lia.
        apply Hall. by rewrite nth_N_cons.
Qed.

(** With the right first row, the row tests of the lower shape say that
    row [k] has length [k + 1]. *)
Lemma lower_rows (dm : list (list float)) :
  (forall k, k < vec_size dm -> row_conforms (vec_size dm) dm lowerTriangular k = true)
  /\ (forall r0, nth_N dm 0 = Some r0 -> vec_size r0 = 1)
  <-> rows_match_from (fun i => i + 1) 0 dm = true.
Proof.
  rewrite rows_match_from_spec. split.
  - intros [Hconf H0] k. induction k as [|k IHk] using N.peano_ind; intros row Hrow.
    + by apply H0.
    + pose proof (nth_N_bound _ _ _ Hrow) as Hk.
      specialize (Hconf _ Hk). unfold row_conforms in Hconf. rewrite Hrow in Hconf.
      replace (N.succ k =? 0) with false in Hconf by (symmetry; apply N.eqb_neq; lia).
      replace (N.succ k - 1) with k in Hconf by lia. simpl in Hconf.
      destruct (nth_N dm k) as [prev|]; [|discriminate].
      apply N.eqb_eq in Hconf. rewrite Hconf, (IHk prev eq_refl). lia.
  - intros Hall. split.
    + intros k Hk. destruct (nth_N_Some dm k Hk) as [row Hrow].
      unfold row_conforms. rewrite Hrow.
      destruct (N.eqb_spec k 0) as [->|Hk0]; [done|]. simpl.
      destruct (nth_N_Some dm (k - 1)) as [prev Hprev]; [lia|]. rewrite Hprev.
      apply N.eqb_eq. rewrite (Hall _ _ Hrow), (Hall _ _ Hprev). lia.
    + intros r0 H0. by rewrite (Hall _ _ H0).
Qed.

(** With the right first row, the row tests of the upper shape say that
    row [k] has length [n - k]. *)
Lemma upper_rows (dm : list (list float)) :
  (forall k, k < vec_size dm -> row_conforms (vec_size dm) dm upperTriangular k = true)
  /\ (forall r0, nth_N dm 0 = Some r0 -> vec_size r0 = vec_size dm)
  <-> rows_match_from (fun i => vec_size dm - i) 0 dm = true.
Proof.
  rewrite rows_match_from_spec. split.
  - intros [Hconf H0] k. induction k as [|k IHk] using N.peano_ind; intros row Hrow.
    + rewrite (H0 _ Hrow). lia.
    + pose proof (nth_N_bound _ _ _ Hrow) as Hk.
      specialize (Hconf _ Hk). unfold row_conforms in Hconf. rewrite Hrow in Hconf.
      replace (N.succ k =? 0) with false in Hconf by (symmetry; apply N.eqb_neq; lia).
      replace (N.succ k - 1) with k in Hconf by lia. simpl in Hconf.
      destruct (nth_N dm k) as [prev|]; [|discriminate].
      apply andb_true_iff in Hconf as [_ Hconf].
      apply N.eqb_eq in Hconf. rewrite Hconf, (IHk prev eq_refl). lia.
  - intros Hall. split.
    + intros k Hk. destruct (nth_N_Some dm k Hk) as [row Hrow].
      unfold row_conforms. rewrite Hrow.
      destruct (N.eqb_spec k 0) as [->|Hk0]; [done|]. simpl.
      destruct (nth_N_Some dm (k - 1)) as [prev Hprev]; [lia|]. rewrite Hprev.
      apply andb_true_iff. rewrite N.ltb_lt, N.eqb_eq.
      rewrite (Hall _ _ Hrow), (Hall _ _ Hprev). lia.
    + intros r0 H0. rewrite (Hall _ _ H0). lia.
Qed.

Lemma square_rows (dm : list (list float)) :
  (forall k, k < vec_size dm -> row_conforms (vec_size dm) dm square k = true)
  <-> rows_match_from (fun _ => vec_size dm) 0 dm = true.
Proof.
  rewrite rows_match_from_spec. split.
  - intros Hconf k row Hrow. pose proof (nth_N_bound _ _ _ Hrow) as Hk.
    specialize (Hconf _ Hk). unfold row_conforms in Hconf. rewrite Hrow in Hconf.
    by apply N.eqb_eq.
  - intros Hall k Hk. destruct (nth_N_Some dm k Hk) as [row Hrow].
    unfold row_conforms. rewrite Hrow. apply N.eqb_eq. by apply (Hall k).
Qed.

(** The element loop accepts a matrix without invalid elements. *)
Lemma check_elements_loop (dm : list (list float)) :
  (forall i j x, mat_get dm i j = Ok x -> invalid_element x = false) ->
  for_upto_ret (vec_size dm) (check_elements_row dm) tt = Ok (inl tt).
Proof.
  intros Hvalid. unfold for_upto_ret.
  destruct (for_loop_ret_test (fun _ => true) invalidElements (check_elements_row dm)
              (N.to_nat (vec_size dm)) 0) as [[Hrun _]|[_ (k & _ & Hk)]];
    [|done|discriminate].
  intros i Hi. unfold check_elements_row, row_size, vec_get.
  destruct (nth_N_Some dm i) as [row Hrow]; [lia|]. rewrite Hrow. simpl.
  unfold for_upto_ret.
  destruct (for_loop_ret_test (fun _ => true) invalidElements
              (fun j (_ : unit) =>
                 do x <- mat_get dm i j;
                 do y <- and_then (Ok (PrimFloat.ltb x 0%float))
                                  (do x' <- mat_get dm i j; Ok (not_minus_one x'));
                 if y then Ok (inr invalidElements) else Ok (inl tt))
              (N.to_nat (vec_size row)) 0) as [[Hrun _]|[_ (k & _ & Hk)]];
    [|done|discriminate].
  intros j Hj.
  assert (exists x, mat_get dm i j = Ok x) as [x Hx].
  { unfold mat_get, vec_get at 1. rewrite Hrow. simpl. apply vec_get_in. lia. }
  rewrite Hx. simpl. specialize (Hvalid _ _ _ Hx). unfold invalid_element in Hvalid.
  unfold and_then. simpl.
  destruct (PrimFloat.ltb x 0); simpl in *; [by rewrite Hvalid|done].
Qed.

(** The verdict, once the shape is guessed. *)
Lemma CheckInput_DistMat_after_guess (dm : list (list float))
    (shape : CGraph_DistMatCheckResult) :
  vec_size dm <= max_unsignedInt ->
  (forall k row, nth_N dm k = Some row -> vec_size row <= max_unsignedInt) ->
  (forall i j x, mat_get dm i j = Ok x -> invalid_element x = false) ->
  guess_shape (vec_size dm) dm = Ok shape ->
  shape = square \/ shape = lowerTriangular \/ shape = upperTriangular ->
  ((forall k, k < vec_size dm -> row_conforms (vec_size dm) dm shape k = true) ->
   CheckInput_DistMat (vec_size dm) dm = Ok shape)
  /\ (~ (forall k, k < vec_size dm -> row_conforms (vec_size dm) dm shape k = true) ->
      CheckInput_DistMat (vec_size dm) dm = Ok badShape).
Proof.
  intros Hn Hrows Hvalid Hguess Hshape. unfold CheckInput_DistMat.
  replace (max_unsignedInt <? vec_size dm) with false by (symmetry; apply N.ltb_ge; lia).
  rewrite Hguess. simpl.
  destruct (check_rows_loop dm shape Hn Hrows Hshape) as [[Hrun Hall]|[Hrun (k & Hk & Hck)]].
  - split; [intros _|intros Hnot; by destruct Hnot].
    destruct Hshape as [->|[->| ->]]; rewrite Hrun; simpl;
      by rewrite check_elements_loop.
  - split; [intros Hall; specialize (Hall k Hk); congruence|intros _].
    destruct Hshape as [->|[->| ->]]; by rewrite Hrun.
Qed.

(** On inputs with at least two rows, sizes that fit an [unsigned int] and
    valid elements, the validator returns the shape the specification
    words. *)
Theorem CheckInput_DistMat_is_spec_shape (distanceMatrix : list (list float)) :
  2 <= vec_size distanceMatrix <= max_unsignedInt ->
  (forall k row, nth_N distanceMatrix k = Some row -> vec_size row <= max_unsignedInt) ->
  (forall i j x, mat_get distanceMatrix i j = Ok x -> invalid_element x = false) ->
  CheckInput_DistMat (to_unsigned (vec_size distanceMatrix)) distanceMatrix
    = Ok (spec_shape distanceMatrix).
Proof.
  intros [Hn2 Hn] Hrows Hvalid. rewrite to_unsigned_small by done.
  assert (exists r0 r1 rest, distanceMatrix = r0 :: r1 :: rest) as (r0 & r1 & rest & Hdm).
  { destruct distanceMatrix as [|r0 [|r1 rest]]; unfold vec_size in Hn2; simpl in Hn2;
      [lia|lia|eauto]. }
  set (dm := distanceMatrix) in *. set (n := vec_size dm) in *.
  assert (nth_N dm 0 = Some r0 /\ nth_N dm 1 = Some r1) as [H0 H1] by (by rewrite Hdm).
  pose proof (CheckInput_DistMat_after_guess dm) as Hafter. fold n in Hafter.
  pose proof (square_rows dm) as Hsq. pose proof (lower_rows dm) as Hlo.
  pose proof (upper_rows dm) as Hup. fold n in Hsq, Hlo, Hup.
  assert (guess_shape n dm
          = Ok (if (vec_size r0 =? n) && (vec_size r1 =? n) then square
                else if (vec_size r0 =? 1) && (vec_size r1 =? 2) then lowerTriangular
                else if (vec_size r0 =? n) && (vec_size r1 =? n - 1) then upperTriangular
                else badShape)) as Hguess.
  { rewrite Hdm, guess_shape_two. f_equal. unfold to_unsigned.
    replace (n + 4294967296 - 1) with (n - 1 + 1 * 4294967296) by lia.
    rewrite N.Div0.mod_add, N.mod_small by (unfold max_unsignedInt in Hn; lia). done. }
  assert (forall f, rows_match_from f 0 dm = true ->
                    vec_size r0 = f 0 /\ vec_size r1 = f 1) as Hfirst.
  { intros f Hf. rewrite rows_match_from_spec in Hf.
    split; [by apply (Hf 0)|by apply (Hf 1)]. }
  assert (forall r, nth_N dm 0 = Some r -> r = r0) as Hr0 by (intros r; congruence).
  assert (forall shape,
            guess_shape n dm = Ok shape ->
            shape = square \/ shape = lowerTriangular \/ shape = upperTriangular ->
            ((forall k, k < n -> row_conforms n dm shape k = true) ->
             CheckInput_DistMat n dm = Ok shape)
            /\ (~ (forall k, k < n -> row_conforms n dm shape k = true) ->
                CheckInput_DistMat n dm = Ok badShape)) as Hverdict
    by (intros shape; by apply Hafter).
  clear Hafter. unfold spec_shape. fold n.
  destruct (N.eqb_spec (vec_size r0) n) as [G0n|G0n];
    destruct (N.eqb_spec (vec_size r1) n) as [G1n|G1n];
    destruct (N.eqb_spec (vec_size r0) 1) as [G01|G01];
    destruct (N.eqb_spec (vec_size r1) 2) as [G12|G12];
    destruct (N.eqb_spec (vec_size r1) (n - 1)) as [G1u|G1u];
    simpl in Hguess; try (exfalso; lia);
    destruct (rows_match_from (fun _ => n) 0 dm) eqn:Hms;
    try (destruct (Hfirst _ Hms) as [E0 E1]; exfalso; lia);
    destruct (rows_match_from (fun i => i + 1) 0 dm) eqn:Hml;
    try (destruct (Hfirst _ Hml) as [E0 E1]; exfalso; lia);
    destruct (rows_match_from (fun i => n - i) 0 dm) eqn:Hmu;
    try (destruct (Hfirst _ Hmu) as [E0 E1]; exfalso; lia).
  all: try (apply (proj1 (Hverdict square Hguess ltac:(auto))); by apply Hsq).
  all: try (apply (proj2 (Hverdict square Hguess ltac:(auto)));
            intros Hall; apply Hsq in Hall; discriminate).
  all: try (apply (proj1 (Hverdict lowerTriangular Hguess ltac:(auto))); by apply Hlo).
  all: try (apply (proj2 (Hverdict lowerTriangular Hguess ltac:(auto)));
            intros Hall; assert (false = true) as Habs; [|discriminate];
            apply Hlo; split; [done|]; intros r Hr; by rewrite (Hr0 r Hr)).
  all: try (apply (proj1 (Hverdict upperTriangular Hguess ltac:(auto))); by apply Hup).
  all: try (apply (proj2 (Hverdict upperTriangular Hguess ltac:(auto)));
            intros Hall; assert (false = true) as Habs; [|discriminate];
            apply Hup; split; [done|]; intros r Hr; by rewrite (Hr0 r Hr)).
  all: unfold CheckInput_DistMat; fold n;
    replace (max_unsignedInt <? n) with false by (symmetry; apply N.ltb_ge; lia);
    by rewrite Hguess.
Qed.

(** ** The fuel of the [while] loop is never used up *)

Lemma bind_ends {A B : Type} (c : outcome A) (k : A -> outcome B) :
  returns_or_leaves_vector c -> (forall a, returns_or_leaves_vector (k a)) ->
  returns_or_leaves_vector (bind c k).
Proof. destruct c; simpl; auto. Qed.

Lemma for_loop_ends {S : Type} (body : N -> S -> outcome S) :
  (forall i s, returns_or_leaves_vector (body i s)) ->
  forall n i s, returns_or_leaves_vector (for_loop n i body s).
Proof.
  intros Hbody. induction n as [|n IH]; intros i s; simpl; [done|].
  apply bind_ends; auto.
Qed.

Lemma vec_get_ends {A : Type} (v : list A) (i : N) : returns_or_leaves_vector (vec_get v i).
Proof. unfold vec_get. by destruct (nth_N v i). Qed.

Lemma vec_set_ends {A : Type} (v : list A) (i : N) (x : A) :
  returns_or_leaves_vector (vec_set v i x).
Proof. unfold vec_set. by destruct (set_N v i x). Qed.

Lemma mat_get_ends {A : Type} (m : list (list A)) (i j : N) :
  returns_or_leaves_vector (mat_get m i j).
Proof. apply bind_ends; auto using vec_get_ends. Qed.

Lemma and_then_ends (a b : outcome bool) :
  returns_or_leaves_vector a -> returns_or_leaves_vector b ->
  returns_or_leaves_vector (and_then a b).
Proof. intros Ha Hb. apply bind_ends; [done|]. by intros []. Qed.

Lemma or_else_ends (a b : outcome bool) :
  returns_or_leaves_vector a -> returns_or_leaves_vector b ->
  returns_or_leaves_vector (or_else a b).
Proof. intros Ha Hb. apply bind_ends; [done|]. by intros []. Qed.

Lemma Ok_ends {A : Type} (a : A) : returns_or_leaves_vector (Ok a).
Proof. done. Qed.

Create HintDb ends.
#[local] Hint Resolve bind_ends vec_get_ends vec_set_ends mat_get_ends
  and_then_ends or_else_ends Ok_ends : ends.

(** A round has no loop of its own that could fail to end, and throws
    nothing. *)
Lemma dijkstra_round_ends (g : CGraph) (st : dijkstra_locals) :
  returns_or_leaves_vector (dijkstra_round g st).
Proof.
  unfold dijkstra_round.
  apply bind_ends; [|intros closest; apply bind_ends;
                      [|intros relaxed; apply bind_ends;
                         [apply vec_set_ends|intros known;
                          apply bind_ends; [|done]]]];
    apply for_loop_ends.
  - intros i [nc nsd]. unfold closest_round.
    apply bind_ends; [auto 10 with ends|].
    intros []; auto with ends.
  - intros i [dist routes]. unfold relax_round.
    apply bind_ends; [auto 10 with ends|].
    intros []; auto 10 with ends.
  - intros i more. unfold more_round.
    apply bind_ends; [auto 10 with ends|]. by intros [].
Qed.

(** On a well-formed graph a single-source run from a vertex either returns
    or runs out of a vector: the fuel given to the [while] loop, one round
    per vertex, is never used up, and nothing is thrown. *)
Theorem InternalDijkstra_ends (g : CGraph) (v : N) :
  graph_wf g -> v < m_Order g -> returns_or_leaves_vector (InternalDijkstra g v).
Proof.
  intros Hwf Hv. unfold InternalDijkstra.
  destruct (N.leb_spec (m_Order g) v) as [?|_]; [lia|].
  destruct (m_DijkstraStartVertices g !! v); [done|].
  destruct (dijkstra_init_Ok g v Hwf Hv) as (st0 & -> & Hroot & Hcount & _ & _). simpl.
  apply bind_ends; [|done].
  destruct (closest_loop g st0) as (_ & _ & _ & _ & _ & [Hcand|Hnone]);
    try apply Hroot.
  - destruct (dijkstra_while_Ok g v Hwf (N.to_nat (m_Order g)) st0 Hroot Hcand)
      as [st [-> _]]; [lia|done].
  - destruct (N.to_nat (m_Order g)) as [|fuel]; [lia|]. simpl.
    pose proof (proj2 (dijkstra_round_spec g v st0 Hwf Hroot) Hnone) as Hfails.
    pose proof (dijkstra_round_ends g st0) as Hends.
    destruct (dijkstra_round g st0) as [r| |]; [by destruct (Hfails r)|done|done].
Qed.

(** ** Queries that return follow edges *)

Lemma walk_to_root_start (fuel : nat) (parents : list N) (root : N)
    (route r : list N) (x : N) :
  walk_to_root fuel parents root route x = Ok r -> x = root \/ x < vec_size parents.
Proof.
  destruct fuel as [|fuel]; simpl; destruct (N.eqb_spec x root) as [->|Hne]; auto.
  - discriminate.
  - intros H. apply bind_Ok in H as [p [Hp _]]. right.
    apply vec_get_Ok in Hp. by apply nth_N_bound in Hp.
Qed.

(** A walk that arrives has gone up edges of the adjacency matrix: from the
    root, edges lead down to the vertex it started at. *)
Lemma walk_to_root_reaches (g : CGraph) (root : N) (parents : list N) (dists : list float) :
  tree_ok g root parents dists -> root < m_Order g ->
  forall fuel route x r,
    walk_to_root fuel parents root route x = Ok r -> reaches g root x.
Proof.
  intros (Hsize & _ & _ & _ & Hedges & _) Hroot.
  induction fuel as [|fuel IH]; intros route x r; simpl;
    destruct (N.eqb_spec x root) as [->|Hne]; try (intros _; apply reaches_refl).
  - discriminate.
  - intros H. apply bind_Ok in H as [p [Hp H]]. apply vec_get_Ok in Hp.
    apply (reaches_step g root p x); [by apply (IH _ _ _ H)|].
    assert (p < m_Order g) as Hpo
      by (destruct (walk_to_root_start _ _ _ _ _ _ H) as [->|?]; lia).
    destruct (Hedges x p Hp Hpo) as [[? _]|?]; done.
Qed.

Lemma reaches_same_graph (g g' : CGraph) (u w : N) :
  same_graph g g' -> reaches g' u w -> reaches g u w.
Proof.
  intros (_ & _ & _ & _ & Ha). induction 1 as [v|u v w _ IH Hedge]; [apply reaches_refl|].
  apply (reaches_step g u v w); [done|]. by rewrite <- Ha.
Qed.

(** A query that returns has its two vertices joined by edges: from the end
    vertex to the start vertex if the tree of the end vertex was read, from
    the start vertex to the end vertex otherwise. *)
Theorem InternalShortestDistance_returns_along_edges
    (g g' : CGraph) (s e : N) (p : bool) (a : float * list N) :
  graph_ok g ->
  InternalShortestDistance g s e p = Ok (a, g') ->
  reaches g e s \/ reaches g s e.
Proof.
  intros Hok Hq. pose proof (step_InternalShortestDistance g g' s e p a Hq) as Hstep.
  destruct (query_step_graph_ok _ _ Hstep Hok) as [_ Hcache'].
  pose proof (query_step_same_graph _ _ Hstep) as Hsame.
  apply InternalShortestDistance_Ok in Hq as (b & Hchoose & Hread).
  assert (has_tree g' (if b then s else e) = true) as Hhas.
  { apply choose_tree_Ok in Hchoose
      as [(He&->&->)|[(_&Hs&->&->)|(_&_&->&k&Hrun)]]; try done.
    apply has_tree_true. exists k. by apply (InternalDijkstra_has_tree g). }
  apply has_tree_true in Hhas as [k Hk].
  destruct (cache_wf_slot g' _ k Hcache' Hk) as (Hroot & parents & dists & Hslot & Htree).
  destruct b.
  - right. apply (reaches_same_graph g g'); [done|].
    rewrite (read_tree_from_start g' s e k parents dists Hslot) in Hread.
    unfold omap, answer_from_tree in Hread.
    apply bind_Ok in Hread as [a' [Hread _]]. apply bind_Ok in Hread as [route [Hwalk _]].
    by apply (walk_to_root_reaches g' s parents dists Htree Hroot _ _ _ _ Hwalk).
  - left. apply (reaches_same_graph g g'); [done|].
    rewrite (read_tree_from_end g' s e k parents dists Hslot) in Hread.
    unfold answer_from_tree in Hread. apply bind_Ok in Hread as [route [Hwalk _]].
    by apply (walk_to_root_reaches g' e parents dists Htree Hroot _ _ _ _ Hwalk).
Qed.

(** ** The fuel of the walk is enough *)

Section Climb.
Variable parents : list N.
Variable root : N.

Lemma walk_to_root_climb (fuel : nat) (route : list N) (x : N) :
  walk_to_root fuel parents root route x
    = omap (app route) (climb fuel parents root x).
Proof.
  revert route x. induction fuel as [|fuel IH]; intros route x; simpl;
    destruct (x =? root); simpl; try done; try by rewrite app_nil_r.
  destruct (vec_get parents x) as [p| |]; simpl; try done.
  rewrite IH. unfold omap.
  destruct (climb fuel parents root p); simpl; try done.
  by rewrite <- app_assoc.
Qed.

Lemma climb_Ok_succ (fuel : nat) (x : N) (s : list N) :
  x <> root ->
  climb (Datatypes.S fuel) parents root x = Ok s ->
  exists p s', s = p :: s' /\ nth_N parents x = Some p /\ climb fuel parents root p = Ok s'.
Proof.
  intros Hx. simpl. rewrite (proj2 (N.eqb_neq x root) Hx). intros H.
  apply bind_Ok in H as [p [Hp H]]. apply bind_Ok in H as [s' [Hs' H]].
  injection H as <-. apply vec_get_Ok in Hp. eauto.
Qed.

Lemma climb_root (fuel : nat) : climb fuel parents root root = Ok [].
Proof. destruct fuel; simpl; by rewrite N.eqb_refl. Qed.

(** The vertices pushed do not depend on the fuel. *)
Lemma climb_det (f1 : nat) :
  forall f2 x s1 s2,
    climb f1 parents root x = Ok s1 -> climb f2 parents root x = Ok s2 -> s1 = s2.
Proof.
  induction f1 as [|f1 IH]; intros f2 x s1 s2 H1 H2;
    destruct (N.eq_dec x root) as [->|Hx].
  - rewrite climb_root in H1, H2. congruence.
  - simpl in H1. rewrite (proj2 (N.eqb_neq x root) Hx) in H1. discriminate.
  - rewrite climb_root in H1, H2. congruence.
  - destruct f2 as [|f2].
    { simpl in H2. rewrite (proj2 (N.eqb_neq x root) Hx) in H2. discriminate. }
    apply climb_Ok_succ in H1 as (p1 & t1 & -> & Hp1 & H1); [|done].
    apply climb_Ok_succ in H2 as (p2 & t2 & -> & Hp2 & H2); [|done].
    assert (p2 = p1) as -> by congruence. f_equal. by apply (IH f2 p1).
Qed.

(** As many rounds as vertices were pushed are enough. *)
Lemma climb_length (fuel : nat) :
  forall x s, climb fuel parents root x = Ok s -> climb (length s) parents root x = Ok s.
Proof.
  induction fuel as [|fuel IH]; intros x s H; destruct (N.eq_dec x root) as [->|Hx].
  - rewrite climb_root in *. congruence.
  - simpl in H. rewrite (proj2 (N.eqb_neq x root) Hx) in H. discriminate.
  - rewrite climb_root in *. congruence.
  - apply climb_Ok_succ in H as (p & s' & -> & Hp & H); [|done].
    simpl. rewrite (proj2 (N.eqb_neq x root) Hx).
    unfold vec_get. rewrite Hp. simpl. by rewrite (IH _ _ H).
Qed.

Lemma climb_more_fuel (fuel : nat) :
  forall fuel' x s,
    climb fuel parents root x = Ok s -> (fuel <= fuel')%nat ->
    climb fuel' parents root x = Ok s.
Proof.
  induction fuel as [|fuel IH]; intros fuel' x s H Hle;
    destruct (N.eq_dec x root) as [->|Hx].
  - rewrite climb_root in *. congruence.
  - simpl in H. rewrite (proj2 (N.eqb_neq x root) Hx) in H. discriminate.
  - rewrite climb_root in *. congruence.
  - apply climb_Ok_succ in H as (p & s' & -> & Hp & H); [|done].
    destruct fuel' as [|fuel']; [lia|]. simpl. rewrite (proj2 (N.eqb_neq x root) Hx).
    unfold vec_get. rewrite Hp. simpl. rewrite (IH fuel' _ _ H); [done|lia].
Qed.

(** Every vertex pushed climbs to the root by a shorter way. *)
Lemma climb_suffix (fuel : nat) :
  forall x s, climb fuel parents root x = Ok s ->
    forall y, y ∈ s ->
      exists fuel' s', climb fuel' parents root y = Ok s' /\ (length s' < length s)%nat.
Proof.
  induction fuel as [|fuel IH]; intros x s H y Hy; destruct (N.eq_dec x root) as [->|Hx].
  - rewrite climb_root in H. injection H as <-. by apply elem_of_nil in Hy.
  - simpl in H. rewrite (proj2 (N.eqb_neq x root) Hx) in H. discriminate.
  - rewrite climb_root in H. injection H as <-. by apply elem_of_nil in Hy.
  - apply climb_Ok_succ in H as (p & s' & -> & Hp & H); [|done].
    apply elem_of_cons in Hy as [->|Hy].
    + exists fuel, s'. split; [done|]. simpl. lia.
    + destruct (IH _ _ H y Hy) as (f' & s'' & Hs'' & Hlen).
      exists f', s''. split; [done|]. simpl. lia.
Qed.

(** A walk that arrives passes no vertex twice, and every vertex it passes
    is the root or an index of the parent vector. *)
Lemma climb_NoDup (fuel : nat) :
  forall x s, climb fuel parents root x = Ok s -> NoDup (x :: s).
Proof.
  induction fuel as [|fuel IH]; intros x s H; destruct (N.eq_dec x root) as [->|Hx].
  - rewrite climb_root in H. injection H as <-. apply NoDup_singleton.
  - simpl in H. rewrite (proj2 (N.eqb_neq x root) Hx) in H. discriminate.
  - rewrite climb_root in H. injection H as <-. apply NoDup_singleton.
  - pose proof H as H'.
    apply climb_Ok_succ in H as (p & s' & -> & Hp & H); [|done].
    apply NoDup_cons. split; [|by apply (IH p)].
    intros Hin. destruct (climb_suffix _ _ _ H' x Hin) as (f' & s'' & Hs'' & Hlen).
    rewrite (climb_det _ _ _ _ _ Hs'' H') in Hlen. lia.
Qed.

Lemma climb_bound (fuel : nat) :
  forall x s, climb fuel parents root x = Ok s ->
    forall y, y ∈ x :: s -> y = root \/ y < vec_size parents.
Proof.
  induction fuel as [|fuel IH]; intros x s H y Hy; destruct (N.eq_dec x root) as [->|Hx].
  - rewrite climb_root in H. injection H as <-.
    apply list_elem_of_singleton in Hy. by left.
  - simpl in H. rewrite (proj2 (N.eqb_neq x root) Hx) in H. discriminate.
  - rewrite climb_root in H. injection H as <-.
    apply list_elem_of_singleton in Hy. by left.
  - apply climb_Ok_succ in H as (p & s' & -> & Hp & H); [|done].
    apply elem_of_cons in Hy as [->|Hy]; [|by apply (IH p s')].
    right. by apply nth_N_bound in Hp.
Qed.

(** If any fuel lets the walk arrive, so does one round per entry of the
    parent vector. *)
Lemma climb_fuel_enough (fuel : nat) (x : N) (s : list N) :
  root < vec_size parents ->
  climb fuel parents root x = Ok s ->
  climb (N.to_nat (vec_size parents)) parents root x = Ok s.
Proof.
  intros Hroot H.
  apply (climb_more_fuel (length s)); [by apply (climb_length fuel)|].
  pose proof (bounded_NoDup_length (x :: s) (vec_size parents) (climb_NoDup _ _ _ H)) as Hlen.
  simpl in Hlen. enough (Datatypes.S (length s) <= N.to_nat (vec_size parents))%nat by lia.
  apply Hlen. intros y Hy. destruct (climb_bound _ _ _ H y Hy) as [->|?]; done.
Qed.

End Climb.

(** The walk of a query is given one round per vertex.  If the walk of the
    source arrives at all, it arrives within these rounds: the outcome
    [Diverge] of a query stands for a walk that goes round for ever. *)
Theorem unwind_fuel_is_enough (g : CGraph) (root k : N) (parents : list N) (dists : list float) :
  slot_at g root k parents dists -> tree_ok g root parents dists -> root < m_Order g ->
  forall fuel route x r,
    unwind fuel g k root route x = Ok r ->
    unwind (N.to_nat (m_Order g)) g k root route x = Ok r.
Proof.
  intros (_ & Hparents & _) (Hsize & _) Hroot fuel route x r.
  rewrite !(unwind_walk g k root parents Hparents), !walk_to_root_climb.
  unfold omap. intros H. apply bind_Ok in H as [s [Hs H]].
  rewrite <- Hsize. rewrite (climb_fuel_enough parents root fuel x s); [done| |done].
  by rewrite Hsize.
Qed.

(** ** The adjacency matrix of a constructed graph *)

(** The constructor returns a graph for square input only, and then, in
    every later state, the adjacency matrix has an edge exactly where the
    stored distance matrix has a non-negative entry off the diagonal. *)
Theorem adjacency_of_constructed_graph
    (distanceMatrix : list (list float)) (vertexLabels : list N) (g0 g : CGraph) (i j : N) :
  CGraph_new distanceMatrix vertexLabels = Ok g0 -> later g0 g ->
  i < m_Order g -> j < m_Order g ->
  m_DistanceMatrix g = distanceMatrix
  /\ exists x, mat_get (m_DistanceMatrix g) i j = Ok x
               /\ exists b, mat_get (m_AdjacencyMatrix g) i j = Ok b
                            /\ (b = true <-> ge_zero x = true /\ i <> j).
Proof.
  intros Hnew Hlater Hi Hj.
  destruct (CGraph_new_Ok _ _ _ Hnew) as (_ & _ & _ & Hdm & _).
  pose proof (later_graph_ok _ _ Hlater (CGraph_new_graph_ok _ _ _ Hnew)) as [Hwf _].
  destruct (later_same_graph _ _ Hlater) as (_ & _ & _ & Hm & _).
  split; [congruence|].
  destruct (wf_adj g Hwf i j Hi Hj) as [x [Hx Hadj]].
  exists x. split; [done|]. exists (is_edge x i j). split; [done|].
  unfold is_edge. rewrite andb_true_iff, negb_true_iff, N.eqb_neq. done.
Qed.

Lemma adjacency_of_constructed_graph_witness :
  m_DistanceMatrix Scenario.path_graph_asked = Scenario.path_matrix
  /\ exists x, mat_get (m_DistanceMatrix Scenario.path_graph_asked) 1 2 = Ok x
       /\ exists b, mat_get (m_AdjacencyMatrix Scenario.path_graph_asked) 1 2 = Ok b
                    /\ (b = true <-> ge_zero x = true /\ 1 <> 2).
Proof.
  apply (adjacency_of_constructed_graph Scenario.path_matrix Scenario.path_labels
           Scenario.path_graph Scenario.path_graph_asked 1 2).
  - vm_compute. reflexivity.
  - apply rtc_once.
    apply (step_ShortestDistance _ _ 10 40 false (6%float, [10; 20; 30; 40])).
    vm_compute. reflexivity.
  - reflexivity.
  - reflexivity.
Defined.

(** ** A root without neighbours *)

(** A single-source run from a vertex that has no neighbour, in a graph
    that has no tree for it yet, does not return: the first round finds no
    unconfirmed vertex with an estimate and indexes the confirmation vector
    with [(unsigned int)-1]. *)
Theorem run_from_isolated_vertex_does_not_return (g : CGraph) (v : N) :
  graph_wf g -> v < m_Order g ->
  m_DijkstraStartVertices g !! v = None ->
  (forall k x, k < m_Order g -> k <> v ->
     mat_get (m_DistanceMatrix g) v k = Ok x -> is_edge x v k = false) ->
  forall r, InternalDijkstra g v <> Ok r.
Proof.
  intros Hwf Hv Hnone Hisolated r Hrun. unfold InternalDijkstra in Hrun.
  destruct (N.leb_spec (m_Order g) v) as [?|_]; [lia|]. rewrite Hnone in Hrun.
  destruct (dijkstra_init_Ok g v Hwf Hv) as (st0 & Hinit & Hroot & _ & _ & Hno).
  rewrite Hinit in Hrun. simpl in Hrun.
  apply bind_Ok in Hrun as [st [Hwhile _]].
  destruct (N.to_nat (m_Order g)) as [|fuel]; [discriminate|]. simpl in Hwhile.
  apply bind_Ok in Hwhile as [round [Hround _]].
  by apply (proj2 (dijkstra_round_spec g v st0 Hwf Hroot) (Hno Hisolated) round).
Qed.

(** ** Every query ends *)

(** Along parents that lead towards the root a walk ends: it arrives or it
    indexes the parent vector outside its bounds. *)
Lemma climb_ends (g : CGraph) (root : N) (parents : list N) (depth : N -> nat) :
  vec_size parents = m_Order g ->
  (forall i p, nth_N parents i = Some p -> i <> root ->
               (rounds_needed g root depth p < depth i)%nat) ->
  forall fuel x,
    (rounds_needed g root depth x <= fuel)%nat ->
    returns_or_leaves_vector (climb fuel parents root x).
Proof.
  intros Hsize Hdepth. induction fuel as [|fuel IH]; intros x Hx;
    unfold rounds_needed in Hx; simpl;
    destruct (N.eqb_spec x root) as [Hxr|Hxr]; try done.
  - destruct (N.ltb_spec x (m_Order g)) as [Hxo|Hxo]; [|lia].
    destruct (nth_N_Some parents x) as [p Hp]; [lia|].
    specialize (Hdepth x p Hp Hxr). lia.
  - destruct (N.ltb_spec x (m_Order g)) as [Hxo|Hxo].
    + destruct (nth_N_Some parents x) as [p Hp]; [lia|].
      unfold vec_get. rewrite Hp. simpl.
      specialize (Hdepth x p Hp Hxr).
      specialize (IH p ltac:(lia)).
      destruct (climb fuel parents root p); done.
    + rewrite vec_get_out by lia. done.
Qed.

Lemma rounds_needed_le (g : CGraph) (root : N) (depth : N -> nat) (x : N) :
  root < m_Order g ->
  (forall y, y < m_Order g -> (depth y <= N.to_nat (m_Order g))%nat) ->
  (rounds_needed g root depth x <= N.to_nat (m_Order g))%nat.
Proof.
  intros Hroot Hdepth. unfold rounds_needed.
  destruct (x =? root); [lia|].
  destruct (N.ltb_spec x (m_Order g)); [by apply Hdepth|lia].
Qed.

(** Reading a cached tree ends: with one round per vertex the walk arrives
    or leaves the parent vector. *)
Lemma read_tree_ends (g : CGraph) (b : bool) (s e k : N) :
  cache_wf g ->
  m_DijkstraStartVertices g !! (if b then s else e) = Some k ->
  returns_or_leaves_vector (read_tree g b s e).
Proof.
  intros Hcache Hk.
  destruct (cache_wf_slot g _ k Hcache Hk) as (Hroot & parents & dists & Hslot & Htree).
  pose proof Htree as (Hsize & _ & _ & _ & _ & depth & Hbound & Hdepth).
  assert (forall x, returns_or_leaves_vector
                      (climb (N.to_nat (m_Order g)) parents (if b then s else e) x))
    as Hclimb.
  { intros x. apply (climb_ends g _ parents depth Hsize Hdepth).
    by apply rounds_needed_le. }
  destruct b.
  - rewrite (read_tree_from_start g s e k parents dists Hslot).
    unfold omap, answer_from_tree. rewrite walk_to_root_climb. unfold omap.
    specialize (Hclimb e). destruct (climb _ parents s e); simpl; try done.
    pose proof (vec_get_ends dists e). destruct (vec_get dists e); done.
  - rewrite (read_tree_from_end g s e k parents dists Hslot).
    unfold answer_from_tree. rewrite walk_to_root_climb. unfold omap.
    specialize (Hclimb s). destruct (climb _ parents e s); simpl; try done.
    pose proof (vec_get_ends dists s). destruct (vec_get dists s); done.
Qed.

(** On a graph the constructor returned, in any later state, a query
    between two vertices ends and throws nothing: it returns, or it indexes
    a vector outside its bounds. *)
Theorem InternalShortestDistance_ends (g : CGraph) (s e : N) (p : bool) :
  graph_ok g -> s < m_Order g -> e < m_Order g ->
  returns_or_leaves_vector (InternalShortestDistance g s e p).
Proof.
  intros [Hwf Hcache] Hs He. rewrite InternalShortestDistance_policy.
  destruct (has_tree g e) eqn:Hte.
  { apply has_tree_true in Hte as [k Hk].
    pose proof (read_tree_ends g false s e k Hcache Hk).
    destruct (read_tree g false s e); done. }
  destruct (has_tree g s) eqn:Hts.
  { apply has_tree_true in Hts as [k Hk].
    pose proof (read_tree_ends g true s e k Hcache Hk).
    destruct (read_tree g true s e); done. }
  assert ((if p then s else e) < m_Order g) as Hv by (by destruct p).
  pose proof (InternalDijkstra_ends g _ Hwf Hv) as Hrun.
  destruct (InternalDijkstra g (if p then s else e)) as [[k g']| |] eqn:Hdijk;
    simpl; try done.
  pose proof (InternalDijkstra_cache_wf _ _ _ _ Hwf Hcache Hdijk) as Hcache'.
  pose proof (InternalDijkstra_has_tree _ _ _ _ Hdijk) as Hk.
  pose proof (read_tree_ends g' p s e k Hcache' Hk).
  destruct (read_tree g' p s e); done.
Qed.

(** For a pair of registered labels whose vertices no edges join, in either
    direction, the query indexes a vector outside its bounds: it neither
    returns nor throws, on any graph the constructor returned and in any
    state of its cache. *)
Theorem unconnected_pair_leaves_vector
    (distanceMatrix : list (list float)) (vertexLabels : list N) (g0 g : CGraph)
    (label_s label_e s e : N) (p : bool) :
  CGraph_new distanceMatrix vertexLabels = Ok g0 -> later g0 g ->
  ExternalToInternal g label_s = Ok s -> ExternalToInternal g label_e = Ok e ->
  ~ reaches g s e -> ~ reaches g e s ->
  ShortestDistance g label_s label_e p = Raise OutOfBounds.
Proof.
  intros Hnew Hlater Hs He Hse Hes.
  pose proof (later_graph_ok _ _ Hlater (CGraph_new_graph_ok _ _ _ Hnew)) as Hok.
  assert (forall l i, ExternalToInternal g l = Ok i -> i < m_Order g) as Hreg.
  { intros l i Hl. unfold ExternalToInternal in Hl.
    destruct (m_ExternalToInternal g !! l) as [j|] eqn:Hj; [|discriminate].
    injection Hl as ->. by destruct (wf_labels g (proj1 Hok) l i Hj). }
  pose proof (InternalShortestDistance_ends g s e p Hok (Hreg _ _ Hs) (Hreg _ _ He)) as Hends.
  unfold ShortestDistance. rewrite Hs, He. simpl.
  destruct (InternalShortestDistance g s e p) as [[a g']|f|] eqn:Hq; simpl in *;
    [|by subst|done].
  destruct (InternalShortestDistance_returns_along_edges _ _ _ _ _ _ Hok Hq); done.
Qed.

(** * Further properties *)

(** ** The verdict of the validator *)

Lemma existsb_nth_N {A : Type} (f : A -> bool) (l : list A) :
  existsb f l = true <-> exists k x, nth_N l k = Some x /\ f x = true.
Proof.
  rewrite existsb_exists. split.
  - intros (x & Hin & Hf). apply list_elem_of_In, list_elem_of_lookup in Hin as [k Hk].
    exists (N.of_nat k), x. split; [|done]. by rewrite nth_N_lookup, Nat2N.id.
  - intros (k & x & Hk & Hf). exists x. split; [|done].
    rewrite nth_N_lookup in Hk. apply list_elem_of_In. by apply (list_elem_of_lookup_2 _ (N.to_nat k)).
Qed.

Lemma existsb_nth_N_false {A : Type} (f : A -> bool) (l : list A) :
  existsb f l = false <-> forall k x, nth_N l k = Some x -> f x = false.
Proof.
  split.
  - intros H k x Hk. destruct (f x) eqn:Hf; [|done].
    rewrite <- H. symmetry. apply existsb_nth_N. eauto.
  - intros H. destruct (existsb f l) eqn:He; [|done].
    apply existsb_nth_N in He as (k & x & Hk & Hf). by rewrite (H k x Hk) in Hf.
Qed.

Lemma check_elements_row_verdict (dm : list (list float)) (i : N) (row : list float) :
  nth_N dm i = Some row ->
  check_elements_row dm i tt
    = Ok (if existsb invalid_element row then inr invalidElements else inl tt).
Proof.
  intros Hrow. unfold check_elements_row, row_size, vec_get. rewrite Hrow. simpl.
  unfold for_upto_ret.
  set (c := fun j => match nth_N row j with
                     | Some x => negb (invalid_element x)
                     | None => true
                     end).
  destruct (for_loop_ret_test c invalidElements
              (fun j (_ : unit) =>
                 do x <- mat_get dm i j;
                 do y <- and_then (Ok (PrimFloat.ltb x 0%float))
                                  (do x' <- mat_get dm i j; Ok (not_minus_one x'));
                 if y then Ok (inr invalidElements) else Ok (inl tt))
              (N.to_nat (vec_size row)) 0) as [[Hrun Hall]|[Hrun (k & Hk & Hck)]].
  - intros j Hj. unfold mat_get, vec_get. rewrite Hrow. simpl.
    destruct (nth_N_Some row j) as [x Hx]; [lia|]. unfold c. rewrite Hx. simpl.
    unfold and_then, invalid_element. simpl.
    destruct (PrimFloat.ltb x 0); simpl; [|done]. by destruct (not_minus_one x).
  - replace (existsb invalid_element row) with false; [exact Hrun|].
    symmetry. apply existsb_nth_N_false. intros k x Hk.
    pose proof (nth_N_bound _ _ _ Hk) as Hkb.
    specialize (Hall k ltac:(lia)). unfold c in Hall. rewrite Hk in Hall.
    by apply negb_true_iff in Hall.
  - replace (existsb invalid_element row) with true; [exact Hrun|].
    symmetry. apply existsb_nth_N. unfold c in Hck.
    destruct (nth_N row k) as [x|] eqn:Hx; [|discriminate].
    exists k, x. split; [done|]. by apply negb_false_iff in Hck.
Qed.

Lemma check_elements_loop_verdict (dm : list (list float)) :
  for_upto_ret (vec_size dm) (check_elements_row dm) tt
    = Ok (if has_invalid dm then inr invalidElements else inl tt).
Proof.
  unfold for_upto_ret.
  set (c := fun i => match nth_N dm i with
                     | Some row => negb (existsb invalid_element row)
                     | None => true
                     end).
  destruct (for_loop_ret_test c invalidElements (check_elements_row dm)
              (N.to_nat (vec_size dm)) 0) as [[Hrun Hall]|[Hrun (k & Hk & Hck)]].
  - intros i Hi. destruct (nth_N_Some dm i) as [row Hrow]; [lia|].
    rewrite (check_elements_row_verdict dm i row Hrow). unfold c. rewrite Hrow.
    by destruct (existsb invalid_element row).
  - rewrite Hrun. unfold has_invalid.
    replace (existsb (existsb invalid_element) dm) with false; [done|].
    symmetry. apply existsb_nth_N_false. intros k row Hk.
    pose proof (nth_N_bound _ _ _ Hk) as Hkb.
    specialize (Hall k ltac:(lia)). unfold c in Hall. rewrite Hk in Hall.
    by apply negb_true_iff in Hall.
  - rewrite Hrun. unfold has_invalid.
    replace (existsb (existsb invalid_element) dm) with true; [done|].
    symmetry. apply existsb_nth_N. unfold c in Hck.
    destruct (nth_N dm k) as [row|] eqn:Hrow; [|discriminate].
    exists k, row. split; [done|]. by apply negb_false_iff in Hck.
Qed.

Lemma rows_fit_spec (dm : list (list float)) :
  rows_fit dm = true ->
  forall k row, nth_N dm k = Some row -> vec_size row <= max_unsignedInt.
Proof.
  unfold rows_fit. rewrite forallb_forall. intros H k row Hk.
  apply N.leb_le, H, list_elem_of_In. rewrite nth_N_lookup in Hk.
  by apply (list_elem_of_lookup_2 _ (N.to_nat k)).
Qed.

(** The verdict once the shape is guessed, whatever the elements. *)
Lemma CheckInput_DistMat_after_guess_verdict (dm : list (list float))
    (shape : CGraph_DistMatCheckResult) :
  vec_size dm <= max_unsignedInt ->
  (forall k row, nth_N dm k = Some row -> vec_size row <= max_unsignedInt) ->
  guess_shape (vec_size dm) dm = Ok shape ->
  shape = square \/ shape = lowerTriangular \/ shape = upperTriangular ->
  ((forall k, k < vec_size dm -> row_conforms (vec_size dm) dm shape k = true) ->
   CheckInput_DistMat (vec_size dm) dm
     = Ok (if has_invalid dm then invalidElements else shape))
  /\ (~ (forall k, k < vec_size dm -> row_conforms (vec_size dm) dm shape k = true) ->
      CheckInput_DistMat (vec_size dm) dm = Ok badShape).
Proof.
  intros Hn Hrows Hguess Hshape. unfold CheckInput_DistMat.
  replace (max_unsignedInt <? vec_size dm) with false by (symmetry; apply N.ltb_ge; lia).
  rewrite Hguess. simpl.
  destruct (check_rows_loop dm shape Hn Hrows Hshape) as [[Hrun Hall]|[Hrun (k & Hk & Hck)]].
  - split; [intros _|intros Hnot; by destruct Hnot].
    destruct Hshape as [->|[->| ->]]; rewrite Hrun; simpl;
      rewrite check_elements_loop_verdict; simpl; by destruct (has_invalid dm).
  - split; [intros Hall; specialize (Hall k Hk); congruence|intros _].
    destruct Hshape as [->|[->| ->]]; by rewrite Hrun.
Qed.

Lemma CheckInput_DistMat_verdict_eq (distanceMatrix : list (list float)) :
  2 <= vec_size distanceMatrix <= max_unsignedInt ->
  rows_fit distanceMatrix = true ->
  CheckInput_DistMat (to_unsigned (vec_size distanceMatrix)) distanceMatrix
    = Ok (verdict distanceMatrix).
Proof.
  intros [Hn2 Hn] Hfit. pose proof (rows_fit_spec _ Hfit) as Hrows.
  rewrite to_unsigned_small by done.
  assert (exists r0 r1 rest, distanceMatrix = r0 :: r1 :: rest) as (r0 & r1 & rest & Hdm).
  { destruct distanceMatrix as [|r0 [|r1 rest]]; unfold vec_size in Hn2; simpl in Hn2;
      [lia|lia|eauto]. }
  set (dm := distanceMatrix) in *. set (n := vec_size dm) in *.
  assert (nth_N dm 0 = Some r0 /\ nth_N dm 1 = Some r1) as [H0 H1] by (by rewrite Hdm).
  pose proof (CheckInput_DistMat_after_guess_verdict dm) as Hafter. fold n in Hafter.
  pose proof (square_rows dm) as Hsq. pose proof (lower_rows dm) as Hlo.
  pose proof (upper_rows dm) as Hup. fold n in Hsq, Hlo, Hup.
  assert (guess_shape n dm
          = Ok (if (vec_size r0 =? n) && (vec_size r1 =? n) then square
                else if (vec_size r0 =? 1) && (vec_size r1 =? 2) then lowerTriangular
                else if (vec_size r0 =? n) && (vec_size r1 =? n - 1) then upperTriangular
                else badShape)) as Hguess.
  { rewrite Hdm, guess_shape_two. f_equal. unfold to_unsigned.
    replace (n + 4294967296 - 1) with (n - 1 + 1 * 4294967296) by lia.
    rewrite N.Div0.mod_add, N.mod_small by (unfold max_unsignedInt in Hn; lia). done. }
  assert (forall f, rows_match_from f 0 dm = true ->
                    vec_size r0 = f 0 /\ vec_size r1 = f 1) as Hfirst.
  { intros f Hf. rewrite rows_match_from_spec in Hf.
    split; [by apply (Hf 0)|by apply (Hf 1)]. }
  assert (forall r, nth_N dm 0 = Some r -> r = r0) as Hr0 by (intros r; congruence).
  assert (forall shape,
            guess_shape n dm = Ok shape ->
            shape = square \/ shape = lowerTriangular \/ shape = upperTriangular ->
            ((forall k, k < n -> row_conforms n dm shape k = true) ->
             CheckInput_DistMat n dm = Ok (if has_invalid dm then invalidElements else shape))
            /\ (~ (forall k, k < n -> row_conforms n dm shape k = true) ->
                CheckInput_DistMat n dm = Ok badShape)) as Hverdict
    by (intros shape; by apply Hafter).
  clear Hafter. unfold verdict, spec_shape. fold n.
  destruct (N.eqb_spec (vec_size r0) n) as [G0n|G0n];
    destruct (N.eqb_spec (vec_size r1) n) as [G1n|G1n];
    destruct (N.eqb_spec (vec_size r0) 1) as [G01|G01];
    destruct (N.eqb_spec (vec_size r1) 2) as [G12|G12];
    destruct (N.eqb_spec (vec_size r1) (n - 1)) as [G1u|G1u];
    simpl in Hguess; try (exfalso; lia);
    destruct (rows_match_from (fun _ => n) 0 dm) eqn:Hms;
    try (destruct (Hfirst _ Hms) as [E0 E1]; exfalso; lia);
    destruct (rows_match_from (fun i => i + 1) 0 dm) eqn:Hml;
    try (destruct (Hfirst _ Hml) as [E0 E1]; exfalso; lia);
    destruct (rows_match_from (fun i => n - i) 0 dm) eqn:Hmu;
    try (destruct (Hfirst _ Hmu) as [E0 E1]; exfalso; lia).
  all: try (apply (proj1 (Hverdict square Hguess ltac:(auto))); by apply Hsq).
  all: try (apply (proj2 (Hverdict square Hguess ltac:(auto)));
            intros Hall; apply Hsq in Hall; discriminate).
  all: try (apply (proj1 (Hverdict lowerTriangular Hguess ltac:(auto))); by apply Hlo).
  all: try (apply (proj2 (Hverdict lowerTriangular Hguess ltac:(auto)));
            intros Hall; assert (false = true) as Habs; [|discriminate];
            apply Hlo; split; [done|]; intros r Hr; by rewrite (Hr0 r Hr)).
  all: try (apply (proj1 (Hverdict upperTriangular Hguess ltac:(auto))); by apply Hup).
  all: try (apply (proj2 (Hverdict upperTriangular Hguess ltac:(auto)));
            intros Hall; assert (false = true) as Habs; [|discriminate];
            apply Hup; split; [done|]; intros r Hr; by rewrite (Hr0 r Hr)).
  all: unfold CheckInput_DistMat; fold n;
    replace (max_unsignedInt <? n) with false by (symmetry; apply N.ltb_ge; lia);
    by rewrite Hguess.
Qed.

(** On a matrix of at least two rows whose sizes fit an [unsigned int] the
    validator returns: a bad shape if the rows have not the lengths of a
    square or triangular matrix; else invalid elements if some element is
    below 0 and not -1; else the shape. *)
Theorem CheckInput_DistMat_verdict (distanceMatrix : list (list float)) :
  2 <= vec_size distanceMatrix <= max_unsignedInt ->
  rows_fit distanceMatrix = true ->
  CheckInput_DistMat (to_unsigned (vec_size distanceMatrix)) distanceMatrix
    = Ok (verdict distanceMatrix).
Proof. apply CheckInput_DistMat_verdict_eq. Qed.

Lemma CheckInput_DistMat_verdict_witness :
  CheckInput_DistMat 2 Scenario.invalid_matrix = Ok invalidElements
  /\ CheckInput_DistMat 2 Scenario.lower_input = Ok lowerTriangular.
Proof.
  split.
  - apply (CheckInput_DistMat_verdict Scenario.invalid_matrix).
    + vm_compute. split; discriminate.
    + vm_compute. reflexivity.
  - apply (CheckInput_DistMat_verdict Scenario.lower_input).
    + vm_compute. split; discriminate.
    + vm_compute. reflexivity.
Defined.

(** ** The constructor on square input *)

Lemma label_loop (labels : list N) :
  forall (rest : list N) (i : N) (m : gmap N N),
    (forall k, nth_N rest k = nth_N labels (i + k)) ->
    for_loop (length rest) i
      (fun i (m : gmap N N) => do l <- vec_get labels i; Ok (<[l := i]> m)) m
    = Ok (label_table_from i rest m).
Proof.
  induction rest as [|l rest IH]; intros i m Hrest; simpl; [done|].
  pose proof (Hrest 0) as H0. simpl in H0. rewrite N.add_0_r in H0.
  unfold vec_get. rewrite <- H0. simpl. apply IH.
  intros k. rewrite <- (nth_N_cons l rest k), Hrest. f_equal. lia.
Qed.

Lemma label_table_from_notin (labels : list N) (l : N) :
  l ∉ labels -> forall i m, label_table_from i labels m !! l = m !! l.
Proof.
  induction labels as [|x rest IH]; intros Hl i m; simpl; [done|].
  apply not_elem_of_cons in Hl as [Hx Hrest].
  rewrite IH by done. by rewrite lookup_insert_ne.
Qed.

Lemma label_table_from_NoDup (labels : list N) :
  NoDup labels ->
  forall i m j l, nth_N labels j = Some l -> label_table_from i labels m !! l = Some (i + j).
Proof.
  induction 1 as [|x rest Hx Hnodup IH]; intros i m j l Hj; [done|].
  cbn [label_table_from].
  destruct j as [|j'] using N.peano_ind.
  - injection Hj as <-. rewrite label_table_from_notin by done.
    rewrite lookup_insert_eq. f_equal. lia.
  - rewrite nth_N_cons in Hj. rewrite (IH _ _ _ _ Hj). f_equal. lia.
Qed.

Lemma label_table_from_dom (labels : list N) :
  forall i m, dom (label_table_from i labels m) = list_to_set labels ∪ dom m.
Proof.
  induction labels as [|x rest IH]; intros i m; simpl.
  - by rewrite (left_id_L ∅ (∪)).
  - rewrite IH, dom_insert_L. by rewrite (assoc_L (∪)), (comm_L (∪) _ {[x]}).
Qed.

Lemma size_list_to_set_le (l : list N) : (base.size (list_to_set l : gset N) <= length l)%nat.
Proof.
  induction l as [|x l IH].
  - change (base.size (∅ : gset N) <= 0)%nat. by rewrite size_empty.
  - rewrite list_to_set_cons. cbn [length].
    destruct (decide (x ∈ l)) as [Hin|Hnotin].
    + replace ({[x]} ∪ list_to_set l : gset N) with (list_to_set l : gset N); [lia|].
      apply set_eq. intros y. rewrite elem_of_union, elem_of_singleton, !elem_of_list_to_set.
      split; [auto|]. intros [->|?]; done.
    + rewrite size_union, size_singleton; [lia|].
      intros y. rewrite elem_of_singleton, elem_of_list_to_set. by intros ->.
Qed.

Lemma size_list_to_set_NoDup (l : list N) :
  base.size (list_to_set l : gset N) = length l <-> NoDup l.
Proof.
  split; [|apply size_list_to_set]. induction l as [|x l IH]; intros Hsize; [constructor|].
  rewrite list_to_set_cons in Hsize. cbn [length] in Hsize.
  pose proof (size_list_to_set_le l) as Hle.
  destruct (decide (x ∈ l)) as [Hin|Hnotin].
  - replace ({[x]} ∪ list_to_set l : gset N) with (list_to_set l : gset N) in Hsize; [lia|].
    apply set_eq. intros y. rewrite elem_of_union, elem_of_singleton, !elem_of_list_to_set.
    split; [auto|]. intros [->|?]; done.
  - rewrite size_union, size_singleton in Hsize.
    + constructor; [done|]. apply IH. lia.
    + intros y. rewrite elem_of_singleton, elem_of_list_to_set. by intros ->.
Qed.

Lemma label_table_size (labels : list N) :
  N.of_nat (base.size (label_table labels)) = vec_size labels <-> NoDup labels.
Proof.
  unfold label_table, vec_size. rewrite <- size_dom, label_table_from_dom, dom_empty_L.
  rewrite (right_id_L ∅ (∪)). rewrite <- size_list_to_set_NoDup. lia.
Qed.

(** The label table of labels that do not repeat is the inverse of the
    label vector. *)
Lemma label_table_lookup (labels : list N) (l i : N) :
  NoDup labels -> (label_table labels !! l = Some i <-> nth_N labels i = Some l).
Proof.
  intros Hnodup. split.
  - intros Hl. destruct (decide (l ∈ labels)) as [Hin|Hnotin].
    + apply list_elem_of_lookup in Hin as [k Hk].
      assert (nth_N labels (N.of_nat k) = Some l) as Hk'
        by (by rewrite nth_N_lookup, Nat2N.id).
      unfold label_table in Hl.
      rewrite (label_table_from_NoDup labels Hnodup 0 ∅ _ _ Hk') in Hl.
      injection Hl as <-. by rewrite N.add_0_l.
    + unfold label_table in Hl. rewrite label_table_from_notin in Hl by done. done.
  - intros Hi. unfold label_table.
    by rewrite (label_table_from_NoDup labels Hnodup 0 ∅ _ _ Hi).
Qed.

Lemma store_labels_eq (n : N) (labels : list N) :
  store_labels n labels =
    if negb (n =? vec_size labels) then Raise InputVertexLabels_BadSize
    else if bool_decide (NoDup labels) then Ok (label_table labels)
    else Raise InputVertexLabels_RepeatedLabel.
Proof.
  unfold store_labels. destruct (N.eqb_spec n (vec_size labels)) as [->|Hn]; [|done]. simpl.
  unfold for_upto, vec_size at 1. rewrite Nat2N.id.
  rewrite (label_loop labels labels 0 ∅) by (intros k; by rewrite N.add_0_l). simpl.
  fold (label_table labels). pose proof (label_table_size labels) as Hsize.
  destruct (decide (NoDup labels)) as [Hnodup|Hdup].
  - rewrite bool_decide_eq_true_2 by done.
    rewrite (proj2 Hsize Hnodup), N.eqb_refl. done.
  - rewrite bool_decide_eq_false_2 by done.
    destruct (N.eqb_spec (vec_size labels) (N.of_nat (base.size (label_table labels))))
      as [Heq|Hne]; [|done].
    exfalso. apply Hdup, Hsize. done.
Qed.

(** ** The adjacency matrix in closed form *)

Lemma all_rows_of_length_dims (n : N) (dm : list (list float)) :
  vec_size dm = n -> all_rows_of_length n dm = true -> mat_dims dm n.
Proof.
  intros Hn Hall. split; [done|]. intros i row Hrow.
  unfold all_rows_of_length in Hall. rewrite forallb_forall in Hall.
  apply N.eqb_eq, Hall, list_elem_of_In. rewrite nth_N_lookup in Hrow.
  by apply (list_elem_of_lookup_2 _ (N.to_nat i)).
Qed.

Lemma mat_get_adjacency_of (dm : list (list float)) (i j : N) (x : float) :
  mat_get dm i j = Ok x -> mat_get (adjacency_of dm) i j = Ok (is_edge x i j).
Proof.
  unfold mat_get. intros H. apply bind_Ok in H as [row [Hrow Hx]].
  apply vec_get_Ok in Hrow. apply vec_get_Ok in Hx.
  rewrite nth_N_lookup in Hrow. rewrite nth_N_lookup in Hx.
  unfold adjacency_of, vec_get. rewrite nth_N_lookup.
  rewrite list_lookup_imap, Hrow. simpl.
  rewrite nth_N_lookup, list_lookup_imap, Hx. simpl. by rewrite !N2Nat.id.
Qed.

Lemma mat_dims_adjacency_of (dm : list (list float)) (n : N) :
  mat_dims dm n -> mat_dims (adjacency_of dm) n.
Proof.
  intros [Hrows Hcols]. unfold adjacency_of. split.
  - unfold vec_size in *. by rewrite length_imap.
  - intros i row Hrow. rewrite nth_N_lookup, list_lookup_imap in Hrow.
    destruct (dm !! N.to_nat i) as [r|] eqn:Hr; [|done]. injection Hrow as <-.
    unfold vec_size. rewrite length_imap. apply (Hcols i). by rewrite nth_N_lookup.
Qed.

Lemma mat_ext {A : Type} (m1 m2 : list (list A)) (n : N) :
  mat_dims m1 n -> mat_dims m2 n ->
  (forall i j, i < n -> j < n -> mat_get m1 i j = mat_get m2 i j) -> m1 = m2.
Proof.
  intros [Hr1 Hc1] [Hr2 Hc2] Hget. apply list_eq. intros i.
  destruct (N.lt_ge_cases (N.of_nat i) n) as [Hi|Hi].
  - destruct (nth_N_Some m1 (N.of_nat i)) as [r1 Hrow1]; [lia|].
    destruct (nth_N_Some m2 (N.of_nat i)) as [r2 Hrow2]; [lia|].
    pose proof Hrow1 as Hl1. pose proof Hrow2 as Hl2.
    rewrite nth_N_lookup, Nat2N.id in Hl1, Hl2. rewrite Hl1, Hl2. f_equal.
    apply list_eq. intros j.
    destruct (N.lt_ge_cases (N.of_nat j) n) as [Hj|Hj].
    + specialize (Hget _ _ Hi Hj). unfold mat_get, vec_get in Hget.
      rewrite Hrow1, Hrow2 in Hget. simpl in Hget.
      rewrite !nth_N_lookup, Nat2N.id in Hget.
      destruct (r1 !! j), (r2 !! j); congruence.
    + rewrite !lookup_ge_None_2; [done| |].
      * specialize (Hc2 _ _ Hrow2). unfold vec_size in Hc2. lia.
      * specialize (Hc1 _ _ Hrow1). unfold vec_size in Hc1. lia.
  - rewrite !lookup_ge_None_2; [done| |]; unfold vec_size in *; lia.
Qed.

Lemma make_adjacency_total (n : N) (dm : list (list float)) :
  mat_dims dm n -> exists adj, make_adjacency n dm = Ok adj.
Proof.
  intros Hdm. unfold make_adjacency.
  destruct (for_upto_total (fun _ (m : list (list bool)) => mat_dims m n)
              (fun i adj =>
                 for_upto n
                   (fun j adj =>
                      do c <- and_then (do x <- mat_get dm i j; Ok (ge_zero x))
                                       (Ok (negb (i =? j)));
                      if c then mat_set adj i j true else Ok adj) adj)
              n (vec_fill n (vec_fill n false))) as [adj [Hrun _]];
    [apply mat_dims_fill| |eauto].
  intros i m Hi Hm.
  apply (for_upto_total (fun _ (m : list (list bool)) => mat_dims m n)); [done|].
  intros j m' Hj Hm'. destruct (mat_get_in dm n i j Hdm Hi Hj) as [x Hx].
  rewrite Hx. simpl. unfold and_then. simpl.
  destruct (ge_zero x); simpl; [|eauto].
  destruct (negb (i =? j)); [|eauto].
  destruct (mat_set_in m' n i j true Hm' Hi Hj) as [m'' Hset].
  exists m''. split; [done|]. by destruct (mat_set_Ok _ _ _ _ _ _ Hm' Hset).
Qed.

Lemma make_adjacency_eq (n : N) (dm : list (list float)) :
  mat_dims dm n -> make_adjacency n dm = Ok (adjacency_of dm).
Proof.
  intros Hdm. destruct (make_adjacency_total n dm Hdm) as [adj Hrun].
  rewrite Hrun. f_equal.
  destruct (make_adjacency_Ok _ _ _ Hrun) as [Hdims Hentries].
  apply (mat_ext _ _ n); [done|by apply mat_dims_adjacency_of|].
  intros i j Hi Hj. destruct (Hentries i j Hi Hj) as [x [Hx ->]].
  symmetry. by apply mat_get_adjacency_of.
Qed.

Lemma all_rows_of_length_square (dm : list (list float)) :
  all_rows_of_length (vec_size dm) dm = rows_match_from (fun _ => vec_size dm) 0 dm.
Proof.
  unfold all_rows_of_length. generalize (vec_size dm) as n. generalize 0 as i0.
  induction dm as [|r rest IH]; intros i0 n; simpl; [done|]. by rewrite (IH (N.succ i0)).
Qed.

(** The constructor's result on a square matrix, case by case. *)
Lemma CGraph_new_square_eq
    (distanceMatrix : list (list float)) (vertexLabels : list N) :
  2 <= vec_size distanceMatrix <= max_unsignedInt ->
  all_rows_of_length (vec_size distanceMatrix) distanceMatrix = true ->
  CGraph_new distanceMatrix vertexLabels =
    if has_invalid distanceMatrix then Raise InputDistMat_InvalidElements
    else if negb (vec_size vertexLabels =? vec_size distanceMatrix)
         then Raise InputVertexLabels_BadSize
    else if bool_decide (NoDup vertexLabels)
         then Ok (constructed distanceMatrix vertexLabels)
    else Raise InputVertexLabels_RepeatedLabel.
Proof.
  intros Hn Hrows. pose proof (all_rows_of_length_dims _ _ eq_refl Hrows) as Hdims.
  unfold CGraph_new. rewrite CheckInput_DistMat_verdict_eq; [|done|].
  2:{ unfold rows_fit. rewrite forallb_forall. intros row Hin.
      unfold all_rows_of_length in Hrows. rewrite forallb_forall in Hrows.
      apply Hrows, N.eqb_eq in Hin. apply N.leb_le. lia. }
  rewrite to_unsigned_small by lia.
  unfold verdict, spec_shape. rewrite <- all_rows_of_length_square, Hrows. simpl.
  destruct (has_invalid distanceMatrix); [done|]. simpl.
  rewrite store_labels_eq, (N.eqb_sym (vec_size distanceMatrix)).
  destruct (negb (vec_size vertexLabels =? vec_size distanceMatrix)); [done|].
  destruct (bool_decide (NoDup vertexLabels)); [|done]. simpl.
  by rewrite make_adjacency_eq.
Qed.

(** On a square matrix of at least two rows the constructor makes its
    checks in this order: invalid elements, the number of labels, repeated
    labels; and when all pass it returns the matrix as given with its
    adjacency matrix, the labels with their table, and an empty cache. *)
Theorem constructor_on_square_input
    (distanceMatrix : list (list float)) (vertexLabels : list N) :
  2 <= vec_size distanceMatrix <= max_unsignedInt ->
  all_rows_of_length (vec_size distanceMatrix) distanceMatrix = true ->
  CGraph_new distanceMatrix vertexLabels =
    if has_invalid distanceMatrix then Raise InputDistMat_InvalidElements
    else if negb (vec_size vertexLabels =? vec_size distanceMatrix)
         then Raise InputVertexLabels_BadSize
    else if bool_decide (NoDup vertexLabels)
         then Ok (constructed distanceMatrix vertexLabels)
    else Raise InputVertexLabels_RepeatedLabel.
Proof. apply CGraph_new_square_eq. Qed.

Lemma constructor_on_square_input_witness :
  CGraph_new Scenario.path_matrix Scenario.repeated_labels
    = Raise InputVertexLabels_RepeatedLabel
  /\ CGraph_new Scenario.invalid_matrix Scenario.two_labels
    = Raise InputDistMat_InvalidElements.
Proof.
  split.
  - apply (constructor_on_square_input Scenario.path_matrix Scenario.repeated_labels).
    + vm_compute. split; discriminate.
    + vm_compute. reflexivity.
  - apply (constructor_on_square_input Scenario.invalid_matrix Scenario.two_labels).
    + vm_compute. split; discriminate.
    + vm_compute. reflexivity.
Defined.

Lemma for_loop_ret_inl {S R : Type} (body : N -> S -> outcome (S + R)) :
  forall (n : nat) (i : N) (s s' : S),
    for_loop_ret n i body s = Ok (inl s') ->
    forall k, i <= k < i + N.of_nat n -> exists t t', body k t = Ok (inl t').
Proof.
  induction n as [|n IH]; intros i s s' Hrun k Hk; [lia|].
  simpl in Hrun. apply bind_Ok in Hrun as [[t|x] [Ht Hrun]]; [|discriminate].
  destruct (N.eq_dec k i) as [->|Hne]; [eauto|].
  apply (IH _ _ _ Hrun). lia.
Qed.

Lemma check_row_square_inl (n : N) (dm : list (list float)) (i : N) (t t' : unit) :
  n <= max_unsignedInt ->
  check_row n dm square i t = Ok (inl t') ->
  exists row, nth_N dm i = Some row /\ vec_size row = n.
Proof.
  intros Hn H. unfold check_row, row_size in H.
  apply bind_Ok in H as [sz [Hsz H]]. apply bind_Ok in Hsz as [row [Hrow Hsz]].
  injection Hsz as <-. apply vec_get_Ok in Hrow. exists row. split; [done|].
  destruct (N.ltb_spec max_unsignedInt (vec_size row)) as [?|Hfit]; [discriminate|].
  rewrite to_unsigned_small in H by done. simpl in H.
  destruct (N.eqb_spec (vec_size row) n); [done|discriminate].
Qed.

(** A square verdict was given to a square matrix without invalid
    elements. *)
Lemma CheckInput_DistMat_square (dm : list (list float)) :
  vec_size dm <= max_unsignedInt ->
  CheckInput_DistMat (vec_size dm) dm = Ok square ->
  all_rows_of_length (vec_size dm) dm = true /\ has_invalid dm = false.
Proof.
  intros Hn Hcheck.
  destruct (CheckInput_DistMat_accepts _ _ _ Hcheck) as [Hguess _].
  { unfold is_rejection. intros [?|[?|?]]; discriminate. }
  unfold CheckInput_DistMat in Hcheck.
  replace (max_unsignedInt <? vec_size dm) with false in Hcheck
    by (symmetry; apply N.ltb_ge; lia).
  rewrite Hguess in Hcheck. simpl in Hcheck.
  apply bind_Ok in Hcheck as [[u|res] [Hrows Hcheck]].
  2:{ injection Hcheck as ->. exfalso. revert Hrows. unfold for_upto_ret.
      intros Hrows.
      apply (for_loop_ret_inr is_rejection _ (check_row_inr _ _ _)) in Hrows.
      destruct Hrows as [?|[?|?]]; discriminate. }
  rewrite check_elements_loop_verdict in Hcheck. simpl in Hcheck. split.
  - unfold all_rows_of_length. apply forallb_forall. intros row Hin.
    apply list_elem_of_In, list_elem_of_lookup in Hin as [k Hk].
    pose proof (lookup_lt_Some _ _ _ Hk) as Hkb.
    destruct (for_loop_ret_inl _ _ _ _ _ Hrows (N.of_nat k)) as (t & t' & Hround).
    { unfold vec_size. lia. }
    destruct (check_row_square_inl _ _ _ _ _ Hn Hround) as (row' & Hrow' & Hsize).
    rewrite nth_N_lookup, Nat2N.id in Hrow'. apply N.eqb_eq. congruence.
  - destruct (has_invalid dm); [discriminate|done].
Qed.

(** What the constructor was given when it returned a graph, and the graph
    it returned. *)
Lemma CGraph_new_inv (dm : list (list float)) (labels : list N) (g : CGraph) :
  CGraph_new dm labels = Ok g ->
  2 <= vec_size dm <= max_unsignedInt
  /\ all_rows_of_length (vec_size dm) dm = true
  /\ has_invalid dm = false
  /\ vec_size labels = vec_size dm
  /\ NoDup labels
  /\ g = constructed dm labels.
Proof.
  intros Hnew.
  destruct (CGraph_new_Ok _ _ _ Hnew) as (Hcheck & Horder & Hn2 & _ & _ & _ & _ & _ & _ & Hwf).
  pose proof (wf_order g Hwf) as Hmax. rewrite Horder in Hcheck, Hn2, Hmax.
  destruct (CheckInput_DistMat_square dm Hmax Hcheck) as [Hrows Hvalid].
  unfold CGraph_new in Hnew. rewrite to_unsigned_small in Hnew by done.
  rewrite Hcheck in Hnew. simpl in Hnew.
  rewrite store_labels_eq in Hnew.
  destruct (N.eqb_spec (vec_size dm) (vec_size labels)) as [Hsize|?]; [|discriminate].
  simpl in Hnew.
  destruct (decide (NoDup labels)) as [Hnodup|Hdup].
  2:{ rewrite bool_decide_eq_false_2 in Hnew by done. discriminate. }
  rewrite bool_decide_eq_true_2 in Hnew by done. simpl in Hnew.
  rewrite make_adjacency_eq in Hnew by (by apply all_rows_of_length_dims).
  simpl in Hnew. injection Hnew as <-. done.
Qed.

(** The constructor returns a graph exactly for a square matrix with at
    least two rows, no invalid element, and as many distinct labels as
    rows. *)
Theorem constructor_returns_exactly
    (distanceMatrix : list (list float)) (vertexLabels : list N) (g : CGraph) :
  CGraph_new distanceMatrix vertexLabels = Ok g
  <-> 2 <= vec_size distanceMatrix <= max_unsignedInt
      /\ all_rows_of_length (vec_size distanceMatrix) distanceMatrix = true
      /\ has_invalid distanceMatrix = false
      /\ vec_size vertexLabels = vec_size distanceMatrix
      /\ NoDup vertexLabels
      /\ g = constructed distanceMatrix vertexLabels.
Proof.
  split; [apply CGraph_new_inv|].
  intros (Hn & Hrows & Hvalid & Hsize & Hnodup & ->).
  rewrite CGraph_new_square_eq by done.
  rewrite Hvalid, Hsize, N.eqb_refl. simpl. by rewrite bool_decide_eq_true_2.
Qed.

(** ** Label translation on a constructed graph *)

Lemma constructed_labels (dm : list (list float)) (labels : list N) (g0 g : CGraph) :
  CGraph_new dm labels = Ok g0 -> later g0 g ->
  m_Order g = vec_size labels
  /\ m_InternalToExternal g = labels
  /\ NoDup labels
  /\ forall l i, m_ExternalToInternal g !! l = Some i <-> nth_N labels i = Some l.
Proof.
  intros Hnew Hlater.
  destruct (CGraph_new_inv _ _ _ Hnew) as (_ & _ & _ & Hsize & Hnodup & ->).
  destruct (later_same_graph _ _ Hlater) as (-> & -> & -> & _). simpl.
  do 3 (split; [done|]). intros l i. by apply label_table_lookup.
Qed.

(** On a constructed graph, in any state of its cache, the two translations
    undo each other: vertex [i] has label [l] exactly when label [l] has
    vertex [i], and that is when [l] is the label given at position [i];
    and a translation throws exactly outside the vertices, respectively
    outside the labels given. *)
Theorem label_translation_round_trip
    (distanceMatrix : list (list float)) (vertexLabels : list N) (g0 g : CGraph) :
  CGraph_new distanceMatrix vertexLabels = Ok g0 -> later g0 g ->
  forall i l,
    (InternalToExternal g i = Ok l <-> ExternalToInternal g l = Ok i)
    /\ (InternalToExternal g i = Ok l <-> nth_N vertexLabels i = Some l)
    /\ (InternalToExternal g i = Raise std_out_of_range <-> m_Order g <= i)
    /\ (ExternalToInternal g l = Raise std_out_of_range <-> l ∉ vertexLabels).
Proof.
  intros Hnew Hlater i l.
  destruct (constructed_labels _ _ _ _ Hnew Hlater) as (Horder & Hlabels & Hnodup & Hmap).
  unfold InternalToExternal, ExternalToInternal, vec_at. rewrite Hlabels, Horder.
  assert (forall j, nth_N vertexLabels j = None <-> vec_size vertexLabels <= j) as Hnone.
  { intros j. rewrite nth_N_lookup, lookup_ge_None. unfold vec_size. lia. }
  split; [|split; [|split]].
  - specialize (Hmap l i).
    destruct (nth_N vertexLabels i) as [l'|], (m_ExternalToInternal g !! l) as [i'|];
      split; intros H; try discriminate; try (injection H as ->).
    + f_equal. assert (Some i' = Some i) as [= ->]; [|done]. by apply Hmap.
    + f_equal. assert (Some l' = Some l) as [= ->]; [|done]. by apply Hmap.
    + exfalso. assert (@None N = Some i) by (by apply Hmap). discriminate.
    + exfalso. assert (@None N = Some l) by (by apply Hmap). discriminate.
  - destruct (nth_N vertexLabels i); split; congruence.
  - rewrite <- Hnone. destruct (nth_N vertexLabels i); split; congruence.
  - destruct (m_ExternalToInternal g !! l) as [i'|] eqn:Hl.
    + split; [discriminate|]. intros Hnot. exfalso. apply Hnot.
      apply Hmap in Hl. rewrite nth_N_lookup in Hl. by apply list_elem_of_lookup_2 in Hl.
    + split; [|done]. intros _ Hin. apply list_elem_of_lookup in Hin as [k Hk].
      assert (m_ExternalToInternal g !! l = Some (N.of_nat k)) as Hl'.
      { apply Hmap. by rewrite nth_N_lookup, Nat2N.id. }
      congruence.
Qed.

Lemma label_translation_round_trip_witness :
  (InternalToExternal Scenario.path_graph_asked 1 = Ok 20
   <-> ExternalToInternal Scenario.path_graph_asked 20 = Ok 1)
  /\ (InternalToExternal Scenario.path_graph_asked 1 = Ok 20
      <-> nth_N Scenario.path_labels 1 = Some 20)
  /\ (InternalToExternal Scenario.path_graph_asked 1 = Raise std_out_of_range
      <-> m_Order Scenario.path_graph_asked <= 1)
  /\ (ExternalToInternal Scenario.path_graph_asked 20 = Raise std_out_of_range
      <-> 20 ∉ Scenario.path_labels).
Proof.
  apply (label_translation_round_trip Scenario.path_matrix Scenario.path_labels
           Scenario.path_graph Scenario.path_graph_asked).
  - vm_compute. reflexivity.
  - apply rtc_once.
    apply (step_ShortestDistance _ _ 10 40 false (6%float, [10; 20; 30; 40])).
    vm_compute. reflexivity.
Defined.

(** ** Sums of distances are not negative *)

Lemma ge_zero_nonneg (x : float) : ge_zero x = sf_nonneg (Prim2SF x).
Proof.
  unfold ge_zero. rewrite FloatAxioms.leb_spec. change (Prim2SF 0) with (S754_zero false).
  destruct (Prim2SF x) as [s|s| |s m e]; try destruct s; reflexivity.
Qed.

Lemma iter_pos_shr_1_nonneg (p : positive) (mrs : shr_record) :
  (0 <= shr_m mrs)%Z -> (0 <= shr_m (SpecFloat.iter_pos shr_1 p mrs))%Z.
Proof.
  revert mrs. induction p as [p IH|p IH|]; intros mrs H; simpl.
  - apply IH, IH. destruct mrs as [[|[q|q|]|q] r s]; simpl in *; lia.
  - by apply IH, IH.
  - destruct mrs as [[|[q|q|]|q] r s]; simpl in *; lia.
Qed.

Lemma shr_fexp_nonneg (prec emax m e : Z) (l : location) :
  (0 <= m)%Z -> (0 <= shr_m (fst (shr_fexp prec emax m e l)))%Z.
Proof.
  intros H. unfold shr_fexp, shr.
  assert (0 <= shr_m (shr_record_of_loc m l))%Z as H0.
  { destruct l as [|[]]; simpl; lia. }
  destruct (fexp prec emax (Zdigits2 m + e) - e)%Z; simpl; try done.
  by apply iter_pos_shr_1_nonneg.
Qed.

(** Rounding keeps the sign it is given and makes no NaN of a mantissa that
    is not negative. *)
Lemma binary_round_aux_sign (prec emax : Z) (sx : bool) (mx ex : Z) (lx : location) :
  (0 <= mx)%Z ->
  match binary_round_aux prec emax sx mx ex lx with
  | S754_zero s | S754_infinity s | S754_finite s _ _ => s = sx
  | S754_nan => False
  end.
Proof.
  intros H. unfold binary_round_aux.
  pose proof (shr_fexp_nonneg prec emax mx ex lx H) as H1.
  destruct (shr_fexp prec emax mx ex lx) as [mrs' e']. simpl in H1.
  assert (0 <= round_nearest_even (shr_m mrs') (loc_of_shr_record mrs'))%Z as H2.
  { unfold round_nearest_even. destruct (loc_of_shr_record mrs') as [|[]]; try lia.
    destruct (Z.even (shr_m mrs')); lia. }
  pose proof (shr_fexp_nonneg prec emax _ e' loc_Exact H2) as H3.
  destruct (shr_fexp prec emax _ e' loc_Exact) as [mrs'' e'']. simpl in H3.
  destruct (shr_m mrs'') as [|m|m]; [done| |lia].
  by destruct (e'' <=? emax - prec)%Z.
Qed.

Lemma binary_normalize_nonneg (prec emax m e : Z) :
  (0 <= m)%Z -> sf_nonneg (binary_normalize prec emax m e false) = true.
Proof.
  intros H. destruct m as [|m|m]; [done| |lia]. unfold binary_normalize, binary_round.
  destruct (shl_align m e _) as [mz ez].
  pose proof (binary_round_aux_sign prec emax false (Z.pos mz) ez loc_Exact) as Hs.
  destruct (binary_round_aux prec emax false (Z.pos mz) ez loc_Exact) as [s|s| |s m' e'];
    simpl in *; [done|rewrite Hs by lia; done|destruct Hs; lia|rewrite Hs by lia; done].
Qed.

Lemma SFadd_nonneg (prec emax : Z) (x y : spec_float) :
  sf_nonneg x = true -> sf_nonneg y = true -> sf_nonneg (SFadd prec emax x y) = true.
Proof.
  destruct x as [sx|sx| |sx mx ex], y as [sy|sy| |sy my ey]; try done;
    try (destruct sx, sy; done).
  intros Hx Hy. apply negb_true_iff in Hx, Hy. subst sx sy.
  unfold SFadd. apply binary_normalize_nonneg. unfold cond_Zopp. lia.
Qed.

(** The sum of two distances that are not negative is not negative: it is
    no NaN and it is not the sentinel. *)
Lemma add_ge_zero (a w : float) :
  ge_zero a = true -> ge_zero w = true -> ge_zero (PrimFloat.add a w) = true.
Proof. rewrite !ge_zero_nonneg, FloatAxioms.add_spec. apply SFadd_nonneg. Qed.

Lemma is_edge_ge_zero (w : float) (i j : N) : is_edge w i j = true -> ge_zero w = true.
Proof. unfold is_edge. by intros [? _]%andb_true_iff. Qed.

Lemma is_edge_diagonal (w : float) (i : N) : is_edge w i i = false.
Proof. unfold is_edge. by rewrite N.eqb_refl, andb_false_r. Qed.

Lemma minus_one_not_ge_zero : ge_zero minus_one = false.
Proof. reflexivity. Qed.

Lemma ge_zero_is_minus_one (d : float) : ge_zero d = true -> is_minus_one d = false.
Proof.
  intros H. apply ge_zero_not_minus_one in H. unfold not_minus_one in H.
  by apply negb_true_iff in H.
Qed.

(** ** The order of binary64 values *)

Lemma SFcompare_refl (x : spec_float) : x <> S754_nan -> SFcompare x x = Some Eq.
Proof.
  destruct x as [s|s| |s m e]; simpl; try done; intros _.
  - by destruct s.
  - destruct s; rewrite Z.compare_refl, Pos.compare_cont_refl; done.
Qed.

Lemma SFcompare_lt_le_trans (a b c : spec_float) :
  SFcompare a b = Some Lt ->
  SFcompare b c = Some Lt \/ SFcompare b c = Some Eq ->
  SFcompare a c = Some Lt.
Proof.
  destruct a as [sa|sa| |sa ma ea], b as [sb|sb| |sb mb eb], c as [sc|sc| |sc mc ec];
    simpl; try destruct sa; try destruct sb; try destruct sc; simpl;
    intros Hab [Hbc|Hbc]; try discriminate; try reflexivity.
  all: revert Hab Hbc;
    destruct (Z.compare_spec ea eb), (Z.compare_spec eb ec), (Z.compare_spec ea ec);
    try (intros; exfalso; lia); try discriminate; try reflexivity;
    rewrite ?Pos.compare_cont_spec; simpl;
    destruct (Pos.compare_spec ma mb), (Pos.compare_spec mb mc), (Pos.compare_spec ma mc);
    simpl; try (intros; exfalso; lia); try discriminate; try reflexivity.
Qed.

(** A distance that is not negative is at most itself: it is no NaN. *)
Lemma leb_refl_ge_zero (x : float) : ge_zero x = true -> PrimFloat.leb x x = true.
Proof.
  rewrite ge_zero_nonneg, FloatAxioms.leb_spec. intros H. unfold SFleb.
  rewrite SFcompare_refl; [done|]. intros Hnan. by rewrite Hnan in H.
Qed.

Lemma ltb_leb_trans (a b c : float) :
  PrimFloat.ltb a b = true -> PrimFloat.leb b c = true -> PrimFloat.leb a c = true.
Proof.
  rewrite FloatAxioms.ltb_spec, !FloatAxioms.leb_spec. unfold SFltb, SFleb.
  intros Hab Hbc.
  rewrite (SFcompare_lt_le_trans (Prim2SF a) (Prim2SF b) (Prim2SF c)); [done| |].
  - by destruct (SFcompare (Prim2SF a) (Prim2SF b)) as [[]|].
  - destruct (SFcompare (Prim2SF b) (Prim2SF c)) as [[]|]; auto; discriminate.
Qed.

(** ** The relaxation loop *)

Lemma relax_round_exact (g : CGraph) (known : list bool) (nc i : N)
    (dist : list float) (routes : list N) (kb : bool) (d dn w : float) :
  i < vec_size dist -> i < vec_size routes ->
  nth_N known i = Some kb -> nth_N dist i = Some d -> nth_N dist nc = Some dn ->
  mat_get (m_DistanceMatrix g) nc i = Ok w ->
  mat_get (m_AdjacencyMatrix g) nc i = Ok (is_edge w nc i) ->
  relax_round g known nc i (dist, routes)
    = Ok (if relaxes kb d dn w nc i
          then (<[N.to_nat i := PrimFloat.add dn w]> dist, <[N.to_nat i := nc]> routes)
          else (dist, routes)).
Proof.
  intros Hi1 Hi2 Hkb Hd Hdn Hw Hadj.
  unfold relax_round, relaxes, and_then, or_else, vec_get.
  rewrite Hkb, Hadj, Hd, Hdn, Hw. simpl.
  destruct kb; simpl; [done|]. destruct (is_edge w nc i); simpl; [|done].
  destruct (is_minus_one d); simpl.
  - by rewrite !vec_set_in.
  - destruct (PrimFloat.ltb (dn + w) d); simpl; [|done]. by rewrite !vec_set_in.
Qed.

(** The relaxation loop, vertex by vertex. *)
Lemma relax_loop_exact (g : CGraph) (known : list bool) (nc : N)
    (dist : list float) (routes : list N) (dn : float) :
  graph_wf g -> nc < m_Order g ->
  vec_size known = m_Order g -> vec_size dist = m_Order g -> vec_size routes = m_Order g ->
  nth_N dist nc = Some dn ->
  exists dist' routes',
    for_upto (m_Order g) (relax_round g known nc) (dist, routes) = Ok (dist', routes')
    /\ vec_size dist' = m_Order g
    /\ vec_size routes' = m_Order g
    /\ forall k, k < m_Order g ->
         exists kb d r w,
           nth_N known k = Some kb /\ nth_N dist k = Some d /\ nth_N routes k = Some r
           /\ mat_get (m_DistanceMatrix g) nc k = Ok w
           /\ mat_get (m_AdjacencyMatrix g) nc k = Ok (is_edge w nc k)
           /\ nth_N dist' k = Some (if relaxes kb d dn w nc k then PrimFloat.add dn w else d)
           /\ nth_N routes' k = Some (if relaxes kb d dn w nc k then nc else r).
Proof.
  intros Hwf Hnc Hk Hd Hr Hdn.
  set (entry := fun (st : list float * list N) (k : N) =>
         exists kb d r w,
           nth_N known k = Some kb /\ nth_N dist k = Some d /\ nth_N routes k = Some r
           /\ mat_get (m_DistanceMatrix g) nc k = Ok w
           /\ mat_get (m_AdjacencyMatrix g) nc k = Ok (is_edge w nc k)
           /\ nth_N (fst st) k
              = Some (if relaxes kb d dn w nc k then PrimFloat.add dn w else d)
           /\ nth_N (snd st) k = Some (if relaxes kb d dn w nc k then nc else r)).
  set (P := fun (i : N) (st : list float * list N) =>
         vec_size (fst st) = m_Order g /\ vec_size (snd st) = m_Order g
         /\ nth_N (fst st) nc = Some dn
         /\ (forall k, k < i -> entry st k)
         /\ (forall k, i <= k -> nth_N (fst st) k = nth_N dist k
                                 /\ nth_N (snd st) k = nth_N routes k)).
  destruct (for_upto_total P (relax_round g known nc) (m_Order g) (dist, routes))
    as [[dist' routes'] [Hrun (Hd' & Hr' & _ & Hentries & _)]].
  - unfold P. simpl. do 3 (split; [done|]). split; [intros k Hk0; lia|done].
  - intros i [di ri] Hi (Hd1 & Hr1 & Hdn1 & Hdone & Hrest).
    simpl in Hd1, Hr1, Hdn1, Hrest.
    destruct (nth_N_Some known i) as [kb Hkb]; [lia|].
    destruct (nth_N_Some dist i) as [d Hdi]; [lia|].
    destruct (nth_N_Some routes i) as [r Hri]; [lia|].
    destruct (wf_adj g Hwf nc i Hnc Hi) as [w [Hw Hadj]].
    destruct (Hrest i ltac:(lia)) as [Hdi' Hri'].
    rewrite (relax_round_exact g known nc i di ri kb d dn w); try done;
      try lia; try congruence.
    eexists. split; [done|].
    assert (relaxes kb d dn w nc i = true -> i <> nc) as Hne.
    { intros Hrel ->. unfold relaxes in Hrel. rewrite is_edge_diagonal in Hrel.
      by rewrite andb_false_r in Hrel. }
    assert (entry (if relaxes kb d dn w nc i
                   then (<[N.to_nat i := PrimFloat.add dn w]> di, <[N.to_nat i := nc]> ri)
                   else (di, ri)) i) as Hentry.
    { exists kb, d, r, w. do 5 (split; [done|]).
      destruct (relaxes kb d dn w nc i); simpl.
      - rewrite !nth_N_insert, N.eqb_refl by lia. done.
      - split; congruence. }
    destruct (relaxes kb d dn w nc i) eqn:Hrel; unfold P; simpl.
    + rewrite !vec_size_insert. do 2 (split; [done|]). split; [|split].
      * rewrite nth_N_insert by lia.
        by rewrite (proj2 (N.eqb_neq nc i) (not_eq_sym (Hne eq_refl))).
      * intros k Hki. destruct (N.eq_dec k i) as [->|Hki']; [done|].
        destruct (Hdone k ltac:(lia)) as (kb' & d' & r' & w' & ? & ? & ? & ? & ? & ? & ?).
        exists kb', d', r', w'. do 5 (split; [done|]). simpl.
        rewrite !nth_N_insert by lia. by rewrite (proj2 (N.eqb_neq k i) Hki').
      * intros k Hki. rewrite !nth_N_insert by lia.
        replace (k =? i) with false by (symmetry; apply N.eqb_neq; lia).
        apply Hrest. lia.
    + do 3 (split; [done|]). split.
      * intros k Hki. destruct (N.eq_dec k i) as [->|Hki']; [done|]. apply Hdone. lia.
      * intros k Hki. apply Hrest. lia.
  - exists dist', routes'. simpl in *. do 3 (split; [done|]). done.
Qed.

(** When the last loop of a round finds no more vertices, no candidate is
    left. *)
Lemma more_loop_false (g : CGraph) (st : dijkstra_locals) :
  vec_size (shortestDistances st) = m_Order g ->
  vec_size (knownDistances st) = m_Order g ->
  for_upto (m_Order g) (more_round st) false = Ok false ->
  forall i, ~ candidate g st i.
Proof.
  intros Hd Hk Hrun.
  assert (false = false -> forall k, k < m_Order g -> ~ candidate g st k) as Hnone.
  { apply (for_upto_partial
             (fun (i : N) (more : bool) =>
                more = false -> forall k, k < i -> ~ candidate g st k) _ _ _ _ Hrun).
    - intros _ k Hk0. lia.
    - intros i more more' Hi HP Hround Hfalse k Hki. subst more'.
      destruct (nth_N_Some (knownDistances st) i) as [kb Hkb]; [lia|].
      destruct (nth_N_Some (shortestDistances st) i) as [d Hdi]; [lia|].
      unfold more_round, and_then, vec_get in Hround. rewrite Hkb, Hdi in Hround.
      simpl in Hround.
      assert (more = false /\ (kb = true \/ not_minus_one d = false)) as [-> Hi'].
      { destruct kb; simpl in Hround; [split; [congruence|auto]|].
        destruct (not_minus_one d); simpl in Hround; [discriminate|].
        split; [congruence|auto]. }
      destruct (N.eq_dec k i) as [->|Hne]; [|apply HP; [done|lia]].
      intros (_ & Hkf & d' & Hd' & Hnm).
      rewrite Hkb in Hkf. injection Hkf as ->. rewrite Hdi in Hd'. injection Hd' as <-.
      destruct Hi'; congruence. }
  intros i Hi. apply (Hnone eq_refl i); [apply Hi|done].
Qed.

(** ** A run keeps the estimates sound *)

(** The first loop of a run, vertex by vertex. *)
Lemma init_loop_exact (g : CGraph) (v : N) :
  graph_wf g -> v < m_Order g ->
  exists dist routes,
    for_upto (m_Order g) (init_round g v)
      (vec_fill (m_Order g) minus_one, vec_fill (m_Order g) minus_one_u) = Ok (dist, routes)
    /\ vec_size dist = m_Order g
    /\ vec_size routes = m_Order g
    /\ forall k, k < m_Order g ->
         exists x, mat_get (m_DistanceMatrix g) v k = Ok x
           /\ nth_N dist k = Some (if (k =? v) || is_edge x v k then x else minus_one)
           /\ nth_N routes k = Some (if (k =? v) || is_edge x v k then v else minus_one_u).
Proof.
  intros Hwf Hv.
  set (entry := fun (st : list float * list N) (k : N) =>
         exists x, mat_get (m_DistanceMatrix g) v k = Ok x
           /\ nth_N (fst st) k = Some (if (k =? v) || is_edge x v k then x else minus_one)
           /\ nth_N (snd st) k
              = Some (if (k =? v) || is_edge x v k then v else minus_one_u)).
  set (P := fun (i : N) (st : list float * list N) =>
         vec_size (fst st) = m_Order g /\ vec_size (snd st) = m_Order g
         /\ (forall k, k < i -> entry st k)
         /\ (forall k, i <= k -> k < m_Order g ->
               nth_N (fst st) k = Some minus_one /\ nth_N (snd st) k = Some minus_one_u)).
  destruct (for_upto_total P (init_round g v) (m_Order g)
              (vec_fill (m_Order g) minus_one, vec_fill (m_Order g) minus_one_u))
    as [[dist routes] [Hrun (Hd & Hr & Hentries & _)]].
  - unfold P. simpl. rewrite !vec_size_fill. do 2 (split; [done|]).
    split; [intros k Hk0; lia|]. intros k _ Hk. by rewrite !nth_N_fill.
  - intros i [di ri] Hi (Hd1 & Hr1 & Hdone & Hrest). simpl in Hd1, Hr1, Hrest.
    destruct (wf_adj g Hwf v i Hv Hi) as [x [Hx Hadj]].
    destruct (Hrest i ltac:(lia) Hi) as [Hdi Hri].
    unfold init_round, or_else. simpl. rewrite Hadj, Hx. simpl.
    assert ((if i =? v then Ok true else Ok (is_edge x v i))
            = Ok ((i =? v) || is_edge x v i)) as -> by (by destruct (i =? v)).
    simpl. destruct ((i =? v) || is_edge x v i) eqn:Hc.
    + rewrite !vec_set_in by lia. simpl. eexists. split; [done|].
      unfold P. simpl. rewrite !vec_size_insert. do 2 (split; [done|]). split.
      * intros k Hki. destruct (N.eq_dec k i) as [->|Hne].
        -- exists x. split; [done|]. simpl. rewrite Hc, !nth_N_insert, N.eqb_refl by lia.
           done.
        -- destruct (Hdone k ltac:(lia)) as (y & Hy & Hyd & Hyr). exists y.
           split; [done|]. simpl. rewrite !nth_N_insert by lia.
           by rewrite (proj2 (N.eqb_neq k i) Hne).
      * intros k Hki Hk. rewrite !nth_N_insert by lia.
        replace (k =? i) with false by (symmetry; apply N.eqb_neq; lia).
        apply Hrest; [lia|done].
    + eexists. split; [done|]. unfold P. simpl. do 2 (split; [done|]). split.
      * intros k Hki. destruct (N.eq_dec k i) as [->|Hne]; [|apply Hdone; lia].
        exists x. split; [done|]. simpl. by rewrite Hc.
      * intros k Hki Hk. apply Hrest; [lia|done].
  - exists dist, routes. by do 3 (split; [done|]).
Qed.

Lemma reaches_edge (g : CGraph) (u w : N) :
  mat_get (m_AdjacencyMatrix g) u w = Ok true -> reaches g u w.
Proof. intros H. apply (reaches_step g u u w); [apply reaches_refl|done]. Qed.

(** What the run starts with. *)
Lemma dijkstra_init_sound (g : CGraph) (v : N) (st0 : dijkstra_locals) :
  graph_wf g -> v < m_Order g ->
  dijkstra_init g v = Ok st0 ->
  estimates_sound g v st0 /\ neighbours_estimated g v st0.
Proof.
  intros Hwf Hv Hinit.
  destruct (init_loop_exact g v Hwf Hv) as (dist & routes & Hloop & Hd & Hr & Hentries).
  unfold dijkstra_init in Hinit. rewrite Hloop in Hinit. simpl in Hinit.
  rewrite vec_set_in in Hinit by lia. simpl in Hinit.
  rewrite vec_set_in in Hinit by (rewrite vec_size_fill; lia). simpl in Hinit.
  injection Hinit as <-.
  assert (forall k, k < m_Order g ->
            nth_N (<[N.to_nat v := true]> (vec_fill (m_Order g) false)) k
            = Some (k =? v)) as Hknown.
  { intros k Hk. rewrite nth_N_insert by (rewrite vec_size_fill; lia).
    destruct (k =? v); [done|]. by apply nth_N_fill. }
  split.
  - intros i Hi Hiv. destruct (Hentries i Hi) as (x & Hx & Hdi & Hri).
    destruct (wf_adj g Hwf v i Hv Hi) as [x' [Hx' Hadj]].
    assert (x' = x) as -> by congruence.
    rewrite (proj2 (N.eqb_neq i v) Hiv) in Hdi, Hri. simpl in Hdi, Hri.
    simpl. rewrite nth_N_insert by lia. rewrite (proj2 (N.eqb_neq i v) Hiv).
    destruct (is_edge x v i) eqn:Hedge.
    + exists x, v. do 2 (split; [done|]). right. split.
      * split; [by apply (is_edge_ge_zero x v i)|]. split; [done|].
        split; [apply reaches_edge; by rewrite Hadj|]. split.
        -- exists x. do 2 (split; [done|]). by left.
        -- intros y Hy _. assert (y = x) as -> by congruence.
           apply leb_refl_ge_zero. by apply (is_edge_ge_zero x v i).
      * by rewrite Hknown, N.eqb_refl.
    + exists minus_one, minus_one_u. do 2 (split; [done|]). left.
      do 2 (split; [done|]). by rewrite Hknown, (proj2 (N.eqb_neq i v) Hiv).
  - intros u w Hu Hadj Hwv. simpl in *.
    assert (w < m_Order g) as Hw.
    { destruct (wf_adj_dims g Hwf) as [Hrows Hcols]. unfold mat_get in Hadj.
      apply bind_Ok in Hadj as [row [Hrow Hadj]]. apply vec_get_Ok in Hrow, Hadj.
      rewrite <- (Hcols _ _ Hrow). by apply nth_N_bound in Hadj. }
    assert (u = v) as ->.
    { pose proof (nth_N_bound _ _ _ Hu) as Hub.
      rewrite vec_size_insert, vec_size_fill in Hub. rewrite Hknown in Hu by done.
      injection Hu as Hu. by apply N.eqb_eq. }
    destruct (Hentries w Hw) as (x & Hx & Hdw & _).
    destruct (wf_adj g Hwf v w Hv Hw) as [x' [Hx' Hadj']].
    assert (x' = x) as -> by congruence.
    assert (is_edge x v w = true) as Hedge by congruence.
    rewrite Hedge, orb_true_r in Hdw. exists x. split; [done|].
    by apply (is_edge_ge_zero x v w).
Qed.

Lemma adjacent_is_vertex (g : CGraph) (u w : N) (b : bool) :
  graph_wf g -> mat_get (m_AdjacencyMatrix g) u w = Ok b -> u < m_Order g /\ w < m_Order g.
Proof.
  intros Hwf Hadj. destruct (wf_adj_dims g Hwf) as [Hrows Hcols]. unfold mat_get in Hadj.
  apply bind_Ok in Hadj as [row [Hrow Hadj]]. apply vec_get_Ok in Hrow, Hadj.
  split; [rewrite <- Hrows; by apply nth_N_bound in Hrow|].
  rewrite <- (Hcols _ _ Hrow). by apply nth_N_bound in Hadj.
Qed.

(** One round keeps the estimates sound, and leaves no candidate when it
    ends the loop. *)
Lemma dijkstra_round_sound (g : CGraph) (v : N) (st st' : dijkstra_locals) (more : bool) :
  graph_wf g -> root_fixed g v st ->
  estimates_sound g v st -> neighbours_estimated g v st ->
  dijkstra_round g st = Ok (st', more) ->
  estimates_sound g v st' /\ neighbours_estimated g v st'
  /\ (more = false -> forall i, ~ candidate g st' i).
Proof.
  intros Hwf Hroot Hest Hnb Hround.
  pose proof Hroot as (Hd & Hr & Hk & Hkv & _).
  destruct (closest_loop g st Hd Hk) as (nc & nsd & Hclosest & Hsome & _ & Hcases).
  destruct Hcases as [Hcand|Hnone].
  2:{ exfalso. by apply (proj2 (dijkstra_round_spec g v st Hwf Hroot) Hnone (st', more)). }
  destruct (Hsome Hcand) as (Hnc & Hknc & dn & Hdn & Hnm). clear Hsome Hcand.
  assert (nc <> v) as Hncv by (intros ->; congruence).
  assert (reached_entry g v (shortestDistances st) nc dn
            (default 0 (nth_N (outputRoutes st) nc))) as Hnc_entry.
  { destruct (Hest nc Hnc Hncv) as (d & p & Hd' & Hp & [(-> & _)|[Hentry _]]).
    - rewrite Hdn in Hd'. injection Hd' as ->. vm_compute in Hnm. discriminate.
    - rewrite Hp. simpl. congruence. }
  pose proof Hnc_entry as (Hdn_pos & _ & Hreach_nc & _ & _).
  destruct (relax_loop_exact g (knownDistances st) nc _ _ dn Hwf Hnc Hk Hd Hr Hdn)
    as (dist' & routes' & Hrelax & Hd' & Hr' & Hspec).
  unfold dijkstra_round in Hround. rewrite Hclosest in Hround. simpl in Hround.
  rewrite Hrelax in Hround. simpl in Hround.
  rewrite vec_set_in in Hround by lia. simpl in Hround.
  apply bind_Ok in Hround as [more' [Hmore Hround]]. injection Hround as <- <-.
  set (known' := <[N.to_nat nc := true]> (knownDistances st)) in *.
  assert (forall k, nth_N (knownDistances st) k = Some true -> nth_N known' k = Some true)
    as Hmono.
  { intros k Hkt. unfold known'. rewrite nth_N_insert by lia. by destruct (k =? nc). }
  assert (nth_N known' nc = Some true) as Hknc'
    by (unfold known'; rewrite nth_N_insert, N.eqb_refl by lia; done).
  assert (forall k, nth_N (knownDistances st) k = Some true ->
                    nth_N dist' k = nth_N (shortestDistances st) k) as Hfrozen.
  { intros k Hkt. pose proof (nth_N_bound _ _ _ Hkt) as Hkb. rewrite Hk in Hkb.
    destruct (Hspec k Hkb) as (kb & d & r & w & Hkb' & Hdk & _ & _ & _ & Hdk' & _).
    assert (kb = true) as -> by congruence. by rewrite Hdk', Hdk. }
  assert (nth_N dist' nc = Some dn) as Hdn'.
  { destruct (Hspec nc Hnc) as (kb & d & r & w & _ & Hdk & _ & _ & _ & Hdk' & _).
    unfold relaxes in Hdk'. rewrite is_edge_diagonal, andb_false_r in Hdk'. congruence. }
  assert (forall i d p, reached_entry g v (shortestDistances st) i d p ->
                        nth_N (knownDistances st) p = Some true ->
                        reached_entry g v dist' i d p) as Hkeep.
  { intros i d p (H1 & H2 & H3 & (w & H4 & H5 & H6) & H7) Hp.
    do 3 (split; [done|]). split; [|done]. exists w. do 2 (split; [done|]).
    destruct H6 as [?|(Hpv & dp & Hdp & Hdp0 & ->)]; [by left|right].
    split; [done|]. exists dp. by rewrite Hfrozen. }
  split; [|split].
  - intros i Hi Hiv.
    destruct (Hspec i Hi) as (kb & d & r & w & Hkb & Hdi & Hri & Hw & Hadj & Hdi' & Hri').
    simpl. rewrite Hdi', Hri'.
    destruct (relaxes kb d dn w nc i) eqn:Hrel.
    + exists (PrimFloat.add dn w), nc. do 2 (split; [done|]). right. split; [|done].
      unfold relaxes in Hrel. apply andb_true_iff in Hrel as [_ Hrel].
      apply andb_true_iff in Hrel as [Hedge Hless].
      split; [apply add_ge_zero; [done|by apply (is_edge_ge_zero w nc i)]|].
      split; [done|]. split.
      { apply (reaches_step g v nc i); [done|]. by rewrite Hadj, Hedge. }
      split; [exists w; do 2 (split; [done|]); right; split; [done|]; by exists dn|].
      intros x Hx Hroot_edge.
      assert (mat_get (m_AdjacencyMatrix g) v i = Ok true) as Hvi.
      { destruct (wf_adj g Hwf v i) as [x' [Hx' ->]]; [|done|congruence].
        rewrite <- Hk. by apply nth_N_bound in Hkv. }
      destruct (Hnb v i Hkv Hvi Hiv) as (d1 & Hd1 & Hd1pos).
      assert (d1 = d) as -> by congruence.
      rewrite (ge_zero_is_minus_one d Hd1pos) in Hless. simpl in Hless.
      apply (ltb_leb_trans _ d); [done|].
      destruct (Hest i Hi Hiv) as (d0 & p0 & Hd0 & _ & [(-> & _)|[Hentry _]]).
      { assert (d = minus_one) as -> by congruence. discriminate. }
      assert (d0 = d) as -> by congruence.
      destruct Hentry as (_ & _ & _ & _ & Hbound). by apply (Hbound x).
    + exists d, r. do 2 (split; [done|]).
      destruct (Hest i Hi Hiv) as (d0 & p0 & Hd0 & Hp0 & Hcase).
      assert (d0 = d) as -> by congruence. assert (p0 = r) as -> by congruence.
      destruct Hcase as [(-> & -> & Hki)|[Hentry Hkp]].
      * left. do 2 (split; [done|]). unfold known'. rewrite nth_N_insert by lia.
        destruct (N.eqb_spec i nc) as [->|_]; [|done].
        rewrite Hdn in Hdi. injection Hdi as ->. vm_compute in Hnm. discriminate.
      * right. split; [by apply Hkeep|by apply Hmono].
  - intros u w Hu Hadj Hwv. simpl in *.
    destruct (adjacent_is_vertex g u w true Hwf Hadj) as [Hub Hwb].
    destruct (Hspec w Hwb)
      as (kb & d & r & x & Hkb & Hdw & Hrw & Hx & Hadj' & Hdw' & _).
    rewrite Hdw'.
    destruct (relaxes kb d dn x nc w) eqn:Hrel.
    { eexists. split; [done|]. unfold relaxes in Hrel.
      apply andb_true_iff in Hrel as [_ Hrel]. apply andb_true_iff in Hrel as [Hedge _].
      apply add_ge_zero; [done|by apply (is_edge_ge_zero x nc w)]. }
    exists d. split; [done|].
    assert (d = minus_one -> nth_N (knownDistances st) w = Some false) as Hsentinel.
    { intros ->. destruct (Hest w Hwb Hwv) as (d0 & p0 & Hd0 & _ & [(_ & _ & ?)|[Hentry _]]);
        [done|]. destruct Hentry as [Hpos _].
      assert (d0 = minus_one) as -> by congruence. discriminate. }
    assert (ge_zero d = true \/ d = minus_one) as [?|Hminus]; [|done|].
    { destruct (Hest w Hwb Hwv) as (d0 & p0 & Hd0 & _ & [(-> & _)|[[Hpos _] _]]).
      - right. congruence.
      - left. congruence. }
    exfalso. specialize (Hsentinel Hminus). subst d.
    destruct (N.eq_dec u nc) as [->|Hune].
    + assert (is_edge x nc w = true) as Hedge by congruence.
      assert (kb = false) as -> by congruence.
      unfold relaxes in Hrel. rewrite Hedge in Hrel.
      change (is_minus_one minus_one) with true in Hrel. discriminate.
    + unfold known' in Hu. rewrite nth_N_insert in Hu by lia.
      rewrite (proj2 (N.eqb_neq u nc) Hune) in Hu.
      destruct (Hnb u w Hu Hadj Hwv) as (d1 & Hd1 & Hpos).
      assert (d1 = minus_one) as -> by congruence. discriminate.
  - intros ->. apply more_loop_false; simpl; [done| |done].
    unfold known'. by rewrite vec_size_insert.
Qed.

Lemma dijkstra_round_root_fixed (g : CGraph) (v : N) (st st1 : dijkstra_locals)
    (more : bool) :
  graph_wf g -> root_fixed g v st -> dijkstra_round g st = Ok (st1, more) ->
  root_fixed g v st1.
Proof.
  intros Hwf Hroot Hround.
  pose proof (dijkstra_round_spec g v st Hwf Hroot) as [Hsome Hnone].
  destruct (closest_loop g st) as (nc & nsd & _ & _ & _ & [Hc|Hc]); try apply Hroot.
  - destruct (Hsome Hc) as (st1' & more' & Hround' & Hroot1 & _). congruence.
  - exfalso. by apply (Hnone Hc (st1, more)).
Qed.

(** The loop keeps the estimates sound and ends without a candidate. *)
Lemma dijkstra_while_sound (g : CGraph) (v : N) :
  graph_wf g ->
  forall (fuel : nat) (st st' : dijkstra_locals),
    root_fixed g v st -> estimates_sound g v st -> neighbours_estimated g v st ->
    dijkstra_while fuel g st = Ok st' ->
    root_fixed g v st' /\ estimates_sound g v st' /\ neighbours_estimated g v st'
    /\ forall i, ~ candidate g st' i.
Proof.
  intros Hwf. induction fuel as [|fuel IH]; intros st st' Hroot Hest Hnb Hrun;
    [discriminate|].
  simpl in Hrun. apply bind_Ok in Hrun as [[st1 more] [Hround Hrun]]. simpl in Hrun.
  destruct (dijkstra_round_sound g v st st1 more Hwf Hroot Hest Hnb Hround)
    as (Hest1 & Hnb1 & Hlast).
  pose proof (dijkstra_round_root_fixed g v st st1 more Hwf Hroot Hround) as Hroot1.
  destruct more; [by apply (IH st1)|]. injection Hrun as <-. by auto.
Qed.

(** ** The cache holds sound trees *)

(** When no candidate is left, the confirmed vertices are the vertices that
    edges lead to from the root. *)
Lemma reached_is_confirmed (g : CGraph) (v : N) (st : dijkstra_locals) :
  graph_wf g -> v < m_Order g ->
  nth_N (knownDistances st) v = Some true ->
  vec_size (knownDistances st) = m_Order g ->
  neighbours_estimated g v st ->
  (forall i, ~ candidate g st i) ->
  forall i, reaches g v i -> nth_N (knownDistances st) i = Some true.
Proof.
  intros Hwf Hv Hkv Hk Hnb Hnone i Hreach.
  induction Hreach as [|u w x _ IH Hedge]; [done|].
  specialize (IH Hv Hkv Hnb).
  destruct (N.eq_dec x u) as [->|Hxu]; [done|].
  destruct (adjacent_is_vertex g w x true Hwf Hedge) as [Hw Hx].
  destruct (Hnb w x IH Hedge Hxu) as (d & Hd & Hpos).
  destruct (nth_N_Some (knownDistances st) x) as [[] Hkx]; [lia|done|].
  exfalso. apply (Hnone x). split; [done|]. split; [done|].
  exists d. split; [done|]. by apply ge_zero_not_minus_one.
Qed.

Lemma final_tree_sound (g : CGraph) (v : N) (st : dijkstra_locals) :
  graph_wf g -> v < m_Order g ->
  root_fixed g v st -> estimates_sound g v st -> neighbours_estimated g v st ->
  (forall i, ~ candidate g st i) ->
  tree_sound g v (outputRoutes st) (shortestDistances st).
Proof.
  intros Hwf Hv Hroot Hest Hnb Hnone i Hi Hiv.
  pose proof Hroot as (_ & _ & Hk & Hkv & _).
  destruct (Hest i Hi Hiv) as (d & p & Hd & Hp & [(-> & -> & Hki)|[Hentry _]]).
  - exists minus_one, minus_one_u. do 2 (split; [done|]). left. do 2 (split; [done|]).
    intros Hreach.
    pose proof (reached_is_confirmed g v st Hwf Hv Hkv Hk Hnb Hnone i Hreach). congruence.
  - exists d, p. do 2 (split; [done|]). by right.
Qed.

Lemma reaches_same_graph_iff (g g' : CGraph) (u w : N) :
  same_graph g g' -> (reaches g' u w <-> reaches g u w).
Proof.
  intros Hsame. split; [by apply reaches_same_graph|].
  destruct Hsame as (_ & _ & _ & _ & Ha).
  induction 1 as [x|x y z _ IH Hedge]; [apply reaches_refl|].
  apply (reaches_step g' x y z); [done|]. by rewrite Ha.
Qed.

Lemma tree_sound_same_graph (g g' : CGraph) (s : N) parents dists :
  same_graph g g' -> tree_sound g s parents dists -> tree_sound g' s parents dists.
Proof.
  intros Hsame Htree i Hi His. pose proof Hsame as (Ho & _ & _ & Hm & Ha).
  rewrite Ho in Hi. destruct (Htree i Hi His) as (d & p & Hd & Hp & Hcase).
  exists d, p. do 2 (split; [done|]).
  destruct Hcase as [(-> & -> & Hnot)|(H1 & H2 & H3 & (w & H4 & H5 & H6) & H7)].
  - left. do 2 (split; [done|]). by rewrite (reaches_same_graph_iff g g').
  - right. split; [done|]. split; [by rewrite Ho|].
    split; [by rewrite (reaches_same_graph_iff g g')|]. rewrite Hm.
    split; [by exists w|done].
Qed.

(** The tree a fresh run stores is sound. *)
Lemma InternalDijkstra_fresh_sound (g g' : CGraph) (v k : N) :
  graph_wf g ->
  InternalDijkstra g v = Ok (k, g') ->
  m_DijkstraStartVertices g !! v = None ->
  exists st, g' = save_results g v st
             /\ tree_sound g v (outputRoutes st) (shortestDistances st).
Proof.
  intros Hwf Hrun Hnone. unfold InternalDijkstra in Hrun.
  destruct (N.leb_spec (m_Order g) v) as [Hv|Hv]; [discriminate|].
  rewrite Hnone in Hrun.
  apply bind_Ok in Hrun as [st0 [Hinit Hrun]]. apply bind_Ok in Hrun as [st [Hwhile Hrun]].
  injection Hrun as <- <-. exists st. split; [done|].
  destruct (dijkstra_init_Ok g v Hwf Hv) as (st0' & Hinit' & Hroot & _).
  assert (st0' = st0) as -> by congruence.
  destruct (dijkstra_init_sound g v st0 Hwf Hv Hinit) as [Hest Hnb].
  destruct (dijkstra_while_sound g v Hwf _ _ _ Hroot Hest Hnb Hwhile)
    as (Hroot' & Hest' & Hnb' & Hnone').
  by apply final_tree_sound.
Qed.

Lemma InternalDijkstra_cache_sound (g g' : CGraph) (v k : N) :
  graph_ok g -> cache_sound g -> InternalDijkstra g v = Ok (k, g') -> cache_sound g'.
Proof.
  intros [Hwf Hcache] Hsound Hrun.
  pose proof (InternalDijkstra_Ok _ _ _ _ Hrun) as [Hv [[_ ->]|(Hnone & _ & _)]]; [done|].
  pose proof (new_slot_eq g v Hwf Hcache Hv Hnone) as Hslot.
  pose proof (InternalDijkstra_same_graph _ _ _ _ Hrun) as Hsame.
  destruct (InternalDijkstra_fresh_sound _ _ _ _ Hwf Hrun Hnone) as (st & -> & Htree).
  intros s ks parents dists (Hs & Hparents & Hdists). simpl in Hs, Hparents, Hdists.
  apply (tree_sound_same_graph g); [done|].
  destruct Hcache as (roots & Hmap & Hr & Hd & Hslots).
  apply nth_N_snoc in Hparents as [Hparents|[Hks ->]];
    apply nth_N_snoc in Hdists as [Hdists|[Hks' ->]].
  - destruct (N.eq_dec s v) as [->|Hsv].
    + rewrite lookup_insert_eq in Hs. injection Hs as <-.
      apply nth_N_bound in Hparents. rewrite Hslot in Hparents. lia.
    + rewrite lookup_insert_ne in Hs by done. by apply (Hsound s ks).
  - apply nth_N_bound in Hparents. rewrite Hr, <- Hd in Hparents. lia.
  - apply nth_N_bound in Hdists. rewrite Hd, <- Hr in Hdists. lia.
  - destruct (N.eq_dec s v) as [->|Hsv]; [done|].
    rewrite lookup_insert_ne in Hs by done. apply Hmap in Hs.
    apply nth_N_bound in Hs. rewrite <- Hr in Hs. lia.
Qed.

Lemma query_step_graph_sound (g g' : CGraph) :
  query_step g g' -> graph_sound g -> graph_sound g'.
Proof.
  intros Hstep [Hok Hsound]. split; [by apply (query_step_graph_ok g)|].
  assert (forall s e p b, choose_tree g s e p = Ok (b, g') -> cache_sound g') as Hchoose.
  { intros s e p b H.
    apply choose_tree_Ok in H as [(_&_&->)|[(_&_&_&->)|(_&_&_&k&H)]]; try done.
    by apply (InternalDijkstra_cache_sound g g' _ k Hok Hsound H). }
  destruct Hstep as [s e p [d route] H|s e p a H|w k' H].
  - apply ShortestDistance_Ok in H as (i_s & i_e & iroute & _ & _ & H & _).
    apply InternalShortestDistance_Ok in H as (b & H & _). by apply Hchoose in H.
  - apply InternalShortestDistance_Ok in H as (b & H & _). by apply Hchoose in H.
  - by apply (InternalDijkstra_cache_sound g g' w k' Hok Hsound H).
Qed.

Lemma later_graph_sound (g g' : CGraph) : later g g' -> graph_sound g -> graph_sound g'.
Proof.
  induction 1 as [g|g1 g2 g3 Hstep _ IH]; [done|].
  intros Hok. apply IH. by apply (query_step_graph_sound g1).
Qed.

Lemma CGraph_new_graph_sound (dm : list (list float)) (labels : list N) (g : CGraph) :
  CGraph_new dm labels = Ok g -> graph_sound g.
Proof.
  intros Hnew. split; [by apply (CGraph_new_graph_ok dm labels)|].
  destruct (CGraph_new_Ok _ _ _ Hnew) as (_&_&_&_&_&_&Hmap&_).
  intros s k parents dists (Hs & _). rewrite Hmap in Hs. by rewrite lookup_empty in Hs.
Qed.

Lemma constructed_graph_sound (dm : list (list float)) (labels : list N) (g0 g : CGraph) :
  CGraph_new dm labels = Ok g0 -> later g0 g -> graph_sound g.
Proof.
  intros Hnew Hlater. apply (later_graph_sound g0); [done|].
  by apply (CGraph_new_graph_sound dm labels).
Qed.

(** ** The tree a query reads *)

Lemma entry_mat_get (m : list (list float)) (u w : N) (x : float) :
  mat_get m u w = Ok x <-> entry m u w = Some x.
Proof.
  unfold mat_get, entry, vec_get. destruct (nth_N m u) as [row|]; simpl; [|split; done].
  destruct (nth_N row w); split; congruence.
Qed.

Lemma fromStartVertex_choose (g g' : CGraph) (s e : N) (p b : bool) :
  choose_tree g s e p = Ok (b, g') -> b = fromStartVertex g s e p.
Proof.
  intros H. unfold fromStartVertex.
  apply choose_tree_Ok in H as [(-> & -> & _)|[(-> & -> & -> & _)|(-> & -> & -> & _)]]; done.
Qed.

(** A query that returned read the tree of one of its two vertices: the
    vertices it pushed are the climb from the other vertex to the root. *)
Lemma query_reads_a_tree (g g' : CGraph) (s e : N) (p : bool) (d : float) (route : list N) :
  graph_sound g ->
  InternalShortestDistance g s e p = Ok (d, route, g') ->
  let b := fromStartVertex g s e p in
  let root := if b then s else e in
  let other := if b then e else s in
  exists k parents dists up,
    graph_sound g' /\ same_graph g g'
    /\ root < m_Order g'
    /\ slot_at g' root k parents dists
    /\ tree_ok g' root parents dists
    /\ tree_sound g' root parents dists
    /\ climb (N.to_nat (m_Order g')) parents root other = Ok up
    /\ nth_N dists other = Some d
    /\ route = if b then rev (other :: up) else other :: up.
Proof.
  intros Hsound Hq b root other.
  pose proof (step_InternalShortestDistance g g' s e p (d, route) Hq) as Hstep.
  pose proof (query_step_graph_sound _ _ Hstep Hsound) as Hsound'.
  pose proof (query_step_same_graph _ _ Hstep) as Hsame.
  apply InternalShortestDistance_Ok in Hq as (b' & Hchoose & Hread).
  pose proof (fromStartVertex_choose _ _ _ _ _ _ Hchoose) as Hb. fold b in Hb. subst b'.
  assert (has_tree g' root = true) as Hhas.
  { unfold root, b, fromStartVertex.
    apply choose_tree_Ok in Hchoose
      as [(He&_&->)|[(He&Hs&_&->)|(He&Hs&_&k&Hrun)]]; rewrite ?He, ?Hs; simpl; try done.
    apply has_tree_true. exists k. by apply (InternalDijkstra_has_tree g). }
  apply has_tree_true in Hhas as [k Hk].
  destruct Hsound' as [[Hwf' Hcache'] Hcs'].
  destruct (cache_wf_slot g' _ k Hcache' Hk) as (Hroot & parents & dists & Hslot & Htree).
  exists k, parents, dists.
  assert (exists up, climb (N.to_nat (m_Order g')) parents root other = Ok up
                     /\ nth_N dists other = Some d
                     /\ route = if b then rev (other :: up) else other :: up)
    as (up & Hup & Hd & Hroute).
  { unfold root, other in *. destruct b.
    - rewrite (read_tree_from_start g' s e k parents dists Hslot) in Hread.
      unfold omap, answer_from_tree in Hread.
      apply bind_Ok in Hread as [[d' r'] [Hread Hrev]].
      apply bind_Ok in Hread as [r [Hwalk Hread]].
      apply bind_Ok in Hread as [d'' [Hd Hread]].
      injection Hread as <- <-. unfold reverse_route in Hrev. simpl in Hrev.
      injection Hrev as <- <-. apply vec_get_Ok in Hd.
      rewrite walk_to_root_climb in Hwalk. unfold omap in Hwalk.
      apply bind_Ok in Hwalk as [up [Hup Hwalk]]. injection Hwalk as <-.
      exists up. done.
    - rewrite (read_tree_from_end g' s e k parents dists Hslot) in Hread.
      unfold answer_from_tree in Hread.
      apply bind_Ok in Hread as [r [Hwalk Hread]].
      apply bind_Ok in Hread as [d'' [Hd Hread]].
      injection Hread as <- <-. apply vec_get_Ok in Hd.
      rewrite walk_to_root_climb in Hwalk. unfold omap in Hwalk.
      apply bind_Ok in Hwalk as [up [Hup Hwalk]]. injection Hwalk as <-.
      exists up. done. }
  exists up. split; [done|]. do 4 (split; [done|]). split; [by apply (Hcs' _ k)|]. done.
Qed.

(** ** Vectors of labels *)

Lemma InternalToExternal_all_Forall2 (g : CGraph) (vs ls : list N) :
  InternalToExternal_all g vs = Ok ls
  <-> Forall2 (fun v l => nth_N (m_InternalToExternal g) v = Some l) vs ls.
Proof.
  revert ls. induction vs as [|v vs IH]; intros ls; simpl.
  - split; [intros [= <-]; constructor|]. intros H. by apply Forall2_nil_inv_l in H as ->.
  - unfold vec_at. split.
    + intros H. apply bind_Ok in H as [l [Hl H]]. apply bind_Ok in H as [ls' [Hls H]].
      injection H as <-. constructor; [|by apply IH].
      destruct (nth_N (m_InternalToExternal g) v); congruence.
    + intros H. apply Forall2_cons_inv_l in H as (l & ls' & Hl & Hls & ->).
      rewrite Hl. simpl. apply IH in Hls. by rewrite Hls.
Qed.

Lemma ExternalToInternal_all_Forall2 (g : CGraph) (ls vs : list N) :
  ExternalToInternal_all g ls = Ok vs
  <-> Forall2 (fun l v => m_ExternalToInternal g !! l = Some v) ls vs.
Proof.
  revert vs. induction ls as [|l ls IH]; intros vs; simpl.
  - split; [intros [= <-]; constructor|]. intros H. by apply Forall2_nil_inv_l in H as ->.
  - unfold ExternalToInternal. split.
    + intros H. apply bind_Ok in H as [v [Hv H]]. apply bind_Ok in H as [vs' [Hvs H]].
      injection H as <-. constructor; [|by apply IH].
      destruct (m_ExternalToInternal g !! l); congruence.
    + intros H. apply Forall2_cons_inv_l in H as (v & vs' & Hv & Hvs & ->).
      rewrite Hv. simpl. apply IH in Hvs. by rewrite Hvs.
Qed.

(** On a constructed graph the two vector overloads are inverse to each
    other. *)
Lemma InternalToExternal_all_inverse
    (dm : list (list float)) (labels : list N) (g0 g : CGraph) (vs ls : list N) :
  CGraph_new dm labels = Ok g0 -> later g0 g ->
  InternalToExternal_all g vs = Ok ls <-> ExternalToInternal_all g ls = Ok vs.
Proof.
  intros Hnew Hlater.
  destruct (constructed_labels _ _ _ _ Hnew Hlater) as (Horder & Hlabels & Hnodup & Hmap).
  rewrite InternalToExternal_all_Forall2, ExternalToInternal_all_Forall2, Hlabels.
  rewrite <- Forall2_flip.
  split; intros H; apply (Forall2_impl _ _ _ _ H); intros l v; apply Hmap.
Qed.

Lemma InternalToExternal_all_total (g : CGraph) (vs : list N) :
  Forall (fun v => v < vec_size (m_InternalToExternal g)) vs ->
  exists ls, InternalToExternal_all g vs = Ok ls /\ length ls = length vs.
Proof.
  induction 1 as [|v vs Hv _ (ls & Hls & Hlen)]; [by exists []|].
  destruct (nth_N_Some (m_InternalToExternal g) v) as [l Hl]; [lia|].
  exists (l :: ls). simpl. unfold vec_at. rewrite Hl. simpl. rewrite Hls.
  split; [done|]. simpl. by rewrite Hlen.
Qed.

(** The two vector overloads undo each other on a constructed graph; the
    one from vertices to labels throws exactly when it meets a value that
    is no vertex, the one from labels to vertices exactly when it meets a
    value that is no label. *)
Theorem vector_translation_round_trip
    (distanceMatrix : list (list float)) (vertexLabels : list N) (g0 g : CGraph)
    (vertices labels : list N) :
  CGraph_new distanceMatrix vertexLabels = Ok g0 -> later g0 g ->
  (InternalToExternal_all g vertices = Ok labels
   <-> ExternalToInternal_all g labels = Ok vertices)
  /\ (Forall (fun v => v < m_Order g) vertices ->
      exists ls, InternalToExternal_all g vertices = Ok ls /\ length ls = length vertices)
  /\ (Exists (fun v => m_Order g <= v) vertices ->
      InternalToExternal_all g vertices = Raise std_out_of_range)
  /\ (Exists (fun l => l ∉ vertexLabels) labels ->
      ExternalToInternal_all g labels = Raise std_out_of_range).
Proof.
  intros Hnew Hlater.
  destruct (constructed_labels _ _ _ _ Hnew Hlater) as (Horder & Hlabels & Hnodup & Hmap).
  split; [by apply (InternalToExternal_all_inverse distanceMatrix vertexLabels g0)|].
  split; [|split].
  - intros Hall. apply InternalToExternal_all_total. by rewrite Hlabels, <- Horder.
  - induction 1 as [v vs Hv|v vs _ IH]; simpl; unfold vec_at; rewrite Hlabels.
    + rewrite nth_N_None by lia. done.
    + destruct (nth_N vertexLabels v); simpl; [|done]. by rewrite IH.
  - induction 1 as [l ls Hl|l ls _ IH]; simpl; unfold ExternalToInternal.
    + destruct (m_ExternalToInternal g !! l) as [i|] eqn:Hi; [|done].
      exfalso. apply Hl. apply Hmap in Hi. rewrite nth_N_lookup in Hi.
      by apply list_elem_of_lookup_2 in Hi.
    + destruct (m_ExternalToInternal g !! l); simpl; [|done]. by rewrite IH.
Qed.

Lemma vector_translation_round_trip_witness :
  (InternalToExternal_all Scenario.path_graph_asked [3; 0] = Ok [40; 10]
   <-> ExternalToInternal_all Scenario.path_graph_asked [40; 10] = Ok [3; 0])
  /\ (Forall (fun v => v < m_Order Scenario.path_graph_asked) [3; 0] ->
      exists ls, InternalToExternal_all Scenario.path_graph_asked [3; 0] = Ok ls
                 /\ length ls = length [3; 0])
  /\ (Exists (fun v => m_Order Scenario.path_graph_asked <= v) [3; 0] ->
      InternalToExternal_all Scenario.path_graph_asked [3; 0] = Raise std_out_of_range)
  /\ (Exists (fun l => l ∉ Scenario.path_labels) [40; 10] ->
      ExternalToInternal_all Scenario.path_graph_asked [40; 10] = Raise std_out_of_range).
Proof.
  apply (vector_translation_round_trip Scenario.path_matrix Scenario.path_labels
           Scenario.path_graph Scenario.path_graph_asked).
  - vm_compute. reflexivity.
  - apply rtc_once.
    apply (step_ShortestDistance _ _ 10 40 false (6%float, [10; 20; 30; 40])).
    vm_compute. reflexivity.
Defined.

(** ** The shape of a route *)

Lemma steps_nil (R : N -> N -> Prop) : steps R [].
Proof. intros i u w H. done. Qed.

Lemma steps_singleton (R : N -> N -> Prop) (x : N) : steps R [x].
Proof. intros i u w _ H. done. Qed.

Lemma steps_cons (R : N -> N -> Prop) (x y : N) (l : list N) :
  steps R (x :: y :: l) <-> R x y /\ steps R (y :: l).
Proof.
  split.
  - intros H. split; [by apply (H 0%nat)|]. intros i u w Hu Hw. by apply (H (Datatypes.S i)).
  - intros [Hxy H] [|i] u w Hu Hw; simpl in *; [congruence|]. by apply (H i).
Qed.

Lemma steps_snoc (R : N -> N -> Prop) (l : list N) (x y : N) :
  steps R (l ++ [x]) -> R x y -> steps R ((l ++ [x]) ++ [y]).
Proof.
  intros H Hxy i u w Hu Hw.
  destruct (decide (Datatypes.S i < length (l ++ [x]))%nat) as [Hlt|Hge].
  - rewrite lookup_app_l in Hu, Hw by lia. by apply (H i).
  - assert (Datatypes.S i = length (l ++ [x])) as Hi.
    { apply lookup_lt_Some in Hw. rewrite length_app in Hw. simpl in Hw. lia. }
    rewrite lookup_app_r in Hw by lia. rewrite Hi, Nat.sub_diag in Hw. injection Hw as <-.
    rewrite lookup_app_l in Hu by lia. rewrite length_app in Hi. simpl in Hi.
    rewrite lookup_app_r in Hu by lia.
    replace (i - length l)%nat with 0%nat in Hu by lia. by injection Hu as <-.
Qed.

Lemma steps_rev (R : N -> N -> Prop) (l : list N) :
  steps (fun u w => R w u) l -> steps R (rev l).
Proof.
  induction l as [|x [|y l] IH]; intros H; [apply steps_nil|apply steps_singleton|].
  apply steps_cons in H as [Hxy H]. specialize (IH H).
  change (rev (x :: y :: l)) with (rev (y :: l) ++ [x]).
  simpl in *. by apply steps_snoc.
Qed.

Section Tree.
Variable g : CGraph.
Variable root : N.
Variables (parents : list N) (dists : list float).
Hypothesis Hwf : graph_wf g.
Hypothesis Hroot : root < m_Order g.
Hypothesis Htree : tree_ok g root parents dists.

(** The vertices a climb passes are vertices, and each is the child of the
    next. *)
Lemma climb_vertices (fuel : nat) (x : N) (up : list N) :
  climb fuel parents root x = Ok up -> Forall (fun y => y < m_Order g) (x :: up).
Proof.
  intros H. apply Forall_forall. intros y Hy.
  destruct Htree as (Hsize & _).
  destruct (climb_bound parents root fuel x up H y Hy) as [->|?]; lia.
Qed.

Lemma climb_steps (fuel : nat) :
  forall x up, climb fuel parents root x = Ok up ->
    steps (fun u w => edge g w u) (x :: up).
Proof.
  destruct Htree as (Hsize & _ & _ & _ & Hedges & _).
  induction fuel as [|fuel IH]; intros x up H; destruct (N.eq_dec x root) as [->|Hx].
  - rewrite climb_root in H. injection H as <-. apply steps_singleton.
  - simpl in H. rewrite (proj2 (N.eqb_neq x root) Hx) in H. discriminate.
  - rewrite climb_root in H. injection H as <-. apply steps_singleton.
  - pose proof (climb_vertices _ _ _ H) as Hall.
    apply climb_Ok_succ in H as (p & up' & -> & Hp & H); [|done].
    apply steps_cons. split; [|by apply IH].
    apply Forall_cons in Hall as [_ Hall]. apply Forall_cons in Hall as [Hpo _].
    destruct (Hedges x p Hp Hpo) as [[? _]|?]; done.
Qed.

Lemma climb_last (fuel : nat) :
  forall x up, climb fuel parents root x = Ok up -> last (x :: up) = Some root.
Proof.
  induction fuel as [|fuel IH]; intros x up H; destruct (N.eq_dec x root) as [->|Hx].
  - rewrite climb_root in H. by injection H as <-.
  - simpl in H. rewrite (proj2 (N.eqb_neq x root) Hx) in H. discriminate.
  - rewrite climb_root in H. by injection H as <-.
  - apply climb_Ok_succ in H as (p & up' & -> & Hp & H); [|done].
    rewrite last_cons_cons. by apply IH.
Qed.

End Tree.

Lemma edge_same_graph (g g' : CGraph) (u w : N) :
  same_graph g g' -> (edge g' u w <-> edge g u w).
Proof. intros (_ & _ & _ & _ & Ha). unfold edge. by rewrite Ha. Qed.

Lemma steps_impl (R Q : N -> N -> Prop) (l : list N) :
  (forall u w, R u w -> Q u w) -> steps R l -> steps Q l.
Proof. intros HRQ H i u w Hu Hw. apply HRQ. by apply (H i). Qed.

Lemma rev_reverse {A : Type} (l : list A) : rev l = reverse l.
Proof. apply rev_alt. Qed.

(** The vertices of the route of a query that returned. *)
Lemma route_facts (g g' : CGraph) (s e : N) (p : bool) (d : float) (route : list N) :
  graph_sound g ->
  InternalShortestDistance g s e p = Ok (d, route, g') ->
  head route = Some s /\ last route = Some e
  /\ NoDup route
  /\ Forall (fun v => v < m_Order g) route
  /\ if fromStartVertex g s e p then steps (edge g) route
     else steps (fun u w => edge g w u) route.
Proof.
  intros Hsound Hq.
  destruct (query_reads_a_tree g g' s e p d route Hsound Hq)
    as (k & parents & dists & up & Hsound' & Hsame & Hroot & Hslot & Htree & _ & Hup & _ & ->).
  pose proof Hsame as (Ho & _).
  pose proof (climb_NoDup parents _ _ _ _ Hup) as Hnodup.
  pose proof (climb_vertices g' _ parents dists Hroot Htree _ _ _ Hup) as Hall.
  pose proof (climb_steps g' _ parents dists Hroot Htree _ _ _ Hup) as Hsteps.
  pose proof (climb_last _ _ _ _ _ Hup) as Hlast.
  rewrite Ho in Hall.
  assert (steps (fun u w => edge g w u)
            ((if fromStartVertex g s e p then e else s) :: up)) as Hsteps'.
  { revert Hsteps. apply steps_impl. intros u w H. by apply (edge_same_graph g g'). }
  clear Hsteps. destruct (fromStartVertex g s e p).
  - split; [|split; [|split; [|split]]].
    + by rewrite rev_reverse, head_reverse.
    + by rewrite rev_reverse, last_reverse.
    + by rewrite <- Permutation_rev.
    + by apply Forall_rev.
    + by apply steps_rev.
  - done.
Qed.

(** ** The distance is the length of the route *)

Lemma add_along_snoc (m : list (list float)) (rest : list N) :
  forall (acc : float) (u y z : N) (a : float),
    add_along m acc u (rest ++ [y]) = Some a ->
    add_along m acc u ((rest ++ [y]) ++ [z])
      = match entry m y z with Some x => Some (PrimFloat.add a x) | None => None end.
Proof.
  induction rest as [|w rest IH]; intros acc u y z a H; simpl in *.
  - destruct (entry m u y) as [x|]; [|done]. injection H as <-.
    by destruct (entry m y z).
  - destruct (entry m u w) as [x|]; [|done]. by apply IH.
Qed.

Lemma path_length_snoc (m : list (list float)) (path : list N) (y z : N) (a : float) :
  path_length m (path ++ [y]) = Some a ->
  path_length m ((path ++ [y]) ++ [z])
    = match entry m y z with Some x => Some (PrimFloat.add a x) | None => None end.
Proof.
  destruct path as [|u [|w rest]]; simpl; [done| |].
  - destruct (entry m u y) as [x|]; [|done]. intros [= <-]. by destruct (entry m y z).
  - destruct (entry m u w) as [x|]; [|done]. apply add_along_snoc.
Qed.

Lemma climb_from_sentinel (g : CGraph) (root : N) (parents : list N) (fuel : nat)
    (up : list N) :
  m_Order g <= max_unsignedInt -> root < m_Order g -> vec_size parents = m_Order g ->
  climb fuel parents root minus_one_u <> Ok up.
Proof.
  intros Hmax Hroot Hsize H.
  assert ((minus_one_u =? root) = false) as Hne
    by (apply N.eqb_neq; unfold minus_one_u; lia).
  destruct fuel; cbn [climb] in H; rewrite Hne in H; [discriminate|].
  rewrite vec_get_out in H by (unfold minus_one_u; lia). discriminate.
Qed.

(** In a sound tree the distance stored for a vertex is the length of the
    path from the root to it that the parents give. *)
Lemma climb_path_length (g : CGraph) (root : N) (parents : list N) (dists : list float) :
  tree_sound g root parents dists ->
  m_Order g <= max_unsignedInt -> root < m_Order g -> vec_size parents = m_Order g ->
  forall fuel x up d,
    climb fuel parents root x = Ok up -> x <> root -> nth_N dists x = Some d ->
    path_length (m_DistanceMatrix g) (rev (x :: up)) = Some d.
Proof.
  intros Hsound Hmax Hroot Hsize. induction fuel as [|fuel IH]; intros x up d H Hx Hd.
  { simpl in H. rewrite (proj2 (N.eqb_neq x root) Hx) in H. discriminate. }
  apply climb_Ok_succ in H as (p & up' & -> & Hp & H); [|done].
  assert (x < m_Order g) as Hxo by (rewrite <- Hsize; by apply nth_N_bound in Hp).
  destruct (Hsound x Hxo Hx) as (d' & p' & Hd' & Hp' & Hcase).
  assert (d' = d) as -> by congruence. assert (p' = p) as -> by congruence.
  destruct Hcase as [(_ & -> & _)|(_ & Hpo & _ & (w & Hw & _ & Hsum) & _)].
  { exfalso. by apply (climb_from_sentinel g root parents fuel up'). }
  apply entry_mat_get in Hw.
  destruct Hsum as [[-> ->]|(Hpr & dp & Hdp & _ & ->)].
  - rewrite climb_root in H. injection H as <-. simpl. by rewrite Hw.
  - specialize (IH p up' dp H Hpr Hdp).
    change (rev (x :: p :: up')) with ((rev up' ++ [p]) ++ [x]).
    change (rev (p :: up')) with (rev up' ++ [p]) in IH.
    rewrite (path_length_snoc _ _ _ _ _ IH). by rewrite Hw.
Qed.

(** Every vertex that edges lead to from the root climbs to the root. *)
Lemma climb_reached (g : CGraph) (root : N) (parents : list N) (dists : list float) :
  tree_sound g root parents dists -> tree_ok g root parents dists ->
  root < m_Order g ->
  forall x, x < m_Order g -> reaches g root x ->
    exists up, climb (N.to_nat (m_Order g)) parents root x = Ok up.
Proof.
  intros Hsound Htree Hroot.
  pose proof Htree as (Hsize & _ & _ & _ & _ & depth & Hbound & Hdepth).
  set (on_tree := fun x => x = root
                   \/ (x < m_Order g
                       /\ exists d p, nth_N dists x = Some d /\ nth_N parents x = Some p
                                      /\ reached_entry g root dists x d p)).
  assert (forall fuel x, on_tree x -> (rounds_needed g root depth x <= fuel)%nat ->
            exists up, climb fuel parents root x = Ok up) as Hclimb.
  { induction fuel as [|fuel IH]; intros x Hx Hfuel;
      destruct (N.eq_dec x root) as [->|Hxr]; try (rewrite climb_root; by eauto);
      destruct Hx as [?|(Hxo & d & p & Hd & Hp & Hentry)]; try done;
      pose proof (Hdepth x p Hp Hxr) as Hlt; unfold rounds_needed in Hfuel;
      rewrite (proj2 (N.eqb_neq x root) Hxr) in Hfuel;
      rewrite (proj2 (N.ltb_lt x (m_Order g)) Hxo) in Hfuel; [lia|].
    destruct (IH p) as [up' Hup']; [|lia|].
    - destruct Hentry
        as (_ & Hpo & _ & (w & _ & _ & [[-> _]|(Hpr & dp & Hdp & Hpos & _)]) & _);
        [by left|right]. split; [done|].
      destruct (Hsound p Hpo Hpr) as (d' & p' & Hd' & Hp' & [(-> & _)|Hentry']).
      + assert (dp = minus_one) as -> by congruence. discriminate.
      + exists d', p'. done.
    - exists (p :: up'). simpl. rewrite (proj2 (N.eqb_neq x root) Hxr).
      unfold vec_get. rewrite Hp. simpl. by rewrite Hup'. }
  intros x Hx Hreach. apply Hclimb.
  - destruct (N.eq_dec x root) as [->|Hxr]; [by left|right]. split; [done|].
    destruct (Hsound x Hx Hxr) as (d & p & Hd & Hp & [(_ & _ & Hnot)|Hentry]); [done|].
    exists d, p. done.
  - by apply rounds_needed_le.
Qed.

(** ** Routes in labels *)

Lemma Forall2_head {A B : Type} (R : A -> B -> Prop) (l : list A) (k : list B) (x : A) :
  Forall2 R l k -> head l = Some x -> exists y, head k = Some y /\ R x y.
Proof. destruct 1; simpl; [done|]. intros [= ->]. eauto. Qed.

Lemma Forall2_last {A B : Type} (R : A -> B -> Prop) (l : list A) (k : list B) (x : A) :
  Forall2 R l k -> last l = Some x -> exists y, last k = Some y /\ R x y.
Proof.
  intros H Hl. apply last_Some in Hl as [l' ->].
  apply Forall2_app_inv_l in H as (k1 & k2 & _ & H2 & ->).
  apply Forall2_cons_inv_l in H2 as (y & k2' & Hxy & Hnil & ->).
  apply Forall2_nil_inv_l in Hnil as ->. exists y. split; [apply last_snoc|done].
Qed.

Lemma constructed_registered (dm : list (list float)) (labels : list N) (g0 g : CGraph)
    (l i : N) :
  CGraph_new dm labels = Ok g0 -> later g0 g ->
  ExternalToInternal g l = Ok i ->
  i < m_Order g /\ nth_N (m_InternalToExternal g) i = Some l.
Proof.
  intros Hnew Hlater Hl.
  destruct (constructed_graph_sound _ _ _ _ Hnew Hlater) as [[Hwf _] _].
  unfold ExternalToInternal in Hl.
  destruct (m_ExternalToInternal g !! l) as [j|] eqn:Hj; [|discriminate].
  injection Hl as ->. by apply (wf_labels g Hwf).
Qed.

(** The route of a query that returned is a path of the graph, in labels:
    it starts at the start label, ends at the end label, repeats no label,
    and its vertices are joined by edges, each to the next when the tree of
    the start vertex was read and each from the next otherwise. *)
Theorem route_is_a_path
    (distanceMatrix : list (list float)) (vertexLabels : list N) (g0 g g' : CGraph)
    (startVertex endVertex : N) (preferStartVertex : bool) (d : float) (route : list N) :
  CGraph_new distanceMatrix vertexLabels = Ok g0 -> later g0 g ->
  ShortestDistance g startVertex endVertex preferStartVertex = Ok (d, route, g') ->
  head route = Some startVertex
  /\ last route = Some endVertex
  /\ NoDup route
  /\ (length route <= N.to_nat (m_Order g))%nat
  /\ exists iStartVertex iEndVertex vertices,
       ExternalToInternal g startVertex = Ok iStartVertex
       /\ ExternalToInternal g endVertex = Ok iEndVertex
       /\ ExternalToInternal_all g route = Ok vertices
       /\ if fromStartVertex g iStartVertex iEndVertex preferStartVertex
          then steps (edge g) vertices
          else steps (fun u w => edge g w u) vertices.
Proof.
  intros Hnew Hlater Hq.
  pose proof (constructed_graph_sound _ _ _ _ Hnew Hlater) as Hsound.
  destruct (constructed_labels _ _ _ _ Hnew Hlater) as (Horder & Hlabels & Hnodup & Hmap).
  apply ShortestDistance_Ok in Hq as (s & e & iroute & Hs & He & Hq & Hroute).
  pose proof (step_InternalShortestDistance g g' s e _ _ Hq) as Hstep.
  pose proof (query_step_same_graph _ _ Hstep) as Hsame.
  rewrite (InternalToExternal_all_same_graph g g') in Hroute by done.
  destruct (route_facts g g' s e _ d iroute Hsound Hq)
    as (Hhead & Hlast & Hnd & Hall & Hsteps).
  destruct (constructed_registered _ _ _ _ _ _ Hnew Hlater Hs) as [_ Hls].
  destruct (constructed_registered _ _ _ _ _ _ Hnew Hlater He) as [_ Hle].
  pose proof Hroute as Hf2. apply InternalToExternal_all_Forall2 in Hf2.
  split; [|split; [|split; [|split]]].
  - destruct (Forall2_head _ _ _ _ Hf2 Hhead) as (l & -> & Hl). congruence.
  - destruct (Forall2_last _ _ _ _ Hf2 Hlast) as (l & -> & Hl). congruence.
  - apply NoDup_alt. intros i j l Hi Hj.
    destruct (Forall2_lookup_r _ _ _ _ _ Hf2 Hi) as (vi & Hvi & Hli).
    destruct (Forall2_lookup_r _ _ _ _ _ Hf2 Hj) as (vj & Hvj & Hlj).
    rewrite Hlabels, nth_N_lookup in Hli, Hlj.
    pose proof (proj1 (NoDup_alt vertexLabels) Hnodup _ _ _ Hli Hlj) as Heq.
    assert (vi = vj) as -> by lia.
    by apply (proj1 (NoDup_alt iroute) Hnd i j vj).
  - rewrite <- (Forall2_length _ _ _ Hf2).
    apply bounded_NoDup_length; [done|]. by apply Forall_forall.
  - exists s, e, iroute. do 2 (split; [done|]). split; [|done].
    by apply (InternalToExternal_all_inverse distanceMatrix vertexLabels g0).
Qed.

Lemma route_is_a_path_witness :
  head [10; 20; 30; 40] = Some 10
  /\ last [10; 20; 30; 40] = Some 40
  /\ NoDup [10; 20; 30; 40]
  /\ (length [10; 20; 30; 40] <= N.to_nat (m_Order Scenario.path_graph))%nat
  /\ exists iStartVertex iEndVertex vertices,
       ExternalToInternal Scenario.path_graph 10 = Ok iStartVertex
       /\ ExternalToInternal Scenario.path_graph 40 = Ok iEndVertex
       /\ ExternalToInternal_all Scenario.path_graph [10; 20; 30; 40] = Ok vertices
       /\ if fromStartVertex Scenario.path_graph iStartVertex iEndVertex false
          then steps (edge Scenario.path_graph) vertices
          else steps (fun u w => edge Scenario.path_graph w u) vertices.
Proof.
  apply (route_is_a_path Scenario.path_matrix Scenario.path_labels
           Scenario.path_graph Scenario.path_graph Scenario.path_graph_asked
           10 40 false 6%float [10; 20; 30; 40]).
  - vm_compute. reflexivity.
  - apply rtc_refl.
  - vm_compute. reflexivity.
Defined.

(** The distance of a query between two different vertices that returned is
    the length of its route, started from the root of the tree that was
    read: the entries of the distance matrix along the route, added up in
    binary64 from the start vertex on when the tree of the start vertex was
    read, and from the end vertex on otherwise. *)
Theorem distance_is_the_length_of_the_route
    (distanceMatrix : list (list float)) (vertexLabels : list N) (g0 g g' : CGraph)
    (startVertex endVertex iStartVertex iEndVertex : N) (preferStartVertex : bool)
    (d : float) (route : list N) :
  CGraph_new distanceMatrix vertexLabels = Ok g0 -> later g0 g ->
  ExternalToInternal g startVertex = Ok iStartVertex ->
  ExternalToInternal g endVertex = Ok iEndVertex ->
  iStartVertex <> iEndVertex ->
  ShortestDistance g startVertex endVertex preferStartVertex = Ok (d, route, g') ->
  exists vertices,
    ExternalToInternal_all g route = Ok vertices
    /\ path_length distanceMatrix
         (if fromStartVertex g iStartVertex iEndVertex preferStartVertex
          then vertices else rev vertices) = Some d.
Proof.
  intros Hnew Hlater Hs He Hne Hq.
  pose proof (constructed_graph_sound _ _ _ _ Hnew Hlater) as Hsound.
  apply ShortestDistance_Ok in Hq as (s & e & iroute & Hs' & He' & Hq & Hroute).
  assert (s = iStartVertex) as -> by congruence.
  assert (e = iEndVertex) as -> by congruence.
  pose proof (step_InternalShortestDistance g g' _ _ _ _ Hq) as Hstep.
  pose proof (query_step_same_graph _ _ Hstep) as Hsame.
  rewrite (InternalToExternal_all_same_graph g g') in Hroute by done.
  exists iroute.
  split; [by apply (InternalToExternal_all_inverse distanceMatrix vertexLabels g0)|].
  destruct (query_reads_a_tree g g' _ _ _ d iroute Hsound Hq)
    as (k & parents & dists & up & [[Hwf' _] _] & _ & Hroot & _ & Htree & Htsound
        & Hup & Hd & ->).
  destruct (CGraph_new_Ok _ _ _ Hnew) as (_ & _ & _ & Hdm & _).
  destruct (later_same_graph _ _ Hlater) as (_ & _ & _ & Hm & _).
  destruct Hsame as (_ & _ & _ & Hm' & _).
  assert (m_DistanceMatrix g' = distanceMatrix) as Hmat by congruence.
  pose proof (climb_path_length g' _ parents dists Htsound (wf_order g' Hwf') Hroot
                (proj1 Htree) _ _ _ d Hup) as Hlen.
  rewrite Hmat in Hlen.
  destruct (fromStartVertex g iStartVertex iEndVertex preferStartVertex).
  - apply Hlen; [by apply not_eq_sym|done].
  - rewrite rev_involutive || idtac. apply Hlen; done.
Qed.

Lemma distance_is_the_length_of_the_route_witness :
  exists vertices,
    ExternalToInternal_all Scenario.path_graph [10; 20; 30; 40] = Ok vertices
    /\ path_length Scenario.path_matrix
         (if fromStartVertex Scenario.path_graph 0 3 false
          then vertices else rev vertices) = Some 6%float.
Proof.
  apply (distance_is_the_length_of_the_route Scenario.path_matrix Scenario.path_labels
           Scenario.path_graph Scenario.path_graph Scenario.path_graph_asked
           10 40 0 3 false 6%float [10; 20; 30; 40]).
  - vm_compute. reflexivity.
  - apply rtc_refl.
  - vm_compute. reflexivity.
  - vm_compute. reflexivity.
  - discriminate.
  - vm_compute. reflexivity.
Defined.

(** ** Which queries return *)

Lemma reaches_first_edge (g : CGraph) (r o : N) :
  reaches g r o -> r <> o -> exists k, edge g r k.
Proof.
  induction 1 as [|u v w Huv IH Hedge]; [done|]. intros _.
  destruct (N.eq_dec u v) as [->|Hne]; [by exists w|by apply IH].
Qed.

Lemma edge_run_returns (g : CGraph) (v k : N) :
  graph_wf g -> v < m_Order g -> edge g v k ->
  exists slot g', InternalDijkstra g v = Ok (slot, g').
Proof.
  intros Hwf Hv Hedge.
  destruct (adjacent_is_vertex g v k true Hwf Hedge) as [_ Hk].
  destruct (wf_adj g Hwf v k Hv Hk) as [x [Hx Hadj]].
  assert (is_edge x v k = true) as Hx' by (unfold edge in Hedge; congruence).
  apply (InternalDijkstra_returns g v k x); try done.
  intros ->. by rewrite is_edge_diagonal in Hx'.
Qed.

(** A cached tree answers for every vertex that edges lead to from its
    root. *)
Lemma read_tree_reached (g : CGraph) (b : bool) (s e k : N) :
  graph_sound g ->
  m_DijkstraStartVertices g !! (if b then s else e) = Some k ->
  (if b then e else s) < m_Order g ->
  reaches g (if b then s else e) (if b then e else s) ->
  exists a, read_tree g b s e = Ok a.
Proof.
  intros [[Hwf Hcache] Hsound] Hk Hother Hreach.
  destruct (cache_wf_slot g _ k Hcache Hk) as (Hroot & parents & dists & Hslot & Htree).
  pose proof (Hsound _ _ _ _ Hslot) as Htsound.
  destruct (climb_reached g _ parents dists Htsound Htree Hroot _ Hother Hreach)
    as [up Hup].
  destruct (nth_N_Some dists (if b then e else s)) as [d Hd].
  { destruct Htree as (_ & -> & _). done. }
  destruct b.
  - rewrite (read_tree_from_start g s e k parents dists Hslot).
    unfold omap, answer_from_tree. rewrite walk_to_root_climb. unfold omap.
    rewrite Hup. simpl. unfold vec_get. rewrite Hd. simpl. eauto.
  - rewrite (read_tree_from_end g s e k parents dists Hslot).
    unfold answer_from_tree. rewrite walk_to_root_climb. unfold omap.
    rewrite Hup. simpl. unfold vec_get. rewrite Hd. simpl. eauto.
Qed.

Lemma fromStartVertex_policy (g : CGraph) (s e : N) (p : bool) :
  InternalShortestDistance g s e p =
    if has_tree g e || has_tree g s
    then do a <- read_tree g (fromStartVertex g s e p) s e; Ok (a, g)
    else do t <- InternalDijkstra g (if fromStartVertex g s e p then s else e);
         do a <- read_tree (snd t) (fromStartVertex g s e p) s e; Ok (a, snd t).
Proof.
  rewrite InternalShortestDistance_policy. unfold fromStartVertex.
  destruct (has_tree g e); [done|]. destruct (has_tree g s); [done|]. done.
Qed.

(** A query between two different vertices returns when edges lead from the
    root of the tree it reads to the other vertex. *)
Lemma query_answered (g : CGraph) (s e : N) (p : bool) :
  graph_sound g -> s < m_Order g -> e < m_Order g -> s <> e ->
  reaches g (if fromStartVertex g s e p then s else e)
            (if fromStartVertex g s e p then e else s) ->
  exists d route g', InternalShortestDistance g s e p = Ok (d, route, g').
Proof.
  intros Hsound Hs He Hne Hreach. rewrite fromStartVertex_policy.
  set (b := fromStartVertex g s e p) in *.
  assert ((if b then s else e) < m_Order g) as Hroot by (by destruct b).
  assert ((if b then e else s) < m_Order g) as Hother by (by destruct b).
  assert ((if b then s else e) <> (if b then e else s)) as Hdiff
    by (destruct b; [done|by apply not_eq_sym]).
  destruct (has_tree g e || has_tree g s) eqn:Hhas.
  - assert (has_tree g (if b then s else e) = true) as Hroot_tree.
    { unfold b, fromStartVertex. destruct (has_tree g e) eqn:Hte; simpl; [done|].
      simpl in Hhas. by rewrite Hhas. }
    apply has_tree_true in Hroot_tree as [k Hk].
    destruct (read_tree_reached g b s e k Hsound Hk Hother Hreach) as [[d route] Hread].
    rewrite Hread. simpl. eauto.
  - destruct (reaches_first_edge _ _ _ Hreach Hdiff) as [w Hedge].
    destruct (edge_run_returns g _ w (proj1 (proj1 Hsound)) Hroot Hedge)
      as (k & g' & Hrun).
    rewrite Hrun. simpl.
    pose proof (step_InternalDijkstra g g' _ k Hrun) as Hstep.
    pose proof (query_step_graph_sound _ _ Hstep Hsound) as Hsound'.
    pose proof (query_step_same_graph _ _ Hstep) as Hsame.
    pose proof Hsame as (Ho & _).
    destruct (read_tree_reached g' b s e k Hsound') as [[d route] Hread].
    + by apply (InternalDijkstra_has_tree g).
    + by rewrite Ho.
    + by apply (reaches_same_graph_iff g g').
    + rewrite Hread. simpl. eauto.
Qed.

(** A query that returned has edges leading from the root of the tree it
    read to the other vertex. *)
Lemma query_returned_reaches (g g' : CGraph) (s e : N) (p : bool) (a : float * list N) :
  graph_sound g ->
  InternalShortestDistance g s e p = Ok (a, g') ->
  reaches g (if fromStartVertex g s e p then s else e)
            (if fromStartVertex g s e p then e else s).
Proof.
  intros Hsound Hq. destruct a as [d route].
  destruct (query_reads_a_tree g g' s e p d route Hsound Hq)
    as (k & parents & dists & up & _ & Hsame & Hroot & _ & Htree & _ & Hup & _).
  apply (reaches_same_graph g g'); [done|].
  apply (walk_to_root_reaches g' _ parents dists Htree Hroot (N.to_nat (m_Order g'))
           [if fromStartVertex g s e p then e else s] _
           ((if fromStartVertex g s e p then e else s) :: up)).
  rewrite walk_to_root_climb. unfold omap. by rewrite Hup.
Qed.

(** A query between two different registered labels returns exactly when
    edges lead from the root of the tree it reads to the other vertex;
    otherwise it leaves a vector. *)
Theorem query_returns_iff_connected
    (distanceMatrix : list (list float)) (vertexLabels : list N) (g0 g : CGraph)
    (startVertex endVertex iStartVertex iEndVertex : N) (preferStartVertex : bool) :
  CGraph_new distanceMatrix vertexLabels = Ok g0 -> later g0 g ->
  ExternalToInternal g startVertex = Ok iStartVertex ->
  ExternalToInternal g endVertex = Ok iEndVertex ->
  iStartVertex <> iEndVertex ->
  let root := if fromStartVertex g iStartVertex iEndVertex preferStartVertex
              then iStartVertex else iEndVertex in
  let other := if fromStartVertex g iStartVertex iEndVertex preferStartVertex
               then iEndVertex else iStartVertex in
  (reaches g root other ->
   exists d route g',
     ShortestDistance g startVertex endVertex preferStartVertex = Ok (d, route, g'))
  /\ (~ reaches g root other ->
      ShortestDistance g startVertex endVertex preferStartVertex = Raise OutOfBounds).
Proof.
  intros Hnew Hlater Hs He Hne root other.
  pose proof (constructed_graph_sound _ _ _ _ Hnew Hlater) as Hsound.
  destruct (constructed_labels _ _ _ _ Hnew Hlater) as (Horder & Hlabels & _).
  destruct (constructed_registered _ _ _ _ _ _ Hnew Hlater Hs) as [Hso _].
  destruct (constructed_registered _ _ _ _ _ _ Hnew Hlater He) as [Heo _].
  unfold ShortestDistance. rewrite Hs, He. simpl. split.
  - intros Hreach.
    destruct (query_answered g _ _ preferStartVertex Hsound Hso Heo Hne Hreach)
      as (d & route & g' & Hq).
    rewrite Hq. simpl.
    destruct (route_facts g g' _ _ _ d route Hsound Hq) as (_ & _ & _ & Hall & _).
    pose proof (step_InternalShortestDistance g g' _ _ _ _ Hq) as Hstep.
    pose proof (query_step_same_graph _ _ Hstep) as (_ & Hl & _).
    destruct (InternalToExternal_all_total g' route) as (ls & Hls & _).
    { rewrite Hl, Hlabels, <- Horder. done. }
    rewrite Hls. simpl. eauto.
  - intros Hnot.
    pose proof (InternalShortestDistance_ends g _ _ preferStartVertex (proj1 Hsound) Hso Heo)
      as Hends.
    destruct (InternalShortestDistance g iStartVertex iEndVertex preferStartVertex)
      as [[a g']|f|] eqn:Hq; simpl in *; [|by subst|done].
    exfalso. apply Hnot. by apply (query_returned_reaches g g' _ _ _ a).
Qed.

Lemma query_returns_iff_connected_witness :
  (exists d route g',
     ShortestDistance Scenario.split_graph 10 20 false = Ok (d, route, g'))
  /\ ShortestDistance Scenario.split_graph 10 30 false = Raise OutOfBounds.
Proof.
  split.
  - apply (query_returns_iff_connected Scenario.split_matrix Scenario.split_labels
             Scenario.split_graph Scenario.split_graph 10 20 0 1 false).
    + vm_compute. reflexivity.
    + apply rtc_refl.
    + vm_compute. reflexivity.
    + vm_compute. reflexivity.
    + discriminate.
    + apply (reaches_step _ 1 1 0); [apply reaches_refl|]. vm_compute. reflexivity.
  - apply (query_returns_iff_connected Scenario.split_matrix Scenario.split_labels
             Scenario.split_graph Scenario.split_graph 10 30 0 2 false).
    + vm_compute. reflexivity.
    + apply rtc_refl.
    + vm_compute. reflexivity.
    + vm_compute. reflexivity.
    + discriminate.
    + change (~ reaches Scenario.split_graph 2 0). intros Hreach.
      assert (forall u w, reaches Scenario.split_graph u w -> u = 2 -> w = 2) as Hstay.
      { clear. induction 1 as [v|u v w _ IH Hedge]; intros ->; [reflexivity|].
        rewrite (IH eq_refl) in Hedge. exfalso. revert Hedge.
        change (m_AdjacencyMatrix Scenario.split_graph)
          with [[false; true; false]; [true; false; false]; [false; false; false]].
        unfold mat_get, vec_get. simpl.
        repeat (destruct (_ =? 0); [discriminate|]). discriminate. }
      discriminate (Hstay 2 0 Hreach eq_refl).
Defined.

(** A query throws for a label that is not registered, and then what it
    throws is the library's [std::out_of_range]; for registered labels it
    throws nothing. *)
Theorem query_throws_only_for_unknown_labels
    (distanceMatrix : list (list float)) (vertexLabels : list N) (g0 g : CGraph)
    (startVertex endVertex : N) (preferStartVertex : bool) :
  CGraph_new distanceMatrix vertexLabels = Ok g0 -> later g0 g ->
  (startVertex ∉ vertexLabels \/ endVertex ∉ vertexLabels ->
   ShortestDistance g startVertex endVertex preferStartVertex = Raise std_out_of_range)
  /\ (startVertex ∈ vertexLabels -> endVertex ∈ vertexLabels ->
      returns_or_leaves_vector
        (ShortestDistance g startVertex endVertex preferStartVertex)).
Proof.
  intros Hnew Hlater.
  pose proof (constructed_graph_sound _ _ _ _ Hnew Hlater) as Hsound.
  destruct (constructed_labels _ _ _ _ Hnew Hlater) as (Horder & Hlabels & Hnodup & Hmap).
  assert (forall l, l ∈ vertexLabels -> exists i, ExternalToInternal g l = Ok i) as Hin.
  { intros l Hl. apply list_elem_of_lookup in Hl as [k Hk].
    exists (N.of_nat k). unfold ExternalToInternal.
    assert (m_ExternalToInternal g !! l = Some (N.of_nat k)) as ->; [|done].
    apply Hmap. by rewrite nth_N_lookup, Nat2N.id. }
  assert (forall l, l ∉ vertexLabels -> ExternalToInternal g l = Raise std_out_of_range)
    as Hout.
  { intros l Hl. unfold ExternalToInternal.
    destruct (m_ExternalToInternal g !! l) as [i|] eqn:Hi; [|done].
    exfalso. apply Hl. apply Hmap in Hi. rewrite nth_N_lookup in Hi.
    by apply list_elem_of_lookup_2 in Hi. }
  unfold ShortestDistance. split.
  - intros Hunknown. destruct (decide (startVertex ∈ vertexLabels)) as [Hs|Hs].
    + destruct (Hin _ Hs) as [s ->]. simpl.
      destruct Hunknown as [?|He]; [done|]. by rewrite (Hout _ He).
    + by rewrite (Hout _ Hs).
  - intros Hs He. destruct (Hin _ Hs) as [s Hs']. destruct (Hin _ He) as [e He'].
    rewrite Hs', He'. simpl.
    destruct (constructed_registered _ _ _ _ _ _ Hnew Hlater Hs') as [Hso _].
    destruct (constructed_registered _ _ _ _ _ _ Hnew Hlater He') as [Heo _].
    pose proof (InternalShortestDistance_ends g s e preferStartVertex (proj1 Hsound) Hso Heo)
      as Hends.
    destruct (InternalShortestDistance g s e preferStartVertex)
      as [[[d route] g']|f|] eqn:Hq; simpl in *; [|done|done].
    destruct (route_facts g g' _ _ _ d route Hsound Hq) as (_ & _ & _ & Hall & _).
    pose proof (step_InternalShortestDistance g g' _ _ _ _ Hq) as Hstep.
    pose proof (query_step_same_graph _ _ Hstep) as (_ & Hl & _).
    destruct (InternalToExternal_all_total g' route) as (ls & Hls & _).
    { rewrite Hl, Hlabels, <- Horder. done. }
    by rewrite Hls.
Qed.

Lemma query_throws_only_for_unknown_labels_witness :
  ShortestDistance Scenario.split_graph 10 50 false = Raise std_out_of_range
  /\ returns_or_leaves_vector (ShortestDistance Scenario.split_graph 10 30 false).
Proof.
  split.
  - apply (query_throws_only_for_unknown_labels Scenario.split_matrix Scenario.split_labels
             Scenario.split_graph Scenario.split_graph 10 50 false).
    + vm_compute. reflexivity.
    + apply rtc_refl.
    + right. apply (bool_decide_unpack _). vm_compute. exact I.
  - apply (query_throws_only_for_unknown_labels Scenario.split_matrix Scenario.split_labels
             Scenario.split_graph Scenario.split_graph 10 30 false).
    + vm_compute. reflexivity.
    + apply rtc_refl.
    + apply (bool_decide_unpack _). vm_compute. exact I.
    + apply (bool_decide_unpack _). vm_compute. exact I.
Defined.

(** ** Stored trees *)

(** Every tree in the cache of a constructed graph holds, for every vertex
    other than its root, either the two sentinels, when no edges lead to
    the vertex from the root, or a distance that is not negative and a
    parent that is a vertex, has an edge to it and is itself reached from
    the root. *)
Theorem stored_tree_marks_the_unreachable
    (distanceMatrix : list (list float)) (vertexLabels : list N) (g0 g : CGraph)
    (startVertex index : N) (outputRoutes : list N) (shortestDistances : list float) :
  CGraph_new distanceMatrix vertexLabels = Ok g0 -> later g0 g ->
  slot_at g startVertex index outputRoutes shortestDistances ->
  forall i, i < m_Order g -> i <> startVertex ->
    exists d p,
      nth_N shortestDistances i = Some d
      /\ nth_N outputRoutes i = Some p
      /\ (reaches g startVertex i ->
          ge_zero d = true /\ p < m_Order g /\ edge g p i /\ reaches g startVertex p)
      /\ (~ reaches g startVertex i -> d = minus_one /\ p = minus_one_u).
Proof.
  intros Hnew Hlater Hslot i Hi His.
  destruct (constructed_graph_sound _ _ _ _ Hnew Hlater) as [[Hwf Hcache] Hsound].
  pose proof (Hsound _ _ _ _ Hslot) as Htree.
  destruct (Htree i Hi His) as (d & p & Hd & Hp & Hcase). exists d, p.
  do 2 (split; [done|]).
  destruct Hcase
    as [(-> & -> & Hnot)|(Hpos & Hpo & Hreach & (w & Hw & Hedge & Hsum) & _)].
  - split; [done|]. done.
  - split; [|done]. intros _. do 2 (split; [done|]). split.
    + unfold edge. destruct (wf_adj g Hwf p i Hpo Hi) as [x [Hx ->]]. congruence.
    + destruct Hsum as [[-> _]|(Hps & dp & Hdp & Hdpos & _)]; [apply reaches_refl|].
      destruct (Htree p Hpo Hps) as (d' & p' & Hd' & _ & [(-> & _)|(_ & _ & ? & _)]);
        [|done].
      assert (dp = minus_one) as -> by congruence. discriminate.
Qed.

Lemma stored_tree_marks_the_unreachable_witness :
  exists d p,
    nth_N [1; 0; -1]%float 2 = Some d
    /\ nth_N [1; 1; minus_one_u] 2 = Some p
    /\ (reaches Scenario.split_graph_asked 1 2 ->
        ge_zero d = true /\ p < m_Order Scenario.split_graph_asked
        /\ edge Scenario.split_graph_asked p 2 /\ reaches Scenario.split_graph_asked 1 p)
    /\ (~ reaches Scenario.split_graph_asked 1 2 -> d = minus_one /\ p = minus_one_u).
Proof.
  apply (stored_tree_marks_the_unreachable Scenario.split_matrix Scenario.split_labels
           Scenario.split_graph Scenario.split_graph_asked 1 0
           [1; 1; minus_one_u] [1; 0; -1]%float).
  - vm_compute. reflexivity.
  - apply rtc_once.
    apply (step_ShortestDistance _ _ 10 20 false (1%float, [10; 20])).
    vm_compute. reflexivity.
  - vm_compute. repeat split; reflexivity.
  - vm_compute. reflexivity.
  - discriminate.
Defined.

(** ** The outcome of a single-source run *)

(** On a constructed graph a run from a value that is no vertex throws; a
    run from a cached root returns its slot and changes nothing; a run
    from a vertex with an outgoing edge returns the next slot, adds one
    tree and changes nothing else; and a run from a vertex without an
    outgoing edge leaves a vector. *)
Theorem single_source_run_outcome
    (distanceMatrix : list (list float)) (vertexLabels : list N) (g0 g : CGraph)
    (startVertex : N) :
  CGraph_new distanceMatrix vertexLabels = Ok g0 -> later g0 g ->
  (m_Order g <= startVertex ->
   InternalDijkstra g startVertex = Raise (Dijkstra_InvalidStartVertex startVertex))
  /\ (forall k, startVertex < m_Order g ->
        m_DijkstraStartVertices g !! startVertex = Some k ->
        InternalDijkstra g startVertex = Ok (k, g))
  /\ (startVertex < m_Order g ->
      m_DijkstraStartVertices g !! startVertex = None ->
      (exists w, edge g startVertex w) ->
      exists g',
        InternalDijkstra g startVertex = Ok (N.of_nat (trees_computed g), g')
        /\ same_graph g g'
        /\ trees_computed g' = Datatypes.S (trees_computed g)
        /\ m_DijkstraStartVertices g' !! startVertex = Some (N.of_nat (trees_computed g)))
  /\ (startVertex < m_Order g ->
      m_DijkstraStartVertices g !! startVertex = None ->
      (forall w, ~ edge g startVertex w) ->
      InternalDijkstra g startVertex = Raise OutOfBounds).
Proof.
  intros Hnew Hlater.
  destruct (constructed_graph_sound _ _ _ _ Hnew Hlater) as [[Hwf Hcache] _].
  split; [|split; [|split]].
  - intros Hv. unfold InternalDijkstra.
    by rewrite (proj2 (N.leb_le (m_Order g) startVertex) Hv).
  - intros k Hv Hk. unfold InternalDijkstra.
    destruct (N.leb_spec (m_Order g) startVertex); [lia|]. by rewrite Hk.
  - intros Hv Hnone [w Hedge].
    destruct (edge_run_returns g startVertex w Hwf Hv Hedge) as (k & g' & Hrun).
    exists g'. pose proof (InternalDijkstra_Ok _ _ _ _ Hrun) as [_ [[? _]|(_ & Hk & _)]];
      [congruence|].
    rewrite (new_slot_eq g startVertex Hwf Hcache Hv Hnone) in Hk.
    assert (k = N.of_nat (trees_computed g)) as -> by (by subst k).
    split; [done|]. split; [by apply (InternalDijkstra_same_graph _ _ _ _ Hrun)|].
    split; [|by apply (InternalDijkstra_has_tree g)].
    pose proof (InternalDijkstra_trees_computed _ _ _ _ Hrun) as Hn.
    replace (has_tree g startVertex) with false in Hn; [done|].
    symmetry. by apply has_tree_false.
  - intros Hv Hnone Hisolated.
    pose proof (InternalDijkstra_ends g startVertex Hwf Hv) as Hends.
    destruct (InternalDijkstra g startVertex) as [r|f|] eqn:Hrun; simpl in Hends;
      [|by subst|done].
    exfalso. revert Hrun. apply run_from_isolated_vertex_does_not_return; try done.
    intros k x Hk Hkv Hx. destruct (is_edge x startVertex k) eqn:Hedge; [|done].
    exfalso. apply (Hisolated k). unfold edge.
    destruct (wf_adj g Hwf startVertex k Hv Hk) as [x' [Hx' ->]]. congruence.
Qed.

Lemma single_source_run_outcome_witness :
  InternalDijkstra Scenario.path_graph_asked 7 = Raise (Dijkstra_InvalidStartVertex 7)
  /\ InternalDijkstra Scenario.path_graph_asked 3 = Ok (0, Scenario.path_graph_asked)
  /\ (exists g',
        InternalDijkstra Scenario.path_graph_asked 0
          = Ok (N.of_nat (trees_computed Scenario.path_graph_asked), g')
        /\ same_graph Scenario.path_graph_asked g'
        /\ trees_computed g' = Datatypes.S (trees_computed Scenario.path_graph_asked)
        /\ m_DijkstraStartVertices g' !! 0
           = Some (N.of_nat (trees_computed Scenario.path_graph_asked)))
  /\ InternalDijkstra Scenario.split_graph 2 = Raise OutOfBounds.
Proof.
  assert (later Scenario.path_graph Scenario.path_graph_asked) as Hlater.
  { apply rtc_once.
    apply (step_ShortestDistance _ _ 10 40 false (6%float, [10; 20; 30; 40])).
    vm_compute. reflexivity. }
  split; [|split; [|split]].
  - apply (single_source_run_outcome Scenario.path_matrix Scenario.path_labels
             Scenario.path_graph Scenario.path_graph_asked 7);
      [vm_compute; reflexivity|exact Hlater|discriminate].
  - apply (single_source_run_outcome Scenario.path_matrix Scenario.path_labels
             Scenario.path_graph Scenario.path_graph_asked 3);
      [vm_compute; reflexivity|exact Hlater|reflexivity|vm_compute; reflexivity].
  - apply (single_source_run_outcome Scenario.path_matrix Scenario.path_labels
             Scenario.path_graph Scenario.path_graph_asked 0);
      [vm_compute; reflexivity|exact Hlater|reflexivity|vm_compute; reflexivity|].
    exists 1. vm_compute. reflexivity.
  - apply (single_source_run_outcome Scenario.split_matrix Scenario.split_labels
             Scenario.split_graph Scenario.split_graph 2);
      [vm_compute; reflexivity|apply rtc_refl|reflexivity|vm_compute; reflexivity|].
    intros w. unfold edge.
    change (m_AdjacencyMatrix Scenario.split_graph)
      with [[false; true; false]; [true; false; false]; [false; false; false]].
    unfold mat_get, vec_get. simpl.
    repeat (destruct (_ =? 0); [discriminate|]). discriminate.
Defined.

(** ** The size of the cache *)

Lemma cache_roots_size (g : CGraph) (roots : list N) :
  (forall s k, m_DijkstraStartVertices g !! s = Some k <-> nth_N roots k = Some s) ->
  base.size (m_DijkstraStartVertices g) = length roots.
Proof.
  intros Hmap. pose proof (roots_NoDup g roots Hmap) as Hnodup.
  assert (m_DijkstraStartVertices g
          = list_to_map (imap (fun k s => (s, N.of_nat k)) roots)) as ->.
  { apply map_eq. intros s. apply option_eq. intros k.
    rewrite Hmap, <- elem_of_list_to_map.
    - rewrite nth_N_lookup, elem_of_lookup_imap. split.
      + intros Hk. exists (N.to_nat k), s. by rewrite N2Nat.id.
      + intros (j & s' & [= -> ->] & Hj). by rewrite Nat2N.id.
    - rewrite fmap_imap. unfold compose. simpl.
      replace (imap (fun (_ : nat) (x : N) => x) roots) with roots; [done|].
      clear. induction roots as [|x l IH]; simpl; [done|]. f_equal.
      rewrite IH at 1. apply imap_ext. done. }
  rewrite map_size_list_to_map; [by rewrite length_imap|].
  rewrite fmap_imap. unfold compose. simpl.
  replace (imap (fun (_ : nat) (x : N) => x) roots) with roots; [done|].
  clear. induction roots as [|x l IH]; simpl; [done|]. f_equal.
  rewrite IH at 1. apply imap_ext. done.
Qed.

(** In every state of a constructed graph the map of start vertices and
    the two vectors of results have one entry per tree, and there are at
    most as many trees as vertices. *)
Theorem cache_holds_one_tree_per_start_vertex
    (distanceMatrix : list (list float)) (vertexLabels : list N) (g0 g : CGraph) :
  CGraph_new distanceMatrix vertexLabels = Ok g0 -> later g0 g ->
  base.size (m_DijkstraStartVertices g) = trees_computed g
  /\ length (m_DijkstraShortestDistances g) = trees_computed g
  /\ (trees_computed g <= N.to_nat (m_Order g))%nat
  /\ forall s k, m_DijkstraStartVertices g !! s = Some k ->
       s < m_Order g /\ (N.to_nat k < trees_computed g)%nat.
Proof.
  intros Hnew Hlater.
  destruct (constructed_graph_sound _ _ _ _ Hnew Hlater) as [[Hwf Hcache] _].
  destruct Hcache as (roots & Hmap & Hr & Hd & Hslots).
  unfold trees_computed. unfold vec_size in Hr, Hd.
  assert (length (m_DijkstraOutputRoutes g) = length roots) as Hr' by lia.
  rewrite Hr'. split; [by apply cache_roots_size|]. split; [lia|]. split.
  - apply bounded_NoDup_length; [by apply (roots_NoDup g)|].
    intros x Hx. apply list_elem_of_lookup in Hx as [i Hi].
    assert (nth_N roots (N.of_nat i) = Some x) as Hi'
      by (by rewrite nth_N_lookup, Nat2N.id).
    by apply Hslots in Hi' as [? _].
  - intros s k Hk. apply Hmap in Hk. split; [by apply Hslots in Hk as [? _]|].
    apply nth_N_bound in Hk. unfold vec_size in Hk. lia.
Qed.

Lemma cache_holds_one_tree_per_start_vertex_witness :
  base.size (m_DijkstraStartVertices Scenario.path_graph_asked_again)
    = trees_computed Scenario.path_graph_asked_again
  /\ length (m_DijkstraShortestDistances Scenario.path_graph_asked_again)
     = trees_computed Scenario.path_graph_asked_again
  /\ (trees_computed Scenario.path_graph_asked_again
      <= N.to_nat (m_Order Scenario.path_graph_asked_again))%nat
  /\ forall s k, m_DijkstraStartVertices Scenario.path_graph_asked_again !! s = Some k ->
       s < m_Order Scenario.path_graph_asked_again
       /\ (N.to_nat k < trees_computed Scenario.path_graph_asked_again)%nat.
Proof.
  apply (cache_holds_one_tree_per_start_vertex Scenario.path_matrix Scenario.path_labels
           Scenario.path_graph Scenario.path_graph_asked_again).
  - vm_compute. reflexivity.
  - eapply rtc_l.
    + apply (step_ShortestDistance _ _ 10 40 false (6%float, [10; 20; 30; 40])).
      vm_compute. reflexivity.
    + apply rtc_once.
      apply (step_ShortestDistance _ _ 20 10 false (1%float, [20; 10])).
      vm_compute. reflexivity.
Defined.

(** ** A bound on the distance *)

(** The distance of a query that returned is at most the entry of the
    distance matrix from the root of the tree it read to the other vertex,
    when that entry is an edge. *)
Theorem distance_is_at_most_the_direct_edge
    (distanceMatrix : list (list float)) (vertexLabels : list N) (g0 g g' : CGraph)
    (startVertex endVertex iStartVertex iEndVertex : N) (preferStartVertex : bool)
    (d x : float) (route : list N) :
  CGraph_new distanceMatrix vertexLabels = Ok g0 -> later g0 g ->
  ExternalToInternal g startVertex = Ok iStartVertex ->
  ExternalToInternal g endVertex = Ok iEndVertex ->
  ShortestDistance g startVertex endVertex preferStartVertex = Ok (d, route, g') ->
  let root := if fromStartVertex g iStartVertex iEndVertex preferStartVertex
              then iStartVertex else iEndVertex in
  let other := if fromStartVertex g iStartVertex iEndVertex preferStartVertex
               then iEndVertex else iStartVertex in
  mat_get distanceMatrix root other = Ok x ->
  is_edge x root other = true ->
  PrimFloat.leb d x = true.
Proof.
  intros Hnew Hlater Hs He Hq root other Hx Hedge.
  pose proof (constructed_graph_sound _ _ _ _ Hnew Hlater) as Hsound.
  apply ShortestDistance_Ok in Hq as (s & e & iroute & Hs' & He' & Hq & _).
  assert (s = iStartVertex) as -> by congruence.
  assert (e = iEndVertex) as -> by congruence.
  destruct (query_reads_a_tree g g' _ _ _ d iroute Hsound Hq)
    as (k & parents & dists & up & _ & Hsame & Hroot & _ & Htree & Htsound & _ & Hd & _).
  fold root other in Hroot, Htsound, Hd.
  destruct (CGraph_new_Ok _ _ _ Hnew) as (_ & _ & _ & Hdm & _).
  destruct (later_same_graph _ _ Hlater) as (_ & _ & _ & Hm & _).
  pose proof Hsame as (_ & _ & _ & Hm' & _).
  assert (m_DistanceMatrix g' = distanceMatrix) as Hmat by congruence.
  assert (other <> root) as Hne.
  { intros Heq. rewrite Heq in Hedge. by rewrite is_edge_diagonal in Hedge. }
  assert (other < m_Order g') as Hother.
  { destruct Htree as (_ & <- & _). by apply nth_N_bound in Hd. }
  destruct (Htsound other Hother Hne) as (d' & p & Hd' & _ & Hcase).
  assert (d' = d) as -> by congruence.
  destruct Hcase as [(-> & _ & Hnot)|(_ & _ & _ & _ & Hbound)].
  - exfalso. apply Hnot. apply reaches_edge.
    destruct Hsound as [[Hwf _] _].
    destruct (wf_adj g' (graph_wf_same_graph _ _ Hsame Hwf) root other Hroot Hother)
      as [x' [Hx' ->]].
    rewrite Hmat in Hx'. congruence.
  - apply Hbound; [by rewrite Hmat|done].
Qed.

Lemma distance_is_at_most_the_direct_edge_witness :
  ShortestDistance Scenario.detour_graph 10 30 false
    = Ok (2%float, [10; 20; 30], Scenario.detour_graph_asked)
  /\ mat_get Scenario.detour_matrix 2 0 = Ok 5%float
  /\ PrimFloat.leb 2 5 = true.
Proof.
  split; [vm_compute; reflexivity|]. split; [vm_compute; reflexivity|].
  apply (distance_is_at_most_the_direct_edge Scenario.detour_matrix Scenario.split_labels
           Scenario.detour_graph Scenario.detour_graph Scenario.detour_graph_asked
           10 30 0 2 false 2%float 5%float [10; 20; 30]).
  - vm_compute. reflexivity.
  - apply rtc_refl.
  - vm_compute. reflexivity.
  - vm_compute. reflexivity.
  - vm_compute. reflexivity.
  - vm_compute. reflexivity.
  - vm_compute. reflexivity.
Defined.

(** ** A distance between two vertices is not a sentinel *)

(** The distance of a query between two different labels that returned is
    a number that is not negative: neither the sentinel -1 nor a NaN. *)
Theorem distance_between_two_vertices_is_not_negative
    (distanceMatrix : list (list float)) (vertexLabels : list N) (g0 g g' : CGraph)
    (startVertex endVertex : N) (preferStartVertex : bool)
    (d : float) (route : list N) :
  CGraph_new distanceMatrix vertexLabels = Ok g0 -> later g0 g ->
  startVertex <> endVertex ->
  ShortestDistance g startVertex endVertex preferStartVertex = Ok (d, route, g') ->
  ge_zero d = true.
Proof.
  intros Hnew Hlater Hlabels Hq.
  pose proof (constructed_graph_sound _ _ _ _ Hnew Hlater) as Hsound.
  apply ShortestDistance_Ok in Hq as (s & e & iroute & Hs & He & Hq & _).
  assert (s <> e) as Hse.
  { intros ->. apply Hlabels. destruct Hsound as [[Hwf _] _].
    unfold ExternalToInternal in Hs, He.
    destruct (m_ExternalToInternal g !! startVertex) as [i|] eqn:Hi; [|discriminate].
    destruct (m_ExternalToInternal g !! endVertex) as [j|] eqn:Hj; [|discriminate].
    injection Hs as ->. injection He as ->.
    destruct (wf_labels g Hwf _ _ Hi) as [_ H1].
    destruct (wf_labels g Hwf _ _ Hj) as [_ H2]. congruence. }
  pose proof (query_returned_reaches g g' s e preferStartVertex (d, iroute) Hsound Hq)
    as Hreach.
  destruct (query_reads_a_tree g g' _ _ _ d iroute Hsound Hq)
    as (k & parents & dists & up & _ & Hsame & Hroot & _ & Htree & Htsound & _ & Hd & _).
  set (root := if fromStartVertex g s e preferStartVertex then s else e) in *.
  set (other := if fromStartVertex g s e preferStartVertex then e else s) in *.
  assert (other <> root) as Hne.
  { unfold other, root. destruct (fromStartVertex g s e preferStartVertex); congruence. }
  assert (other < m_Order g') as Hother.
  { destruct Htree as (_ & <- & _). by apply nth_N_bound in Hd. }
  destruct (Htsound other Hother Hne) as (d' & p & Hd' & _ & Hcase).
  assert (d' = d) as -> by congruence.
  destruct Hcase as [(_ & _ & Hnot)|(Hpos & _)]; [|done].
  exfalso. apply Hnot. by apply (reaches_same_graph_iff g g').
Qed.

Lemma distance_between_two_vertices_is_not_negative_witness :
  ShortestDistance Scenario.path_graph 10 40 false
    = Ok (6%float, [10; 20; 30; 40], Scenario.path_graph_asked)
  /\ ge_zero 6 = true.
Proof.
  split; [vm_compute; reflexivity|].
  apply (distance_between_two_vertices_is_not_negative Scenario.path_matrix
           Scenario.path_labels Scenario.path_graph Scenario.path_graph
           Scenario.path_graph_asked 10 40 false 6%float [10; 20; 30; 40]).
  - vm_compute. reflexivity.
  - apply rtc_refl.
  - discriminate.
  - vm_compute. reflexivity.
Defined.

(** ** Reading a row *)

Lemma no_such_character (c : ascii) (cs : list ascii) :
  existsb (Ascii.eqb c) cs = false -> c ∉ cs.
Proof.
  intros Hnone Hin. apply list_elem_of_In in Hin.
  assert (existsb (Ascii.eqb c) cs = true) as Hsome; [|congruence].
  apply existsb_exists. exists c. split; [done|apply Ascii.eqb_refl].
Qed.

Lemma extract_spec (delim : ascii) (cs : list ascii) :
  match extract delim cs with
  | (piece, Some rest) => cs = piece ++ delim :: rest /\ delim ∉ piece
  | (piece, None) => cs = piece /\ delim ∉ piece
  end.
Proof.
  induction cs as [|c cs IH]; simpl; [split; [done|apply not_elem_of_nil]|].
  destruct (Ascii.eqb_spec c delim) as [->|Hne]; [split; [done|apply not_elem_of_nil]|].
  destruct (extract delim cs) as [piece [rest|]]; simpl; destruct IH as [-> Hnot];
    (split; [done|]); apply not_elem_of_cons; done.
Qed.

Lemma extract_no_delim (delim : ascii) (piece : list ascii) :
  delim ∉ piece -> extract delim piece = (piece, None).
Proof.
  induction piece as [|c cs IH]; intros Hnot; simpl; [done|].
  apply not_elem_of_cons in Hnot as [Hc Hcs].
  destruct (Ascii.eqb_spec c delim) as [->|_]; [done|]. by rewrite IH.
Qed.

Lemma extract_delim (delim : ascii) (piece rest : list ascii) :
  delim ∉ piece -> extract delim (piece ++ delim :: rest) = (piece, Some rest).
Proof.
  induction piece as [|c cs IH]; intros Hnot; simpl.
  - by rewrite Ascii.eqb_refl.
  - apply not_elem_of_cons in Hnot as [Hc Hcs].
    destruct (Ascii.eqb_spec c delim) as [->|_]; [done|]. by rewrite IH.
Qed.

Lemma cells_from_app (piece : list ascii) :
  forall cell rest,
    comma ∉ piece ->
    cells_from cell (piece ++ comma :: rest) = (cell ++ piece) :: cells_from [] rest.
Proof.
  induction piece as [|c cs IH]; intros cell rest Hnot; cbn [app cells_from].
  - rewrite Ascii.eqb_refl. by rewrite app_nil_r.
  - apply not_elem_of_cons in Hnot as [Hc Hcs].
    destruct (Ascii.eqb_spec c comma) as [->|_]; [done|].
    rewrite IH by done. by rewrite <- app_assoc.
Qed.

Lemma cells_from_end (piece : list ascii) :
  forall cell,
    comma ∉ piece ->
    cells_from cell piece = match cell ++ piece with [] => [] | _ => [cell ++ piece] end.
Proof.
  induction piece as [|c cs IH]; intros cell Hnot; simpl.
  - by rewrite app_nil_r.
  - apply not_elem_of_cons in Hnot as [Hc Hcs].
    destruct (Ascii.eqb_spec c comma) as [->|_]; [done|].
    rewrite IH by done. by rewrite <- app_assoc.
Qed.

Lemma getline_stream_of (cs str : list ascii) (delim : ascii) :
  getline (stream_of cs) str delim =
    match extract delim cs with
    | (piece, Some rest) => (stream_of rest, piece)
    | (piece, None) =>
        (mk_istream [] true (match piece with [] => true | _ => false end), piece)
    end.
Proof. reflexivity. Qed.

(** The loop pushes the cells of the characters left on the line, and two
    rounds more than there are characters are enough for it. *)
Lemma read_cells_spec (n : nat) :
  forall (cs : list ascii) (fuel : nat) (cell : list ascii) (data : list (list ascii)),
    (length cs <= n)%nat -> (length cs + 2 <= fuel)%nat ->
    read_cells fuel (stream_of cs) cell data = Some (data ++ cells_of cs).
Proof.
  induction n as [|n IH]; intros cs fuel cell data Hn Hfuel.
  - destruct cs; [|simpl in Hn; lia]. destruct fuel as [|fuel]; [lia|].
    simpl. by rewrite app_nil_r.
  - destruct fuel as [|fuel]; [lia|]. cbn [read_cells].
    rewrite getline_stream_of.
    pose proof (extract_spec comma cs) as Hex.
    destruct (extract comma cs) as [piece [rest|]]; destruct Hex as [Hcs Hnot];
      cbn [fst snd]; subst cs.
    + unfold stream_ok at 1. cbn [stream_of failbit negb].
      change (mk_istream rest false false) with (stream_of rest).
      rewrite length_app in Hn, Hfuel. simpl in Hn, Hfuel.
      rewrite IH by lia. unfold cells_of.
      rewrite (cells_from_app piece [] rest Hnot). simpl. by rewrite <- app_assoc.
    + unfold cells_of. rewrite (cells_from_end piece [] Hnot). simpl app.
      destruct piece as [|c piece]; unfold stream_ok at 1; cbn [failbit negb];
        [by rewrite app_nil_r|].
      destruct fuel as [|fuel]; [simpl in Hfuel; lia|]. reflexivity.
Qed.

Lemma cells_loop (line : list ascii) :
  read_cells (Datatypes.S (Datatypes.S (length line))) (stream_of line) [] []
    = Some (cells_of line).
Proof. rewrite (read_cells_spec (length line)); [done|lia|lia]. Qed.

(** What a call does to a stream: on a good stream with a line break the
    cells of the characters before it, leaving the characters after it; on
    a good stream without one the cells of all of it, leaving it at its
    end; on a stream that is not good no cell, and [failbit]. *)
Lemma readNextRow_line (row : CSVRow) (line rest : list ascii) :
  newline ∉ line ->
  readNextRow row (stream_of (line ++ newline :: rest))
    = Some (mk_CSVRow (cells_of line), stream_of rest).
Proof.
  intros Hnot. unfold readNextRow. rewrite getline_stream_of, extract_delim by done.
  cbn [fst snd]. by rewrite cells_loop.
Qed.

Lemma readNextRow_last_line (row : CSVRow) (line : list ascii) :
  newline ∉ line ->
  readNextRow row (stream_of line)
    = Some (mk_CSVRow (cells_of line),
            mk_istream [] true (match line with [] => true | _ => false end)).
Proof.
  intros Hnot. unfold readNextRow. rewrite getline_stream_of, extract_no_delim by done.
  cbn [fst snd]. by rewrite cells_loop.
Qed.

Lemma readNextRow_not_good (row : CSVRow) (str : istream) :
  good str = false ->
  readNextRow row str
    = Some (mk_CSVRow [], mk_istream (unread str) (eofbit str) true).
Proof. intros Hbad. unfold readNextRow, getline. rewrite Hbad. reflexivity. Qed.

(** ** The cells of a line *)

Lemma join_cons (cell : list ascii) (rest : list (list ascii)) :
  rest <> [] -> join (cell :: rest) = cell ++ comma :: join rest.
Proof. by destruct rest. Qed.

Lemma cells_of_join (cells : list (list ascii)) :
  Forall (fun cell => comma ∉ cell) cells ->
  last cells <> Some [] ->
  cells_of (join cells) = cells.
Proof.
  unfold cells_of. induction cells as [|cell rest IH]; intros Hno Hlast; [done|].
  apply Forall_cons in Hno as [Hcell Hrest].
  destruct rest as [|next rest].
  - simpl. rewrite (cells_from_end cell [] Hcell). simpl.
    destruct cell; [by destruct Hlast|done].
  - rewrite join_cons by done. rewrite (cells_from_app cell [] _ Hcell). simpl app.
    f_equal. apply IH; [done|]. by rewrite last_cons_cons in Hlast.
Qed.

Lemma cells_from_nil (cs : list ascii) :
  forall cell, cells_from cell cs = [] -> cell = [] /\ cs = [].
Proof.
  induction cs as [|c cs IH]; intros cell; simpl.
  - by destruct cell.
  - destruct (Ascii.eqb c comma); [done|]. intros H. apply IH in H as [H _].
    by destruct cell.
Qed.

Lemma cells_from_no_comma (cs : list ascii) :
  forall cell, comma ∉ cell -> Forall (fun c => comma ∉ c) (cells_from cell cs).
Proof.
  induction cs as [|c cs IH]; intros cell Hcell; simpl.
  - destruct cell; [constructor|]. by apply Forall_singleton.
  - destruct (Ascii.eqb_spec c comma) as [->|Hne].
    + constructor; [done|]. apply IH, not_elem_of_nil.
    + apply IH. rewrite elem_of_app, list_elem_of_singleton. intros [?|?]; [done|].
      by apply Hne.
Qed.

Lemma cells_from_join (cs : list ascii) :
  forall cell,
    cell ++ cs = join (cells_from cell cs)
    \/ cell ++ cs = join (cells_from cell cs) ++ [comma].
Proof.
  induction cs as [|c cs IH]; intros cell; simpl.
  - rewrite app_nil_r. destruct cell; by left.
  - destruct (Ascii.eqb_spec c comma) as [->|Hne].
    + destruct (cells_from [] cs) as [|next more] eqn:Hcells.
      * right. apply cells_from_nil in Hcells as [_ ->]. done.
      * rewrite join_cons by done. rewrite <- Hcells.
        destruct (IH []) as [H|H]; simpl in H.
        -- left. by rewrite <- H.
        -- right. rewrite <- app_assoc. simpl. by rewrite <- H.
    + destruct (IH (cell ++ [c])) as [H|H]; rewrite <- app_assoc in H; simpl in H.
      * by left.
      * by right.
Qed.

Lemma cells_from_length (cs : list ascii) :
  forall cell,
    comma ∉ cell ->
    length (cells_from cell cs)
      = (commas cs + match last (cell ++ cs) with
                     | None => 0
                     | Some c => if Ascii.eqb c comma then 0 else 1
                     end)%nat.
Proof.
  unfold commas. induction cs as [|c cs IH]; intros cell Hcell.
  - simpl. rewrite app_nil_r. destruct cell as [|c cell _] using rev_ind; [done|].
    rewrite last_snoc. destruct (Ascii.eqb_spec c comma) as [->|_].
    + exfalso. apply Hcell. rewrite elem_of_app, list_elem_of_singleton. by right.
    + by destruct cell.
  - cbn [cells_from List.filter]. destruct (Ascii.eqb_spec c comma) as [->|Hne].
    + cbn [length]. rewrite IH by apply not_elem_of_nil. simpl app.
      destruct cs as [|c cs].
      * rewrite last_snoc. by rewrite Ascii.eqb_refl.
      * rewrite last_app_cons, last_cons_cons. done.
    + rewrite IH.
      * by rewrite <- app_assoc.
      * rewrite elem_of_app, list_elem_of_singleton. intros [?|?]; [done|]. by apply Hne.
Qed.

(** A row written out with commas and a line break is read back as it
    was, and the stream is left after the line break; the cells must be
    free of commas and line breaks, and the last one not empty. *)
Theorem readNextRow_round_trip (row : CSVRow) (cells : list (list ascii))
    (rest : list ascii) :
  Forall (fun cell => (comma ∉ cell) /\ (newline ∉ cell)) cells ->
  last cells <> Some [] ->
  readNextRow row (stream_of (join cells ++ newline :: rest))
    = Some (mk_CSVRow cells, stream_of rest).
Proof.
  intros Hcells Hlast. rewrite readNextRow_line.
  - rewrite cells_of_join; [done| |done].
    eapply Forall_impl; [exact Hcells|]. by intros cell [? _].
  - clear Hlast. induction Hcells as [|cell more [_ Hcell] _ IH]; [apply not_elem_of_nil|].
    destruct more as [|next more]; [done|]. rewrite join_cons by done.
    rewrite elem_of_app, elem_of_cons. intros [?|[?|?]]; [done|done|by apply IH].
Qed.

Lemma readNextRow_round_trip_witness :
  readNextRow Scenario.used_row
      (stream_of (join Scenario.two_cells ++ newline :: Scenario.next_line))
    = Some (mk_CSVRow Scenario.two_cells, stream_of Scenario.next_line).
Proof.
  apply (readNextRow_round_trip Scenario.used_row Scenario.two_cells Scenario.next_line).
  - repeat constructor; apply no_such_character; vm_compute; reflexivity.
  - vm_compute. discriminate.
Defined.

(** The cells read from a line have no comma in them; written out with
    commas they give the line back, up to one comma at its end; and there
    is one cell more than the line has commas, unless the line is empty or
    ends in a comma, when there are as many. *)
Theorem readNextRow_cells_of_the_line (row : CSVRow) (line rest : list ascii) :
  newline ∉ line ->
  exists cells,
    readNextRow row (stream_of (line ++ newline :: rest))
      = Some (mk_CSVRow cells, stream_of rest)
    /\ Forall (fun cell => comma ∉ cell) cells
    /\ (line = join cells \/ line = join cells ++ [comma])
    /\ length cells = (commas line + match last line with
                                     | None => 0
                                     | Some c => if Ascii.eqb c comma then 0 else 1
                                     end)%nat.
Proof.
  intros Hnot. exists (cells_of line). split; [by apply readNextRow_line|].
  split; [apply cells_from_no_comma, not_elem_of_nil|].
  split; [apply (cells_from_join line [])|].
  apply (cells_from_length line []), not_elem_of_nil.
Qed.

Lemma readNextRow_cells_of_the_line_witness :
  exists cells,
    readNextRow Scenario.used_row
        (stream_of (Scenario.line_with_gaps ++ newline :: Scenario.next_line))
      = Some (mk_CSVRow cells, stream_of Scenario.next_line)
    /\ Forall (fun cell => comma ∉ cell) cells
    /\ (Scenario.line_with_gaps = join cells
        \/ Scenario.line_with_gaps = join cells ++ [comma])
    /\ length cells
       = (commas Scenario.line_with_gaps
          + match last Scenario.line_with_gaps with
            | None => 0
            | Some c => if Ascii.eqb c comma then 0 else 1
            end)%nat.
Proof.
  apply (readNextRow_cells_of_the_line Scenario.used_row Scenario.line_with_gaps
           Scenario.next_line).
  apply no_such_character. vm_compute. reflexivity.
Defined.

(** A last line that is not ended by a line break gives the same cells as
    with one, and leaves the stream at its end, with [eofbit] and without
    [failbit]. *)
Theorem readNextRow_last_line_without_break (row : CSVRow) (line rest : list ascii) :
  newline ∉ line -> line <> [] ->
  exists cells,
    readNextRow row (stream_of (line ++ newline :: rest))
      = Some (mk_CSVRow cells, stream_of rest)
    /\ readNextRow row (stream_of line) = Some (mk_CSVRow cells, mk_istream [] true false).
Proof.
  intros Hnot Hline. exists (cells_of line). split; [by apply readNextRow_line|].
  rewrite readNextRow_last_line by done. by destruct line.
Qed.

Lemma readNextRow_last_line_without_break_witness :
  exists cells,
    readNextRow Scenario.used_row
        (stream_of (Scenario.line_with_gaps ++ newline :: Scenario.next_line))
      = Some (mk_CSVRow cells, stream_of Scenario.next_line)
    /\ readNextRow Scenario.used_row (stream_of Scenario.line_with_gaps)
       = Some (mk_CSVRow cells, mk_istream [] true false).
Proof.
  apply (readNextRow_last_line_without_break Scenario.used_row Scenario.line_with_gaps
           Scenario.next_line).
  - apply no_such_character. vm_compute. reflexivity.
  - discriminate.
Defined.

(** On a stream with nothing left to read, or one that is not good, a call
    empties the row, whatever it held, takes nothing off the stream and
    leaves it failed. *)
Theorem readNextRow_at_the_end_of_input (row : CSVRow) (str : istream) :
  good str = false \/ unread str = [] ->
  exists str',
    readNextRow row str = Some (mk_CSVRow [], str')
    /\ stream_ok str' = false
    /\ unread str' = unread str.
Proof.
  intros [Hbad|Hend].
  - rewrite readNextRow_not_good by done. eexists. split; [reflexivity|]. done.
  - destruct (good str) eqn:Hgood.
    + destruct str as [cs e f]. simpl in Hend. subst cs.
      unfold good in Hgood. simpl in Hgood.
      destruct e, f; try discriminate.
      eexists. split; [reflexivity|]. done.
    + rewrite readNextRow_not_good by done. eexists. split; [reflexivity|]. done.
Qed.

Lemma readNextRow_at_the_end_of_input_witness :
  exists str',
    readNextRow Scenario.used_row (mk_istream [] true false)
      = Some (mk_CSVRow [], str')
    /\ stream_ok str' = false
    /\ unread str' = unread (mk_istream [] true false).
Proof.
  apply (readNextRow_at_the_end_of_input Scenario.used_row (mk_istream [] true false)).
  left. reflexivity.
Defined.

(** * Opposite queries *)

(** ** Whole numbers of units in binary64 *)

Section Units.
Local Open Scope Z_scope.

Lemma digits2_pos_log2 (m : positive) : Zpos (digits2_pos m) = Z.log2 (Zpos m) + 1.
Proof.
  induction m as [m IH|m IH|]; simpl digits2_pos; [| |reflexivity].
  - rewrite Pos2Z.inj_succ, IH.
    change (Zpos m~1) with (2 * Zpos m + 1). rewrite Z.log2_succ_double by lia. lia.
  - rewrite Pos2Z.inj_succ, IH.
    change (Zpos m~0) with (2 * Zpos m). rewrite Z.log2_double by lia. lia.
Qed.

Lemma digits2_pos_bounds (m : positive) :
  2 ^ (Zpos (digits2_pos m) - 1) <= Zpos m < 2 ^ Zpos (digits2_pos m).
Proof.
  rewrite digits2_pos_log2.
  pose proof (Z.log2_spec (Zpos m) eq_refl) as H.
  replace (Z.log2 (Zpos m) + 1 - 1) with (Z.log2 (Zpos m)) by lia.
  replace (Z.log2 (Zpos m) + 1) with (Z.succ (Z.log2 (Zpos m))) by lia. exact H.
Qed.

Lemma Zdigits2_scaled (c t : Z) :
  0 < c -> 0 <= t -> Zdigits2 (c * 2 ^ t) = Z.log2 c + t + 1.
Proof.
  intros Hc Ht. assert (0 < c * 2 ^ t) as Hpos by (apply Z.mul_pos_pos; lia).
  destruct (c * 2 ^ t) as [|m|m] eqn:Hm; try lia.
  simpl. rewrite digits2_pos_log2, <- Hm, Z.log2_mul_pow2 by lia. lia.
Qed.

Lemma iter_xO_value (d m : positive) : Zpos (Pos.iter xO m d) = Zpos m * 2 ^ Zpos d.
Proof.
  induction d as [|d IH] using Pos.peano_ind.
  - simpl. lia.
  - rewrite Pos.iter_succ, Pos2Z.inj_xO, IH, Pos2Z.inj_succ, Z.pow_succ_r by lia. lia.
Qed.

Lemma shl_align_value (m : positive) (e e' : Z) :
  e' <= e ->
  Zpos (fst (shl_align m e e')) = Zpos m * 2 ^ (e - e').
Proof.
  intros He. unfold shl_align.
  destruct (e' - e) as [|d|d] eqn:Hd; simpl.
  - replace (e - e') with 0 by lia. lia.
  - lia.
  - rewrite iter_xO_value. f_equal. f_equal. lia.
Qed.

(** Shifting out bits that are all zero is exact. *)
Lemma shr_1_exact (k : Z) :
  0 < k ->
  shr_1 {| shr_m := k * 2; shr_r := false; shr_s := false |}
    = {| shr_m := k; shr_r := false; shr_s := false |}.
Proof.
  intros Hk. destruct k as [|k|k]; try lia.
  replace (Z.pos k * 2) with (Zpos k~0) by lia. reflexivity.
Qed.

Lemma iter_pos_shr_1_scaled (p : positive) :
  forall k : Z, 0 < k ->
    SpecFloat.iter_pos shr_1 p {| shr_m := k * 2 ^ Zpos p; shr_r := false; shr_s := false |}
      = {| shr_m := k; shr_r := false; shr_s := false |}.
Proof.
  induction p as [p IH|p IH|]; intros k Hk; cbn [SpecFloat.iter_pos].
  - replace (k * 2 ^ Zpos p~1) with (k * 2 ^ Zpos p * 2 ^ Zpos p * 2).
    2:{ replace (Zpos p~1) with (Zpos p + Zpos p + 1) by lia.
        rewrite !Z.pow_add_r by lia. change (2 ^ 1) with 2. lia. }
    assert (0 < 2 ^ Zpos p) as Hp by (apply Z.pow_pos_nonneg; lia).
    rewrite shr_1_exact by nia. rewrite IH by nia. by rewrite IH.
  - replace (k * 2 ^ Zpos p~0) with (k * 2 ^ Zpos p * 2 ^ Zpos p).
    2:{ replace (Zpos p~0) with (Zpos p + Zpos p) by lia.
        rewrite !Z.pow_add_r by lia. lia. }
    assert (0 < 2 ^ Zpos p) as Hp by (apply Z.pow_pos_nonneg; lia).
    rewrite IH by nia. by rewrite IH.
  - change (2 ^ 1) with 2. by apply shr_1_exact.
Qed.

Section Exact.
Variable q : Z.
Variable c : Z.
Hypothesis Hc : 0 < c < 2 ^ 53.
Hypothesis Hq : SpecFloat.emin prec emax <= q <= emax - prec.

(** The exponent the number [c * 2^q] is stored with. *)
Let E : Z := SpecFloat.fexp prec emax (Z.log2 c + 1 + q).

Lemma stored_exponent_le : E <= q /\ SpecFloat.emin prec emax <= E.
Proof.
  pose proof Hq as Hq'. assert (Z.log2 c < 53) by (apply Z.log2_lt_pow2; lia).
  unfold E, SpecFloat.fexp, SpecFloat.emin in *.
  change prec with 53 in *. change emax with 1024 in *. lia.
Qed.

Lemma shr_fexp_exact (e : Z) :
  e <= E ->
  shr_fexp prec emax (c * 2 ^ (q - e)) e loc_Exact
    = ({| shr_m := c * 2 ^ (q - E); shr_r := false; shr_s := false |}, E).
Proof.
  intros He. destruct stored_exponent_le as [HEq HEmin].
  unfold shr_fexp. rewrite Zdigits2_scaled by lia.
  replace (Z.log2 c + (q - e) + 1 + e) with (Z.log2 c + 1 + q) by lia. fold E.
  unfold shr. simpl shr_record_of_loc.
  destruct (E - e) as [|p|p] eqn:Hp; try lia.
  - by replace E with e by lia.
  - replace (c * 2 ^ (q - e)) with (c * 2 ^ (q - E) * 2 ^ Zpos p).
    2:{ rewrite <- Z.mul_assoc, <- Z.pow_add_r by lia. do 2 f_equal. lia. }
    rewrite iter_pos_shr_1_scaled.
    + f_equal. lia.
    + apply Z.mul_pos_pos; [lia|]. apply Z.pow_pos_nonneg; lia.
Qed.

Lemma binary_round_aux_exact (m : positive) (e : Z) :
  e <= E -> Zpos m = c * 2 ^ (q - e) ->
  binary_round_aux prec emax false (Zpos m) e loc_Exact
    = S754_finite false (Z.to_pos (c * 2 ^ (q - E))) E.
Proof.
  intros He Hm. destruct stored_exponent_le as [HEq HEmin].
  unfold binary_round_aux. rewrite Hm, shr_fexp_exact by done.
  simpl shr_m. simpl loc_of_shr_record. simpl round_nearest_even.
  rewrite shr_fexp_exact by lia. simpl shr_m.
  assert (0 < c * 2 ^ (q - E)) as Hpos.
  { apply Z.mul_pos_pos; [lia|]. apply Z.pow_pos_nonneg; lia. }
  destruct (c * 2 ^ (q - E)) as [|r|r] eqn:Hr; try lia.
  replace (E <=? emax - prec) with true by (symmetry; apply Z.leb_le; lia).
  reflexivity.
Qed.

Lemma binary_round_exact (M : positive) (e : Z) :
  e <= q -> Zpos M = c * 2 ^ (q - e) ->
  binary_round prec emax false M e = S754_finite false (Z.to_pos (c * 2 ^ (q - E))) E.
Proof.
  intros He HM. destruct stored_exponent_le as [HEq HEmin].
  unfold binary_round.
  replace (Zpos (digits2_pos M) + e) with (Z.log2 c + 1 + q).
  2:{ change (Zpos (digits2_pos M)) with (Zdigits2 (Zpos M)).
      rewrite HM, Zdigits2_scaled by lia. lia. }
  fold E. unfold shl_align.
  destruct (E - e) as [|d|d] eqn:Hd.
  - apply binary_round_aux_exact; [lia|done].
  - apply binary_round_aux_exact; [lia|done].
  - apply binary_round_aux_exact; [lia|].
    rewrite iter_xO_value, HM, <- Z.mul_assoc, <- Z.pow_add_r by lia.
    do 2 f_equal. lia.
Qed.

Lemma sf_units_stored :
  sf_units q (S754_finite false (Z.to_pos (c * 2 ^ (q - E))) E) = Some c.
Proof.
  destruct stored_exponent_le as [HEq HEmin]. unfold sf_units.
  assert (0 < 2 ^ (q - E)) as Hp by (apply Z.pow_pos_nonneg; lia).
  rewrite Z2Pos.id by nia.
  replace (E <=? q) with true by (symmetry; apply Z.leb_le; lia).
  rewrite Z.mod_mul, Z.div_mul by lia. reflexivity.
Qed.

End Exact.

(** A valid binary64 number that is a whole number of units is determined
    by that number. *)
Lemma sf_units_canonical (q : Z) (x : spec_float) (a : Z) :
  valid_binary x = true -> sf_units q x = Some a ->
  (a = 0 /\ x = S754_zero false)
  \/ (0 < a < 2 ^ 53 /\ SpecFloat.emin prec emax <= q
      /\ x = S754_finite false (Z.to_pos (a * 2 ^ (q - stored_exponent q a)))
               (stored_exponent q a)).
Proof.
  intros Hvalid Hunits. destruct x as [[]|[]| |[] m e]; try discriminate.
  { left. by injection Hunits as <-. }
  right. simpl in Hunits.
  destruct (e <=? q) eqn:He; [|discriminate]. apply Z.leb_le in He.
  destruct (Zpos m mod 2 ^ (q - e) =? 0) eqn:Hmod; [|discriminate].
  apply Z.eqb_eq in Hmod. simpl in Hunits. injection Hunits as <-.
  assert (0 < 2 ^ (q - e)) as Hp by (apply Z.pow_pos_nonneg; lia).
  apply Z.mod_divide in Hmod as [k Hk]; [|lia].
  rewrite Hk, Z.div_mul by lia.
  assert (0 < k) as Hkpos by nia.
  simpl in Hvalid. apply andb_true_iff in Hvalid as [Hcanon Hbound].
  unfold canonical_mantissa in Hcanon. apply Z.eqb_eq in Hcanon.
  apply Z.leb_le in Hbound.
  assert (Zpos (digits2_pos m) + e = Z.log2 k + 1 + q) as Hdig.
  { change (Zpos (digits2_pos m)) with (Zdigits2 (Zpos m)).
    rewrite Hk, Zdigits2_scaled by lia. lia. }
  rewrite Hdig in Hcanon. fold (stored_exponent q k) in Hcanon.
  assert (Z.log2 k < 53 /\ SpecFloat.emin prec emax <= e) as [Hlog Hemin].
  { unfold stored_exponent, SpecFloat.fexp, SpecFloat.emin in *.
    change prec with 53 in *. change emax with 1024 in *. lia. }
  split; [|split; [lia|]].
  - split; [done|]. apply Z.log2_lt_pow2; lia.
  - rewrite Hcanon. f_equal. rewrite <- Hk. reflexivity.
Qed.

Lemma stored_exponent_mono (q a b : Z) :
  0 < a -> a <= b -> stored_exponent q a <= stored_exponent q b.
Proof.
  intros Ha Hab. pose proof (Z.log2_le_mono a b Hab).
  unfold stored_exponent, SpecFloat.fexp. lia.
Qed.

(** The order of two such numbers is the order of their units. *)
Lemma sf_units_compare (q : Z) (x y : spec_float) (a b : Z) :
  valid_binary x = true -> valid_binary y = true ->
  sf_units q x = Some a -> sf_units q y = Some b ->
  SFcompare x y = Some (a ?= b).
Proof.
  intros Hx Hy Ha Hb.
  destruct (sf_units_canonical q x a Hx Ha) as [[-> ->]|(Hapos & Hq & ->)];
    destruct (sf_units_canonical q y b Hy Hb) as [[-> ->]|(Hbpos & Hq' & ->)];
    simpl SFcompare.
  - reflexivity.
  - f_equal. symmetry. apply Z.compare_lt_iff. lia.
  - f_equal. symmetry. apply Z.compare_gt_iff. lia.
  - f_equal.
    assert (stored_exponent q a <= q /\ stored_exponent q b <= q) as [Hea Heb].
    { assert (Z.log2 a < 53) by (apply Z.log2_lt_pow2; lia).
      assert (Z.log2 b < 53) by (apply Z.log2_lt_pow2; lia).
      unfold stored_exponent, SpecFloat.fexp, SpecFloat.emin in *.
      change prec with 53 in *. change emax with 1024 in *. lia. }
    destruct (Z.compare_spec (stored_exponent q a) (stored_exponent q b)) as [He|He|He].
    + rewrite Pos.compare_cont_spec.
      assert (forall c, Pos.switch_Eq Eq c = c) as -> by (by intros []).
      rewrite He.
      assert (0 < 2 ^ (q - stored_exponent q b)) as Hp by (apply Z.pow_pos_nonneg; lia).
      rewrite <- Z2Pos.inj_compare by nia.
      destruct (Z.compare_spec a b) as [Hab|Hab|Hab].
      * subst. apply Z.compare_refl.
      * apply Z.compare_lt_iff. nia.
      * apply Z.compare_gt_iff. nia.
    + symmetry. apply Z.compare_lt_iff.
      destruct (Z.lt_ge_cases a b) as [|Hge]; [done|].
      pose proof (stored_exponent_mono q b a ltac:(lia) Hge). lia.
    + symmetry. apply Z.compare_gt_iff.
      destruct (Z.lt_ge_cases b a) as [|Hge]; [done|].
      pose proof (stored_exponent_mono q a b ltac:(lia) Hge). lia.
Qed.

(** ** Whole numbers of units as binary64 numbers *)

Lemma units_nonneg (q : Z) (x : float) (a : Z) :
  units q x = Some a -> 0 <= a < 2 ^ 53.
Proof.
  intros Ha.
  destruct (sf_units_canonical q _ a (Prim2SF_valid x) Ha) as [[-> _]|(H & _)]; lia.
Qed.

Lemma units_ltb (q : Z) (x y : float) (a b : Z) :
  units q x = Some a -> units q y = Some b -> PrimFloat.ltb x y = (a <? b).
Proof.
  intros Ha Hb. rewrite ltb_spec. unfold SFltb.
  rewrite (sf_units_compare q _ _ a b (Prim2SF_valid x) (Prim2SF_valid y) Ha Hb).
  unfold Z.ltb. by destruct (a ?= b).
Qed.

Lemma units_leb (q : Z) (x y : float) (a b : Z) :
  units q x = Some a -> units q y = Some b -> PrimFloat.leb x y = (a <=? b).
Proof.
  intros Ha Hb. rewrite leb_spec. unfold SFleb.
  rewrite (sf_units_compare q _ _ a b (Prim2SF_valid x) (Prim2SF_valid y) Ha Hb).
  unfold Z.leb. by destruct (a ?= b).
Qed.

Lemma units_inj (q : Z) (x y : float) (a : Z) :
  units q x = Some a -> units q y = Some a -> x = y.
Proof.
  intros Hx Hy.
  rewrite <- (SF2Prim_Prim2SF x), <- (SF2Prim_Prim2SF y). f_equal.
  destruct (sf_units_canonical q _ a (Prim2SF_valid x) Hx) as [[Ha ->]|(Ha & _ & ->)];
    destruct (sf_units_canonical q _ a (Prim2SF_valid y) Hy) as [[Ha' ->]|(Ha' & _ & ->)];
    try lia; reflexivity.
Qed.

Lemma units_ge_zero (q : Z) (x : float) (a : Z) :
  units q x = Some a -> ge_zero x = true.
Proof.
  intros Ha. unfold ge_zero. rewrite leb_spec.
  destruct (sf_units_canonical q _ a (Prim2SF_valid x) Ha) as [[_ ->]|(_ & _ & ->)];
    reflexivity.
Qed.

Lemma units_not_minus_one (q : Z) (x : float) (a : Z) :
  units q x = Some a -> is_minus_one x = false.
Proof.
  intros Ha. unfold is_minus_one. rewrite FloatAxioms.eqb_spec.
  destruct (sf_units_canonical q _ a (Prim2SF_valid x) Ha) as [[_ ->]|(_ & _ & ->)];
    reflexivity.
Qed.

(** Adding two such numbers is exact as long as the sum stays below
    [2^53] units. *)
Lemma units_add (q : Z) (x y : float) (a b : Z) :
  q <= emax - prec ->
  units q x = Some a -> units q y = Some b -> a + b < 2 ^ 53 ->
  units q (PrimFloat.add x y) = Some (a + b).
Proof.
  intros Hq Ha Hb Hsum. unfold units. rewrite add_spec. unfold SF64add.
  destruct (sf_units_canonical q _ a (Prim2SF_valid x) Ha) as [[-> Hx]|(Hapos & Hqa & Hx)];
    destruct (sf_units_canonical q _ b (Prim2SF_valid y) Hb) as [[-> Hy]|(Hbpos & Hqb & Hy)].
  - rewrite Hx, Hy. reflexivity.
  - rewrite Hx, Hy. cbn [SFadd]. rewrite <- Hy. exact Hb.
  - rewrite Hx, Hy. cbn [SFadd]. rewrite <- Hx, Z.add_0_r. exact Ha.
  - rewrite Hx, Hy. unfold SFadd.
    set (ea := stored_exponent q a). set (eb := stored_exponent q b).
    assert (ea <= q /\ eb <= q) as [Hea Heb].
    { assert (Z.log2 a < 53) by (apply Z.log2_lt_pow2; lia).
      assert (Z.log2 b < 53) by (apply Z.log2_lt_pow2; lia).
      unfold ea, eb, stored_exponent, SpecFloat.fexp, SpecFloat.emin in *.
      change prec with 53 in *. change emax with 1024 in *. lia. }
    assert (0 < 2 ^ (q - ea) /\ 0 < 2 ^ (q - eb)) as [Hpa Hpb]
      by (split; apply Z.pow_pos_nonneg; lia).
    set (ez := Z.min ea eb).
    cbn [cond_Zopp]. 
    set (ma := fst (shl_align (Z.to_pos (a * 2 ^ (q - ea))) ea ez)).
    set (mb := fst (shl_align (Z.to_pos (b * 2 ^ (q - eb))) eb ez)).
    change (Zpos ma + Zpos mb)%Z with (Zpos (ma + mb)).
    cbn [binary_normalize].
    assert (Zpos (ma + mb) = (a + b) * 2 ^ (q - ez)) as Hm.
    { rewrite Pos2Z.inj_add. unfold ma, mb.
      rewrite !shl_align_value by (unfold ez; lia).
      rewrite !Z2Pos.id by nia.
      rewrite <- !Z.mul_assoc, <- !Z.pow_add_r by (unfold ez; lia).
      replace (q - ea + (ea - ez)) with (q - ez) by lia.
      replace (q - eb + (eb - ez)) with (q - ez) by lia. lia. }
    rewrite (binary_round_exact q (a + b)); [| lia | lia | unfold ez; lia | done].
    apply sf_units_stored; lia.
Qed.

End Units.

(** ** Walks and their lengths in units *)

Lemma exact_sums_entry (q : Z) (m : list (list float)) (i j : N) (x : float) :
  exact_sums q m = true -> mat_get m i j = Ok x -> ge_zero x = true ->
  exists k, units q x = Some k /\ (0 <= k)%Z /\ (k * Z.of_N (vec_size m) < 2 ^ 53)%Z.
Proof.
  unfold exact_sums. intros Hexact Hx Hpos.
  apply andb_true_iff in Hexact as [_ Hall].
  unfold mat_get in Hx. apply bind_Ok in Hx as [row [Hrow Hx]].
  simpl in Hx. apply vec_get_Ok in Hrow. apply vec_get_Ok in Hx.
  rewrite nth_N_lookup in Hrow. rewrite nth_N_lookup in Hx.
  rewrite forallb_forall in Hall.
  assert (forallb (exact_entry q (vec_size m)) row = true) as Hrow'.
  { apply Hall. apply list_elem_of_In. by apply list_elem_of_lookup_2 in Hrow. }
  rewrite forallb_forall in Hrow'.
  assert (exact_entry q (vec_size m) x = true) as Hentry.
  { apply Hrow'. apply list_elem_of_In. by apply list_elem_of_lookup_2 in Hx. }
  unfold exact_entry in Hentry. rewrite Hpos in Hentry.
  simpl in Hentry. destruct (units q x) as [k|] eqn:Hk; [|discriminate].
  exists k. split; [done|]. split; [by apply (units_nonneg q x)|]. by apply Z.ltb_lt.
Qed.

Lemma exact_sums_scale (q : Z) (m : list (list float)) :
  exact_sums q m = true -> (q <= emax - prec)%Z.
Proof. unfold exact_sums. intros H. apply andb_true_iff in H as [H _]. by apply Z.leb_le. Qed.

Lemma walk_nonneg (q : Z) (m : list (list float)) (r v : N) (z : Z) :
  walk q m r v z -> (0 <= z)%Z.
Proof.
  induction 1 as [|u v z x k _ IH _ _ Hk]; [done|].
  pose proof (units_nonneg q x k Hk). lia.
Qed.

Lemma walk_first (q : Z) (m : list (list float)) (r u v : N) (z : Z) (x : float) (k : Z) :
  mat_get m r u = Ok x -> is_edge x r u = true -> units q x = Some k ->
  walk q m u v z -> walk q m r v (k + z)%Z.
Proof.
  intros Hx Hedge Hk. induction 1 as [|w v z y j _ IH Hy Hedge' Hj].
  - replace (k + 0)%Z with (0 + k)%Z by lia. apply (walk_step q m r r u 0 x k); try done.
    apply walk_here.
  - replace (k + (z + j))%Z with (k + z + j)%Z by lia.
    by apply (walk_step q m r w v _ y j).
Qed.

(** In a symmetric matrix a walk can be taken backwards. *)
Lemma walk_back (q : Z) (m : list (list float)) (r v : N) (z : Z) :
  symmetric m -> (forall i row, nth_N m i = Some row -> vec_size row = vec_size m) ->
  walk q m r v z -> walk q m v r z.
Proof.
  intros Hsym Hsq. induction 1 as [|u v z x k _ IH Hx Hedge Hk]; [apply walk_here|].
  replace (z + k)%Z with (k + z)%Z by lia.
  apply (walk_first q m v u r z x k); try done.
  - rewrite <- Hx. symmetry.
    unfold mat_get in Hx. apply bind_Ok in Hx as [row [Hrow Hx]].
    simpl in Hx. apply vec_get_Ok in Hrow. apply vec_get_Ok in Hx.
    pose proof (nth_N_bound _ _ _ Hrow). pose proof (nth_N_bound _ _ _ Hx) as Hv.
    rewrite (Hsq _ _ Hrow) in Hv. by apply Hsym.
  - unfold is_edge in *. apply andb_true_iff in Hedge as [-> Hne]. simpl.
    apply negb_true_iff, N.eqb_neq in Hne. apply negb_true_iff, N.eqb_neq. congruence.
Qed.

(** ** A run without rounding finds least lengths *)

(** ** A run on a matrix whose sums are exact *)

Section ExactRun.
Variable q : Z.
Variable g : CGraph.
Variable root : N.
Hypothesis Hwf : graph_wf g.
Hypothesis Hsize : vec_size (m_DistanceMatrix g) = m_Order g.
Hypothesis Hexact : exact_sums q (m_DistanceMatrix g) = true.

Lemma edge_units (u w : N) (x : float) :
  mat_get (m_DistanceMatrix g) u w = Ok x -> is_edge x u w = true ->
  exists k, units q x = Some k /\ (0 <= k)%Z
            /\ (k * Z.of_N (m_Order g) <= 2 ^ 53 - 1)%Z.
Proof.
  intros Hx Hedge.
  destruct (exact_sums_entry q _ u w x Hexact Hx (is_edge_ge_zero x u w Hedge))
    as (k & Hk & Hpos & Hbound).
  rewrite Hsize in Hbound. exists k. repeat split; try done. lia.
Qed.

Lemma edge_from_vertex (u w : N) (x : float) :
  mat_get (m_DistanceMatrix g) u w = Ok x -> u < m_Order g.
Proof.
  unfold mat_get. intros H. apply bind_Ok in H as [row [Hrow _]].
  apply vec_get_Ok in Hrow. apply nth_N_bound in Hrow. by rewrite Hsize in Hrow.
Qed.

(** The vertex the selection loop ends with has the least estimate. *)
Lemma closest_loop_least (st : dijkstra_locals) (nc : N) (nsd : float) :
  vec_size (shortestDistances st) = m_Order g ->
  vec_size (knownDistances st) = m_Order g ->
  (forall j d, j < m_Order g -> nth_N (knownDistances st) j = Some false ->
     nth_N (shortestDistances st) j = Some d -> not_minus_one d = true ->
     exists z, units q d = Some z) ->
  for_upto (m_Order g) (closest_round st) (minus_one_u, minus_one) = Ok (nc, nsd) ->
  forall j d z, j < m_Order g -> nth_N (knownDistances st) j = Some false ->
    nth_N (shortestDistances st) j = Some d -> not_minus_one d = true ->
    units q d = Some z ->
    exists znc, units q nsd = Some znc /\ nth_N (shortestDistances st) nc = Some nsd
                /\ (znc <= z)%Z.
Proof.
  intros Hd Hk Hunits Hrun.
  set (P := fun (i : N) (acc : N * float) =>
              (is_minus_one (snd acc) = true
               \/ exists zc, units q (snd acc) = Some zc
                             /\ nth_N (shortestDistances st) (fst acc) = Some (snd acc))
              /\ forall j d z, j < i -> nth_N (knownDistances st) j = Some false ->
                   nth_N (shortestDistances st) j = Some d -> not_minus_one d = true ->
                   units q d = Some z ->
                   exists zc, units q (snd acc) = Some zc
                              /\ nth_N (shortestDistances st) (fst acc) = Some (snd acc)
                              /\ (zc <= z)%Z).
  assert (P (m_Order g) (nc, nsd)) as [_ HP].
  { apply (for_upto_partial P _ _ _ _ Hrun).
    - split; [by left|]. intros j d z Hj. lia.
    - intros i acc acc' Hi [Hacc HP] Hbody.
      destruct (nth_N_Some (knownDistances st) i) as [kb Hkb]; [lia|].
      destruct (nth_N_Some (shortestDistances st) i) as [di Hdi]; [lia|].
      rewrite (closest_round_eq st i acc kb di Hkb Hdi) in Hbody. injection Hbody as <-.
      destruct (negb kb && (not_minus_one di
                  && (is_minus_one (snd acc) || PrimFloat.ltb di (snd acc)))) eqn:Hc.
      + apply andb_true_iff in Hc as [Hkb' Hc]. apply andb_true_iff in Hc as [Hnm Hless].
        apply negb_true_iff in Hkb'. subst kb.
        destruct (Hunits i di Hi Hkb Hdi Hnm) as [zi Hzi]. simpl.
        split; [right; eauto|].
        intros j d z Hj Hkj Hdj Hnmj Hz.
        destruct (N.eq_dec j i) as [->|Hne].
        * exists zi. do 2 (split; [done|]). assert (d = di) as -> by congruence.
          assert (z = zi) by congruence. lia.
        * destruct (HP j d z ltac:(lia) Hkj Hdj Hnmj Hz) as (zc & Hzc & _ & Hle).
          exists zi. do 2 (split; [done|]).
          rewrite (units_not_minus_one q _ zc Hzc) in Hless. simpl in Hless.
          rewrite (units_ltb q di (snd acc) zi zc Hzi Hzc) in Hless.
          apply Z.ltb_lt in Hless. lia.
      + split; [done|]. intros j d z Hj Hkj Hdj Hnmj Hz.
        destruct (N.eq_dec j i) as [->|Hne]; [|apply (HP j d z); [lia|done..]].
        assert (kb = false) as -> by congruence. assert (d = di) as -> by congruence.
        rewrite Hnmj in Hc. simpl in Hc. apply orb_false_iff in Hc as [Hnot Hless].
        destruct Hacc as [Hacc|(zc & Hzc & Hdc)]; [congruence|].
        exists zc. do 2 (split; [done|]).
        rewrite (units_ltb q di (snd acc) z zc Hz Hzc) in Hless.
        apply Z.ltb_ge in Hless. lia. }
  intros j d z Hj. by apply HP.
Qed.

(** No walk to an unconfirmed vertex is shorter than the least estimate. *)
Lemma least_estimate_is_least (st : dijkstra_locals) (znc : Z) :
  root_fixed g root st -> run_exact q g root st ->
  (forall j d z, j < m_Order g -> nth_N (knownDistances st) j = Some false ->
     nth_N (shortestDistances st) j = Some d -> not_minus_one d = true ->
     units q d = Some z -> (znc <= z)%Z) ->
  forall w z, walk q (m_DistanceMatrix g) root w z ->
    nth_N (knownDistances st) w = Some false -> (znc <= z)%Z.
Proof.
  intros Hroot (_ & _ & Hedges) Hleast w z Hwalk.
  pose proof Hroot as (_ & _ & Hk & Hkroot & _).
  induction Hwalk as [|u w z x k Hwalk IH Hx Hedge Hunits]; intros Hkw; [congruence|].
  pose proof (edge_from_vertex u w x Hx) as Hu.
  destruct (nth_N_Some (knownDistances st) u) as [kb Hkb]; [lia|].
  pose proof (units_nonneg q x k Hunits) as Hkpos.
  destruct kb.
  - destruct (Hedges u w x k Hkb Hkw Hx Hedge Hunits) as (d & zw & Hd & Hzw & Hle).
    specialize (Hle z Hwalk).
    pose proof (nth_N_bound _ _ _ Hkw) as Hw. rewrite Hk in Hw.
    assert (not_minus_one d = true) as Hnm.
    { unfold not_minus_one. by rewrite (units_not_minus_one q d zw). }
    specialize (Hleast w d zw Hw Hkw Hd Hnm Hzw). lia.
  - specialize (IH Hkb). lia.
Qed.

Lemma dijkstra_init_exact (st0 : dijkstra_locals) :
  root < m_Order g -> dijkstra_init g root = Ok st0 -> run_exact q g root st0.
Proof.
  intros Hroot Hinit.
  destruct (dijkstra_init_Ok g root Hwf Hroot) as (st & Hst & _ & Hcount & _).
  assert (st = st0) as -> by congruence. clear Hst.
  destruct (init_loop_exact g root Hwf Hroot) as (dist & routes & Hloop & Hd & Hr & Hentries).
  unfold dijkstra_init in Hinit. rewrite Hloop in Hinit. simpl in Hinit.
  rewrite vec_set_in in Hinit by lia. simpl in Hinit.
  rewrite vec_set_in in Hinit by (rewrite vec_size_fill; lia). simpl in Hinit.
  injection Hinit as <-. simpl in Hcount.
  assert (forall k, k < m_Order g ->
            nth_N (<[N.to_nat root := true]> (vec_fill (m_Order g) false)) k
            = Some (k =? root)) as Hknown.
  { intros k Hk. rewrite nth_N_insert by (rewrite vec_size_fill; lia).
    destruct (k =? root); [done|]. by apply nth_N_fill. }
  assert (forall k b, nth_N (<[N.to_nat root := true]> (vec_fill (m_Order g) false)) k
                      = Some b -> b = (k =? root)) as Hknown'.
  { intros k b Hb. pose proof (nth_N_bound _ _ _ Hb) as Hk.
    rewrite vec_size_insert, vec_size_fill in Hk. rewrite Hknown in Hb by done. congruence. }
  assert (forall i d, i < m_Order g -> i <> root -> nth_N dist i = Some d ->
            not_minus_one d = true ->
            mat_get (m_DistanceMatrix g) root i = Ok d /\ is_edge d root i = true) as Hdirect.
  { intros i d Hi Hne Hdi Hnm. destruct (Hentries i Hi) as (x & Hx & Hdx & _).
    rewrite (proj2 (N.eqb_neq i root) Hne) in Hdx. simpl in Hdx.
    destruct (is_edge x root i) eqn:Hedge.
    - assert (d = x) as -> by congruence. done.
    - assert (d = minus_one) as -> by congruence. discriminate. }
  split; [|split]; simpl.
  - intros i d Hi Hne Hdi Hnm. destruct (Hdirect i d Hi Hne Hdi Hnm) as [Hx Hedge].
    destruct (edge_units root i d Hx Hedge) as (k & Hk & Hkpos & Hbound).
    exists k. split; [done|]. split.
    + replace k with (0 + k)%Z by lia.
      apply (walk_step q _ root root i 0 d k); try done. apply walk_here.
    + unfold confirmed. simpl. lia.
  - intros i d z Hne Hki. apply Hknown' in Hki.
    symmetry in Hki. apply N.eqb_eq in Hki. done.
  - intros u w x k Hku Hkw Hx Hedge Hk.
    apply Hknown' in Hku. symmetry in Hku. apply N.eqb_eq in Hku. subst u.
    pose proof (nth_N_bound _ _ _ Hkw) as Hw.
    rewrite vec_size_insert, vec_size_fill in Hw.
    apply Hknown' in Hkw. symmetry in Hkw. apply N.eqb_neq in Hkw.
    destruct (Hentries w Hw) as (x' & Hx' & Hdx & _).
    assert (x' = x) as -> by congruence.
    rewrite Hedge, orb_true_r in Hdx.
    exists x, k. do 2 (split; [done|]).
    intros z Hz. pose proof (walk_nonneg _ _ _ _ _ Hz). lia.
Qed.

Lemma dijkstra_round_exact (st st' : dijkstra_locals) (more : bool) :
  root_fixed g root st -> run_exact q g root st ->
  dijkstra_round g st = Ok (st', more) ->
  run_exact q g root st'.
Proof.
  intros Hroot Hrun Hround.
  pose proof Hroot as (Hd & Hr & Hk & Hkroot & _).
  pose proof Hrun as (Hest & Hknown & Hedges).
  destruct (closest_loop g st Hd Hk) as (nc & nsd & Hclosest & Hsome & _ & Hcases).
  destruct Hcases as [Hcand|Hnone].
  2:{ exfalso. by apply (proj2 (dijkstra_round_spec g root st Hwf Hroot) Hnone (st', more)). }
  destruct (Hsome Hcand) as (Hnc & Hknc & dn & Hdn & Hnm). clear Hsome Hcand.
  assert (nc <> root) as Hncroot by (intros ->; congruence).
  destruct (Hest nc dn Hnc Hncroot Hdn Hnm) as (znc & Hznc & Hwalk_nc & Hbound_nc).
  assert (forall j d z, j < m_Order g -> nth_N (knownDistances st) j = Some false ->
            nth_N (shortestDistances st) j = Some d -> not_minus_one d = true ->
            units q d = Some z -> (znc <= z)%Z) as Hleast.
  { intros j d z Hj Hkj Hdj Hnmj Hz.
    destruct (closest_loop_least st nc nsd Hd Hk) with (j := j) (d := d) (z := z)
      as (z0 & Hz0 & Hnsd & Hle); try done.
    - intros j' d' Hj' Hkj' Hdj' Hnmj'.
      assert (j' <> root) as Hne by (intros ->; congruence).
      destruct (Hest j' d' Hj' Hne Hdj' Hnmj') as (z' & Hz' & _). eauto.
    - assert (nsd = dn) as -> by congruence. assert (z0 = znc) by congruence. lia. }
  pose proof (least_estimate_is_least st znc Hroot Hrun Hleast) as Hoptimal.
  destruct (relax_loop_exact g (knownDistances st) nc _ _ dn Hwf Hnc Hk Hd Hr Hdn)
    as (dist' & routes' & Hrelax & Hd' & Hr' & Hspec).
  unfold dijkstra_round in Hround. rewrite Hclosest in Hround. simpl in Hround.
  rewrite Hrelax in Hround. simpl in Hround.
  rewrite vec_set_in in Hround by lia. simpl in Hround.
  apply bind_Ok in Hround as [more' [Hmore Hround]]. injection Hround as <- <-.
  set (known' := <[N.to_nat nc := true]> (knownDistances st)) in *.
  assert (forall k, k <> nc -> nth_N known' k = nth_N (knownDistances st) k) as Hother.
  { intros k Hne. unfold known'. rewrite nth_N_lookup, list_lookup_insert_ne by lia.
    by rewrite <- nth_N_lookup. }
  assert (nth_N known' nc = Some true) as Hknc'
    by (unfold known'; rewrite nth_N_insert, N.eqb_refl by lia; done).
  assert (forall k, nth_N (knownDistances st) k = Some true ->
                    nth_N dist' k = nth_N (shortestDistances st) k) as Hfrozen.
  { intros k Hkt. pose proof (nth_N_bound _ _ _ Hkt) as Hkb. rewrite Hk in Hkb.
    destruct (Hspec k Hkb) as (kb & d & r & w & Hkb' & Hdk & _ & _ & _ & Hdk' & _).
    assert (kb = true) as -> by congruence. by rewrite Hdk', Hdk. }
  assert (nth_N dist' nc = Some dn) as Hdn'.
  { destruct (Hspec nc Hnc) as (kb & d & r & w & _ & Hdk & _ & _ & _ & Hdk' & _).
    unfold relaxes in Hdk'. rewrite is_edge_diagonal, andb_false_r in Hdk'. congruence. }
  assert (confirmed g {| shortestDistances := dist'; outputRoutes := routes';
                         knownDistances := known' |} = confirmed g st + 1
          /\ confirmed g st + 1 <= Z.of_N (m_Order g))%Z as [Hcount Hcount'].
  { unfold confirmed. simpl.
    assert (knownDistances st !! N.to_nat nc = Some false) as Hlook
      by (by rewrite <- nth_N_lookup).
    pose proof (unconfirmed_confirm _ _ Hlook) as Hu. fold known' in Hu. lia. }
  (* the estimate a relaxation writes *)
  assert (forall i w, mat_get (m_DistanceMatrix g) nc i = Ok w -> is_edge w nc i = true ->
            exists k, units q w = Some k
              /\ units q (PrimFloat.add dn w) = Some (znc + k)%Z
              /\ walk q (m_DistanceMatrix g) root i (znc + k)
              /\ ((znc + k) * Z.of_N (m_Order g) <= (confirmed g st + 1) * (2 ^ 53 - 1))%Z)
    as Hnew.
  { intros i w Hw Hedge. destruct (edge_units nc i w Hw Hedge) as (k & Hk' & Hkpos & Hkb).
    exists k. split; [done|].
    assert ((znc + k) * Z.of_N (m_Order g) <= (confirmed g st + 1) * (2 ^ 53 - 1))%Z
      as Hsum by lia.
    split; [|split; [|done]].
    - apply units_add; try done; [by apply (exact_sums_scale q (m_DistanceMatrix g))|].
      assert (0 < Z.of_N (m_Order g))%Z by lia. nia.
    - by apply (walk_step q _ root nc i znc w k). }
  split; [|split]; simpl.
  - intros i d Hi Hne Hdi Hnmi.
    destruct (Hspec i Hi) as (kb & d0 & r & w & Hkb & Hd0 & _ & Hw & _ & Hdi' & _).
    rewrite Hdi' in Hdi. rewrite Hcount.
    destruct (relaxes kb d0 dn w nc i) eqn:Hrel.
    + injection Hdi as <-. unfold relaxes in Hrel.
      apply andb_true_iff in Hrel as [_ Hrel]. apply andb_true_iff in Hrel as [Hedge _].
      destruct (Hnew i w Hw Hedge) as (k & _ & Hsum & Hwalk & Hbound). eauto.
    + injection Hdi as <-.
      destruct (Hest i d0 Hi Hne Hd0 Hnmi) as (z & Hz & Hwalk & Hbound).
      exists z. do 2 (split; [done|]). lia.
  - intros i d z Hne Hki Hdi Hz z' Hwalk.
    destruct (N.eq_dec i nc) as [->|Hinc].
    + assert (d = dn) as -> by congruence. assert (z = znc) as -> by congruence.
      by apply (Hoptimal nc).
    + rewrite Hother in Hki by done. rewrite Hfrozen in Hdi by done.
      by apply (Hknown i d z).
  - intros u w x k Hku Hkw Hx Hedge Hunits.
    assert (w <> nc) as Hwnc by (intros ->; congruence).
    rewrite Hother in Hkw by done.
    pose proof (nth_N_bound _ _ _ Hkw) as Hw. rewrite Hk in Hw.
    assert (w <> root) as Hwroot by (intros ->; congruence).
    destruct (Hspec w Hw) as (kb & d0 & r & xw & Hkb & Hd0 & _ & Hxw & _ & Hdw' & _).
    assert (kb = false) as -> by congruence.
    rewrite Hdw'. unfold relaxes. simpl.
    destruct (N.eq_dec u nc) as [->|Hunc].
    + assert (xw = x) as -> by congruence. rewrite Hedge. simpl.
      destruct (Hnew w x Hx Hedge) as (k' & Hk' & Hsum & _).
      assert (k' = k) as -> by congruence.
      destruct (is_minus_one d0) eqn:Hm1; simpl.
      { eexists _, _. do 2 (split; [done|]). intros z Hz.
        specialize (Hoptimal nc z Hz Hknc). lia. }
      assert (not_minus_one d0 = true) as Hnm0 by (unfold not_minus_one; by rewrite Hm1).
      destruct (Hest w d0 Hw Hwroot Hd0 Hnm0) as (zw & Hzw & _).
      rewrite (units_ltb q _ _ _ _ Hsum Hzw).
      destruct (Z.ltb_spec (znc + k) zw).
      * eexists _, _. do 2 (split; [done|]). intros z Hz.
        specialize (Hoptimal nc z Hz Hknc). lia.
      * exists d0, zw. do 2 (split; [done|]). intros z Hz.
        specialize (Hoptimal nc z Hz Hknc). lia.
    + rewrite Hother in Hku by done.
      destruct (Hedges u w x k Hku Hkw Hx Hedge Hunits) as (d & zw & Hd0' & Hzw & Hle).
      assert (d = d0) as -> by congruence.
      rewrite (units_not_minus_one q d0 zw Hzw). simpl.
      destruct (is_edge xw nc w) eqn:Hedge'; simpl; [|eauto].
      destruct (Hnew w xw Hxw Hedge') as (k' & Hk' & Hsum & _).
      rewrite (units_ltb q _ _ _ _ Hsum Hzw).
      destruct (Z.ltb_spec (znc + k') zw); [|eauto].
      eexists _, _. do 2 (split; [done|]). intros z Hz. specialize (Hle z Hz). lia.
Qed.

End ExactRun.

(** ** The cache holds least lengths *)

Lemma dijkstra_while_exact (q : Z) (g : CGraph) (root : N) :
  graph_wf g -> vec_size (m_DistanceMatrix g) = m_Order g ->
  exact_sums q (m_DistanceMatrix g) = true ->
  forall (fuel : nat) (st st' : dijkstra_locals),
    root_fixed g root st -> run_exact q g root st ->
    dijkstra_while fuel g st = Ok st' ->
    run_exact q g root st'.
Proof.
  intros Hwf Hsize Hexact.
  induction fuel as [|fuel IH]; intros st st' Hroot Hrun Hwhile; [discriminate|].
  simpl in Hwhile. apply bind_Ok in Hwhile as [[st1 more] [Hround Hwhile]]. simpl in Hwhile.
  pose proof (dijkstra_round_exact q g root Hwf Hsize Hexact st st1 more Hroot Hrun Hround)
    as Hrun1.
  pose proof (dijkstra_round_root_fixed g root st st1 more Hwf Hroot Hround) as Hroot1.
  destruct more; [by apply (IH st1)|]. by injection Hwhile as <-.
Qed.

Lemma final_tree_exact (q : Z) (g : CGraph) (root : N) (st : dijkstra_locals) :
  root_fixed g root st -> run_exact q g root st ->
  (forall i, ~ candidate g st i) ->
  tree_exact q g root (shortestDistances st).
Proof.
  intros Hroot (Hest & Hknown & _) Hnone v d Hv Hne Hd Hnm.
  pose proof Hroot as (_ & _ & Hk & _).
  destruct (nth_N_Some (knownDistances st) v) as [kb Hkb]; [lia|].
  destruct kb.
  - destruct (Hest v d Hv Hne Hd Hnm) as (z & Hz & Hwalk & _).
    exists z. do 2 (split; [done|]). by apply (Hknown v d z).
  - exfalso. apply (Hnone v). split; [done|]. split; [done|]. eauto.
Qed.

(** The tree a fresh run stores holds least lengths. *)
Lemma InternalDijkstra_fresh_exact (q : Z) (g g' : CGraph) (v k : N) :
  graph_wf g -> vec_size (m_DistanceMatrix g) = m_Order g ->
  exact_sums q (m_DistanceMatrix g) = true ->
  InternalDijkstra g v = Ok (k, g') ->
  m_DijkstraStartVertices g !! v = None ->
  exists st, g' = save_results g v st /\ tree_exact q g v (shortestDistances st).
Proof.
  intros Hwf Hsize Hexact Hrun Hnone. unfold InternalDijkstra in Hrun.
  destruct (N.leb_spec (m_Order g) v) as [Hv|Hv]; [discriminate|].
  rewrite Hnone in Hrun.
  apply bind_Ok in Hrun as [st0 [Hinit Hrun]]. apply bind_Ok in Hrun as [st [Hwhile Hrun]].
  injection Hrun as <- <-. exists st. split; [done|].
  destruct (dijkstra_init_Ok g v Hwf Hv) as (st0' & Hinit' & Hroot & _).
  assert (st0' = st0) as -> by congruence.
  destruct (dijkstra_init_sound g v st0 Hwf Hv Hinit) as [Hest Hnb].
  destruct (dijkstra_while_sound g v Hwf _ _ _ Hroot Hest Hnb Hwhile)
    as (Hroot' & _ & _ & Hnone').
  apply final_tree_exact; [done| |done].
  apply (dijkstra_while_exact q g v Hwf Hsize Hexact (N.to_nat (m_Order g)) st0 st Hroot);
    [|done].
  by apply dijkstra_init_exact.
Qed.

Lemma tree_exact_same_graph (q : Z) (g g' : CGraph) (s : N) (dists : list float) :
  same_graph g g' -> tree_exact q g s dists -> tree_exact q g' s dists.
Proof.
  intros (Ho & _ & _ & Hm & _) Htree v d Hv. rewrite Ho in Hv. rewrite Hm.
  by apply Htree.
Qed.

Lemma InternalDijkstra_cache_exact (q : Z) (g g' : CGraph) (v k : N) :
  graph_exact q g -> InternalDijkstra g v = Ok (k, g') -> cache_exact q g'.
Proof.
  intros ([Hwf Hcache] & Hsize & Hexact & Hsound) Hrun.
  pose proof (InternalDijkstra_Ok _ _ _ _ Hrun) as [Hv [[_ ->]|(Hnone & _ & _)]]; [done|].
  pose proof (new_slot_eq g v Hwf Hcache Hv Hnone) as Hslot.
  pose proof (InternalDijkstra_same_graph _ _ _ _ Hrun) as Hsame.
  destruct (InternalDijkstra_fresh_exact q _ _ _ _ Hwf Hsize Hexact Hrun Hnone)
    as (st & -> & Htree).
  intros s ks parents dists (Hs & Hparents & Hdists). simpl in Hs, Hparents, Hdists.
  apply (tree_exact_same_graph q g); [done|].
  destruct Hcache as (roots & Hmap & Hr & Hd & Hslots).
  apply nth_N_snoc in Hparents as [Hparents|[Hks ->]];
    apply nth_N_snoc in Hdists as [Hdists|[Hks' ->]].
  - destruct (N.eq_dec s v) as [->|Hsv].
    + rewrite lookup_insert_eq in Hs. injection Hs as <-.
      apply nth_N_bound in Hparents. rewrite Hslot in Hparents. lia.
    + rewrite lookup_insert_ne in Hs by done. by apply (Hsound s ks parents).
  - apply nth_N_bound in Hparents. rewrite Hr, <- Hd in Hparents. lia.
  - apply nth_N_bound in Hdists. rewrite Hd, <- Hr in Hdists. lia.
  - destruct (N.eq_dec s v) as [->|Hsv]; [done|].
    rewrite lookup_insert_ne in Hs by done. apply Hmap in Hs.
    apply nth_N_bound in Hs. rewrite <- Hr in Hs. lia.
Qed.

Lemma query_step_graph_exact (q : Z) (g g' : CGraph) :
  query_step g g' -> graph_exact q g -> graph_exact q g'.
Proof.
  intros Hstep Hg. pose proof Hg as (Hok & Hsize & Hexact & Hsound).
  pose proof (query_step_same_graph _ _ Hstep) as (Ho & _ & _ & Hm & _).
  split; [by apply (query_step_graph_ok g)|]. rewrite Hm, Ho. do 2 (split; [done|]).
  assert (forall s e p b, choose_tree g s e p = Ok (b, g') -> cache_exact q g') as Hchoose.
  { intros s e p b H.
    apply choose_tree_Ok in H as [(_&_&->)|[(_&_&_&->)|(_&_&_&k&H)]]; try done.
    by apply (InternalDijkstra_cache_exact q g g' _ k Hg H). }
  destruct Hstep as [s e p [d route] H|s e p a H|w k' H].
  - apply ShortestDistance_Ok in H as (i_s & i_e & iroute & _ & _ & H & _).
    apply InternalShortestDistance_Ok in H as (b & H & _). by apply Hchoose in H.
  - apply InternalShortestDistance_Ok in H as (b & H & _). by apply Hchoose in H.
  - by apply (InternalDijkstra_cache_exact q g g' w k' Hg H).
Qed.

Lemma later_graph_exact (q : Z) (g g' : CGraph) :
  later g g' -> graph_exact q g -> graph_exact q g'.
Proof.
  induction 1 as [g|g1 g2 g3 Hstep _ IH]; [done|].
  intros Hg. apply IH. by apply (query_step_graph_exact q g1).
Qed.

Lemma constructed_graph_exact (q : Z) (dm : list (list float)) (labels : list N)
    (g0 g : CGraph) :
  CGraph_new dm labels = Ok g0 -> exact_sums q dm = true -> later g0 g ->
  graph_exact q g.
Proof.
  intros Hnew Hexact Hlater. apply (later_graph_exact q g0); [done|].
  destruct (CGraph_new_Ok _ _ _ Hnew) as (_&Ho&_&Hm&_&_&Hmap&_).
  split; [by apply (CGraph_new_graph_ok dm labels)|]. rewrite Hm, Ho.
  do 2 (split; [done|]).
  intros s k parents dists (Hs & _). rewrite Hmap in Hs. by rewrite lookup_empty in Hs.
Qed.

(** ** A tree depends on the matrices only *)

Lemma dijkstra_while_same_graph (g g' : CGraph) :
  same_graph g g' ->
  forall fuel st, dijkstra_while fuel g' st = dijkstra_while fuel g st.
Proof.
  intros (Ho & _ & _ & Hm & Ha).
  assert (forall st, dijkstra_round g' st = dijkstra_round g st) as Hround.
  { intros st. destruct g, g'. simpl in *. subst. reflexivity. }
  induction fuel as [|fuel IH]; intros st; simpl; [done|].
  rewrite Hround. destruct (dijkstra_round g st) as [[st1 more]| |]; simpl; try done.
  by rewrite IH.
Qed.

Lemma run_tree_same_graph (g g' : CGraph) (v : N) :
  same_graph g g' -> run_tree g' v = run_tree g v.
Proof.
  intros Hsame. unfold run_tree. pose proof Hsame as (Ho & _ & _ & Hm & Ha).
  assert (dijkstra_init g' v = dijkstra_init g v) as ->.
  { destruct g, g'. simpl in *. subst. reflexivity. }
  rewrite Ho. destruct (dijkstra_init g v); simpl; try done.
  by apply dijkstra_while_same_graph.
Qed.

Lemma InternalDijkstra_fresh_run (g g' : CGraph) (v k : N) :
  InternalDijkstra g v = Ok (k, g') ->
  m_DijkstraStartVertices g !! v = None ->
  exists st, g' = save_results g v st /\ run_tree g v = Ok st.
Proof.
  intros Hrun Hnone. unfold InternalDijkstra in Hrun.
  destruct (N.leb_spec (m_Order g) v) as [Hv|Hv]; [discriminate|].
  rewrite Hnone in Hrun.
  apply bind_Ok in Hrun as [st0 [Hinit Hrun]]. apply bind_Ok in Hrun as [st [Hwhile Hrun]].
  injection Hrun as <- <-. exists st. split; [done|].
  unfold run_tree. by rewrite Hinit.
Qed.

Lemma InternalDijkstra_cache_determined (g0 g g' : CGraph) (v k : N) :
  graph_ok g -> same_graph g0 g -> cache_determined g0 g ->
  InternalDijkstra g v = Ok (k, g') -> cache_determined g0 g'.
Proof.
  intros [Hwf Hcache] Hsame Hdet Hrun.
  pose proof (InternalDijkstra_Ok _ _ _ _ Hrun) as [Hv [[_ ->]|(Hnone & _ & _)]]; [done|].
  pose proof (new_slot_eq g v Hwf Hcache Hv Hnone) as Hslot.
  destruct (InternalDijkstra_fresh_run _ _ _ _ Hrun Hnone) as (st & -> & Htree).
  rewrite (run_tree_same_graph g0 g v Hsame) in Htree.
  intros s ks parents dists (Hs & Hparents & Hdists). simpl in Hs, Hparents, Hdists.
  destruct Hcache as (roots & Hmap & Hr & Hd & Hslots).
  apply nth_N_snoc in Hparents as [Hparents|[Hks ->]];
    apply nth_N_snoc in Hdists as [Hdists|[Hks' ->]].
  - destruct (N.eq_dec s v) as [->|Hsv].
    + rewrite lookup_insert_eq in Hs. injection Hs as <-.
      apply nth_N_bound in Hparents. rewrite Hslot in Hparents. lia.
    + rewrite lookup_insert_ne in Hs by done. by apply (Hdet s ks).
  - apply nth_N_bound in Hparents. rewrite Hr, <- Hd in Hparents. lia.
  - apply nth_N_bound in Hdists. rewrite Hd, <- Hr in Hdists. lia.
  - destruct (N.eq_dec s v) as [->|Hsv]; [eauto|].
    rewrite lookup_insert_ne in Hs by done. apply Hmap in Hs.
    apply nth_N_bound in Hs. rewrite <- Hr in Hs. lia.
Qed.

Lemma query_step_cache_determined (g0 g g' : CGraph) :
  query_step g g' -> graph_ok g -> same_graph g0 g -> cache_determined g0 g ->
  cache_determined g0 g'.
Proof.
  intros Hstep Hok Hsame Hdet.
  assert (forall s e p b, choose_tree g s e p = Ok (b, g') -> cache_determined g0 g')
    as Hchoose.
  { intros s e p b H.
    apply choose_tree_Ok in H as [(_&_&->)|[(_&_&_&->)|(_&_&_&k&H)]]; try done.
    by apply (InternalDijkstra_cache_determined g0 g g' _ k Hok Hsame Hdet H). }
  destruct Hstep as [s e p [d route] H|s e p a H|w k' H].
  - apply ShortestDistance_Ok in H as (i_s & i_e & iroute & _ & _ & H & _).
    apply InternalShortestDistance_Ok in H as (b & H & _). by apply Hchoose in H.
  - apply InternalShortestDistance_Ok in H as (b & H & _). by apply Hchoose in H.
  - by apply (InternalDijkstra_cache_determined g0 g g' w k' Hok Hsame Hdet H).
Qed.

Lemma later_cache_determined (g0 g g' : CGraph) :
  later g g' -> graph_ok g -> same_graph g0 g -> cache_determined g0 g ->
  cache_determined g0 g'.
Proof.
  induction 1 as [g|g1 g2 g3 Hstep _ IH]; [done|].
  intros Hok Hsame Hdet. apply IH.
  - by apply (query_step_graph_ok g1).
  - apply (same_graph_trans g0 g1 g2); [done|]. by apply query_step_same_graph.
  - by apply (query_step_cache_determined g0 g1 g2).
Qed.

(** In whatever states of the cache, two trees with the same root are the
    same tree. *)
Lemma trees_of_one_root_agree (dm : list (list float)) (labels : list N)
    (g0 g1 g2 : CGraph) (s k1 k2 : N) parents1 dists1 parents2 dists2 :
  CGraph_new dm labels = Ok g0 -> later g0 g1 -> later g0 g2 ->
  slot_at g1 s k1 parents1 dists1 -> slot_at g2 s k2 parents2 dists2 ->
  parents1 = parents2 /\ dists1 = dists2.
Proof.
  intros Hnew H1 H2 Hs1 Hs2.
  assert (cache_determined g0 g0) as Hdet0.
  { destruct (CGraph_new_Ok _ _ _ Hnew) as (_&_&_&_&_&_&Hmap&_).
    intros s' k parents dists (Hs & _). rewrite Hmap in Hs. by rewrite lookup_empty in Hs. }
  pose proof (CGraph_new_graph_ok _ _ _ Hnew) as Hok.
  pose proof (later_cache_determined g0 g0 g1 H1 Hok (same_graph_refl g0) Hdet0) as Hd1.
  pose proof (later_cache_determined g0 g0 g2 H2 Hok (same_graph_refl g0) Hdet0) as Hd2.
  destruct (Hd1 _ _ _ _ Hs1) as (st1 & Hrun1 & <- & <-).
  destruct (Hd2 _ _ _ _ Hs2) as (st2 & Hrun2 & <- & <-).
  assert (st1 = st2) as -> by congruence. done.
Qed.

(** ** The two directions of a query *)

(** An edge followed by a path is a path. *)
Lemma reaches_first (g : CGraph) (u v w : N) :
  mat_get (m_AdjacencyMatrix g) u v = Ok true -> reaches g v w -> reaches g u w.
Proof.
  intros Hedge Hreach. induction Hreach as [v|v x w _ IH Hstep].
  - apply (reaches_step g u u v); [apply reaches_refl|done].
  - apply (reaches_step g u x w); [by apply IH|done].
Qed.

(** In a graph with a symmetric matrix, paths can be taken backwards. *)
Lemma reaches_back (g : CGraph) (u w : N) :
  graph_wf g -> vec_size (m_DistanceMatrix g) = m_Order g ->
  symmetric (m_DistanceMatrix g) ->
  u < m_Order g -> reaches g u w -> reaches g w u.
Proof.
  intros Hwf Hsize Hsym Hu Hreach. induction Hreach as [u|u v w Hreach IH Hstep].
  - apply reaches_refl.
  - specialize (IH Hu). apply (reaches_first g w v u); [|done].
    destruct (adjacent_is_vertex g v w true Hwf Hstep) as [Hv Hw].
    destruct (wf_adj g Hwf v w Hv Hw) as (x & Hx & Hadj).
    destruct (wf_adj g Hwf w v Hw Hv) as (y & Hy & Hadj').
    rewrite Hadj'. rewrite Hadj in Hstep. injection Hstep as Hstep.
    rewrite Hsym in Hx by lia. assert (y = x) as -> by congruence.
    unfold is_edge in *. apply andb_true_iff in Hstep as [-> Hne]. simpl.
    rewrite N.eqb_sym. by rewrite Hne.
Qed.

(** What a query that returned has read: the stored distance of the other
    endpoint in the tree of the root. *)
Lemma query_reads_a_distance (g g' : CGraph) (s e : N) (p : bool) (d : float)
    (route : list N) :
  graph_sound g ->
  InternalShortestDistance g s e p = Ok (d, route, g') ->
  exists k parents dists,
    same_graph g g'
    /\ slot_at g' (root_of_query g s e p) k parents dists
    /\ nth_N dists (if fromStartVertex g s e p then e else s) = Some d
    /\ (if fromStartVertex g s e p then e else s) < m_Order g
    /\ (s <> e -> ge_zero d = true).
Proof.
  intros Hsound Hq.
  pose proof (query_returned_reaches g g' s e p (d, route) Hsound Hq) as Hreach.
  destruct (query_reads_a_tree g g' _ _ _ d route Hsound Hq)
    as (k & parents & dists & up & _ & Hsame & Hroot & Hslot & Htree & Htsound & _ & Hd & _).
  unfold root_of_query.
  set (root := if fromStartVertex g s e p then s else e) in *.
  set (other := if fromStartVertex g s e p then e else s) in *.
  assert (other < m_Order g') as Hother.
  { destruct Htree as (_ & <- & _). by apply nth_N_bound in Hd. }
  exists k, parents, dists. do 3 (split; [done|]). split.
  { destruct Hsame as (<- & _). done. }
  intros Hse.
  assert (other <> root) as Hne.
  { unfold other, root. destruct (fromStartVertex g s e p); congruence. }
  destruct (Htsound other Hother Hne) as (d' & p' & Hd' & _ & Hcase).
  assert (d' = d) as -> by congruence.
  destruct Hcase as [(_ & _ & Hnot)|(Hpos & _)]; [|done].
  exfalso. apply Hnot. by apply (reaches_same_graph_iff g g').
Qed.

(** Two trees with the same root, read at the same vertex, give the same
    distance, whatever the two graphs have been asked since they were
    constructed. *)
Lemma one_root_one_distance (dm : list (list float)) (labels : list N)
    (g0 g1 g2 : CGraph) (root other k1 k2 : N) parents1 dists1 parents2 dists2 d1 d2 :
  CGraph_new dm labels = Ok g0 -> later g0 g1 -> later g0 g2 ->
  slot_at g1 root k1 parents1 dists1 -> slot_at g2 root k2 parents2 dists2 ->
  nth_N dists1 other = Some d1 -> nth_N dists2 other = Some d2 ->
  d1 = d2.
Proof.
  intros Hnew H1 H2 Hs1 Hs2 Hd1 Hd2.
  destruct (trees_of_one_root_agree _ _ _ _ _ _ _ _ _ _ _ _ Hnew H1 H2 Hs1 Hs2) as [_ ->].
  congruence.
Qed.

(** With a symmetric matrix and no rounded sum, the tree of [u] gives [w]
    the distance that the tree of [w] gives [u]. *)
Lemma two_roots_one_distance (q : Z) (dm : list (list float)) (labels : list N)
    (g0 g1 g2 : CGraph) (u w k1 k2 : N) parents1 dists1 parents2 dists2 d1 d2 :
  CGraph_new dm labels = Ok g0 -> symmetric dm -> exact_sums q dm = true ->
  later g0 g1 -> later g0 g2 ->
  u <> w -> u < m_Order g0 -> w < m_Order g0 ->
  slot_at g1 u k1 parents1 dists1 -> slot_at g2 w k2 parents2 dists2 ->
  nth_N dists1 w = Some d1 -> nth_N dists2 u = Some d2 ->
  ge_zero d1 = true -> ge_zero d2 = true ->
  d1 = d2.
Proof.
  intros Hnew Hsym Hexact H1 H2 Hne Hu Hw Hs1 Hs2 Hd1 Hd2 Hp1 Hp2.
  destruct (CGraph_new_Ok _ _ _ Hnew) as (_ & Horder & _ & Hdm & _).
  destruct (CGraph_new_inv _ _ _ Hnew) as (_ & Hrows & _).
  pose proof (all_rows_of_length_dims _ _ eq_refl Hrows) as [_ Hcols].
  destruct (later_same_graph _ _ H1) as (Ho1 & _ & _ & Hm1 & _).
  destruct (later_same_graph _ _ H2) as (Ho2 & _ & _ & Hm2 & _).
  destruct (constructed_graph_exact q _ _ _ _ Hnew Hexact H1) as (_ & _ & _ & Hc1).
  destruct (constructed_graph_exact q _ _ _ _ Hnew Hexact H2) as (_ & _ & _ & Hc2).
  destruct (Hc1 _ _ _ _ Hs1 w d1) as (z1 & Hz1 & Hwalk1 & Hleast1);
    [lia|done|done|by apply ge_zero_not_minus_one|].
  destruct (Hc2 _ _ _ _ Hs2 u d2) as (z2 & Hz2 & Hwalk2 & Hleast2);
    [lia|done|done|by apply ge_zero_not_minus_one|].
  rewrite Hm1, Hdm in Hwalk1, Hleast1. rewrite Hm2, Hdm in Hwalk2, Hleast2.
  pose proof (Hleast1 _ (walk_back _ _ _ _ _ Hsym Hcols Hwalk2)).
  pose proof (Hleast2 _ (walk_back _ _ _ _ _ Hsym Hcols Hwalk1)).
  assert (z1 = z2) as -> by lia.
  by apply (units_inj q d1 d2 z2).
Qed.

(** A query between two different registered vertices that are connected
    returns. *)
Lemma connected_query_returns (dm : list (list float)) (labels : list N) (g0 g : CGraph)
    (s e i_s i_e : N) (p : bool) :
  CGraph_new dm labels = Ok g0 -> later g0 g ->
  ExternalToInternal g s = Ok i_s -> ExternalToInternal g e = Ok i_e ->
  i_s <> i_e ->
  reaches g (if fromStartVertex g i_s i_e p then i_s else i_e)
            (if fromStartVertex g i_s i_e p then i_e else i_s) ->
  exists d route g', ShortestDistance g s e p = Ok (d, route, g').
Proof.
  intros Hnew Hlater Hs He Hne Hreach.
  pose proof (constructed_graph_sound _ _ _ _ Hnew Hlater) as Hsound.
  destruct (constructed_labels _ _ _ _ Hnew Hlater) as (Horder & Hlabels & _).
  destruct (constructed_registered _ _ _ _ _ _ Hnew Hlater Hs) as [Hso _].
  destruct (constructed_registered _ _ _ _ _ _ Hnew Hlater He) as [Heo _].
  unfold ShortestDistance. rewrite Hs, He. simpl.
  destruct (query_answered g _ _ p Hsound Hso Heo Hne Hreach) as (d & route & g' & Hq).
  rewrite Hq. simpl.
  destruct (route_facts g g' _ _ _ d route Hsound Hq) as (_ & _ & _ & Hall & _).
  pose proof (step_InternalShortestDistance g g' _ _ _ _ Hq) as Hstep.
  pose proof (query_step_same_graph _ _ Hstep) as (_ & Hl & _).
  destruct (InternalToExternal_all_total g' route) as (ls & Hls & _).
  { rewrite Hl, Hlabels, <- Horder. done. }
  rewrite Hls. simpl. eauto.
Qed.

(** The labels of a graph stay what the constructor made them. *)
Lemma later_ExternalToInternal (g0 g : CGraph) (l : N) :
  later g0 g -> ExternalToInternal g l = ExternalToInternal g0 l.
Proof.
  intros H. destruct (later_same_graph _ _ H) as (_ & _ & Hmap & _).
  unfold ExternalToInternal. by rewrite Hmap.
Qed.

(** The two opposite queries, on a graph with a symmetric matrix. *)
Lemma opposite_queries_agree (q : Z)
    (distanceMatrix : list (list float)) (vertexLabels : list N) (g0 g1 g2 : CGraph)
    (s t i_s i_t : N) (p1 p2 : bool) :
  CGraph_new distanceMatrix vertexLabels = Ok g0 ->
  symmetric distanceMatrix ->
  later g0 g1 -> later g0 g2 ->
  ExternalToInternal g0 s = Ok i_s -> ExternalToInternal g0 t = Ok i_t ->
  forall d1 route1 g1' d2 route2 g2',
    ShortestDistance g1 s t p1 = Ok (d1, route1, g1') ->
    ShortestDistance g2 t s p2 = Ok (d2, route2, g2') ->
    exact_sums q distanceMatrix = true
    \/ root_of_query g1 i_s i_t p1 = root_of_query g2 i_t i_s p2 ->
    d1 = d2 /\ (i_s <> i_t -> ge_zero d1 = true).
Proof.
  intros Hnew Hsym Hl1 Hl2 Hs Ht d1 route1 g1' d2 route2 g2' Hq1 Hq2 Hcase.
  pose proof (step_ShortestDistance _ _ _ _ _ _ Hq1) as Hstep1.
  pose proof (step_ShortestDistance _ _ _ _ _ _ Hq2) as Hstep2.
  assert (later g0 g1') as Hl1' by (eapply rtc_r; [exact Hl1|exact Hstep1]).
  assert (later g0 g2') as Hl2' by (eapply rtc_r; [exact Hl2|exact Hstep2]).
  apply ShortestDistance_Ok in Hq1 as (a & b & iroute1 & Ha & Hb & Hq1 & _).
  rewrite (later_ExternalToInternal g0 g1) in Ha, Hb by done.
  assert (a = i_s) as -> by congruence. assert (b = i_t) as -> by congruence.
  apply ShortestDistance_Ok in Hq2 as (a & b & iroute2 & Ha' & Hb' & Hq2 & _).
  rewrite (later_ExternalToInternal g0 g2) in Ha', Hb' by done.
  assert (a = i_t) as -> by congruence. assert (b = i_s) as -> by congruence.
  destruct (query_reads_a_distance _ _ _ _ _ _ _
              (constructed_graph_sound _ _ _ _ Hnew Hl1) Hq1)
    as (k1 & parents1 & dists1 & Hsame1 & Hslot1 & Hd1 & Ho1 & Hpos1).
  destruct (query_reads_a_distance _ _ _ _ _ _ _
              (constructed_graph_sound _ _ _ _ Hnew Hl2) Hq2)
    as (k2 & parents2 & dists2 & Hsame2 & Hslot2 & Hd2 & Ho2 & Hpos2).
  destruct (later_same_graph _ _ Hl1) as (Hord1 & _).
  destruct (later_same_graph _ _ Hl2) as (Hord2 & _).
  destruct (constructed_registered _ _ g0 g0 _ _ Hnew (rtc_refl _ _) Hs) as [Hsb _].
  destruct (constructed_registered _ _ g0 g0 _ _ Hnew (rtc_refl _ _) Ht) as [Htb _].
  split; [|exact Hpos1].
  unfold root_of_query in *.
  destruct (N.eq_dec (if fromStartVertex g1 i_s i_t p1 then i_s else i_t)
                     (if fromStartVertex g2 i_t i_s p2 then i_t else i_s)) as [Hroot|Hroot].
  - rewrite <- Hroot in Hslot2.
    apply (one_root_one_distance _ _ _ _ _ _ _ _ _ _ _ _ _ _ _ Hnew Hl1' Hl2' Hslot1 Hslot2 Hd1).
    destruct (fromStartVertex g1 i_s i_t p1), (fromStartVertex g2 i_t i_s p2);
      subst; done.
  - destruct Hcase as [Hexact|Hsame]; [|done].
    assert (i_s <> i_t) as Hne.
    { intros ->. apply Hroot.
      by destruct (fromStartVertex g1 i_t i_t p1), (fromStartVertex g2 i_t i_t p2). }
    assert (i_t <> i_s) as Hne' by congruence.
    destruct (fromStartVertex g1 i_s i_t p1), (fromStartVertex g2 i_t i_s p2);
      try done.
    + apply (two_roots_one_distance q _ _ _ _ _ i_s i_t k1 k2 parents1 dists1
               parents2 dists2 d1 d2 Hnew Hsym Hexact Hl1' Hl2'); auto.
    + apply (two_roots_one_distance q _ _ _ _ _ i_t i_s k1 k2 parents1 dists1
               parents2 dists2 d1 d2 Hnew Hsym Hexact Hl1' Hl2'); auto.
Qed.

Lemma eqb_refl_ge_zero (x : float) : ge_zero x = true -> PrimFloat.eqb x x = true.
Proof.
  rewrite ge_zero_nonneg, FloatAxioms.eqb_spec. intros H. unfold SFeqb.
  rewrite SFcompare_refl; [done|]. intros Hnan. by rewrite Hnan in H.
Qed.

(** Both opposite queries return when the two vertices are connected. *)
Lemma opposite_queries_return
    (distanceMatrix : list (list float)) (vertexLabels : list N) (g0 g1 g2 : CGraph)
    (s t i_s i_t : N) (p1 p2 : bool) :
  CGraph_new distanceMatrix vertexLabels = Ok g0 ->
  symmetric distanceMatrix ->
  later g0 g1 -> later g0 g2 ->
  ExternalToInternal g0 s = Ok i_s -> ExternalToInternal g0 t = Ok i_t ->
  i_s <> i_t -> reaches g0 i_s i_t ->
  exists d1 route1 g1' d2 route2 g2',
    ShortestDistance g1 s t p1 = Ok (d1, route1, g1')
    /\ ShortestDistance g2 t s p2 = Ok (d2, route2, g2').
Proof.
  intros Hnew Hsym Hl1 Hl2 Hs Ht Hne Hreach.
  destruct (CGraph_new_Ok _ _ _ Hnew) as (_ & Horder & _ & Hdm & _ & _ & _ & _ & _ & Hwf).
  destruct (constructed_registered _ _ g0 g0 _ _ Hnew (rtc_refl _ _) Hs) as [Hsb _].
  destruct (constructed_registered _ _ g0 g0 _ _ Hnew (rtc_refl _ _) Ht) as [Htb _].
  assert (reaches g0 i_t i_s) as Hback.
  { apply reaches_back; try done; rewrite Hdm; done. }
  destruct (connected_query_returns _ _ g0 g1 s t i_s i_t p1 Hnew Hl1)
    as (d1 & route1 & g1' & Hq1); try done.
  { by rewrite (later_ExternalToInternal g0 g1). }
  { by rewrite (later_ExternalToInternal g0 g1). }
  { apply (reaches_same_graph_iff g0 g1); [by apply later_same_graph|].
    by destruct (fromStartVertex g1 i_s i_t p1). }
  destruct (connected_query_returns _ _ g0 g2 t s i_t i_s p2 Hnew Hl2)
    as (d2 & route2 & g2' & Hq2); try done.
  { by rewrite (later_ExternalToInternal g0 g2). }
  { by rewrite (later_ExternalToInternal g0 g2). }
  { apply (reaches_same_graph_iff g0 g2); [by apply later_same_graph|].
    by destruct (fromStartVertex g2 i_t i_s p2). }
  exists d1, route1, g1', d2, route2, g2'. done.
Qed.

Lemma symmetric_path_matrix : symmetric Scenario.path_matrix.
Proof.
  intros i j Hi Hj. change (vec_size Scenario.path_matrix) with 4 in *.
  assert (i = 0 \/ i = 1 \/ i = 2 \/ i = 3) as Hi' by lia.
  assert (j = 0 \/ j = 1 \/ j = 2 \/ j = 3) as Hj' by lia.
  destruct Hi' as [->|[->|[->| ->]]]; destruct Hj' as [->|[->|[->| ->]]]; reflexivity.
Qed.


